(** * A model of [vector.h]: [RawMemory<T>] and [Vector<T>]

    The two class templates of [src/advanced-vector/vector.h] are embedded
    as programs of a small state-and-exception monad over an explicit store:

    - the free store maps block identifiers to arrays of cells; a cell is
      either raw storage or holds a live object of the element type;
    - [Vector] objects live in an object store and are named by their
      address ([this]), so that [this != &rhs] can be evaluated;
    - every operation of the element type that may throw consults an
      oracle, indexed by a clock that counts such operations;
    - [assert] is active unless the build defines [NDEBUG].

    Outcomes separate a normal return, a propagating exception, and the
    fatal ends of a program (failed assertion, [std::terminate], undefined
    behaviour such as reading raw storage).

    A block is an array of cells, one per element. Counts are natural
    numbers, and the two products the code takes of them wrap as a
    [size_t] does: [size_ * 2] in [Emplace], and the byte count
    [n * sizeof(T)] in [Allocate], so that a request that wraps yields a
    block with fewer cells than were asked for. What the model leaves out:
    an operation of the element type that throws leaves its operands as
    they were. *)

From Stdlib Require Import NArith Lia.
From stdpp Require Import base option list gmap.

Set Default Proof Using "Type".

(** ** Cells, pointers, records *)

Inductive cell (T : Type) : Type :=
| Raw
| Live (x : T).
Arguments Raw {T}.
Arguments Live {T} x.

Definition is_live {T} (c : cell T) : bool :=
  match c with Live _ => true | Raw => false end.

(** [T*]: the block a pointer points into ([None] for [nullptr]) and the
    element offset inside it. *)
Record ptr : Type := Ptr { p_base : option nat; p_off : nat }.

Definition nullptr : ptr := Ptr None 0.

Definition ptr_add (p : ptr) (n : nat) : ptr := Ptr (p_base p) (p_off p + n).

Definition same_base (p q : ptr) : bool :=
  bool_decide (p_base p = p_base q).

(** [p <= q] and [p == q]; pointers into different blocks compare false. *)
Definition ptr_le (p q : ptr) : bool := same_base p q && (p_off p <=? p_off q).
Definition ptr_lt (p q : ptr) : bool := same_base p q && (p_off p <? p_off q).
Definition ptr_eqb (p q : ptr) : bool := same_base p q && (p_off p =? p_off q).

Record RawMemory : Type := MkRawMemory { buffer_ : option nat; capacity_ : nat }.

Record Vector : Type := MkVector { data_ : RawMemory; size_ : nat }.

(** [size_t] products wrap modulo [2^64]. *)
Definition size_modulus : N := (2 ^ 64)%N.

Definition size_t_mul (a b : nat) : nat :=
  N.to_nat ((N.of_nat a * N.of_nat b) mod size_modulus).

(** [sizeof(T)], the size of an element in bytes; it is at least 1. *)
Class SizeOf (T : Type) : Type := sizeof : positive.
Arguments sizeof T {_}.

(** The number of cells in the block that [operator new(n * sizeof(T))]
    returns: the product is taken in [size_t], and a block of that many
    bytes has room for that many bytes divided by [sizeof(T)] elements. *)
Definition alloc_cells {T : Type} {sT : SizeOf T} (n : nat) : nat :=
  N.to_nat (((N.of_nat n * Npos (sizeof T)) mod size_modulus) / Npos (sizeof T)).

(** The byte count of [n] elements does not wrap. *)
Definition alloc_fits {T : Type} {sT : SizeOf T} (n : nat) : Prop :=
  (N.of_nat n * Npos (sizeof T) < size_modulus)%N.

(** ** The element type and the execution environment *)

Inductive op : Type :=
| OpAlloc        (* operator new *)
| OpCtor         (* T(args...) *)
| OpDefault      (* T() *)
| OpCopyCtor     (* T(const T&) *)
| OpMoveCtor     (* T(T&&) *)
| OpCopyAssign   (* operator=(const T&) *)
| OpMoveAssign.  (* operator=(T&&) *)

Record env (T : Type) : Type := Env {
  moved_from : T → T;                     (* value left behind by a move *)
  value_initialized : T;                  (* value of T() *)
  is_nothrow_move_constructible : bool;
  is_copy_constructible : bool;
  is_nothrow_move_assignable : bool;
  ndebug : bool;                          (* NDEBUG: assert compiled out *)
  throws : op → nat → bool                (* does the n-th operation throw *)
}.
Arguments moved_from {T} _ _.
Arguments value_initialized {T} _.
Arguments is_nothrow_move_constructible {T} _.
Arguments is_copy_constructible {T} _.
Arguments is_nothrow_move_assignable {T} _.
Arguments ndebug {T} _.
Arguments throws {T} _ _ _.

Inductive fatal : Type := AssertionFailed | Terminate | Undefined.

Inductive outcome (A : Type) : Type :=
| Ret (a : A)
| Throw
| Fatal (f : fatal).
Arguments Ret {A} a.
Arguments Throw {A}.
Arguments Fatal {A} f.

Section Monad.
Context {T : Type}.

Record world : Type := World {
  heap : gmap nat (list (cell T));   (* free store: block -> cells *)
  objs : gmap nat Vector;            (* Vector objects by address *)
  leaked : nat;                      (* live objects in released blocks *)
  clock : nat                        (* operations that consulted [throws] *)
}.

Definition set_heap (h : gmap nat (list (cell T))) (w : world) : world :=
  World h (objs w) (leaked w) (clock w).
Definition set_objs (o : gmap nat Vector) (w : world) : world :=
  World (heap w) o (leaked w) (clock w).
Definition set_leaked (n : nat) (w : world) : world :=
  World (heap w) (objs w) n (clock w).
Definition set_clock (n : nat) (w : world) : world :=
  World (heap w) (objs w) (leaked w) n.

(** ** The monad *)

Definition M (A : Type) : Type := world → outcome A * world.

Definition ret {A} (a : A) : M A := fun w => (Ret a, w).

Definition bind {A B} (m : M A) (k : A → M B) : M B :=
  fun w =>
    match m w with
    | (Ret a, w') => k a w'
    | (Throw, w') => (Throw, w')
    | (Fatal f, w') => (Fatal f, w')
    end.

Definition throw {A} : M A := fun w => (Throw, w).
Definition abort {A} (f : fatal) : M A := fun w => (Fatal f, w).

(** [try { body } catch (...) { handler }] *)
Definition try_catch {A} (body handler : M A) : M A :=
  fun w =>
    match body w with
    | (Throw, w') => handler w'
    | r => r
    end.

(** Stack unwinding through a scope: [cleanup] stands for the destructors
    of the locals of the scope, run while the exception propagates. *)
Definition unwinding {A} (cleanup : M unit) (body : M A) : M A :=
  try_catch body (bind cleanup (fun _ => throw)).

(** A function declared [noexcept(b)]: an exception that would leave it
    ends the program. *)
Definition noexcept {A} (b : bool) (body : M A) : M A :=
  if b then try_catch body (abort Terminate) else body.

End Monad.
Arguments world T : clear implicits.
Arguments M T A : clear implicits.

Declare Scope vm_scope.
Delimit Scope vm_scope with vm.
Notation "x ← y ; z" := (bind y (fun x => z))
  (at level 20, y at level 100, z at level 200, only parsing) : vm_scope.
Notation "x ;; z" := (bind x (fun _ => z))
  (at level 100, z at level 200, only parsing, right associativity) : vm_scope.
Local Open Scope vm_scope.

Section Model.
Context {T : Type} {sT : SizeOf T} (E : env T).

Local Abbreviation world := (world T).
Local Abbreviation M := (M T).

(** ** Primitive steps *)

(** [assert(b)] *)
Definition assert_ (b : bool) : M unit :=
  if ndebug E then ret tt else if b then ret tt else abort AssertionFailed.

(** Operations declared noexcept by the element type's traits. *)
Definition op_noexcept (k : op) : bool :=
  match k with
  | OpMoveCtor => is_nothrow_move_constructible E
  | OpMoveAssign => is_nothrow_move_assignable E
  | _ => false
  end.

(** One operation of kind [k] is attempted: the clock advances, and the
    oracle says whether the operation throws. An exception inside an
    operation that is noexcept ends the program. *)
Definition tick (k : op) : M unit :=
  fun w =>
    let w' := set_clock (S (clock w)) w in
    if throws E k (clock w)
    then (if op_noexcept k then Fatal Terminate else Throw, w')
    else (Ret tt, w').

Definition get_cell (p : ptr) : M (cell T) :=
  fun w =>
    match p_base p with
    | Some b =>
        match heap w !! b with
        | Some cells =>
            match cells !! p_off p with
            | Some c => (Ret c, w)
            | None => (Fatal Undefined, w)
            end
        | None => (Fatal Undefined, w)
        end
    | None => (Fatal Undefined, w)
    end.

Definition put_cell (p : ptr) (c : cell T) : M unit :=
  fun w =>
    match p_base p with
    | Some b =>
        match heap w !! b with
        | Some cells =>
            if p_off p <? length cells
            then (Ret tt, set_heap (<[b := <[p_off p := c]> cells]> (heap w)) w)
            else (Fatal Undefined, w)
        | None => (Fatal Undefined, w)
        end
    | None => (Fatal Undefined, w)
    end.

(** Read the object at [p]; raw storage holds no object. *)
Definition load (p : ptr) : M T :=
  c ← get_cell p;
  match c with Live x => ret x | Raw => abort Undefined end.

(** Overwrite the value of the live object at [p]. *)
Definition store (p : ptr) (x : T) : M unit :=
  _ ← load p; put_cell p (Live x).

(** Begin the lifetime of an object in the raw cell at [p]. *)
Definition emplace_raw (p : ptr) (x : T) : M unit :=
  c ← get_cell p;
  match c with Raw => put_cell p (Live x) | Live _ => abort Undefined end.

(** [p - n] and [p - q] *)
Definition ptr_minus (p : ptr) (n : nat) : M ptr :=
  if n <=? p_off p then ret (Ptr (p_base p) (p_off p - n)) else abort Undefined.

Definition ptr_diff (p q : ptr) : M nat :=
  if same_base p q && (p_off q <=? p_off p)
  then ret (p_off p - p_off q) else abort Undefined.

(** ** Operations of the element type *)

(** Where a constructor or assignment takes its operand from: an object
    outside the modelled store, or a cell of it. *)
Inductive operand : Type :=
| Ext (x : T)
| Cell (q : ptr).

Definition read_operand (s : operand) : M T :=
  match s with Ext x => ret x | Cell q => load q end.

Definition mark_moved (s : operand) (x : T) : M unit :=
  match s with Ext _ => ret tt | Cell q => store q (moved_from E x) end.

(** The argument pack of [Emplace]: arbitrary constructor arguments that
    yield the value [v], or one [const T&], or one [T&&]. *)
Inductive ctor_args : Type :=
| Args (v : T)
| CopyOf (s : operand)
| MoveOf (s : operand).

(** Run the constructor selected by the arguments; the result is the value
    of the new object. A move leaves its source moved-from. *)
Definition run_ctor (a : ctor_args) : M T :=
  match a with
  | Args v => tick OpCtor ;; ret v
  | CopyOf s => x ← read_operand s; tick OpCopyCtor ;; ret x
  | MoveOf s => x ← read_operand s; tick OpMoveCtor ;; mark_moved s x ;; ret x
  end.

(** [*p = *q;] for the operand [q] *)
Definition copy_assign (p : ptr) (s : operand) : M unit :=
  x ← read_operand s; _ ← load p; tick OpCopyAssign ;; store p x.

(** [*p = std::move(x);] where [x] is the operand *)
Definition move_assign (p : ptr) (s : operand) : M unit :=
  x ← read_operand s; _ ← load p; tick OpMoveAssign ;;
  store p x ;; mark_moved s x.

(** [p->~T()] *)
Definition Destroy (p : ptr) : M unit :=
  _ ← load p; put_cell p Raw.

(** [new (p) T(args...)] *)
Definition Construct (p : ptr) (a : ctor_args) : M unit :=
  c ← get_cell p;
  match c with
  | Raw => x ← run_ctor a; emplace_raw p x
  | Live _ => abort Undefined
  end.

(** ** Algorithms of the standard library

    These come with the toolchain, not with the repository; they follow
    the C++ standard: the uninitialized algorithms destroy what they have
    constructed when a construction throws, and rethrow. *)

Fixpoint uninitialized_copy_n (first : ptr) (n : nat) (d_first : ptr) : M unit :=
  match n with
  | 0 => ret tt
  | S n' =>
      Construct d_first (CopyOf (Cell first)) ;;
      unwinding (Destroy d_first)
        (uninitialized_copy_n (ptr_add first 1) n' (ptr_add d_first 1))
  end.

Fixpoint uninitialized_move_n (first : ptr) (n : nat) (d_first : ptr) : M unit :=
  match n with
  | 0 => ret tt
  | S n' =>
      Construct d_first (MoveOf (Cell first)) ;;
      unwinding (Destroy d_first)
        (uninitialized_move_n (ptr_add first 1) n' (ptr_add d_first 1))
  end.

(** [new (p) T()] *)
Definition value_construct (p : ptr) : M unit :=
  c ← get_cell p;
  match c with
  | Raw => tick OpDefault ;; emplace_raw p (value_initialized E)
  | Live _ => abort Undefined
  end.

Fixpoint uninitialized_value_construct_n (first : ptr) (n : nat) : M unit :=
  match n with
  | 0 => ret tt
  | S n' =>
      value_construct first ;;
      unwinding (Destroy first)
        (uninitialized_value_construct_n (ptr_add first 1) n')
  end.

Fixpoint destroy_n (first : ptr) (n : nat) : M unit :=
  match n with
  | 0 => ret tt
  | S n' => Destroy first ;; destroy_n (ptr_add first 1) n'
  end.

Fixpoint copy_loop (first : ptr) (n : nat) (d_first : ptr) : M unit :=
  match n with
  | 0 => ret tt
  | S n' =>
      copy_assign d_first (Cell first) ;;
      copy_loop (ptr_add first 1) n' (ptr_add d_first 1)
  end.

(** [std::copy(first, last, d_first)] *)
Definition std_copy (first last d_first : ptr) : M unit :=
  n ← ptr_diff last first; copy_loop first n d_first.

Fixpoint move_loop (first : ptr) (n : nat) (d_first : ptr) : M unit :=
  match n with
  | 0 => ret tt
  | S n' =>
      move_assign d_first (Cell first) ;;
      move_loop (ptr_add first 1) n' (ptr_add d_first 1)
  end.

(** [std::move(first, last, d_first)] *)
Definition std_move (first last d_first : ptr) : M unit :=
  n ← ptr_diff last first; move_loop first n d_first.

Fixpoint move_backward_loop (n : nat) (last d_last : ptr) : M unit :=
  match n with
  | 0 => ret tt
  | S n' =>
      last' ← ptr_minus last 1;
      d_last' ← ptr_minus d_last 1;
      move_assign d_last' (Cell last') ;;
      move_backward_loop n' last' d_last'
  end.

(** [std::move_backward(first, last, d_last)] *)
Definition move_backward (first last d_last : ptr) : M unit :=
  n ← ptr_diff last first; move_backward_loop n last d_last.

(** ** RawMemory *)

Definition count_live (cells : list (cell T)) : nat :=
  length (filter (λ c, is_live c = true) cells).

(** [Allocate(n)]: [operator new(n * sizeof(T))] may throw; otherwise it
    returns a fresh block of the requested number of bytes, which is room
    for [n] raw cells unless the byte count wrapped. *)
Definition Allocate (n : nat) : M (option nat) :=
  if n =? 0 then ret None
  else
    tick OpAlloc ;;
    (fun w =>
       let b := fresh (dom (heap w)) in
       (Ret (Some b), set_heap (<[b := replicate (alloc_cells n) Raw]> (heap w)) w)).

(** [Deallocate(buf)]: objects still alive in the block are lost. *)
Definition Deallocate (buf : option nat) : M unit :=
  match buf with
  | None => ret tt
  | Some b =>
      fun w =>
        match heap w !! b with
        | Some cells =>
            (Ret tt, set_leaked (leaked w + count_live cells)
                       (set_heap (delete b (heap w)) w))
        | None => (Fatal Undefined, w)
        end
  end.

Definition RawMemory_default : RawMemory := MkRawMemory None 0.

(** [RawMemory(size_t capacity)] *)
Definition RawMemory_ctor (capacity : nat) : M RawMemory :=
  b ← Allocate capacity; ret (MkRawMemory b capacity).

(** [~RawMemory()] *)
Definition RawMemory_dtor (m : RawMemory) : M unit := Deallocate (buffer_ m).

(** [operator+(size_t offset)] *)
Definition RawMemory_plus (m : RawMemory) (offset : nat) : M ptr :=
  assert_ (offset <=? capacity_ m) ;; ret (Ptr (buffer_ m) offset).

(** [operator[](size_t index)]; the const overload forwards to it. The
    reference returned is given as the address of the cell. *)
Definition RawMemory_index (m : RawMemory) (index : nat) : M ptr :=
  assert_ (index <? capacity_ m) ;; ret (Ptr (buffer_ m) index).

Definition RawMemory_index_const (m : RawMemory) (index : nat) : M ptr :=
  RawMemory_index m index.

Definition GetAddress (m : RawMemory) : ptr := Ptr (buffer_ m) 0.

(** ** Vector: fields *)

Definition get_vec (this : nat) : M Vector :=
  fun w =>
    match objs w !! this with
    | Some v => (Ret v, w)
    | None => (Fatal Undefined, w)
    end.

Definition put_vec (this : nat) (v : Vector) : M unit :=
  fun w => (Ret tt, set_objs (<[this := v]> (objs w)) w).

Definition get_data (this : nat) : M RawMemory :=
  v ← get_vec this; ret (data_ v).

Definition set_data (this : nat) (m : RawMemory) : M unit :=
  v ← get_vec this; put_vec this (MkVector m (size_ v)).

Definition get_size (this : nat) : M nat :=
  v ← get_vec this; ret (size_ v).

Definition set_size (this : nat) (n : nat) : M unit :=
  v ← get_vec this; put_vec this (MkVector (data_ v) n).

(** [data_.Swap(new_data)] for a local [new_data]: the result is what the
    local holds afterwards. *)
Definition data_Swap (this : nat) (local : RawMemory) : M RawMemory :=
  d ← get_data this; set_data this local ;; ret d.

(** [std::swap(data_, other.data_)]: a temporary is move-constructed from
    the first, the first is move-assigned from the second, the second from
    the temporary. Move assignment of [RawMemory] skips self-assignment,
    and otherwise releases the target's block first. *)
Definition swap_data (a b : nat) : M unit :=
  tmp ← get_data a;
  set_data a RawMemory_default ;;
  (if a =? b then ret tt
   else
     cur ← get_data a; Deallocate (buffer_ cur) ;;
     mb ← get_data b; set_data a mb ;; set_data b RawMemory_default) ;;
  cur ← get_data b; Deallocate (buffer_ cur) ;;
  set_data b tmp.

(** [std::swap(size_, other.size_)] *)
Definition swap_size (a b : nat) : M unit :=
  tmp ← get_size a;
  sb ← get_size b; set_size a sb ;;
  set_size b tmp.

(** ** Vector: the public interface *)

(** [Vector()] constructs at address [this]. *)
Definition Vector_default (this : nat) : M unit :=
  put_vec this (MkVector RawMemory_default 0).

(** [void Swap(Vector& other) noexcept] *)
Definition Swap (this other : nat) : M unit :=
  noexcept true (swap_data this other ;; swap_size this other).

(** [Capacity()], [Size()] *)
Definition Capacity (this : nat) : M nat :=
  d ← get_data this; ret (capacity_ d).

Definition Size (this : nat) : M nat := get_size this.

(** [explicit Vector(size_t size)]; when the body throws, the member
    [data_] is destroyed. *)
Definition Vector_sized (this : nat) (size : nat) : M unit :=
  m ← RawMemory_ctor size;
  unwinding (RawMemory_dtor m)
    (uninitialized_value_construct_n (GetAddress m) size) ;;
  put_vec this (MkVector m size).

(** [Vector(const Vector& other)] *)
Definition Vector_copy (this other : nat) : M unit :=
  o ← get_vec other;
  m ← RawMemory_ctor (size_ o);
  unwinding (RawMemory_dtor m)
    (uninitialized_copy_n (GetAddress (data_ o)) (size_ o) (GetAddress m)) ;;
  put_vec this (MkVector m (size_ o)).

(** [Vector(Vector&& other) noexcept] *)
Definition Vector_move (this other : nat) : M unit :=
  noexcept true (Vector_default this ;; Swap this other).

Fixpoint DestroyN_loop (buf : ptr) (i : nat) (todo : nat) : M unit :=
  match todo with
  | 0 => ret tt
  | S todo' => Destroy (ptr_add buf i) ;; DestroyN_loop buf (S i) todo'
  end.

(** [static void DestroyN(T* buf, size_t n) noexcept] *)
Definition DestroyN (buf : ptr) (n : nat) : M unit :=
  noexcept true (DestroyN_loop buf 0 n).

(** [~Vector()], followed by the destructor of [data_]; the object is gone. *)
Definition Vector_dtor (this : nat) : M unit :=
  v ← get_vec this;
  DestroyN (GetAddress (data_ v)) (size_ v) ;;
  RawMemory_dtor (data_ v) ;;
  (fun w => (Ret tt, set_objs (delete this (objs w)) w)).

(** [Vector& operator=(const Vector& rhs)]; the temporary of the first
    branch is placed at a fresh address. *)
Definition copy_assignment (this rhs : nat) : M unit :=
  if negb (this =? rhs) then
    r ← get_vec rhs;
    cap ← Capacity this;
    if cap <? size_ r then
      temp ← (fun w => (Ret (fresh (dom (objs w))), w));
      Vector_copy temp rhs ;;
      Swap this temp ;;
      Vector_dtor temp
    else
      v ← get_vec this;
      (if size_ v <=? size_ r then
         std_copy (GetAddress (data_ r)) (ptr_add (GetAddress (data_ r)) (size_ v))
           (GetAddress (data_ v)) ;;
         uninitialized_copy_n (ptr_add (GetAddress (data_ r)) (size_ v))
           (size_ r - size_ v) (ptr_add (GetAddress (data_ v)) (size_ v))
       else
         std_copy (GetAddress (data_ r)) (ptr_add (GetAddress (data_ r)) (size_ r))
           (GetAddress (data_ v)) ;;
         DestroyN (ptr_add (GetAddress (data_ v)) (size_ r)) (size_ v - size_ r)) ;;
      set_size this (size_ r)
  else ret tt.

(** [Vector& operator=(Vector&& rhs) noexcept] *)
Definition move_assignment (this rhs : nat) : M unit :=
  noexcept true (if negb (this =? rhs) then Swap this rhs else ret tt).

(** [const T& operator[](size_t index) const noexcept] *)
Definition index_const (this : nat) (index : nat) : M ptr :=
  noexcept true (d ← get_data this; RawMemory_index_const d index).

(** [T& operator[](size_t index) noexcept] *)
Definition index_mut (this : nat) (index : nat) : M ptr :=
  noexcept true
    (sz ← get_size this;
     assert_ (index <? sz) ;;
     d ← get_data this; RawMemory_index d index).

(** Elements are moved to a new block when moving cannot throw or when
    copying is impossible; otherwise they are copied. *)
Definition transfer_by_move : bool :=
  is_nothrow_move_constructible E || negb (is_copy_constructible E).

(** [void Reserve(size_t new_capacity)]. The local [new_data] is released
    when the transfer throws; after the swap it holds the old block and
    is released at the end of the scope. *)
Definition Reserve (this : nat) (new_capacity : nat) : M unit :=
  cap ← Capacity this;
  if new_capacity <=? cap then ret tt
  else
    new_data ← RawMemory_ctor new_capacity;
    unwinding (RawMemory_dtor new_data)
      (d ← get_data this; sz ← get_size this;
       if transfer_by_move
       then uninitialized_move_n (GetAddress d) sz (GetAddress new_data)
       else uninitialized_copy_n (GetAddress d) sz (GetAddress new_data)) ;;
    d ← get_data this; sz ← get_size this;
    destroy_n (GetAddress d) sz ;;
    new_data' ← data_Swap this new_data;
    RawMemory_dtor new_data'.

(** [RawMemory<T> CreateCopy(size_t capacity)], a private helper that
    no member calls. *)
Definition CreateCopy (this : nat) (capacity : nat) : M RawMemory :=
  new_data ← RawMemory_ctor capacity;
  unwinding (RawMemory_dtor new_data)
    (d ← get_data this; sz ← Size this;
     if transfer_by_move
     then uninitialized_move_n (GetAddress d) sz (GetAddress new_data)
     else uninitialized_copy_n (GetAddress d) sz (GetAddress new_data)) ;;
  ret new_data.

(** [static void CopyConstruct(T* buf, const T& elem)], unused as well. *)
Definition CopyConstruct (buf : ptr) (elem : operand) : M unit :=
  Construct buf (CopyOf elem).

(** [void Resize(size_t new_size)] *)
Definition Resize (this : nat) (new_size : nat) : M unit :=
  sz ← get_size this;
  (if new_size <? sz then
     d ← get_data this;
     destroy_n (ptr_add (GetAddress d) new_size) (sz - new_size)
   else
     Reserve this new_size ;;
     d ← get_data this; sz' ← get_size this;
     uninitialized_value_construct_n (ptr_add (GetAddress d) sz') (new_size - sz')) ;;
  set_size this new_size.

(** [begin()], [end()], and their const forms *)
Definition begin_ (this : nat) : M ptr :=
  d ← get_data this; ret (GetAddress d).

Definition end_ (this : nat) : M ptr :=
  d ← get_data this; sz ← get_size this; ret (ptr_add (GetAddress d) sz).

Definition cbegin (this : nat) : M ptr := begin_ this.
Definition cend (this : nat) : M ptr := end_ this.

(** [void PopBack() noexcept] *)
Definition PopBack (this : nat) : M unit :=
  noexcept true
    (sz ← get_size this;
     assert_ (0 <? sz) ;;
     d ← get_data this;
     p ← ptr_minus (ptr_add (GetAddress d) sz) 1;
     Destroy p ;;
     sz' ← get_size this; set_size this (sz' - 1)).

(** [iterator Emplace(const_iterator pos, Args&&... args)].

    In the branch that reallocates, the local [new_memory] is released
    when an exception leaves the scope; after the swap it holds the old
    block. In the last branch the handler of the [try] block does not
    rethrow, so control continues after it. *)
Definition Emplace (this : nat) (pos : ptr) (args : ctor_args) : M ptr :=
  b ← begin_ this; e ← end_ this;
  assert_ (ptr_le b pos && ptr_le pos e) ;;
  sz ← get_size this; cap ← Capacity this;
  if sz =? cap then
    b ← begin_ this;
    it_pos ← ptr_diff pos b;
    new_memory ← RawMemory_ctor (if sz =? 0 then 1 else size_t_mul sz 2);
    unwinding (RawMemory_dtor new_memory)
      (Construct (ptr_add (GetAddress new_memory) it_pos) args ;;
       try_catch
         (d ← get_data this;
          if transfer_by_move then
            uninitialized_move_n (GetAddress d) it_pos (GetAddress new_memory) ;;
            e ← end_ this; n ← ptr_diff e pos;
            uninitialized_move_n (ptr_add (GetAddress d) it_pos) n
              (ptr_add (ptr_add (GetAddress new_memory) it_pos) 1)
          else
            uninitialized_copy_n (GetAddress d) it_pos (GetAddress new_memory) ;;
            try_catch
              (e ← end_ this; n ← ptr_diff e pos;
               uninitialized_copy_n (ptr_add (GetAddress d) it_pos) n
                 (ptr_add (ptr_add (GetAddress new_memory) it_pos) 1))
              (destroy_n (GetAddress new_memory) it_pos ;; throw))
         (Destroy (ptr_add (GetAddress new_memory) it_pos) ;; throw)) ;;
    new_memory' ← data_Swap this new_memory;
    sz ← get_size this;
    destroy_n (GetAddress new_memory') sz ;;
    set_size this (sz + 1) ;;
    b ← begin_ this;
    RawMemory_dtor new_memory' ;;
    ret (ptr_add b it_pos)
  else
    b ← begin_ this;
    it_pos ← ptr_diff pos b;
    ce ← cend this;
    if ptr_eqb pos ce then
      e ← end_ this;
      Construct e args ;;
      sz ← get_size this; set_size this (sz + 1) ;;
      ret pos
    else
      temp ← run_ctor args;
      e ← end_ this; last ← ptr_minus e 1;
      Construct e (MoveOf (Cell last)) ;;
      try_catch
        (e ← end_ this; last ← ptr_minus e 1;
         move_backward pos last e)
        (e ← end_ this; Destroy e) ;;
      b ← begin_ this;
      move_assign (ptr_add b it_pos) (Ext temp) ;;
      sz ← get_size this; set_size this (sz + 1) ;;
      ret pos.

(** [iterator Erase(const_iterator pos)
       noexcept(std::is_nothrow_move_assignable_v<T>)] *)
Definition Erase (this : nat) (pos : ptr) : M ptr :=
  noexcept (is_nothrow_move_assignable E)
    (b ← begin_ this; e ← end_ this;
     assert_ (ptr_le b pos && ptr_lt pos e) ;;
     shift ← ptr_diff pos b;
     std_move (ptr_add (ptr_add b shift) 1) e (ptr_add b shift) ;;
     PopBack this ;;
     b ← begin_ this;
     ret (ptr_add b shift)).

(** [Insert(const_iterator pos, const T& value)] and
    [Insert(const_iterator pos, T&& value)] *)
Definition Insert_copy (this : nat) (pos : ptr) (value : operand) : M ptr :=
  Emplace this pos (CopyOf value).

Definition Insert_move (this : nat) (pos : ptr) (value : operand) : M ptr :=
  Emplace this pos (MoveOf value).

(** [T& EmplaceBack(Args&&... args)] *)
Definition EmplaceBack (this : nat) (args : ctor_args) : M ptr :=
  e ← end_ this; Emplace this e args.

(** [PushBack(const T& value)] and [PushBack(T&& value)] *)
Definition PushBack_copy (this : nat) (value : operand) : M unit :=
  EmplaceBack this (CopyOf value) ;; ret tt.

Definition PushBack_move (this : nat) (value : operand) : M unit :=
  EmplaceBack this (MoveOf value) ;; ret tt.

End Model.
Arguments operand T : clear implicits.
Arguments ctor_args T : clear implicits.

(** ** What a vector denotes *)

Section Representation.
Context {T : Type} {sT : SizeOf T} (E : env T).

Local Abbreviation world := (world T).

(** The cells of a block of [cap] slots whose first [length xs] hold [xs]. *)
Definition cells_of (xs : list T) (cap : nat) : list (cell T) :=
  (Live <$> xs) ++ replicate (cap - length xs) Raw.

(** The vector at address [this] owns block [buf], has capacity [cap] and
    holds exactly [xs]: the cells below the size are live, those from the
    size up to the capacity are raw, and the buffer is null exactly when
    the capacity is zero. The block is one that [Allocate] can have
    returned for this capacity: its byte count fits [size_t]. *)
Definition vec_repr (w : world) (this : nat) (buf : option nat)
    (xs : list T) (cap : nat) : Prop :=
  objs w !! this = Some (MkVector (MkRawMemory buf cap) (length xs)) ∧
  (length xs ≤ cap ∧ alloc_fits cap) ∧
  match buf with
  | Some b => heap w !! b = Some (cells_of xs cap) ∧ 0 < cap
  | None => cap = 0
  end.

(** The representation invariant, as a check on a world. *)
Definition vec_inv (w : world) (this : nat) : bool :=
  match objs w !! this with
  | Some v =>
      (size_ v <=? capacity_ (data_ v)) &&
      match buffer_ (data_ v) with
      | Some b =>
          (0 <? capacity_ (data_ v)) &&
          match heap w !! b with
          | Some cells =>
              (length cells =? capacity_ (data_ v)) &&
              forallb is_live (take (size_ v) cells) &&
              forallb (λ c, negb (is_live c)) (drop (size_ v) cells)
          | None => false
          end
      | None => capacity_ (data_ v) =? 0
      end
  | None => false
  end.

(** The elements of the vector at [this], read off the store. *)
Definition contents (w : world) (this : nat) : option (list T) :=
  match objs w !! this with
  | Some v =>
      match buffer_ (data_ v) with
      | Some b =>
          match heap w !! b with
          | Some cells =>
              mapM (λ c, match c with Live x => Some x | Raw => None end)
                (take (size_ v) cells)
          | None => None
          end
      | None => Some []
      end
  | None => None
  end.

(** No operation throws. *)
Definition no_throw : Prop := ∀ k n, throws E k n = false.

(** The value the constructor arguments produce in a store, for a vector
    whose block is [buf]: an operand in the store must hold an object,
    and an operand that is moved from lies outside the vector. *)
Definition operand_value (h : gmap nat (list (cell T))) (s : operand T) : option T :=
  match s with
  | Ext x => Some x
  | Cell q =>
      match p_base q with
      | Some b =>
          match h !! b with
          | Some cells =>
              match cells !! p_off q with
              | Some (Live x) => Some x
              | _ => None
              end
          | None => None
          end
      | None => None
      end
  end.

Definition args_value (h : gmap nat (list (cell T))) (a : ctor_args T) : option T :=
  match a with
  | Args v => Some v
  | CopyOf s => operand_value h s
  | MoveOf s => operand_value h s
  end.

Definition moves_outside (buf : option nat) (a : ctor_args T) : Prop :=
  match a with
  | MoveOf (Cell q) => p_base q ≠ buf
  | _ => True
  end.

(** The free store once the constructor selected by the arguments has
    produced [v]: an object of the store that was moved from is left
    moved-from, and nothing else has changed. *)
Definition mark_source (h : gmap nat (list (cell T))) (a : ctor_args T) (v : T)
    : gmap nat (list (cell T)) :=
  match a with
  | MoveOf (Cell q) =>
      match p_base q with
      | Some b =>
          match h !! b with
          | Some cells => <[b := <[p_off q := Live (moved_from E v)]> cells]> h
          | None => h
          end
      | None => h
      end
  | _ => h
  end.

(** The capacity that an insertion into a full vector of this size asks
    for, [size * 2] or 1, does not wrap, and neither does its byte count. *)
Definition doubling_fits (size : nat) : Prop :=
  alloc_fits (Nat.max 1 (2 * size)).

(** The call [m], run in [w] on the vector at [this] that holds [xs], has
    inserted [v] at position [i]: it returns the address of index [i], the
    vector is one element longer, the elements in front of [i] are as
    before, [v] is at [i], where reading the returned address finds it,
    and every element that was at [j >= i] is at [j + 1]. *)
Definition inserts_at (w : world) (this : nat) (xs : list T) (i : nat) (v : T)
    (m : M T ptr) : Prop :=
  ∃ buf' w' ys cap',
    m w = (Ret (Ptr buf' i), w') ∧
    vec_repr w' this buf' ys cap' ∧
    length ys = length xs + 1 ∧
    (∀ j, j < i → ys !! j = xs !! j) ∧
    ys !! i = Some v ∧
    (∀ j, i ≤ j → ys !! S j = xs !! j) ∧
    load (Ptr buf' i) w' = (Ret v, w').

(** The vector at [this] is in [w'] as it was described in [w], no object
    has been lost, and the free store holds the same blocks. *)
Definition unchanged (w w' : world) (this : nat) (buf : option nat)
    (xs : list T) (cap : nat) : Prop :=
  vec_repr w' this buf xs cap ∧ leaked w' = leaked w ∧
  dom (heap w') = dom (heap w).

(** The value left in the slot vacated by moving [ys] one step to the
    left, when the slot in front of them held [a]. *)
Fixpoint vacated_left (a : T) (ys : list T) : T :=
  match ys with
  | [] => a
  | y :: ys' => vacated_left (moved_from E y) ys'
  end.

(** The same for a move one step to the right, the slot behind holding [a]. *)
Definition vacated_right (a : T) (ys : list T) : T :=
  match ys with
  | [] => a
  | y :: _ => moved_from E y
  end.

(** The least power of two that is at least [k]. *)
Definition pow2_ceil (k : nat) : nat := 2 ^ Nat.log2_up k.

(** [v.PushBack(x)] for each [x] of [vs] in turn, with the capacity read
    after each call. *)
Fixpoint push_backs (this : nat) (vs : list T) : M T (list nat) :=
  match vs with
  | [] => ret []
  | x :: vs' =>
      PushBack_copy E this (Ext x) ;;
      cap ← Capacity this;
      caps ← push_backs this vs';
      ret (cap :: caps)
  end.

(** [v[index] = x] through the mutable [operator[]]. *)
Definition assign_at (this : nat) (index : nat) (x : T) : M T unit :=
  p ← index_mut E this index; copy_assign E p (Ext x).

End Representation.

(** ** Outcomes under an arbitrary oracle *)

(** The program never ends in an exception, whatever the store. *)
Definition never_throws {T A} (m : M T A) : Prop := ∀ w w', m w ≠ (Throw, w').

(** [P] holds of the store in which an exception leaves the program. *)
Definition throw_post {T A} (P : world T → Prop) (r : outcome A * world T) : Prop :=
  match r with
  | (Throw, w') => P w'
  | _ => True
  end.

(** ** Concrete element types and stores *)

(** [int]-like elements: nothing throws, a moved-from value reads 0. *)
Definition plain_ints : env nat :=
  Env nat (λ _, 0) 0 true true true false (λ _ _, false).

(** A copyable type whose copy constructor throws at clock [n] and whose
    move constructor is not noexcept: reallocation copies. *)
Definition copy_throws_at (n : nat) : env nat :=
  Env nat (λ _, 0) 0 false true false false
    (λ k c, match k with OpCopyCtor => c =? n | _ => false end).

(** A move-only type whose move constructor throws at clock [n]. *)
Definition move_only_throws_at (n : nat) : env nat :=
  Env nat (λ _, 0) 0 false false false false
    (λ k c, match k with OpMoveCtor => c =? n | _ => false end).

(** A type whose move assignment throws at clock [n]. *)
Definition move_assign_throws_at (n : nat) : env nat :=
  Env nat (λ _, 0) 0 true true false false
    (λ k c, match k with OpMoveAssign => c =? n | _ => false end).

(** The vector at address 7 holds [1; 2; 3] in a block of four slots. *)
Definition w_123 : world nat :=
  World {[0 := [Live 1; Live 2; Live 3; Raw]]}
        {[7 := MkVector (MkRawMemory (Some 0) 4) 3]} 0 0.

(** The same elements in a block that is full. *)
Definition w_full : world nat :=
  World {[0 := [Live 1; Live 2; Live 3]]}
        {[7 := MkVector (MkRawMemory (Some 0) 3) 3]} 0 0.

(** [1; 2] in a block of four slots. *)
Definition w_12 : world nat :=
  World {[0 := [Live 1; Live 2; Raw; Raw]]}
        {[7 := MkVector (MkRawMemory (Some 0) 4) 2]} 0 0.

(** A default-constructed vector at address 7. *)
Definition w_empty : world nat :=
  World ∅ {[7 := MkVector (MkRawMemory None 0) 0]} 0 0.

(** The elements of the concrete vectors are [int]s of four bytes. *)
#[global] Instance int_size : SizeOf nat := 4%positive.


(** A type whose default constructor throws at clock [n]. *)
Definition default_throws_at (n : nat) : env nat :=
  Env nat (λ _, 0) 0 true true true false
    (λ k c, match k with OpDefault => c =? n | _ => false end).

(** A type whose copy assignment throws at clock [n]. *)
Definition copy_assign_throws_at (n : nat) : env nat :=
  Env nat (λ _, 0) 0 true true true false
    (λ k c, match k with OpCopyAssign => c =? n | _ => false end).

(** Two vectors: [1; 2; 3] with room for four at address 7, and [4; 5]
    in a full block at address 8. *)
Definition w_two : world nat :=
  World {[0 := [Live 1; Live 2; Live 3; Raw]; 1 := [Live 4; Live 5]]}
        {[7 := MkVector (MkRawMemory (Some 0) 4) 3;
          8 := MkVector (MkRawMemory (Some 1) 2) 2]} 0 0.

(** * Proofs *)

(** ** Sizes of allocations *)

Section Sizes.
Context {T : Type} {sT : SizeOf T}.

Lemma alloc_cells_fits n : alloc_fits n → alloc_cells n = n.
Proof.
  unfold alloc_fits, alloc_cells. intros Hn.
  rewrite N.mod_small by done.
  rewrite N.div_mul by done. apply Nat2N.id.
Qed.

Lemma alloc_cells_le n : alloc_cells n ≤ n.
Proof.
  unfold alloc_cells.
  assert (((N.of_nat n * N.pos (sizeof T)) mod size_modulus / N.pos (sizeof T)
           ≤ N.of_nat n)%N); [|lia].
  etrans; [apply N.Div0.div_le_mono, N.Div0.mod_le|].
  by rewrite N.div_mul.
Qed.

Lemma alloc_cells_wrapped n :
  ¬ alloc_fits n → alloc_cells n < n.
Proof.
  unfold alloc_fits, alloc_cells. intros Hn.
  assert (((N.of_nat n * N.pos (sizeof T)) mod size_modulus / N.pos (sizeof T)
           < N.of_nat n)%N); [|lia].
  apply N.Div0.div_lt_upper_bound.
  rewrite (N.mul_comm (N.pos _)).
  rewrite N.Div0.mod_eq.
  assert (1 ≤ N.of_nat n * N.pos (sizeof T) / size_modulus)%N.
  { apply N.div_le_lower_bound; [done|]. rewrite N.mul_1_r. lia. }
  assert (0 < size_modulus)%N by done.
  nia.
Qed.

Lemma alloc_fits_le n m : m ≤ n → alloc_fits n → alloc_fits m.
Proof. unfold alloc_fits. intros Hle Hn. nia. Qed.

Lemma alloc_fits_0 : alloc_fits 0.
Proof. done. Qed.

Lemma doubling_fits_alloc n :
  doubling_fits n → alloc_fits (Nat.max 1 (2 * n)).
Proof. done. Qed.

Lemma doubling_fits_mul n :
  doubling_fits n → (N.of_nat n * 2 < size_modulus)%N.
Proof. unfold doubling_fits, alloc_fits. intros Hn. nia. Qed.

Lemma doubling_fits_twice n :
  0 < n → doubling_fits n → alloc_fits (n * 2).
Proof.
  unfold doubling_fits. intros Hn H.
  by replace (n * 2) with (Nat.max 1 (2 * n)) by lia.
Qed.

Lemma doubling_fits_one : doubling_fits 0 → alloc_fits 1.
Proof. done. Qed.

End Sizes.

(** The byte count of a capacity fits, from what is known of capacities
    at least as large. *)
Ltac fits :=
  first [ assumption
        | apply alloc_fits_0
        | by apply doubling_fits_alloc
        | by apply doubling_fits_twice; [lia|]
        | by apply doubling_fits_one
        | eapply alloc_fits_le; [|eassumption]; simpl; lia ].

Section Running.
Context {T : Type} {sT : SizeOf T} (E : env T).
Implicit Types (w : world T) (h : gmap nat (list (cell T))) (o : gmap nat Vector).
Implicit Types (cells : list (cell T)) (xs ys : list T).

(** ** Running the monad *)

Lemma bind_ret {A B} (m : M T A) (k : A → M T B) w a w' :
  m w = (Ret a, w') → bind m k w = k a w'.
Proof. intros H. unfold bind. by rewrite H. Qed.

Lemma bind_throw {A B} (m : M T A) (k : A → M T B) w w' :
  m w = (Throw, w') → bind m k w = (Throw, w').
Proof. intros H. unfold bind. by rewrite H. Qed.

Lemma bind_fatal {A B} (m : M T A) (k : A → M T B) w f w' :
  m w = (Fatal f, w') → bind m k w = (Fatal f, w').
Proof. intros H. unfold bind. by rewrite H. Qed.

Lemma try_catch_ret {A} (body handler : M T A) w a w' :
  body w = (Ret a, w') → try_catch body handler w = (Ret a, w').
Proof. intros H. unfold try_catch. by rewrite H. Qed.

Lemma try_catch_throw {A} (body handler : M T A) w w' :
  body w = (Throw, w') → try_catch body handler w = handler w'.
Proof. intros H. unfold try_catch. by rewrite H. Qed.

Lemma unwinding_ret {A} (cleanup : M T unit) (body : M T A) w a w' :
  body w = (Ret a, w') → unwinding cleanup body w = (Ret a, w').
Proof. apply try_catch_ret. Qed.

Lemma try_catch_fatal {A} (body handler : M T A) w f w' :
  body w = (Fatal f, w') → try_catch body handler w = (Fatal f, w').
Proof. intros H. unfold try_catch. by rewrite H. Qed.

Lemma unwinding_fatal {A} (cleanup : M T unit) (body : M T A) w f w' :
  body w = (Fatal f, w') → unwinding cleanup body w = (Fatal f, w').
Proof. apply try_catch_fatal. Qed.

Lemma unwinding_throw {A} (cleanup : M T unit) (body : M T A) w w' w'' :
  body w = (Throw, w') → cleanup w' = (Ret tt, w'') →
  unwinding cleanup body w = (Throw, w'').
Proof.
  intros Hb Hc. unfold unwinding. rewrite (try_catch_throw _ _ _ _ Hb).
  by rewrite (bind_ret _ _ _ _ _ Hc).
Qed.

Lemma noexcept_ret {A} b (body : M T A) w a w' :
  body w = (Ret a, w') → noexcept b body w = (Ret a, w').
Proof. intros H. destruct b; [by apply try_catch_ret | done]. Qed.

Lemma noexcept_true_no_throw {A} (body : M T A) w w' :
  noexcept true body w ≠ (Throw, w').
Proof.
  unfold noexcept, try_catch, abort.
  destruct (body w) as [[a| |f] w1]; congruence.
Qed.

End Running.

(** One step of a sequence: the first command returns. *)
Ltac step tac := etrans; [ eapply bind_ret; tac | ]; cbv beta.

Section Steps.
Context {T : Type} {sT : SizeOf T} (E : env T).
Implicit Types (w : world T) (h : gmap nat (list (cell T))) (o : gmap nat Vector).
Implicit Types (cells : list (cell T)) (xs ys : list T).

Lemma assert_true w : assert_ E true w = (Ret tt, w).
Proof. unfold assert_. by destruct (ndebug E). Qed.

Lemma assert_false_debug w :
  ndebug E = false → assert_ E false w = (Fatal AssertionFailed, w).
Proof. unfold assert_. by intros ->. Qed.

Lemma tick_ok k h o l c :
  no_throw E → tick E k (World h o l c) = (Ret tt, World h o l (S c)).
Proof. intros H. unfold tick. simpl. by rewrite H. Qed.

(** ** Cells *)

Lemma get_cell_eq h o l c b i cells x :
  h !! b = Some cells → cells !! i = Some x →
  get_cell (Ptr (Some b) i) (World h o l c) = (Ret x, World h o l c).
Proof. intros H1 H2. unfold get_cell. simpl. by rewrite H1, H2. Qed.

Lemma get_cell_past_end h o l c b i cells :
  h !! b = Some cells → length cells ≤ i →
  get_cell (Ptr (Some b) i) (World h o l c) = (Fatal Undefined, World h o l c).
Proof.
  intros H1 H2. unfold get_cell. simpl. rewrite H1.
  by rewrite (lookup_ge_None_2 _ _ H2).
Qed.

Lemma put_cell_eq h o l c b i cells x :
  h !! b = Some cells → i < length cells →
  put_cell (Ptr (Some b) i) x (World h o l c)
  = (Ret tt, World (<[b := <[i := x]> cells]> h) o l c).
Proof.
  intros H1 H2. unfold put_cell. simpl. rewrite H1.
  by destruct (Nat.ltb_spec i (length cells)); [|lia].
Qed.

Lemma load_eq h o l c b i cells x :
  h !! b = Some cells → cells !! i = Some (Live x) →
  load (Ptr (Some b) i) (World h o l c) = (Ret x, World h o l c).
Proof.
  intros H1 H2. unfold load.
  by rewrite (bind_ret _ _ _ _ _ (get_cell_eq _ _ _ _ _ _ _ _ H1 H2)).
Qed.

Lemma store_eq h o l c b i cells x y :
  h !! b = Some cells → cells !! i = Some (Live y) →
  store (Ptr (Some b) i) x (World h o l c)
  = (Ret tt, World (<[b := <[i := Live x]> cells]> h) o l c).
Proof.
  intros H1 H2. unfold store.
  rewrite (bind_ret _ _ _ _ _ (load_eq _ _ _ _ _ _ _ _ H1 H2)).
  apply put_cell_eq; [done|]. by eapply lookup_lt_Some.
Qed.

Lemma emplace_raw_eq h o l c b i cells x :
  h !! b = Some cells → cells !! i = Some Raw →
  emplace_raw (Ptr (Some b) i) x (World h o l c)
  = (Ret tt, World (<[b := <[i := Live x]> cells]> h) o l c).
Proof.
  intros H1 H2. unfold emplace_raw.
  rewrite (bind_ret _ _ _ _ _ (get_cell_eq _ _ _ _ _ _ _ _ H1 H2)).
  apply put_cell_eq; [done|]. by eapply lookup_lt_Some.
Qed.

Lemma Destroy_eq h o l c b i cells y :
  h !! b = Some cells → cells !! i = Some (Live y) →
  Destroy (Ptr (Some b) i) (World h o l c)
  = (Ret tt, World (<[b := <[i := Raw]> cells]> h) o l c).
Proof.
  intros H1 H2. unfold Destroy.
  rewrite (bind_ret _ _ _ _ _ (load_eq _ _ _ _ _ _ _ _ H1 H2)).
  apply put_cell_eq; [done|]. by eapply lookup_lt_Some.
Qed.

(** Lists cut at a position. *)

Lemma lookup_middle {A} (l1 l2 : list A) x : (l1 ++ x :: l2) !! length l1 = Some x.
Proof. by rewrite list_lookup_middle. Qed.

Lemma insert_middle {A} (l1 l2 : list A) x y :
  <[length l1 := y]> (l1 ++ x :: l2) = l1 ++ y :: l2.
Proof. rewrite insert_app_r_alt by lia. by rewrite Nat.sub_diag. Qed.



(** ** Constructors and assignments, when nothing throws *)

Lemma Construct_copy_cell h o l c bs bd i j src dst x :
  no_throw E →
  h !! bs = Some src → src !! i = Some (Live x) →
  h !! bd = Some dst → dst !! j = Some Raw →
  Construct E (Ptr (Some bd) j) (CopyOf (Cell (Ptr (Some bs) i))) (World h o l c)
  = (Ret tt, World (<[bd := <[j := Live x]> dst]> h) o l (S c)).
Proof.
  intros HE Hs Hi Hd Hj. unfold Construct.
  step ltac:(by eapply get_cell_eq).
  unfold run_ctor, read_operand.
  step ltac:(step ltac:(by eapply load_eq); step ltac:(by apply tick_ok); reflexivity).
  by eapply emplace_raw_eq.
Qed.

Lemma uninitialized_copy_n_ok xs : ∀ h o l c bs bd s1 s2 d1 d2,
  no_throw E → bs ≠ bd →
  h !! bs = Some (s1 ++ (Live <$> xs) ++ s2) →
  h !! bd = Some (d1 ++ replicate (length xs) Raw ++ d2) →
  uninitialized_copy_n E (Ptr (Some bs) (length s1)) (length xs)
    (Ptr (Some bd) (length d1)) (World h o l c)
  = (Ret tt, World (<[bd := d1 ++ (Live <$> xs) ++ d2]> h) o l (c + length xs)).
Proof.
  induction xs as [|x xs IH]; intros h o l c bs bd s1 s2 d1 d2 HE Hne Hs Hd.
  - simpl. unfold ret. rewrite Nat.add_0_r. by rewrite insert_id.
  - csimpl in *.
    step ltac:(eapply Construct_copy_cell; eauto using lookup_middle).
    apply unwinding_ret. rewrite insert_middle.
    unfold ptr_add; simpl.
    specialize (IH (<[bd:=d1 ++ Live x :: replicate (length xs) Raw ++ d2]> h) o l (S c)
      bs bd (s1 ++ [Live x]) s2 (d1 ++ [Live x]) d2 HE Hne).
    rewrite !length_app in IH. simpl in IH.
    rewrite IH.
    + rewrite insert_insert_eq. rewrite <- !app_assoc. simpl.
      do 2 f_equal. lia.
    + rewrite lookup_insert_ne by done. by rewrite <- app_assoc.
    + rewrite lookup_insert_eq. by rewrite <- app_assoc.
Qed.

Lemma Construct_move_cell h o l c bs bd i j src dst x :
  no_throw E → bs ≠ bd →
  h !! bs = Some src → src !! i = Some (Live x) →
  h !! bd = Some dst → dst !! j = Some Raw →
  Construct E (Ptr (Some bd) j) (MoveOf (Cell (Ptr (Some bs) i))) (World h o l c)
  = (Ret tt, World (<[bd := <[j := Live x]> dst]>
                      (<[bs := <[i := Live (moved_from E x)]> src]> h)) o l (S c)).
Proof.
  intros HE Hne Hs Hi Hd Hj. unfold Construct.
  step ltac:(by eapply get_cell_eq).
  unfold run_ctor, read_operand, mark_moved.
  step ltac:(step ltac:(by eapply load_eq); step ltac:(by apply tick_ok);
             step ltac:(by eapply store_eq); reflexivity).
  eapply emplace_raw_eq; [by rewrite lookup_insert_ne|done].
Qed.

Lemma uninitialized_move_n_ok xs : ∀ h o l c bs bd s1 s2 d1 d2,
  no_throw E → bs ≠ bd →
  h !! bs = Some (s1 ++ (Live <$> xs) ++ s2) →
  h !! bd = Some (d1 ++ replicate (length xs) Raw ++ d2) →
  uninitialized_move_n E (Ptr (Some bs) (length s1)) (length xs)
    (Ptr (Some bd) (length d1)) (World h o l c)
  = (Ret tt, World (<[bd := d1 ++ (Live <$> xs) ++ d2]>
                      (<[bs := s1 ++ (Live <$> (moved_from E <$> xs)) ++ s2]> h))
               o l (c + length xs)).
Proof.
  induction xs as [|x xs IH]; intros h o l c bs bd s1 s2 d1 d2 HE Hne Hs Hd.
  - simpl. unfold ret. rewrite Nat.add_0_r. by rewrite !insert_id by by simplify_map_eq.
  - csimpl in *.
    step ltac:(eapply Construct_move_cell; eauto using lookup_middle).
    apply unwinding_ret. rewrite !insert_middle.
    unfold ptr_add; simpl.
    specialize (IH
      (<[bd:=d1 ++ Live x :: replicate (length xs) Raw ++ d2]>
         (<[bs:=s1 ++ Live (moved_from E x) :: (Live <$> xs) ++ s2]> h)) o l (S c)
      bs bd (s1 ++ [Live (moved_from E x)]) s2 (d1 ++ [Live x]) d2 HE Hne).
    rewrite !length_app in IH. simpl in IH.
    rewrite IH.
    + rewrite <- !app_assoc. simpl.
      rewrite (insert_insert_ne _ bs bd) by done.
      rewrite !insert_insert_eq.
      do 2 f_equal. lia.
    + rewrite lookup_insert_ne by done. rewrite lookup_insert_eq.
      by rewrite <- app_assoc.
    + rewrite lookup_insert_eq. by rewrite <- app_assoc.
Qed.

Lemma destroy_n_ok xs : ∀ h o l c b p1 p2,
  h !! b = Some (p1 ++ (Live <$> xs) ++ p2) →
  destroy_n (Ptr (Some b) (length p1)) (length xs) (World h o l c)
  = (Ret tt, World (<[b := p1 ++ replicate (length xs) Raw ++ p2]> h) o l c).
Proof.
  induction xs as [|x xs IH]; intros h o l c b p1 p2 Hb.
  - simpl. unfold ret. by rewrite insert_id.
  - csimpl in *.
    step ltac:(eapply Destroy_eq; eauto using lookup_middle).
    rewrite insert_middle. unfold ptr_add; simpl.
    specialize (IH (<[b:=p1 ++ Raw :: (Live <$> xs) ++ p2]> h) o l c b
                  (p1 ++ [Raw]) p2).
    rewrite !length_app in IH. simpl in IH.
    rewrite IH.
    + rewrite insert_insert_eq. by rewrite <- !app_assoc.
    + rewrite lookup_insert_eq. by rewrite <- app_assoc.
Qed.

Lemma move_assign_cell h o l c b i j cells x y :
  no_throw E →
  h !! b = Some cells → cells !! i = Some (Live x) → cells !! j = Some (Live y) →
  move_assign E (Ptr (Some b) j) (Cell (Ptr (Some b) i)) (World h o l c)
  = (Ret tt, World (<[b := <[i := Live (moved_from E x)]> (<[j := Live x]> cells)]> h)
               o l (S c)).
Proof.
  intros HE Hb Hi Hj. unfold move_assign, read_operand, mark_moved.
  step ltac:(by eapply load_eq).
  step ltac:(by eapply load_eq).
  step ltac:(by apply tick_ok).
  step ltac:(by eapply store_eq).
  destruct (decide (i = j)) as [->|Hij].
  - erewrite store_eq; [|apply lookup_insert_eq|].
    + by rewrite insert_insert_eq.
    + apply list_lookup_insert_eq. by eapply lookup_lt_Some.
  - erewrite store_eq; [|apply lookup_insert_eq|].
    + by rewrite insert_insert_eq.
    + rewrite list_lookup_insert_ne by done. done.
Qed.

Lemma move_assign_ext h o l c b j cells x y :
  no_throw E →
  h !! b = Some cells → cells !! j = Some (Live y) →
  move_assign E (Ptr (Some b) j) (Ext x) (World h o l c)
  = (Ret tt, World (<[b := <[j := Live x]> cells]> h) o l (S c)).
Proof.
  intros HE Hb Hj. unfold move_assign, read_operand, mark_moved.
  step ltac:(reflexivity).
  step ltac:(by eapply load_eq).
  step ltac:(by apply tick_ok).
  step ltac:(by eapply store_eq).
  reflexivity.
Qed.

Lemma lookup_after_replicate {A} n (a x : A) (l : list A) :
  (replicate n a ++ x :: l) !! n = Some x.
Proof.
  rewrite lookup_app_r by (rewrite length_replicate; lia).
  by rewrite length_replicate, Nat.sub_diag.
Qed.

Lemma insert_after_replicate {A} n (a x y : A) (l : list A) :
  <[n := y]> (replicate n a ++ x :: l) = replicate n a ++ y :: l.
Proof.
  rewrite insert_app_r_alt by (rewrite length_replicate; lia).
  by rewrite length_replicate, Nat.sub_diag.
Qed.

Lemma lookup_middle_next {A} (l1 l2 : list A) x y :
  (l1 ++ x :: y :: l2) !! (length l1 + 1) = Some y.
Proof.
  rewrite (cons_middle x l1), app_assoc.
  replace (length l1 + 1) with (length (l1 ++ [x])) by (rewrite length_app; simpl; lia).
  apply lookup_middle.
Qed.

Lemma insert_middle_next {A} (l1 l2 : list A) x y z :
  <[length l1 + 1 := z]> (l1 ++ x :: y :: l2) = l1 ++ x :: z :: l2.
Proof.
  rewrite (cons_middle x l1 (y :: l2)), app_assoc.
  replace (length l1 + 1) with (length (l1 ++ [x])) by (rewrite length_app; simpl; lia).
  rewrite insert_middle. by rewrite <- app_assoc.
Qed.

(** ** Shifting inside one block *)

Lemma move_loop_ok ys : ∀ h o l c b p1 p2 a,
  no_throw E →
  h !! b = Some (p1 ++ Live a :: (Live <$> ys) ++ p2) →
  move_loop E (Ptr (Some b) (length p1 + 1)) (length ys)
    (Ptr (Some b) (length p1)) (World h o l c)
  = (Ret tt, World (<[b := p1 ++ (Live <$> ys) ++ Live (vacated_left E a ys) :: p2]> h)
               o l (c + length ys)).
Proof.
  induction ys as [|y ys IH]; intros h o l c b p1 p2 a HE Hb.
  - simpl. unfold ret. rewrite Nat.add_0_r. by rewrite insert_id.
  - csimpl in *.
    step ltac:(eapply move_assign_cell;
               eauto using lookup_middle, lookup_middle_next).
    rewrite insert_middle, insert_middle_next.
    unfold ptr_add; simpl.
    specialize (IH (<[b:=p1 ++ Live y :: Live (moved_from E y) :: (Live <$> ys) ++ p2]> h)
                  o l (S c) b (p1 ++ [Live y]) p2 (moved_from E y) HE).
    rewrite !length_app in IH. simpl in IH.
    rewrite IH.
    + rewrite insert_insert_eq. rewrite <- !app_assoc. simpl.
      do 2 f_equal. lia.
    + rewrite lookup_insert_eq. by rewrite <- app_assoc.
Qed.

Lemma vacated_right_snoc a ys y :
  vacated_right E a (ys ++ [y]) = vacated_right E (moved_from E y) ys.
Proof. by destruct ys. Qed.

Lemma ptr_minus_eq (b : option nat) i n w :
  n ≤ i → ptr_minus (Ptr b i) n w = (Ret (Ptr b (i - n)), w).
Proof.
  intros H. unfold ptr_minus. simpl.
  by destruct (Nat.leb_spec n i); [|lia].
Qed.

Lemma move_backward_loop_ok ys : ∀ h o l c b p1 p2 a n i,
  no_throw E →
  n = length ys → i = length p1 + length ys →
  h !! b = Some (p1 ++ (Live <$> ys) ++ Live a :: p2) →
  move_backward_loop E n (Ptr (Some b) i) (Ptr (Some b) (i + 1)) (World h o l c)
  = (Ret tt, World (<[b := p1 ++ Live (vacated_right E a ys) :: (Live <$> ys) ++ p2]> h)
               o l (c + n)).
Proof.
  induction ys as [|y ys IH] using rev_ind;
    intros h o l c b p1 p2 a n i HE -> -> Hb.
  - simpl. unfold ret. rewrite Nat.add_0_r. by rewrite insert_id.
  - rewrite length_app in *. simpl length in *.
    rewrite fmap_app in *. simpl in Hb. rewrite <- app_assoc in Hb. simpl in Hb.
    replace (length ys + 1) with (S (length ys)) by lia.
    cbn [move_backward_loop].
    step ltac:(apply ptr_minus_eq; lia).
    step ltac:(apply ptr_minus_eq; lia).
    replace (length p1 + S (length ys) - 1) with (length (p1 ++ (Live <$> ys)))
      by (rewrite length_app, length_fmap; lia).
    replace (length p1 + S (length ys) + 1 - 1) with (length (p1 ++ (Live <$> ys)) + 1)
      by (rewrite length_app, length_fmap; lia).
    rewrite app_assoc in Hb.
    step ltac:(eapply move_assign_cell;
               eauto using lookup_middle, lookup_middle_next).
    rewrite insert_middle_next, insert_middle.
    rewrite <- app_assoc.
    rewrite length_app, length_fmap.
    erewrite (IH _ o l (S c) b p1 (Live y :: p2) (moved_from E y) (length ys)
                (length p1 + length ys) HE eq_refl eq_refl).
    + rewrite insert_insert_eq. rewrite vacated_right_snoc.
      rewrite <- !app_assoc. simpl. do 2 f_equal. lia.
    + rewrite lookup_insert_eq. done.
Qed.

(** The loops again, with the positions given by equations. *)

Lemma uninitialized_copy_n_at h o l c bs bd s n d xs s1 s2 d1 d2 :
  no_throw E → bs ≠ bd →
  h !! bs = Some (s1 ++ (Live <$> xs) ++ s2) →
  h !! bd = Some (d1 ++ replicate n Raw ++ d2) →
  s = length s1 → n = length xs → d = length d1 →
  uninitialized_copy_n E (Ptr (Some bs) s) n (Ptr (Some bd) d) (World h o l c)
  = (Ret tt, World (<[bd := d1 ++ (Live <$> xs) ++ d2]> h) o l (c + n)).
Proof. intros HE Hne Hs Hd -> -> ->. by eapply uninitialized_copy_n_ok. Qed.

Lemma uninitialized_move_n_at h o l c bs bd s n d xs s1 s2 d1 d2 :
  no_throw E → bs ≠ bd →
  h !! bs = Some (s1 ++ (Live <$> xs) ++ s2) →
  h !! bd = Some (d1 ++ replicate n Raw ++ d2) →
  s = length s1 → n = length xs → d = length d1 →
  uninitialized_move_n E (Ptr (Some bs) s) n (Ptr (Some bd) d) (World h o l c)
  = (Ret tt, World (<[bd := d1 ++ (Live <$> xs) ++ d2]>
                      (<[bs := s1 ++ (Live <$> (moved_from E <$> xs)) ++ s2]> h))
               o l (c + n)).
Proof. intros HE Hne Hs Hd -> -> ->. by eapply uninitialized_move_n_ok. Qed.

Lemma destroy_n_at h o l c b i n xs p1 p2 :
  h !! b = Some (p1 ++ (Live <$> xs) ++ p2) →
  i = length p1 → n = length xs →
  destroy_n (Ptr (Some b) i) n (World h o l c)
  = (Ret tt, World (<[b := p1 ++ replicate n Raw ++ p2]> h) o l c).
Proof. intros Hb -> ->. by apply destroy_n_ok. Qed.

Lemma move_loop_at h o l c b i j n ys p1 p2 a :
  no_throw E →
  h !! b = Some (p1 ++ Live a :: (Live <$> ys) ++ p2) →
  i = length p1 + 1 → n = length ys → j = length p1 →
  move_loop E (Ptr (Some b) i) n (Ptr (Some b) j) (World h o l c)
  = (Ret tt, World (<[b := p1 ++ (Live <$> ys) ++ Live (vacated_left E a ys) :: p2]> h)
               o l (c + n)).
Proof. intros HE Hb -> -> ->. by apply move_loop_ok. Qed.

Lemma move_backward_loop_at h o l c b n i j ys p1 p2 a :
  no_throw E →
  h !! b = Some (p1 ++ (Live <$> ys) ++ Live a :: p2) →
  n = length ys → i = length p1 + length ys → j = i + 1 →
  move_backward_loop E n (Ptr (Some b) i) (Ptr (Some b) j) (World h o l c)
  = (Ret tt, World (<[b := p1 ++ Live (vacated_right E a ys) :: (Live <$> ys) ++ p2]> h)
               o l (c + n)).
Proof. intros HE Hb Hn Hi ->. by eapply move_backward_loop_ok. Qed.

(** ** Fields of a vector *)

Lemma get_vec_eq h o l c this v :
  o !! this = Some v → get_vec this (World h o l c) = (Ret v, World h o l c).
Proof. intros H. unfold get_vec. simpl. by rewrite H. Qed.

Lemma put_vec_eq h o l c this v :
  put_vec this v (World h o l c) = (Ret tt, World h (<[this := v]> o) l c).
Proof. reflexivity. Qed.

Lemma get_data_eq h o l c this v :
  o !! this = Some v → get_data this (World h o l c) = (Ret (data_ v), World h o l c).
Proof. intros H. unfold get_data. by rewrite (bind_ret _ _ _ _ _ (get_vec_eq _ _ _ _ _ _ H)). Qed.

Lemma get_size_eq h o l c this v :
  o !! this = Some v → get_size this (World h o l c) = (Ret (size_ v), World h o l c).
Proof. intros H. unfold get_size. by rewrite (bind_ret _ _ _ _ _ (get_vec_eq _ _ _ _ _ _ H)). Qed.

Lemma Capacity_eq h o l c this v :
  o !! this = Some v →
  Capacity this (World h o l c) = (Ret (capacity_ (data_ v)), World h o l c).
Proof. intros H. unfold Capacity. by rewrite (bind_ret _ _ _ _ _ (get_data_eq _ _ _ _ _ _ H)). Qed.

Lemma begin_eq h o l c this v :
  o !! this = Some v →
  begin_ this (World h o l c) = (Ret (Ptr (buffer_ (data_ v)) 0), World h o l c).
Proof. intros H. unfold begin_. by rewrite (bind_ret _ _ _ _ _ (get_data_eq _ _ _ _ _ _ H)). Qed.

Lemma end_eq h o l c this v :
  o !! this = Some v →
  end_ this (World h o l c) = (Ret (Ptr (buffer_ (data_ v)) (size_ v)), World h o l c).
Proof.
  intros H. unfold end_.
  rewrite (bind_ret _ _ _ _ _ (get_data_eq _ _ _ _ _ _ H)).
  by rewrite (bind_ret _ _ _ _ _ (get_size_eq _ _ _ _ _ _ H)).
Qed.

Lemma set_size_eq h o l c this v n :
  o !! this = Some v →
  set_size this n (World h o l c)
  = (Ret tt, World h (<[this := MkVector (data_ v) n]> o) l c).
Proof. intros H. unfold set_size. by rewrite (bind_ret _ _ _ _ _ (get_vec_eq _ _ _ _ _ _ H)). Qed.

Lemma set_data_eq h o l c this v m :
  o !! this = Some v →
  set_data this m (World h o l c)
  = (Ret tt, World h (<[this := MkVector m (size_ v)]> o) l c).
Proof. intros H. unfold set_data. by rewrite (bind_ret _ _ _ _ _ (get_vec_eq _ _ _ _ _ _ H)). Qed.

Lemma data_Swap_eq h o l c this v m :
  o !! this = Some v →
  data_Swap this m (World h o l c)
  = (Ret (data_ v), World h (<[this := MkVector m (size_ v)]> o) l c).
Proof.
  intros H. unfold data_Swap.
  rewrite (bind_ret _ _ _ _ _ (get_data_eq _ _ _ _ _ _ H)).
  by rewrite (bind_ret _ _ _ _ _ (set_data_eq _ _ _ _ _ _ _ H)).
Qed.

(** ** Pointers *)

Lemma ptr_diff_eq (b : option nat) i j w :
  j ≤ i → ptr_diff (Ptr b i) (Ptr b j) w = (Ret (i - j), w).
Proof.
  intros H. unfold ptr_diff, same_base. simpl.
  rewrite bool_decide_eq_true_2 by done.
  by destruct (Nat.leb_spec j i); [|lia].
Qed.

Lemma ptr_le_eq (b : option nat) i j : ptr_le (Ptr b i) (Ptr b j) = (i <=? j).
Proof. unfold ptr_le, same_base. simpl. by rewrite bool_decide_eq_true_2. Qed.

Lemma ptr_lt_eq (b : option nat) i j : ptr_lt (Ptr b i) (Ptr b j) = (i <? j).
Proof. unfold ptr_lt, same_base. simpl. by rewrite bool_decide_eq_true_2. Qed.

Lemma ptr_eqb_eq (b : option nat) i j : ptr_eqb (Ptr b i) (Ptr b j) = (i =? j).
Proof. unfold ptr_eqb, same_base. simpl. by rewrite bool_decide_eq_true_2. Qed.

(** ** Blocks *)

Lemma fresh_block h : h !! fresh (dom h) = None.
Proof. apply not_elem_of_dom. apply is_fresh. Qed.

Lemma Allocate_cells h o l c n :
  no_throw E → n ≠ 0 →
  Allocate E n (World h o l c)
  = (Ret (Some (fresh (dom h))),
     World (<[fresh (dom h) := replicate (alloc_cells n) Raw]> h) o l (S c)).
Proof.
  intros HE Hn. unfold Allocate.
  destruct (Nat.eqb_spec n 0); [done|].
  by rewrite (bind_ret _ _ _ _ _ (tick_ok _ _ _ _ _ HE)).
Qed.

Lemma Allocate_eq h o l c n :
  no_throw E → n ≠ 0 → alloc_fits n →
  Allocate E n (World h o l c)
  = (Ret (Some (fresh (dom h))),
     World (<[fresh (dom h) := replicate n Raw]> h) o l (S c)).
Proof.
  intros HE Hn Hfit. rewrite (Allocate_cells _ _ _ _ _ HE Hn).
  by rewrite alloc_cells_fits.
Qed.

Lemma RawMemory_ctor_cells h o l c n :
  no_throw E → n ≠ 0 →
  RawMemory_ctor E n (World h o l c)
  = (Ret (MkRawMemory (Some (fresh (dom h))) n),
     World (<[fresh (dom h) := replicate (alloc_cells n) Raw]> h) o l (S c)).
Proof.
  intros HE Hn. unfold RawMemory_ctor.
  by rewrite (bind_ret _ _ _ _ _ (Allocate_cells _ _ _ _ _ HE Hn)).
Qed.

Lemma RawMemory_ctor_eq h o l c n :
  no_throw E → n ≠ 0 → alloc_fits n →
  RawMemory_ctor E n (World h o l c)
  = (Ret (MkRawMemory (Some (fresh (dom h))) n),
     World (<[fresh (dom h) := replicate n Raw]> h) o l (S c)).
Proof.
  intros HE Hn Hfit. rewrite (RawMemory_ctor_cells _ _ _ _ _ HE Hn).
  by rewrite alloc_cells_fits.
Qed.

Lemma Deallocate_eq h o l c b cells :
  h !! b = Some cells →
  Deallocate (Some b) (World h o l c)
  = (Ret tt, World (delete b h) o (l + count_live cells) c).
Proof. intros H. unfold Deallocate. simpl. by rewrite H. Qed.

Lemma count_live_raw n : count_live (replicate n (@Raw T)) = 0.
Proof. unfold count_live. induction n as [|n IH]; [done|]. simpl. by rewrite filter_cons_False. Qed.

Lemma size_t_mul_fits n : doubling_fits n → size_t_mul n 2 = n * 2.
Proof.
  intros H. apply doubling_fits_mul in H. unfold size_t_mul.
  change (N.of_nat 2) with 2%N.
  rewrite N.mod_small by done. lia.
Qed.

Lemma cells_of_full xs : cells_of xs (length xs) = Live <$> xs.
Proof. unfold cells_of. rewrite Nat.sub_diag. simpl. by rewrite app_nil_r. Qed.

Lemma take_cells_of xs cap : take (length xs) (cells_of xs cap) = Live <$> xs.
Proof.
  unfold cells_of. rewrite <- (length_fmap Live xs) at 1. apply take_app_length.
Qed.

Lemma drop_cells_of xs cap :
  drop (length xs) (cells_of xs cap) = replicate (cap - length xs) Raw.
Proof.
  unfold cells_of. rewrite <- (length_fmap Live xs) at 1. apply drop_app_length.
Qed.

Lemma length_cells_of xs cap : length xs ≤ cap → length (cells_of xs cap) = cap.
Proof.
  intros H. unfold cells_of. rewrite length_app, length_fmap, length_replicate. lia.
Qed.

(** A vector that denotes a list satisfies the representation invariant,
    and its elements read off the store are that list. *)
Lemma vec_repr_inv w this buf xs cap :
  vec_repr w this buf xs cap → vec_inv w this = true ∧ contents w this = Some xs.
Proof.
  intros (Ho & [Hle Hfits] & Hbuf). unfold vec_inv, contents. rewrite Ho. simpl.
  destruct (Nat.leb_spec (length xs) cap) as [_|]; [|lia]. simpl.
  destruct buf as [b|].
  - destruct Hbuf as [Hb Hcap]. rewrite Hb.
    destruct (Nat.ltb_spec 0 cap) as [_|]; [|lia]. simpl.
    rewrite take_cells_of, drop_cells_of, length_cells_of by done.
    rewrite Nat.eqb_refl. simpl. split.
    + apply andb_true_iff. split.
      * apply forallb_forall. intros c Hc. apply list_elem_of_In in Hc.
        apply list_elem_of_fmap in Hc. by destruct Hc as (x & -> & _).
      * apply forallb_forall. intros c Hc. apply list_elem_of_In in Hc.
        apply elem_of_replicate in Hc. by destruct Hc as [-> _].
    + apply mapM_Some. clear. induction xs as [|x xs IH]; by constructor.
  - subst cap. simpl. split; [done|].
    by destruct xs as [|x xs]; [|simpl in Hle; lia].
Qed.

End Steps.

Ltac norm :=
  try unfold ptr_add; try unfold GetAddress;
  cbn [data_ buffer_ size_ capacity_ p_base p_off Nat.add].

Section Insertion.
Context {T : Type} {sT : SizeOf T} (E : env T).
Implicit Types (w : world T) (h : gmap nat (list (cell T))) (o : gmap nat Vector).
Implicit Types (cells : list (cell T)) (xs ys pre post : list T) (args : ctor_args T).

Lemma operand_value_load h o l c s v :
  operand_value h s = Some v →
  read_operand s (World h o l c) = (Ret v, World h o l c).
Proof.
  destruct s as [x|[[b|] i]]; simpl; intros H; try done.
  - by simplify_eq.
  - destruct (h !! b) as [cells|] eqn:Hb; [|done].
    destruct (cells !! i) as [[|y]|] eqn:Hi; try done. simplify_eq.
    by eapply load_eq.
Qed.

Lemma mark_source_frame h args v b :
  (∀ q, args = MoveOf (Cell q) → p_base q ≠ Some b) →
  mark_source E h args v !! b = h !! b.
Proof.
  intros Hout. destruct args as [v0|s|[x|[[b0|] i]]]; try done. simpl.
  destruct (h !! b0) as [cells|] eqn:Hb0; [|done].
  apply lookup_insert_ne. specialize (Hout _ eq_refl). simpl in Hout. congruence.
Qed.

Lemma run_ctor_ok h o l c args v :
  no_throw E → args_value h args = Some v →
  run_ctor E args (World h o l c) = (Ret v, World (mark_source E h args v) o l (S c)).
Proof.
  intros HE Hv. destruct args as [v0|s|s]; simpl in Hv.
  - simplify_eq. unfold run_ctor.
    by rewrite (bind_ret _ _ _ _ _ (tick_ok _ _ _ _ _ _ HE)).
  - unfold run_ctor.
    rewrite (bind_ret _ _ _ _ _ (operand_value_load _ _ _ _ _ _ Hv)).
    by rewrite (bind_ret _ _ _ _ _ (tick_ok _ _ _ _ _ _ HE)).
  - destruct s as [x|[[b|] i]]; simpl in Hv; try done.
    + simplify_eq. unfold run_ctor. simpl.
      step ltac:(reflexivity).
      by rewrite (bind_ret _ _ _ _ _ (tick_ok _ _ _ _ _ _ HE)).
    + simpl. destruct (h !! b) as [cells|] eqn:Hb; [|done].
      destruct (cells !! i) as [[|y]|] eqn:Hi; try done. simplify_eq.
      unfold run_ctor, read_operand, mark_moved.
      step ltac:(by eapply load_eq).
      step ltac:(by apply tick_ok).
      step ltac:(by eapply store_eq).
      reflexivity.
Qed.

Lemma Construct_args h o l c b j cells args v :
  no_throw E →
  h !! b = Some cells → cells !! j = Some Raw →
  args_value h args = Some v →
  (∀ q, args = MoveOf (Cell q) → p_base q ≠ Some b) →
  Construct E (Ptr (Some b) j) args (World h o l c)
  = (Ret tt, World (<[b := <[j := Live v]> cells]> (mark_source E h args v)) o l (S c)).
Proof.
  intros HE Hb Hj Hv Hout.
  unfold Construct.
  step ltac:(by eapply get_cell_eq).
  step ltac:(by apply run_ctor_ok).
  eapply emplace_raw_eq; [|done]. by rewrite mark_source_frame.
Qed.

Lemma moves_outside_frame b args :
  moves_outside (Some b) args → ∀ q, args = MoveOf (Cell q) → p_base q ≠ Some b.
Proof. intros H q ->. exact H. Qed.

Lemma cells_of_snoc xs cap v :
  length xs < cap →
  <[length xs := Live v]> (cells_of xs cap) = cells_of (xs ++ [v]) cap.
Proof.
  intros H. unfold cells_of.
  replace (cap - length xs) with (S (cap - length (xs ++ [v])))
    by (rewrite length_app; simpl; lia).
  simpl.
  replace (length xs) with (length (Live <$> xs)) at 1 by apply length_fmap.
  rewrite insert_middle. rewrite fmap_app. simpl. by rewrite <- app_assoc.
Qed.

Lemma cells_of_lookup_raw xs cap i :
  length xs ≤ i → i < cap → cells_of xs cap !! i = Some Raw.
Proof.
  intros H1 H2. unfold cells_of.
  rewrite lookup_app_r by (rewrite length_fmap; lia).
  apply lookup_replicate_2. rewrite length_fmap. lia.
Qed.

Lemma Emplace_at_end h o l c this b xs cap args v :
  no_throw E →
  o !! this = Some (MkVector (MkRawMemory (Some b) cap) (length xs)) →
  length xs < cap →
  h !! b = Some (cells_of xs cap) →
  args_value h args = Some v →
  moves_outside (Some b) args →
  ∃ h',
    Emplace E this (Ptr (Some b) (length xs)) args (World h o l c)
    = (Ret (Ptr (Some b) (length xs)),
       World h' (<[this := MkVector (MkRawMemory (Some b) cap) (length xs + 1)]> o)
         l (S c)) ∧
    h' !! b = Some (cells_of (xs ++ [v]) cap) ∧
    (∀ b0, b0 ≠ b → h' !! b0 = mark_source E h args v !! b0).
Proof.
  intros HE Ho Hlt Hb Hv Hout.
  pose proof (Construct_args h o l c b (length xs) _ args v HE Hb
                (cells_of_lookup_raw _ _ _ (le_n _) Hlt) Hv
                (moves_outside_frame _ _ Hout)) as Hcons.
  eexists. split; [|split].
  - unfold Emplace.
    step ltac:(by eapply begin_eq). norm.
    step ltac:(by eapply end_eq). norm.
    rewrite !ptr_le_eq.
    replace (_ && _) with true by (symmetry; apply andb_true_iff; split; apply Nat.leb_le; lia).
    step ltac:(apply assert_true).
    step ltac:(by eapply get_size_eq). norm.
    step ltac:(by eapply Capacity_eq). norm.
    destruct (Nat.eqb_spec (length xs) cap) as [?|_]; [lia|].
    step ltac:(by eapply begin_eq). norm.
    step ltac:(apply ptr_diff_eq; lia). rewrite Nat.sub_0_r.
    unfold cend.
    step ltac:(by eapply end_eq). norm.
    rewrite ptr_eqb_eq, Nat.eqb_refl.
    step ltac:(by eapply end_eq). norm.
    step ltac:(exact Hcons).
    step ltac:(by eapply get_size_eq). norm.
    step ltac:(by eapply set_size_eq). norm.
    reflexivity.
  - rewrite lookup_insert_eq. by rewrite cells_of_snoc.
  - intros b0 Hb0. by rewrite lookup_insert_ne.
Qed.

Lemma Construct_move_same h o l c b i j cells x :
  no_throw E →
  h !! b = Some cells → cells !! i = Some (Live x) → cells !! j = Some Raw →
  Construct E (Ptr (Some b) j) (MoveOf (Cell (Ptr (Some b) i))) (World h o l c)
  = (Ret tt, World (<[b := <[j := Live x]> (<[i := Live (moved_from E x)]> cells)]> h)
               o l (S c)).
Proof.
  intros HE Hb Hi Hj. unfold Construct.
  step ltac:(by eapply get_cell_eq).
  unfold run_ctor, read_operand, mark_moved.
  step ltac:(step ltac:(by eapply load_eq); step ltac:(by apply tick_ok);
             step ltac:(by eapply store_eq); reflexivity).
  erewrite emplace_raw_eq; [|apply lookup_insert_eq|].
  - by rewrite insert_insert_eq.
  - rewrite list_lookup_insert_ne; [done|]. intros ->. congruence.
Qed.

Lemma Emplace_in_middle h o l c this b pre ys y cap args v :
  no_throw E →
  o !! this = Some (MkVector (MkRawMemory (Some b) cap) (length (pre ++ ys ++ [y]))) →
  length (pre ++ ys ++ [y]) < cap →
  h !! b = Some (cells_of (pre ++ ys ++ [y]) cap) →
  args_value h args = Some v →
  moves_outside (Some b) args →
  ∃ h' c',
    Emplace E this (Ptr (Some b) (length pre)) args (World h o l c)
    = (Ret (Ptr (Some b) (length pre)),
       World h' (<[this := MkVector (MkRawMemory (Some b) cap)
                             (length (pre ++ ys ++ [y]) + 1)]> o) l c') ∧
    h' !! b = Some (cells_of (pre ++ v :: ys ++ [y]) cap) ∧
    (∀ b0, b0 ≠ b → h' !! b0 = mark_source E h args v !! b0) ∧
    c' = c + length ys + 3.
Proof.
  intros HE Ho Hlt Hb Hv Hout.
  pose proof (run_ctor_ok h o l c args v HE Hv) as Hrun.
  pose proof (mark_source_frame h args v b (moves_outside_frame _ _ Hout)) as Hframe.
  rewrite Hb in Hframe. clear Hb Hv Hout.
  set (n := length (pre ++ ys ++ [y])) in *.
  assert (Hn : n = length pre + length ys + 1)
    by (unfold n; rewrite !length_app; simpl; lia).
  set (r := cap - n - 1).
  set (P := (Live <$> pre) ++ (Live <$> ys)).
  assert (HP : length P = n - 1)
    by (unfold P; rewrite length_app, !length_fmap; lia).
  assert (HB0 : cells_of (pre ++ ys ++ [y]) cap
                = P ++ Live y :: Raw :: replicate r Raw).
  { unfold cells_of. fold n. replace (cap - n) with (S r) by (unfold r; lia).
    rewrite !fmap_app. simpl. unfold P. by rewrite <- !app_assoc. }
  rewrite HB0 in Hframe.
  eexists _, _. split; [|split; [|split]].
  - unfold Emplace.
    step ltac:(by eapply begin_eq). norm.
    step ltac:(by eapply end_eq). norm.
    rewrite !ptr_le_eq.
    replace (_ && _) with true
      by (symmetry; apply andb_true_iff; split; apply Nat.leb_le; lia).
    step ltac:(apply assert_true).
    step ltac:(by eapply get_size_eq). norm.
    step ltac:(by eapply Capacity_eq). norm.
    destruct (Nat.eqb_spec n cap) as [?|_]; [lia|].
    step ltac:(by eapply begin_eq). norm.
    step ltac:(apply ptr_diff_eq; lia). rewrite Nat.sub_0_r.
    unfold cend.
    step ltac:(by eapply end_eq). norm.
    rewrite ptr_eqb_eq.
    destruct (Nat.eqb_spec (length pre) n) as [?|_]; [lia|].
    step ltac:(exact Hrun).
    step ltac:(by eapply end_eq). norm.
    step ltac:(apply ptr_minus_eq; lia).
    step ltac:(eapply (Construct_move_same _ _ _ _ _ (n - 1) n); [done|exact Hframe| |]).
    { rewrite <- HP. apply lookup_middle. }
    { replace n with (length P + 1) by lia. apply lookup_middle_next. }
    replace (<[n:=Live y]> (<[n - 1:=Live (moved_from E y)]> (P ++ Live y :: Raw :: replicate r Raw)))
      with ((Live <$> pre) ++ (Live <$> ys) ++ Live (moved_from E y) :: Live y :: replicate r Raw).
    2:{ rewrite <- HP at 1. rewrite insert_middle.
        replace n with (length P + 1) at 1 by lia. rewrite insert_middle_next.
        unfold P. by rewrite <- app_assoc. }
    step ltac:(
      apply try_catch_ret;
      step ltac:(by eapply end_eq); norm;
      step ltac:(apply ptr_minus_eq; lia);
      unfold move_backward;
      step ltac:(apply ptr_diff_eq; lia);
      eapply (move_backward_loop_at E _ _ _ _ b _ _ _ ys (Live <$> pre));
        [done|apply lookup_insert_eq|lia|rewrite length_fmap; lia|lia]).
    step ltac:(by eapply begin_eq). norm.
    rewrite insert_insert_eq.
    step ltac:(eapply move_assign_ext; [done|apply lookup_insert_eq|]).
    { replace (length pre) with (length (Live <$> pre)) by apply length_fmap.
      apply lookup_middle. }
    rewrite insert_insert_eq.
    step ltac:(by eapply get_size_eq). norm.
    step ltac:(by eapply set_size_eq). norm.
    reflexivity.
  - rewrite lookup_insert_eq. f_equal.
    replace (length pre) with (length (Live <$> pre)) by apply length_fmap.
    rewrite insert_middle.
    unfold cells_of.
    replace (cap - length (pre ++ v :: ys ++ [y])) with r
      by (unfold r; rewrite !length_app; simpl; rewrite length_app; simpl; lia).
    rewrite !fmap_app. csimpl. rewrite fmap_app. csimpl.
    by rewrite <- !app_assoc; csimpl; rewrite <- ?app_assoc.
  - intros b0 Hb0. by rewrite !lookup_insert_ne.
  - lia.
Qed.

Lemma args_value_fresh h args v b' cells :
  h !! b' = None → args_value h args = Some v →
  args_value (<[b' := cells]> h) args = Some v ∧
  ∀ q, args = MoveOf (Cell q) → p_base q ≠ Some b'.
Proof.
  intros Hfresh Hv.
  assert (Hop : ∀ s, operand_value h s = Some v →
                operand_value (<[b' := cells]> h) s = Some v ∧
                ∀ q, s = Cell q → p_base q ≠ Some b').
  { intros [x|[[b|] i]]; simpl; intros H; try done.
    destruct (decide (b = b')) as [->|Hne].
    - by rewrite Hfresh in H.
    - rewrite lookup_insert_ne by done. split; [done|].
      intros q [= <-]. simpl. congruence. }
  destruct args as [v0|s|s]; simpl in *.
  - done.
  - split; [by apply Hop|done].
  - destruct (Hop s Hv) as [H1 H2]. split; [done|].
    intros q [= ->]. by apply H2.
Qed.

Lemma mark_source_fresh h args v b' cells :
  h !! b' = None → args_value h args = Some v →
  mark_source E (<[b' := cells]> h) args v = <[b' := cells]> (mark_source E h args v).
Proof.
  intros Hfresh Hv. destruct args as [v0|s|[x|[[b|] i]]]; try done.
  simpl in *. destruct (h !! b) as [cs|] eqn:Hb; [|done].
  assert (b ≠ b') by (intros ->; congruence).
  rewrite lookup_insert_ne by done. rewrite Hb.
  by rewrite insert_insert_ne.
Qed.

Lemma insert_replicate_raw n i (x : cell T) :
  i < n →
  <[i := x]> (replicate n Raw) = replicate i Raw ++ x :: replicate (n - i - 1) Raw.
Proof.
  intros H. replace n with (i + S (n - i - 1)) at 1 by lia.
  rewrite replicate_add. simpl.
  replace i with (length (replicate i (@Raw T))) at 1 by apply length_replicate.
  by rewrite insert_middle.
Qed.

(** The two transfers around the new element, in the branch of [Emplace]
    that reallocates. *)
Lemma Emplace_transfer h o l c this b b' cap cap' pre post v R :
  no_throw E → b ≠ b' →
  o !! this = Some (MkVector (MkRawMemory (Some b) cap) (length (pre ++ post))) →
  h !! b = Some (Live <$> (pre ++ post)) →
  h !! b' = Some (replicate (length pre) Raw ++ Live v :: replicate (length post) Raw ++ R) →
  ∃ h' c' old,
    try_catch
      (d ← get_data this;
       if transfer_by_move E then
         uninitialized_move_n E (GetAddress d) (length pre)
           (GetAddress (MkRawMemory (Some b') cap')) ;;
         e ← end_ this; n ← ptr_diff e (Ptr (Some b) (length pre));
         uninitialized_move_n E (ptr_add (GetAddress d) (length pre)) n
           (ptr_add (ptr_add (GetAddress (MkRawMemory (Some b') cap')) (length pre)) 1)
       else
         uninitialized_copy_n E (GetAddress d) (length pre)
           (GetAddress (MkRawMemory (Some b') cap')) ;;
         try_catch
           (e ← end_ this; n ← ptr_diff e (Ptr (Some b) (length pre));
            uninitialized_copy_n E (ptr_add (GetAddress d) (length pre)) n
              (ptr_add (ptr_add (GetAddress (MkRawMemory (Some b') cap')) (length pre)) 1))
           (destroy_n (GetAddress (MkRawMemory (Some b') cap')) (length pre) ;; throw))
      (Destroy (ptr_add (GetAddress (MkRawMemory (Some b') cap')) (length pre)) ;; throw)
      (World h o l c)
    = (Ret tt, World h' o l c') ∧
    h' !! b = Some (Live <$> old) ∧ length old = length (pre ++ post) ∧
    h' !! b' = Some ((Live <$> pre) ++ Live v :: (Live <$> post) ++ R) ∧
    (∀ b0, b0 ≠ b → b0 ≠ b' → h' !! b0 = h !! b0) ∧
    c' = c + length (pre ++ post).
Proof.
  intros HE Hne Ho Hb Hb'.
  assert (Hlen : length (pre ++ post) = length pre + length post) by apply length_app.
  rewrite fmap_app in Hb.
  destruct (transfer_by_move E) eqn:Hmv.
  - eexists _, _, ((moved_from E <$> pre) ++ (moved_from E <$> post)). split; [|split; [|split; [|split; [|split]]]].
    + apply try_catch_ret.
      step ltac:(by eapply get_data_eq). norm.
      step ltac:(eapply (uninitialized_move_n_at E _ _ _ _ b b' _ _ _ pre [] (Live <$> post) []);
                 [done|done|exact Hb|exact Hb'|done|done|done]).
      step ltac:(by eapply end_eq). norm.
      step ltac:(apply ptr_diff_eq; lia).
      eapply (uninitialized_move_n_at E _ _ _ _ b b' _ _ _ post
                (Live <$> (moved_from E <$> pre)) [] ((Live <$> pre) ++ [Live v]) R);
        [done|done| | | | |].
      * rewrite lookup_insert_ne by done. rewrite lookup_insert_eq. by rewrite app_nil_r.
      * rewrite lookup_insert_eq. simpl. rewrite <- app_assoc. simpl.
        by replace (length (pre ++ post) - length pre) with (length post) by lia.
      * by rewrite !length_fmap.
      * lia.
      * rewrite length_app, length_fmap. simpl. lia.
    + rewrite lookup_insert_ne by done. rewrite lookup_insert_eq.
      rewrite app_nil_r. by rewrite fmap_app.
    + rewrite !length_app, !length_fmap. done.
    + rewrite lookup_insert_eq. by rewrite <- app_assoc.
    + intros b0 H1 H2. by rewrite !lookup_insert_ne.
    + lia.
  - eexists _, _, (pre ++ post). split; [|split; [|split; [|split; [|split]]]].
    + apply try_catch_ret.
      step ltac:(by eapply get_data_eq). norm.
      step ltac:(eapply (uninitialized_copy_n_at E _ _ _ _ b b' _ _ _ pre [] (Live <$> post) []);
                 [done|done|exact Hb|exact Hb'|done|done|done]).
      apply try_catch_ret.
      step ltac:(by eapply end_eq). norm.
      step ltac:(apply ptr_diff_eq; lia).
      eapply (uninitialized_copy_n_at E _ _ _ _ b b' _ _ _ post
                (Live <$> pre) [] ((Live <$> pre) ++ [Live v]) R);
        [done|done| | | | |].
      * rewrite lookup_insert_ne by done. rewrite Hb. by rewrite app_nil_r.
      * rewrite lookup_insert_eq. simpl. rewrite <- app_assoc. simpl.
        by replace (length (pre ++ post) - length pre) with (length post) by lia.
      * by rewrite !length_fmap.
      * lia.
      * rewrite length_app, length_fmap. simpl. lia.
    + rewrite !lookup_insert_ne by done. rewrite Hb. by rewrite fmap_app.
    + done.
    + rewrite lookup_insert_eq. by rewrite <- app_assoc.
    + intros b0 H1 H2. by rewrite !lookup_insert_ne.
    + lia.
Qed.

(** [Emplace] on a full buffer, when nothing throws. The elements that
    are transferred are those that the construction of the new element
    has left in the old block: [pre ++ post], read after the construction,
    so that a value moved from an element of the vector itself is
    covered. *)
Lemma Emplace_realloc_src h o l c this b pre post args v :
  no_throw E →
  o !! this = Some (MkVector (MkRawMemory (Some b) (length (pre ++ post)))
                      (length (pre ++ post))) →
  0 < length (pre ++ post) →
  is_Some (h !! b) →
  mark_source E h args v !! b = Some (Live <$> (pre ++ post)) →
  args_value h args = Some v →
  doubling_fits (length (pre ++ post)) →
  ∃ b' h' c',
    Emplace E this (Ptr (Some b) (length pre)) args (World h o l c)
    = (Ret (Ptr (Some b') (length pre)),
       World h' (<[this := MkVector (MkRawMemory (Some b') (length (pre ++ post) * 2))
                             (length (pre ++ post) + 1)]> o) l c') ∧
    h' !! b' = Some (cells_of (pre ++ v :: post) (length (pre ++ post) * 2)) ∧
    h !! b' = None ∧ h' !! b = None ∧
    (∀ b0, b0 ≠ b → b0 ≠ b' → h' !! b0 = mark_source E h args v !! b0) ∧
    c' = c + length (pre ++ post) + 2.
Proof.
  intros HE Ho Hpos Hb Hsrc Hv Hfit.
  set (n := length (pre ++ post)) in *.
  assert (Hn : n = length pre + length post) by apply length_app.
  set (b' := fresh (dom h)).
  assert (Hfresh : h !! b' = None) by apply fresh_block.
  assert (Hne : b ≠ b') by (intros ->; rewrite Hfresh in Hb; by destruct Hb).
  set (cells0 := replicate (n * 2) (@Raw T)).
  destruct (args_value_fresh h args v b' cells0 Hfresh Hv) as [Hv1 Hout1].
  pose proof (Construct_args (<[b' := cells0]> h) o l (S c) b' (length pre) cells0 args v HE)
    as Hcons.
  rewrite (mark_source_fresh h args v b' cells0 Hfresh Hv), insert_insert_eq in Hcons.
  set (h1 := mark_source E h args v) in *.
  specialize (Hcons (lookup_insert_eq _ _ _)).
  assert (Hb1 : h1 !! b = Some (Live <$> (pre ++ post))) by done.
  specialize (Hcons ltac:(apply lookup_replicate_2; lia) Hv1 Hout1).
  set (R := replicate (n * 2 - n - 1) (@Raw T)).
  assert (Hcells1 : <[length pre := Live v]> cells0
            = replicate (length pre) Raw ++ Live v :: replicate (length post) Raw ++ R).
  { unfold cells0. rewrite insert_replicate_raw by lia.
    do 2 f_equal. unfold R. rewrite <- replicate_add. f_equal. lia. }
  rewrite Hcells1 in Hcons.
  destruct (Emplace_transfer
              (<[b' := replicate (length pre) Raw ++ Live v :: replicate (length post) Raw ++ R]> h1)
              o l (S (S c)) this b b' n (n * 2) pre post v R HE Hne Ho)
    as (h2 & c2 & old & Htr & Hold & Hlen & Hnew & Hframe2 & Hc2);
    [by rewrite lookup_insert_ne|apply lookup_insert_eq|].
  exists b'. eexists _, _. split; [|split; [|split; [|split; [|split]]]].
  - unfold Emplace.
    step ltac:(by eapply begin_eq). norm.
    step ltac:(by eapply end_eq). norm.
    rewrite !ptr_le_eq.
    replace (_ && _) with true
      by (symmetry; apply andb_true_iff; split; apply Nat.leb_le; lia).
    step ltac:(apply assert_true).
    step ltac:(by eapply get_size_eq). norm.
    step ltac:(by eapply Capacity_eq). norm.
    rewrite Nat.eqb_refl.
    step ltac:(by eapply begin_eq). norm.
    step ltac:(apply ptr_diff_eq; lia). rewrite Nat.sub_0_r.
    destruct (Nat.eqb_spec n 0) as [?|_]; [lia|].
    rewrite size_t_mul_fits by done.
    step ltac:(apply RawMemory_ctor_eq; [done|lia|by apply doubling_fits_twice]).
    fold b'.
    step ltac:(apply unwinding_ret; norm;
               step ltac:(exact Hcons); exact Htr).
    step ltac:(by eapply data_Swap_eq). norm.
    step ltac:(eapply get_size_eq; apply lookup_insert_eq). norm.
    step ltac:(eapply (destroy_n_at _ _ _ _ b 0 n old [] []);
               [by rewrite app_nil_r|done|done]).
    step ltac:(eapply set_size_eq; apply lookup_insert_eq). norm.
    step ltac:(eapply begin_eq; apply lookup_insert_eq). norm.
    unfold RawMemory_dtor. norm.
    step ltac:(eapply Deallocate_eq; apply lookup_insert_eq).
    rewrite app_nil_r. simpl. rewrite count_live_raw, Nat.add_0_r.
    rewrite !insert_insert_eq.
    reflexivity.
  - rewrite lookup_delete_ne by done. rewrite lookup_insert_ne by done.
    rewrite Hnew. f_equal. unfold cells_of.
    replace (n * 2 - length (pre ++ v :: post)) with (n * 2 - n - 1)
      by (rewrite length_app; simpl; lia).
    rewrite fmap_app. csimpl. by rewrite <- app_assoc.
  - done.
  - apply lookup_delete_eq.
  - intros b0 H1 H2. rewrite lookup_delete_ne by done.
    rewrite lookup_insert_ne by done. rewrite Hframe2 by done.
    by rewrite lookup_insert_ne.
  - fold n in Hc2. lia.
Qed.

Lemma Emplace_realloc h o l c this b pre post args v :
  no_throw E →
  o !! this = Some (MkVector (MkRawMemory (Some b) (length (pre ++ post)))
                      (length (pre ++ post))) →
  0 < length (pre ++ post) →
  h !! b = Some (Live <$> (pre ++ post)) →
  args_value h args = Some v →
  moves_outside (Some b) args →
  doubling_fits (length (pre ++ post)) →
  ∃ b' h' c',
    Emplace E this (Ptr (Some b) (length pre)) args (World h o l c)
    = (Ret (Ptr (Some b') (length pre)),
       World h' (<[this := MkVector (MkRawMemory (Some b') (length (pre ++ post) * 2))
                             (length (pre ++ post) + 1)]> o) l c') ∧
    h' !! b' = Some (cells_of (pre ++ v :: post) (length (pre ++ post) * 2)) ∧
    h !! b' = None ∧ h' !! b = None ∧
    (∀ b0, b0 ≠ b → b0 ≠ b' → h' !! b0 = mark_source E h args v !! b0) ∧
    c' = c + length (pre ++ post) + 2.
Proof.
  intros HE Ho Hpos Hb Hv Hout Hfit.
  apply Emplace_realloc_src; try done.
  rewrite mark_source_frame by by apply moves_outside_frame. done.
Qed.

(** What the construction of the new element leaves in the block of the
    vector: its elements, one of them moved-from when the value is moved
    from an element of the vector itself. *)
Lemma mark_source_own h args v b xs :
  h !! b = Some (Live <$> xs) →
  args_value h args = Some v →
  ∃ xs', length xs' = length xs ∧
         mark_source E h args v !! b = Some (Live <$> xs') ∧
         (moves_outside (Some b) args → xs' = xs).
Proof.
  intros Hb Hv.
  destruct args as [v0|s|[x|[[b0|] i]]];
    try (exists xs; split; [done|split; [done|done]]).
  simpl in *. destruct (decide (b0 = b)) as [->|Hne].
  - rewrite Hb. exists (<[i := moved_from E v]> xs).
    split; [by rewrite length_insert|]. split; [|done].
    rewrite lookup_insert_eq. by rewrite list_fmap_insert.
  - exists xs. split; [done|]. split; [|done].
    destruct (h !! b0); [|done]. by rewrite lookup_insert_ne.
Qed.

Lemma Emplace_empty h o l c this args v :
  no_throw E →
  o !! this = Some (MkVector (MkRawMemory None 0) 0) →
  args_value h args = Some v →
  doubling_fits 0 →
  ∃ b' h' c',
    Emplace E this (Ptr None 0) args (World h o l c)
    = (Ret (Ptr (Some b') 0),
       World h' (<[this := MkVector (MkRawMemory (Some b') 1) 1]> o) l c') ∧
    h' !! b' = Some (cells_of [v] 1) ∧
    h !! b' = None ∧
    (∀ b0, b0 ≠ b' → h' !! b0 = mark_source E h args v !! b0) ∧
    c' = c + 2.
Proof.
  intros HE Ho Hv Hfit.
  set (b' := fresh (dom h)).
  assert (Hfresh : h !! b' = None) by apply fresh_block.
  destruct (args_value_fresh h args v b' [Raw] Hfresh Hv) as [Hv1 Hout1].
  pose proof (Construct_args (<[b' := [Raw]]> h) o l (S c) b' 0 [Raw] args v HE
                (lookup_insert_eq _ _ _) eq_refl Hv1 Hout1) as Hcons.
  rewrite (mark_source_fresh h args v b' [Raw] Hfresh Hv), insert_insert_eq in Hcons.
  exists b'. eexists _, _. split; [|split; [|split; [|split]]].
  - unfold Emplace.
    step ltac:(by eapply begin_eq). norm.
    step ltac:(by eapply end_eq). norm.
    rewrite !ptr_le_eq. simpl.
    step ltac:(apply assert_true).
    step ltac:(by eapply get_size_eq). norm.
    step ltac:(by eapply Capacity_eq). norm.
    simpl.
    step ltac:(by eapply begin_eq). norm.
    step ltac:(apply ptr_diff_eq; lia). simpl.
    step ltac:(apply RawMemory_ctor_eq; [done|lia|done]).
    fold b'.
    step ltac:(apply unwinding_ret; norm;
               step ltac:(exact Hcons);
               apply try_catch_ret;
               step ltac:(by eapply get_data_eq); norm;
               destruct (transfer_by_move E);
               [ step ltac:(reflexivity);
                 step ltac:(by eapply end_eq); norm;
                 step ltac:(apply ptr_diff_eq; lia); reflexivity
               | step ltac:(reflexivity);
                 apply try_catch_ret;
                 step ltac:(by eapply end_eq); norm;
                 step ltac:(apply ptr_diff_eq; lia); reflexivity ]).
    step ltac:(by eapply data_Swap_eq). norm.
    step ltac:(eapply get_size_eq; apply lookup_insert_eq). norm.
    step ltac:(reflexivity).
    step ltac:(eapply set_size_eq; apply lookup_insert_eq). norm.
    step ltac:(eapply begin_eq; apply lookup_insert_eq). norm.
    unfold RawMemory_dtor. norm.
    step ltac:(reflexivity).
    rewrite !insert_insert_eq.
    reflexivity.
  - by rewrite lookup_insert_eq.
  - done.
  - intros b0 Hb0. by rewrite lookup_insert_ne.
  - lia.
Qed.

(** [Emplace] on a full vector, when nothing throws, for any constructor
    arguments: the capacity doubles, and the new value is inserted among
    the elements that its construction has left. *)
Lemma Emplace_full w this buf xs cap i args v :
  no_throw E →
  vec_repr w this buf xs cap →
  length xs = cap → i ≤ length xs →
  args_value (heap w) args = Some v →
  doubling_fits cap →
  ∃ buf' xs' w',
    Emplace E this (Ptr buf i) args w = (Ret (Ptr buf' i), w') ∧
    vec_repr w' this buf' (take i xs' ++ v :: drop i xs') (Nat.max 1 (2 * cap)) ∧
    length xs' = length xs ∧
    (moves_outside buf args → xs' = xs).
Proof.
  destruct w as [h o l c]. intros HE (Ho & [Hle Hfits] & Hbuf) Hfull Hi Hv Hfit.
  simpl in Ho, Hv. subst cap.
  destruct buf as [b|].
  - destruct Hbuf as [Hb Hcap]. simpl in Hb. rewrite cells_of_full in Hb.
    destruct (mark_source_own h args v b xs Hb Hv) as (xs' & Hlen & Hsrc & Hsame).
    assert (Hpre : length (take i xs') = i) by (rewrite length_take; lia).
    destruct (Emplace_realloc_src h o l c this b (take i xs') (drop i xs') args v HE)
      as (b' & h' & c' & Hrun & Hnew & _).
    + rewrite take_drop, Hlen. exact Ho.
    + rewrite take_drop. lia.
    + by rewrite Hb.
    + by rewrite take_drop.
    + done.
    + by rewrite take_drop, Hlen.
    + rewrite take_drop, Hpre, Hlen in Hrun. rewrite take_drop, Hlen in Hnew.
      exists (Some b'), xs'. eexists. split; [exact Hrun|].
      split; [|done].
      assert (Hlen' : length (take i xs' ++ v :: drop i xs') = length xs + 1).
      { rewrite length_app, Hpre. simpl. rewrite length_drop. lia. }
      split; [|split]; simpl.
      * rewrite lookup_insert_eq. rewrite Hlen'. do 3 f_equal. lia.
      * split; [lia|]. by apply doubling_fits_alloc.
      * split; [|lia]. rewrite Hnew. do 2 f_equal. lia.
  - destruct xs as [|x xs]; [|done]. simpl in Hi. assert (i = 0) as -> by lia.
    destruct (Emplace_empty h o l c this args v HE Ho Hv Hfit)
      as (b' & h' & c' & Hrun & Hnew & _).
    exists (Some b'), []. eexists. split; [exact Hrun|]. split; [|done].
    split; [|split]; simpl.
    + by rewrite lookup_insert_eq.
    + split; [lia|]. exact Hfit.
    + split; [done|lia].
Qed.

(** [Emplace] when nothing throws, all branches together. *)
Lemma Emplace_ok w this buf xs cap i args v :
  no_throw E →
  vec_repr w this buf xs cap →
  i ≤ length xs →
  args_value (heap w) args = Some v →
  moves_outside buf args →
  (length xs = cap → doubling_fits cap) →
  ∃ buf' w',
    Emplace E this (Ptr buf i) args w = (Ret (Ptr buf' i), w') ∧
    vec_repr w' this buf' (take i xs ++ v :: drop i xs)
      (if decide (length xs = cap) then Nat.max 1 (2 * cap) else cap) ∧
    (length xs < cap → buf' = buf) ∧
    leaked w' = leaked w ∧
    (∀ that, that ≠ this → objs w' !! that = objs w !! that) ∧
    (∀ b0, Some b0 ≠ buf → Some b0 ≠ buf' →
        heap w' !! b0 = mark_source E (heap w) args v !! b0) ∧
    (length xs = cap →
        (∀ b, buf = Some b → heap w' !! b = None) ∧
        (∀ b', buf' = Some b' → heap w !! b' = None)) ∧
    clock w' = clock w + (if decide (length xs = cap) then length xs + 2
                          else if decide (i = length xs) then 1
                               else length xs - i + 2).
Proof.
  destruct w as [h o l c]. intros HE (Ho & [Hle Hfits] & Hbuf) Hi Hv Hout Hfit.
  simpl in Ho, Hv.
  assert (Hpre : length (take i xs) = i) by (rewrite length_take; lia).
  assert (Hxs : xs = take i xs ++ drop i xs) by (by rewrite take_drop).
  remember (take i xs) as pre eqn:Epre. remember (drop i xs) as post eqn:Epost.
  clear Epre Epost. subst xs i.
  assert (Hlen : length (pre ++ post) = length pre + length post) by apply length_app.
  assert (Hlen' : length (pre ++ v :: post) = length (pre ++ post) + 1)
    by (rewrite !length_app; simpl; lia).
  destruct buf as [b|].
  - destruct Hbuf as [Hb Hcap]. simpl in Hb.
    destruct (decide (length (pre ++ post) = cap)) as [Heq|Hneq].
    + (* no room left *)
      subst cap. rewrite cells_of_full in Hb.
      destruct (Emplace_realloc h o l c this b pre post args v)
        as (b' & h' & c' & Hrun & Hnew & Hfresh & Hold & Hframe & Hc);
        try done; [by apply Hfit|].
      exists (Some b'). eexists. split; [exact Hrun|].
      split; [|split; [lia|split; [done|split; [|split; [|split]]]]].
      * split; [|split].
        -- simpl. rewrite lookup_insert_eq. do 3 f_equal; lia.
        -- split; [lia|]. by apply Hfit.
        -- simpl. split; [|lia]. rewrite Hnew. do 2 f_equal. lia.
      * intros that Hthat. simpl. by rewrite lookup_insert_ne.
      * intros b0 H1 H2. simpl. apply Hframe; congruence.
      * intros _. split.
        -- by intros ? [= <-].
        -- by intros ? [= <-].
      * repeat case_decide; simpl in *; lia.
    + destruct post as [|z zs _] using rev_ind.
      * (* room left, at the end *)
        rewrite app_nil_r in *.
        destruct (Emplace_at_end h o l c this b pre cap args v)
          as (h' & Hrun & Hnew & Hframe); try done; [lia|].
        exists (Some b). eexists. split; [exact Hrun|].
        split; [|split; [done|split; [done|split; [|split; [|split]]]]].
        -- split; [|split].
           ++ simpl. rewrite lookup_insert_eq. rewrite length_app. done.
           ++ split; [rewrite length_app; simpl; lia|fits].
           ++ simpl. split; [done|lia].
        -- intros that Hthat. simpl. by rewrite lookup_insert_ne.
        -- intros b0 H1 _. simpl. apply Hframe. congruence.
        -- intros ?. lia.
        -- repeat case_decide; simpl in *; lia.
      * (* room left, in the middle *)
        destruct (Emplace_in_middle h o l c this b pre zs z cap args v)
          as (h' & c' & Hrun & Hnew & Hframe & Hc); try done; [lia|].
        exists (Some b). eexists. split; [exact Hrun|].
        split; [|split; [done|split; [done|split; [|split; [|split]]]]].
        -- split; [|split].
           ++ simpl. rewrite lookup_insert_eq. do 2 f_equal. lia.
           ++ split; [lia|fits].
           ++ simpl. split; [done|lia].
        -- intros that Hthat. simpl. by rewrite lookup_insert_ne.
        -- intros b0 H1 _. simpl. apply Hframe. congruence.
        -- intros ?. lia.
        -- repeat case_decide; rewrite ?length_app in *; simpl in *; lia.
  - (* no buffer yet *)
    subst cap. destruct pre as [|x pre]; [|simpl in Hle; lia].
    destruct post as [|x post]; [|simpl in Hle; lia].
    destruct (Emplace_empty h o l c this args v)
      as (b' & h' & c' & Hrun & Hnew & Hfresh & Hframe & Hc); try done;
      [by apply Hfit|].
    exists (Some b'). eexists. split; [exact Hrun|].
    split; [|split; [simpl; lia|split; [done|split; [|split; [|split]]]]].
    + split; [|split]; simpl.
      * by rewrite lookup_insert_eq.
      * split; [lia|]. by apply Hfit.
      * split; [done|lia].
    + intros that Hthat. simpl. by rewrite lookup_insert_ne.
    + intros b0 _ H2. simpl. apply Hframe. congruence.
    + intros _. split; [done|by intros ? [= <-]].
    + repeat case_decide; simpl in *; lia.
Qed.

End Insertion.

Section Growth.
Context {T : Type} {sT : SizeOf T} (E : env T).
Implicit Types (w : world T) (h : gmap nat (list (cell T))) (o : gmap nat Vector).
Implicit Types (cells : list (cell T)) (xs ys pre post : list T) (args : ctor_args T).

(** ** Reserve *)

Lemma Reserve_noop h o l c this v n :
  o !! this = Some v → n ≤ capacity_ (data_ v) →
  Reserve E this n (World h o l c) = (Ret tt, World h o l c).
Proof.
  intros Ho Hle. unfold Reserve.
  step ltac:(by eapply Capacity_eq).
  by destruct (Nat.leb_spec n (capacity_ (data_ v))); [|lia].
Qed.

Lemma Reserve_grows w this buf xs cap n :
  no_throw E →
  vec_repr w this buf xs cap → cap < n → alloc_fits n →
  ∃ b' w',
    Reserve E this n w = (Ret tt, w') ∧
    vec_repr w' this (Some b') xs n ∧
    buf ≠ Some b' ∧
    leaked w' = leaked w ∧
    (∀ that, that ≠ this → objs w' !! that = objs w !! that) ∧
    heap w !! b' = None ∧
    (∀ b, buf = Some b → heap w' !! b = None) ∧
    (∀ b0, Some b0 ≠ buf → b0 ≠ b' → heap w' !! b0 = heap w !! b0) ∧
    clock w' = clock w + length xs + 1.
Proof.
  destruct w as [h o l c]. intros HE (Ho & [Hle Hfits] & Hbuf) Hlt Hn. simpl in Ho.
  set (b' := fresh (dom h)).
  assert (Hfresh : h !! b' = None) by apply fresh_block.
  exists b'. destruct buf as [b|].
  - destruct Hbuf as [Hb Hcap]. simpl in Hb.
    assert (Hne : b ≠ b') by (intros ->; congruence).
    assert (Htr : ∃ old c',
      (if transfer_by_move E
       then uninitialized_move_n E (Ptr (Some b) 0) (length xs) (Ptr (Some b') 0)
       else uninitialized_copy_n E (Ptr (Some b) 0) (length xs) (Ptr (Some b') 0))
        (World (<[b' := replicate n Raw]> h) o l (S c))
      = (Ret tt, World (<[b' := cells_of xs n]>
                          (<[b := (Live <$> old) ++ replicate (cap - length xs) Raw]>
                             (<[b' := replicate n Raw]> h))) o l c') ∧
      length old = length xs ∧ c' = S c + length xs).
    { destruct (transfer_by_move E).
      - exists (moved_from E <$> xs). eexists. split; [|by rewrite length_fmap].
        eapply (uninitialized_move_n_at E _ _ _ _ b b' _ _ _ xs [] _ [] (replicate (n - length xs) Raw));
          [done|done|by rewrite lookup_insert_ne|rewrite lookup_insert_eq|done|done|done].
        simpl. rewrite <- replicate_add. do 2 f_equal. lia.
      - exists xs. eexists. split; [|done].
        erewrite (uninitialized_copy_n_at E _ _ _ _ b b' _ _ _ xs [] _ [] (replicate (n - length xs) Raw));
          [|done|done|by rewrite lookup_insert_ne|rewrite lookup_insert_eq|done|done|done].
        + simpl. rewrite insert_insert_eq. f_equal. f_equal.
          rewrite (insert_insert_ne _ b b') by done.
          rewrite insert_insert_eq. f_equal. symmetry. by apply insert_id.
        + simpl. rewrite <- replicate_add. do 2 f_equal. lia. }
    destruct Htr as (old & c' & Htr & Hold & Hc').
    eexists. split; [|split; [|split; [|split; [|split; [|split; [|split; [|split]]]]]]].
    + unfold Reserve.
      step ltac:(by eapply Capacity_eq). norm.
      destruct (Nat.leb_spec n cap); [lia|].
      step ltac:(apply RawMemory_ctor_eq; [done|lia|done]). fold b'.
      step ltac:(apply unwinding_ret;
                 step ltac:(by eapply get_data_eq); norm;
                 step ltac:(by eapply get_size_eq); norm;
                 exact Htr).
      step ltac:(by eapply get_data_eq). norm.
      step ltac:(by eapply get_size_eq). norm.
      step ltac:(eapply (destroy_n_at _ _ _ _ b 0 _ old []);
                 [rewrite lookup_insert_ne by done; apply lookup_insert_eq|done|done]).
      step ltac:(by eapply data_Swap_eq). norm.
      unfold RawMemory_dtor. norm.
      erewrite Deallocate_eq by apply lookup_insert_eq.
      simpl. rewrite <- replicate_add, count_live_raw, Nat.add_0_r.
      reflexivity.
    + split; [|split]; simpl.
      * by rewrite lookup_insert_eq.
      * split; [lia|done].
      * split; [|lia]. rewrite lookup_delete_ne by done.
        rewrite lookup_insert_ne by done. by rewrite lookup_insert_eq.
    + congruence.
    + done.
    + intros that Hthat. simpl. by rewrite lookup_insert_ne.
    + done.
    + intros ? [= <-]. simpl. apply lookup_delete_eq.
    + intros b0 H1 H2. simpl. rewrite lookup_delete_ne by congruence.
      by rewrite !lookup_insert_ne by congruence.
    + simpl. lia.
  - subst cap. destruct xs as [|x xs]; [|simpl in Hle; lia].
    eexists. split; [|split; [|split; [|split; [|split; [|split; [|split; [|split]]]]]]].
    + unfold Reserve.
      step ltac:(by eapply Capacity_eq). norm.
      destruct (Nat.leb_spec n 0); [lia|].
      step ltac:(apply RawMemory_ctor_eq; [done|lia|done]). fold b'.
      step ltac:(apply unwinding_ret;
                 step ltac:(by eapply get_data_eq); norm;
                 step ltac:(by eapply get_size_eq); norm;
                 destruct (transfer_by_move E); reflexivity).
      step ltac:(by eapply get_data_eq). norm.
      step ltac:(by eapply get_size_eq). norm.
      step ltac:(reflexivity).
      step ltac:(by eapply data_Swap_eq). norm.
      reflexivity.
    + split; [|split]; simpl.
      * by rewrite lookup_insert_eq.
      * split; [lia|done].
      * split; [|lia]. rewrite lookup_insert_eq. unfold cells_of. simpl.
        by rewrite Nat.sub_0_r.
    + done.
    + done.
    + intros that Hthat. simpl. by rewrite lookup_insert_ne.
    + done.
    + done.
    + intros b0 _ H2. simpl. by rewrite lookup_insert_ne by congruence.
    + simpl. lia.
Qed.


(** ** Copy construction *)

Lemma Vector_copy_ok w this other buf xs cap :
  no_throw E →
  vec_repr w other buf xs cap → this ≠ other →
  ∃ buf' w',
    Vector_copy E this other w = (Ret tt, w') ∧
    vec_repr w' this buf' xs (length xs) ∧
    vec_repr w' other buf xs cap ∧
    (is_Some buf' → buf' ≠ buf) ∧
    leaked w' = leaked w ∧
    (∀ that buf3 ys cap3,
        that ≠ this → vec_repr w that buf3 ys cap3 →
        vec_repr w' that buf3 ys cap3 ∧ (is_Some buf' → buf' ≠ buf3)).
Proof.
  destruct w as [h o l c]. intros HE (Ho & [Hle Hfits] & Hbuf) Hne. simpl in Ho.
  destruct xs as [|x0 xs0] eqn:Hxs.
  - (* nothing to copy: no block is requested *)
    exists None. eexists. split; [|split; [|split; [|split; [|split]]]].
    + unfold Vector_copy.
      step ltac:(by eapply get_vec_eq). norm.
      step ltac:(reflexivity).
      step ltac:(reflexivity).
      reflexivity.
    + split; [|split]; simpl; [by rewrite lookup_insert_eq|split; [lia|fits]|done].
    + split; [|split]; simpl; [by rewrite lookup_insert_ne|done|done].
    + by intros [? [=]].
    + done.
    + intros that buf3 ys cap3 Hthat (Ho3 & [Hle3 Hfits3] & Hbuf3).
      split; [|by intros [? [=]]].
      split; [|split]; simpl in *; [by rewrite lookup_insert_ne|done|done].
  - rewrite <- Hxs in *.
    assert (Hpos : length xs ≠ 0) by (rewrite Hxs; simpl; lia).
    clear Hxs x0 xs0.
    destruct buf as [b|]; [|lia].
    destruct Hbuf as [Hb Hcap]. simpl in Hb.
    set (b' := fresh (dom h)).
    assert (Hfresh : h !! b' = None) by apply fresh_block.
    assert (Hbb : b ≠ b') by (intros ->; congruence).
    exists (Some b'). eexists. split; [|split; [|split; [|split; [|split]]]].
    + unfold Vector_copy.
      step ltac:(by eapply get_vec_eq). norm.
      step ltac:(apply RawMemory_ctor_eq; [done|done|fits]). fold b'.
      step ltac:(apply unwinding_ret; norm;
                 eapply (uninitialized_copy_n_at E _ _ _ _ b b' _ _ _ xs [] _ [] []);
                 [done|done|by rewrite lookup_insert_ne|rewrite lookup_insert_eq
                 |done|done|done]; by rewrite app_nil_r).
      reflexivity.
    + split; [|split]; simpl.
      * by rewrite lookup_insert_eq.
      * split; [lia|fits].
      * split; [|lia]. rewrite lookup_insert_eq. by rewrite cells_of_full, app_nil_r.
    + split; [|split]; simpl.
      * by rewrite lookup_insert_ne.
      * done.
      * split; [|done]. by rewrite !lookup_insert_ne.
    + intros _. congruence.
    + done.
    + intros that buf3 ys cap3 Hthat (Ho3 & [Hle3 Hfits3] & Hbuf3). simpl in *.
      assert (Hb3 : Some b' ≠ buf3).
      { destruct buf3 as [b3|]; [|done]. destruct Hbuf3 as [Hb3 _].
        intros [= <-]. congruence. }
      split; [|done].
      split; [|split]; simpl; [by rewrite lookup_insert_ne|done|].
      destruct buf3 as [b3|]; [|done]. destruct Hbuf3 as [Hb3' Hc3].
      split; [|done]. rewrite !lookup_insert_ne by congruence. done.
Qed.

(** ** Writing one element *)

Lemma cells_of_lookup_live xs cap j x :
  xs !! j = Some x → cells_of xs cap !! j = Some (Live x).
Proof.
  intros H. unfold cells_of.
  rewrite lookup_app_l by (rewrite length_fmap; by eapply lookup_lt_Some).
  by rewrite list_lookup_fmap, H.
Qed.

Lemma cells_of_insert xs cap j x :
  j < length xs →
  <[j := Live x]> (cells_of xs cap) = cells_of (<[j := x]> xs) cap.
Proof.
  intros H. unfold cells_of.
  rewrite insert_app_l by by rewrite length_fmap.
  by rewrite list_fmap_insert, length_insert.
Qed.

Lemma index_mut_ok h o l c this buf cap sz j :
  o !! this = Some (MkVector (MkRawMemory buf cap) sz) →
  j < sz → sz ≤ cap →
  index_mut E this j (World h o l c) = (Ret (Ptr buf j), World h o l c).
Proof.
  intros Ho Hj Hle. unfold index_mut. apply noexcept_ret.
  step ltac:(by eapply get_size_eq). norm.
  destruct (Nat.ltb_spec j sz); [|lia].
  step ltac:(apply assert_true).
  step ltac:(by eapply get_data_eq). norm.
  unfold RawMemory_index. norm.
  destruct (Nat.ltb_spec j cap); [|lia].
  step ltac:(apply assert_true).
  reflexivity.
Qed.

Lemma assign_at_ok w this buf xs cap j x :
  no_throw E →
  vec_repr w this buf xs cap → j < length xs →
  ∃ w',
    assign_at E this j x w = (Ret tt, w') ∧
    vec_repr w' this buf (<[j := x]> xs) cap ∧
    (∀ that buf2 ys cap2,
        vec_repr w that buf2 ys cap2 → buf2 ≠ buf → vec_repr w' that buf2 ys cap2).
Proof.
  destruct w as [h o l c]. intros HE (Ho & [Hle Hfits] & Hbuf) Hj. simpl in Ho.
  destruct buf as [b|]; [|lia].
  destruct Hbuf as [Hb Hcap]. simpl in Hb.
  destruct (lookup_lt_is_Some_2 xs j Hj) as [y Hy].
  eexists. split; [|split].
  - unfold assign_at.
    step ltac:(by eapply index_mut_ok).
    unfold copy_assign, read_operand.
    step ltac:(reflexivity).
    step ltac:(eapply load_eq; [done|by apply cells_of_lookup_live]).
    step ltac:(by apply tick_ok).
    eapply store_eq; [done|by apply cells_of_lookup_live].
  - split; [|split]; simpl.
    + by rewrite length_insert.
    + by rewrite length_insert.
    + split; [|done]. rewrite lookup_insert_eq. by rewrite cells_of_insert.
  - intros that buf2 ys cap2 (Ho2 & [Hle2 Hfits2] & Hbuf2) Hdiff.
    split; [|split]; simpl in *; [done|done|].
    destruct buf2 as [b2|]; [|done].
    rewrite lookup_insert_ne; [done|congruence].
Qed.

(** ** Erase *)

Lemma PopBack_ok h o l c this b cap xs x :
  o !! this = Some (MkVector (MkRawMemory (Some b) cap) (length (xs ++ [x]))) →
  ∀ y R, h !! b = Some ((Live <$> xs) ++ Live y :: R) →
  PopBack E this (World h o l c)
  = (Ret tt, World (<[b := (Live <$> xs) ++ Raw :: R]> h)
               (<[this := MkVector (MkRawMemory (Some b) cap) (length xs)]> o) l c).
Proof.
  intros Ho y R Hb.
  assert (Hlen : length (xs ++ [x]) = length xs + 1) by (rewrite length_app; simpl; lia).
  unfold PopBack. apply noexcept_ret.
  step ltac:(by eapply get_size_eq). norm.
  destruct (Nat.ltb_spec 0 (length (xs ++ [x]))); [|lia].
  step ltac:(apply assert_true).
  step ltac:(by eapply get_data_eq). norm.
  step ltac:(apply ptr_minus_eq; lia).
  replace (length (xs ++ [x]) - 1) with (length (Live <$> xs))
    by (rewrite length_fmap; lia).
  step ltac:(eapply Destroy_eq; [done|apply lookup_middle]).
  rewrite insert_middle.
  step ltac:(by eapply get_size_eq). norm.
  erewrite set_size_eq by done. norm.
  do 4 f_equal. lia.
Qed.

Lemma Erase_ok w this buf xs cap i :
  no_throw E →
  vec_repr w this buf xs cap → i < length xs →
  ∃ w',
    Erase E this (Ptr buf i) w = (Ret (Ptr buf i), w') ∧
    vec_repr w' this buf (take i xs ++ drop (S i) xs) cap ∧
    clock w' = clock w + (length xs - S i) ∧
    leaked w' = leaked w ∧
    (∀ that, that ≠ this → objs w' !! that = objs w !! that) ∧
    (∀ b0, Some b0 ≠ buf → heap w' !! b0 = heap w !! b0).
Proof.
  destruct w as [h o l c]. intros HE (Ho & [Hle Hfits] & Hbuf) Hi. simpl in Ho.
  destruct buf as [b|]; [|lia].
  destruct Hbuf as [Hb Hcap]. simpl in Hb.
  destruct (lookup_lt_is_Some_2 xs i Hi) as [a Ha].
  assert (Hxs : xs = take i xs ++ a :: drop (S i) xs)
    by (by rewrite <- (take_drop_middle xs i a Ha) at 1).
  assert (Hpre : length (take i xs) = i) by (rewrite length_take; lia).
  remember (take i xs) as pre eqn:Epre. remember (drop (S i) xs) as ys eqn:Eys.
  clear Epre Eys Ha. subst xs i.
  assert (Hlen : length (pre ++ a :: ys) = length pre + 1 + length ys)
    by (rewrite length_app; simpl; lia).
  set (R := replicate (cap - length (pre ++ a :: ys)) (@Raw T)) in *.
  assert (Hb0 : h !! b = Some ((Live <$> pre) ++ Live a :: (Live <$> ys) ++ R)).
  { rewrite Hb. unfold cells_of. fold R. rewrite fmap_app. csimpl.
    by rewrite <- app_assoc. }
  eexists. split; [|split; [|split; [|split; [|split]]]].
  - unfold Erase. apply noexcept_ret.
    step ltac:(by eapply begin_eq). norm.
    step ltac:(by eapply end_eq). norm.
    rewrite ptr_le_eq, ptr_lt_eq.
    replace (_ && _) with true
      by (symmetry; apply andb_true_iff; split;
          [apply Nat.leb_le|apply Nat.ltb_lt]; lia).
    step ltac:(apply assert_true).
    step ltac:(apply ptr_diff_eq; lia). rewrite Nat.sub_0_r.
    step ltac:(unfold std_move; norm;
               step ltac:(apply ptr_diff_eq; lia);
               eapply (move_loop_at E _ _ _ _ b _ _ _ ys (Live <$> pre));
               [done|exact Hb0|rewrite length_fmap; lia|lia|by rewrite length_fmap]).
    replace (length (pre ++ a :: ys)) with (length ((pre ++ ys) ++ [a])) in Ho
      by (rewrite !length_app; simpl; lia).
    step ltac:(eapply (PopBack_ok _ _ _ _ _ _ _ (pre ++ ys) a Ho
                         (vacated_left E a ys) R);
               rewrite lookup_insert_eq; rewrite !fmap_app;
               by rewrite <- !app_assoc).
    step ltac:(eapply begin_eq; apply lookup_insert_eq). norm.
    rewrite insert_insert_eq.
    reflexivity.
  - split; [|split]; simpl.
    + rewrite lookup_insert_eq. by rewrite !length_app.
    + split; [rewrite length_app in *; simpl in *; lia|done].
    + split; [|done]. rewrite lookup_insert_eq. f_equal.
      unfold cells_of. f_equal.
      unfold R. change (Raw :: replicate ?n Raw) with (replicate (S n) (@Raw T)).
      f_equal. rewrite !length_app. simpl. lia.
  - simpl. f_equal. lia.
  - done.
  - intros that Hthat. simpl. by rewrite lookup_insert_ne.
  - intros b0 Hne0. simpl. by rewrite lookup_insert_ne by congruence.
Qed.

End Growth.

Section Doubling.
Context {T : Type} {sT : SizeOf T} (E : env T).
Implicit Types (w : world T) (h : gmap nat (list (cell T))) (o : gmap nat Vector).
Implicit Types (cells : list (cell T)) (xs ys vs : list T) (args : ctor_args T).

(** ** Powers of two *)

Lemma pow2_ceil_ge k : k ≤ pow2_ceil k.
Proof.
  unfold pow2_ceil. destruct (decide (k ≤ 1)) as [Hk|Hk].
  - assert (0 < 2 ^ Nat.log2_up k) by (apply Nat.neq_0_lt_0, Nat.pow_nonzero; lia). lia.
  - apply Nat.log2_up_spec. lia.
Qed.

Lemma pow2_ceil_least k j : k ≤ 2 ^ j → pow2_ceil k ≤ 2 ^ j.
Proof.
  intros H. unfold pow2_ceil. apply Nat.pow_le_mono_r; [done|].
  destruct (decide (k = 0)) as [->|Hk]; [change (Nat.log2_up 0) with 0; lia|].
  apply Nat.log2_up_le_pow2; [lia|done].
Qed.

Lemma pow2_ceil_full k : 0 < k → k = pow2_ceil k → pow2_ceil (k + 1) = 2 * k.
Proof.
  unfold pow2_ceil. intros Hk Heq.
  set (j := Nat.log2_up k) in *.
  rewrite (Nat.log2_up_unique (k + 1) (S j)).
  - rewrite Nat.pow_succ_r'. lia.
  - lia.
  - simpl Nat.pred. rewrite Nat.pow_succ_r'. lia.
Qed.

Lemma pow2_ceil_room k : 0 < k → k < pow2_ceil k → pow2_ceil (k + 1) = pow2_ceil k.
Proof.
  unfold pow2_ceil. intros Hk Hlt.
  assert (Hk1 : 1 < k).
  { destruct (decide (k = 1)) as [->|]; [|lia]. simpl in Hlt. lia. }
  f_equal. apply Nat.log2_up_unique.
  - by apply Nat.log2_up_pos.
  - pose proof (Nat.log2_up_spec k Hk1) as [H1 H2]. lia.
Qed.

(** The capacity that doubling from nothing reaches at size [n]. *)
Lemma doubled_capacity n cap :
  cap = (if decide (n = 0) then 0 else pow2_ceil n) →
  (if decide (n = cap) then Nat.max 1 (2 * cap) else cap) = pow2_ceil (n + 1).
Proof.
  intros ->. destruct (decide (n = 0)) as [->|Hn].
  - by rewrite decide_True.
  - pose proof (pow2_ceil_ge n). destruct (decide (n = pow2_ceil n)) as [Heq|Hne].
    + rewrite pow2_ceil_full by (done || lia). lia.
    + rewrite pow2_ceil_room by lia. done.
Qed.

Lemma doubling_fits_le n m :
  n ≤ m → doubling_fits (T:=T) m → doubling_fits (T:=T) n.
Proof. unfold doubling_fits. intros Hle. apply alloc_fits_le. lia. Qed.

(** ** Appending *)

Lemma PushBack_copy_ok w this buf xs cap x :
  no_throw E →
  vec_repr w this buf xs cap →
  (length xs = cap → doubling_fits cap) →
  ∃ buf' w',
    PushBack_copy E this (Ext x) w = (Ret tt, w') ∧
    vec_repr w' this buf' (xs ++ [x])
      (if decide (length xs = cap) then Nat.max 1 (2 * cap) else cap).
Proof.
  intros HE Hrepr Hfit.
  destruct (Emplace_ok E w this buf xs cap (length xs) (CopyOf (Ext x)) x)
    as (buf' & w' & Hrun & Hrepr' & _); try done.
  rewrite take_ge, drop_ge in Hrepr' by lia.
  exists buf', w'. split; [|done].
  destruct w as [h o l c]. destruct Hrepr as (Ho & _).
  unfold PushBack_copy, EmplaceBack.
  step ltac:(step ltac:(by eapply end_eq); norm; exact Hrun).
  reflexivity.
Qed.

Lemma push_backs_ok vs : ∀ w this buf xs cap,
  no_throw E →
  vec_repr w this buf xs cap →
  cap = (if decide (length xs = 0) then 0 else pow2_ceil (length xs)) →
  doubling_fits (length xs + length vs) →
  ∃ buf' w',
    push_backs E this vs w
    = (Ret (pow2_ceil <$> seq (length xs + 1) (length vs)), w') ∧
    vec_repr w' this buf' (xs ++ vs)
      (if decide (length (xs ++ vs) = 0) then 0 else pow2_ceil (length (xs ++ vs))).
Proof.
  induction vs as [|x vs IH]; intros w this buf xs cap HE Hrepr Hcap Hfit.
  - exists buf, w. rewrite app_nil_r. split; [done|]. by rewrite <- Hcap.
  - destruct (PushBack_copy_ok w this buf xs cap x HE Hrepr) as (buf1 & w1 & Hpush & Hrepr1).
    { intros Heq. rewrite <- Heq. eapply doubling_fits_le; [|exact Hfit]. lia. }
    rewrite (doubled_capacity _ _ Hcap) in Hrepr1.
    assert (Hlen1 : length (xs ++ [x]) = length xs + 1)
      by (rewrite length_app; simpl; lia).
    destruct (IH w1 this buf1 (xs ++ [x]) (pow2_ceil (length xs + 1)) HE Hrepr1)
      as (buf' & w' & Hrest & Hrepr').
    { rewrite Hlen1. by rewrite decide_False by lia. }
    { eapply doubling_fits_le; [|exact Hfit]. rewrite Hlen1. simpl. lia. }
    exists buf', w'. rewrite <- app_assoc in Hrepr'. split; [|exact Hrepr'].
    cbn [push_backs].
    step ltac:(exact Hpush).
    destruct w1 as [h1 o1 l1 c1]. destruct Hrepr1 as (Ho1 & _). simpl in Ho1.
    step ltac:(by eapply Capacity_eq). norm.
    step ltac:(exact Hrest).
    unfold ret. do 2 f_equal. rewrite Hlen1. simpl.
    do 3 f_equal. lia.
Qed.

End Doubling.


Section NeverThrows.
Context {T : Type} {sT : SizeOf T} (E : env T).
Implicit Types (w : world T) (h : gmap nat (list (cell T))) (o : gmap nat Vector).

Lemma nt_ret {A} (a : A) : never_throws (T:=T) (ret a).
Proof. by intros w w'. Qed.

Lemma nt_abort {A} f : never_throws (T:=T) (A:=A) (abort f).
Proof. by intros w w'. Qed.

Lemma nt_bind {A B} (m : M T A) (k : A → M T B) :
  never_throws m → (∀ a, never_throws (k a)) → never_throws (bind m k).
Proof.
  intros Hm Hk w w'. unfold bind.
  destruct (m w) as [[a| |f] w1] eqn:Hmw; [apply Hk| |done].
  by apply Hm in Hmw.
Qed.

Lemma nt_try_catch {A} (body handler : M T A) :
  never_throws body → never_throws (try_catch body handler).
Proof.
  intros Hb w w'. unfold try_catch.
  destruct (body w) as [[a| |f] w1] eqn:Hbw; [done| |done].
  by apply Hb in Hbw.
Qed.

Lemma nt_unwinding {A} (cleanup : M T unit) (body : M T A) :
  never_throws body → never_throws (unwinding cleanup body).
Proof. apply nt_try_catch. Qed.

Lemma nt_noexcept_true {A} (body : M T A) : never_throws (noexcept true body).
Proof. intros w w'. apply noexcept_true_no_throw. Qed.

Lemma nt_assert b : never_throws (assert_ E b).
Proof. unfold assert_. intros w w'. by destruct (ndebug E), b. Qed.

Lemma nt_tick k : op_noexcept E k = true → never_throws (tick E k).
Proof. intros H w w'. unfold tick. rewrite H. by destruct (throws E k (clock w)). Qed.

Lemma nt_get_cell p : never_throws (T:=T) (get_cell p).
Proof.
  intros w w'. unfold get_cell.
  destruct (p_base p); [|done]. destruct (heap w !! _); [|done].
  by destruct (_ !! _).
Qed.

Lemma nt_put_cell p c : never_throws (T:=T) (put_cell p c).
Proof.
  intros w w'. unfold put_cell.
  destruct (p_base p); [|done]. destruct (heap w !! _); [|done].
  by destruct (_ <? _).
Qed.

Lemma nt_get_vec this : never_throws (T:=T) (get_vec this).
Proof. intros w w'. unfold get_vec. by destruct (objs w !! this). Qed.

Lemma nt_put_vec this v : never_throws (T:=T) (put_vec this v).
Proof. by intros w w'. Qed.

Lemma nt_ptr_diff p q : never_throws (T:=T) (ptr_diff p q).
Proof. intros w w'. unfold ptr_diff. by destruct (_ && _). Qed.

Lemma nt_ptr_minus p n : never_throws (T:=T) (ptr_minus p n).
Proof. intros w w'. unfold ptr_minus. by destruct (_ <=? _). Qed.

Lemma nt_Deallocate buf : never_throws (T:=T) (Deallocate buf).
Proof.
  intros w w'. unfold Deallocate. destruct buf; [|done].
  by destruct (heap w !! _).
Qed.

End NeverThrows.

(** Decompose a program into steps that cannot throw. *)
Ltac nt_step :=
  first
    [ apply nt_ret | apply nt_abort | apply nt_get_cell | apply nt_put_cell
    | apply nt_get_vec | apply nt_put_vec | apply nt_ptr_diff | apply nt_ptr_minus
    | apply nt_Deallocate | apply nt_assert | apply nt_noexcept_true
    | apply nt_bind; [|intros ?]
    | match goal with
      | |- never_throws (match ?c with _ => _ end) => destruct c
      end ].

Ltac nt := repeat nt_step.

Section NeverThrowsMore.
Context {T : Type} {sT : SizeOf T} (E : env T).
Implicit Types (w : world T) (h : gmap nat (list (cell T))) (o : gmap nat Vector).

Lemma nt_load p : never_throws (T:=T) (load p).
Proof. unfold load. nt. Qed.

Lemma nt_store p x : never_throws (T:=T) (store p x).
Proof. unfold store. apply nt_bind; [apply nt_load|intros; nt]. Qed.

Lemma nt_emplace_raw p x : never_throws (T:=T) (emplace_raw p x).
Proof. unfold emplace_raw. nt. Qed.

Lemma nt_Destroy p : never_throws (T:=T) (Destroy p).
Proof. unfold Destroy. apply nt_bind; [apply nt_load|intros; nt]. Qed.

Lemma nt_destroy_n n : ∀ p, never_throws (T:=T) (destroy_n p n).
Proof.
  induction n as [|n IH]; intros p; simpl; [nt|].
  apply nt_bind; [apply nt_Destroy|intros; apply IH].
Qed.

Lemma nt_get_data this : never_throws (T:=T) (get_data this).
Proof. unfold get_data. nt. Qed.

Lemma nt_get_size this : never_throws (T:=T) (get_size this).
Proof. unfold get_size. nt. Qed.

Lemma nt_set_size this n : never_throws (T:=T) (set_size this n).
Proof. unfold set_size. nt. Qed.

Lemma nt_set_data this m : never_throws (T:=T) (set_data this m).
Proof. unfold set_data. nt. Qed.

Lemma nt_data_Swap this m : never_throws (T:=T) (data_Swap this m).
Proof.
  unfold data_Swap. apply nt_bind; [apply nt_get_data|intros].
  apply nt_bind; [apply nt_set_data|intros; nt].
Qed.

Lemma nt_begin this : never_throws (T:=T) (begin_ this).
Proof. unfold begin_. apply nt_bind; [apply nt_get_data|intros; nt]. Qed.

Lemma nt_end this : never_throws (T:=T) (end_ this).
Proof.
  unfold end_. apply nt_bind; [apply nt_get_data|intros].
  apply nt_bind; [apply nt_get_size|intros; nt].
Qed.

(** Moving cannot throw when the move constructor is noexcept. *)
Lemma nt_Construct_move p q :
  is_nothrow_move_constructible E = true →
  never_throws (Construct E p (MoveOf (Cell q))).
Proof.
  intros Hmv. unfold Construct.
  apply nt_bind; [apply nt_get_cell|intros [|x]]; [|nt].
  apply nt_bind; [|intros; apply nt_emplace_raw].
  unfold run_ctor, read_operand, mark_moved.
  apply nt_bind; [apply nt_load|intros].
  apply nt_bind; [by apply nt_tick|intros].
  apply nt_bind; [apply nt_store|intros; nt].
Qed.

Lemma nt_uninitialized_move_n n : ∀ p q,
  is_nothrow_move_constructible E = true →
  never_throws (uninitialized_move_n E p n q).
Proof.
  induction n as [|n IH]; intros p q Hmv; simpl; [nt|].
  apply nt_bind; [by apply nt_Construct_move|intros].
  apply nt_unwinding. by apply IH.
Qed.

End NeverThrowsMore.

Section Unwinding.
Context {T : Type} {sT : SizeOf T} (E : env T).
Implicit Types (w : world T) (h : gmap nat (list (cell T))) (o : gmap nat Vector).
Implicit Types (cells : list (cell T)) (xs ys pre post : list T) (args : ctor_args T).

(** ** Copying under an arbitrary oracle *)

Lemma tick_cases k h o l c :
  tick E k (World h o l c)
  = (if throws E k c
     then (if op_noexcept E k then Fatal Terminate else Throw)
     else Ret tt, World h o l (S c)).
Proof. unfold tick. simpl. by destruct (throws E k c). Qed.

Lemma Construct_copy_cell_any h o l c bs bd i j src dst x :
  h !! bs = Some src → src !! i = Some (Live x) →
  h !! bd = Some dst → dst !! j = Some Raw →
  Construct E (Ptr (Some bd) j) (CopyOf (Cell (Ptr (Some bs) i))) (World h o l c)
  = if throws E OpCopyCtor c
    then (Throw, World h o l (S c))
    else (Ret tt, World (<[bd := <[j := Live x]> dst]> h) o l (S c)).
Proof.
  intros Hs Hi Hd Hj. unfold Construct.
  step ltac:(by eapply get_cell_eq).
  unfold run_ctor, read_operand.
  destruct (throws E OpCopyCtor c) eqn:Hth.
  - apply bind_throw.
    step ltac:(by eapply load_eq).
    apply bind_throw. rewrite tick_cases, Hth. done.
  - step ltac:(step ltac:(by eapply load_eq);
               step ltac:(rewrite tick_cases, Hth; reflexivity); reflexivity).
    by eapply emplace_raw_eq.
Qed.

Lemma uninitialized_copy_n_any xs : ∀ h o l c bs bd s1 s2 d1 d2,
  bs ≠ bd →
  h !! bs = Some (s1 ++ (Live <$> xs) ++ s2) →
  h !! bd = Some (d1 ++ replicate (length xs) Raw ++ d2) →
  uninitialized_copy_n E (Ptr (Some bs) (length s1)) (length xs)
    (Ptr (Some bd) (length d1)) (World h o l c)
  = (Ret tt, World (<[bd := d1 ++ (Live <$> xs) ++ d2]> h) o l (c + length xs)) ∨
  ∃ c', uninitialized_copy_n E (Ptr (Some bs) (length s1)) (length xs)
          (Ptr (Some bd) (length d1)) (World h o l c)
        = (Throw, World h o l c').
Proof.
  induction xs as [|x xs IH]; intros h o l c bs bd s1 s2 d1 d2 Hne Hs Hd.
  - left. simpl. unfold ret. rewrite Nat.add_0_r. by rewrite insert_id.
  - csimpl in *.
    pose proof (Construct_copy_cell_any h o l c bs bd (length s1) (length d1) _ _ x
                  Hs (lookup_middle _ _ _) Hd (lookup_middle _ _ _)) as Hc.
    destruct (throws E OpCopyCtor c).
    + right. eexists. by apply bind_throw.
    + rewrite insert_middle in Hc.
      specialize (IH (<[bd:=d1 ++ Live x :: replicate (length xs) Raw ++ d2]> h) o l (S c)
        bs bd (s1 ++ [Live x]) s2 (d1 ++ [Live x]) d2 Hne).
      rewrite !length_app in IH. simpl in IH.
      destruct IH as [IH|[c' IH]].
      * rewrite lookup_insert_ne by done. by rewrite <- app_assoc.
      * rewrite lookup_insert_eq. by rewrite <- app_assoc.
      * left. step ltac:(exact Hc). apply unwinding_ret.
        unfold ptr_add; simpl. rewrite IH.
        rewrite insert_insert_eq. rewrite <- !app_assoc. simpl.
        do 2 f_equal. lia.
      * right. exists c'. step ltac:(exact Hc).
        eapply unwinding_throw; [exact IH|].
        erewrite Destroy_eq; [|apply lookup_insert_eq|apply lookup_middle].
        rewrite insert_middle, insert_insert_eq.
        by rewrite insert_id.
Qed.

Lemma uninitialized_copy_n_any_at h o l c bs bd s n d xs s1 s2 d1 d2 :
  bs ≠ bd →
  h !! bs = Some (s1 ++ (Live <$> xs) ++ s2) →
  h !! bd = Some (d1 ++ replicate n Raw ++ d2) →
  s = length s1 → n = length xs → d = length d1 →
  uninitialized_copy_n E (Ptr (Some bs) s) n (Ptr (Some bd) d) (World h o l c)
  = (Ret tt, World (<[bd := d1 ++ (Live <$> xs) ++ d2]> h) o l (c + n)) ∨
  ∃ c', uninitialized_copy_n E (Ptr (Some bs) s) n (Ptr (Some bd) d) (World h o l c)
        = (Throw, World h o l c').
Proof. intros Hne Hs Hd -> -> ->. by eapply uninitialized_copy_n_any. Qed.

(** ** Reserve *)

Lemma transfer_by_move_nothrow :
  is_nothrow_move_constructible E = true ∨ is_copy_constructible E = true →
  transfer_by_move E = true → is_nothrow_move_constructible E = true.
Proof.
  unfold transfer_by_move. intros [H|H] Hmv; [done|].
  rewrite H in Hmv. simpl in Hmv. by rewrite orb_false_r in Hmv.
Qed.

Lemma Allocate_cases_cells h o l c n :
  n ≠ 0 →
  Allocate E n (World h o l c)
  = if throws E OpAlloc c
    then (Throw, World h o l (S c))
    else (Ret (Some (fresh (dom h))),
          World (<[fresh (dom h) := replicate (alloc_cells n) Raw]> h) o l (S c)).
Proof.
  intros Hn. unfold Allocate.
  destruct (Nat.eqb_spec n 0); [done|].
  unfold bind. rewrite tick_cases. simpl.
  by destruct (throws E OpAlloc c).
Qed.

Lemma RawMemory_ctor_cases_cells h o l c n :
  n ≠ 0 →
  RawMemory_ctor E n (World h o l c)
  = if throws E OpAlloc c
    then (Throw, World h o l (S c))
    else (Ret (MkRawMemory (Some (fresh (dom h))) n),
          World (<[fresh (dom h) := replicate (alloc_cells n) Raw]> h) o l (S c)).
Proof.
  intros Hn. unfold RawMemory_ctor, bind.
  rewrite (Allocate_cases_cells _ _ _ _ _ Hn).
  by destruct (throws E OpAlloc c).
Qed.

Lemma RawMemory_ctor_cases h o l c n :
  n ≠ 0 → alloc_fits n →
  RawMemory_ctor E n (World h o l c)
  = if throws E OpAlloc c
    then (Throw, World h o l (S c))
    else (Ret (MkRawMemory (Some (fresh (dom h))) n),
          World (<[fresh (dom h) := replicate n Raw]> h) o l (S c)).
Proof.
  intros Hn Hfit. rewrite (RawMemory_ctor_cases_cells _ _ _ _ _ Hn).
  by rewrite alloc_cells_fits.
Qed.

(** Copying more elements than the destination block has room for: the
    construction past the end of the block is undefined, unless an earlier
    copy throws, which leaves the store as it was. *)
Lemma Construct_past_end h o l c b i cells args :
  h !! b = Some cells → length cells ≤ i →
  Construct E (Ptr (Some b) i) args (World h o l c)
  = (Fatal Undefined, World h o l c).
Proof.
  intros H1 H2. unfold Construct.
  by rewrite (bind_fatal _ _ _ _ _ (get_cell_past_end _ _ _ _ _ _ _ H1 H2)).
Qed.

Lemma uninitialized_copy_n_short xs : ∀ h o l c bs bd s1 s2 d1 m,
  bs ≠ bd →
  h !! bs = Some (s1 ++ (Live <$> xs) ++ s2) →
  h !! bd = Some (d1 ++ replicate m Raw) →
  m < length xs →
  (∃ c', uninitialized_copy_n E (Ptr (Some bs) (length s1)) (length xs)
           (Ptr (Some bd) (length d1)) (World h o l c)
         = (Throw, World h o l c')) ∨
  (∃ f w', uninitialized_copy_n E (Ptr (Some bs) (length s1)) (length xs)
             (Ptr (Some bd) (length d1)) (World h o l c)
           = (Fatal f, w')).
Proof.
  induction xs as [|x xs IH]; intros h o l c bs bd s1 s2 d1 m Hne Hs Hd Hm;
    [simpl in Hm; lia|].
  csimpl in *. destruct m as [|m]; csimpl in Hd.
  - right. eexists _, _. apply bind_fatal.
    eapply Construct_past_end; [exact Hd|]. rewrite length_app. simpl. lia.
  - pose proof (Construct_copy_cell_any h o l c bs bd (length s1) (length d1) _ _ x
                  Hs (lookup_middle _ _ _) Hd (lookup_middle _ _ _)) as Hc.
    destruct (throws E OpCopyCtor c).
    + left. eexists. by apply bind_throw.
    + rewrite insert_middle in Hc.
      specialize (IH (<[bd:=d1 ++ Live x :: replicate m Raw]> h) o l (S c)
        bs bd (s1 ++ [Live x]) s2 (d1 ++ [Live x]) m Hne).
      rewrite !length_app in IH. simpl in IH.
      destruct IH as [[c' IH]|(f & w' & IH)].
      * rewrite lookup_insert_ne by done. by rewrite <- app_assoc.
      * rewrite lookup_insert_eq. by rewrite <- app_assoc.
      * lia.
      * left. exists c'. step ltac:(exact Hc).
        eapply unwinding_throw; [exact IH|].
        erewrite Destroy_eq; [|apply lookup_insert_eq|apply lookup_middle].
        rewrite insert_middle, insert_insert_eq.
        by rewrite insert_id.
      * right. exists f, w'. step ltac:(exact Hc).
        by apply unwinding_fatal.
Qed.


Lemma Reserve_throw w this buf xs cap n w' :
  vec_repr w this buf xs cap →
  is_nothrow_move_constructible E = true ∨ is_copy_constructible E = true →
  Reserve E this n w = (Throw, w') →
  heap w' = heap w ∧ objs w' = objs w ∧ leaked w' = leaked w.
Proof.
  destruct w as [h o l c]. intros (Ho & [Hle Hfits] & Hbuf) Htraits Hrun. simpl in Ho.
  unfold Reserve in Hrun.
  rewrite (bind_ret _ _ _ _ _ (Capacity_eq _ _ _ _ _ _ Ho)) in Hrun.
  cbn [data_ capacity_] in Hrun.
  destruct (Nat.leb_spec n cap) as [|Hlt]; [done|].
  assert (Hn : n ≠ 0) by lia.
  pose proof (RawMemory_ctor_cases_cells h o l c n Hn) as Hctor.
  set (b' := fresh (dom h)) in *.
  set (m := alloc_cells n) in *.
  assert (Hfresh : h !! b' = None) by apply fresh_block.
  destruct (throws E OpAlloc c).
  { rewrite (bind_throw _ _ _ _ Hctor) in Hrun. by simplify_eq. }
  rewrite (bind_ret _ _ _ _ _ Hctor) in Hrun. clear Hctor.
  assert (Htail : ∀ m, never_throws (T:=T)
            (d ← get_data this; sz ← get_size this;
             destroy_n (GetAddress d) sz ;;
             new_data' ← data_Swap this m; RawMemory_dtor new_data')).
  { intros m0. apply nt_bind; [apply nt_get_data|intros d].
    apply nt_bind; [apply nt_get_size|intros sz].
    apply nt_bind; [apply nt_destroy_n|intros _].
    apply nt_bind; [apply nt_data_Swap|intros ?]. apply nt_Deallocate. }
  destruct (transfer_by_move E) eqn:Hmv.
  - (* moving cannot throw *)
    exfalso. revert Hrun. apply nt_bind; [|intros; apply Htail].
    apply nt_unwinding.
    apply nt_bind; [apply nt_get_data|intros d].
    apply nt_bind; [apply nt_get_size|intros sz].
    apply nt_uninitialized_move_n. by apply transfer_by_move_nothrow.
  - (* copying: a throw leaves the new block raw *)
    assert (Hcopy :
      (∃ w1, (d ← get_data this; sz ← get_size this;
              uninitialized_copy_n E (GetAddress d) sz
                (GetAddress (MkRawMemory (Some b') n)))
               (World (<[b' := replicate m Raw]> h) o l (S c)) = (Ret tt, w1)) ∨
      (∃ c', (d ← get_data this; sz ← get_size this;
              uninitialized_copy_n E (GetAddress d) sz
                (GetAddress (MkRawMemory (Some b') n)))
               (World (<[b' := replicate m Raw]> h) o l (S c))
             = (Throw, World (<[b' := replicate m Raw]> h) o l c')) ∨
      (∃ f w1, (d ← get_data this; sz ← get_size this;
              uninitialized_copy_n E (GetAddress d) sz
                (GetAddress (MkRawMemory (Some b') n)))
               (World (<[b' := replicate m Raw]> h) o l (S c)) = (Fatal f, w1))).
    { destruct buf as [b|].
      - destruct Hbuf as [Hb Hcap]. simpl in Hb.
        assert (Hne : b ≠ b') by (intros ->; congruence).
        destruct (decide (length xs ≤ m)) as [Hroom|Hshort].
        + destruct (uninitialized_copy_n_any_at (<[b' := replicate m Raw]> h) o l (S c)
                      b b' 0 (length xs) 0 xs [] (replicate (cap - length xs) Raw)
                      [] (replicate (m - length xs) Raw) Hne) as [Hok|[c' Hth]];
            try done.
          * by rewrite lookup_insert_ne.
          * rewrite lookup_insert_eq. simpl. rewrite <- replicate_add.
            do 2 f_equal. lia.
          * left. eexists.
            step ltac:(by eapply get_data_eq).
            step ltac:(by eapply get_size_eq). exact Hok.
          * right. left. exists c'.
            step ltac:(by eapply get_data_eq).
            step ltac:(by eapply get_size_eq). exact Hth.
        + destruct (uninitialized_copy_n_short xs (<[b' := replicate m Raw]> h) o l (S c)
                      b b' [] (replicate (cap - length xs) Raw) [] m Hne)
            as [[c' Hth]|(f & w1 & Hf)].
          * by rewrite lookup_insert_ne.
          * by rewrite lookup_insert_eq.
          * lia.
          * right. left. exists c'.
            step ltac:(by eapply get_data_eq).
            step ltac:(by eapply get_size_eq). exact Hth.
          * right. right. exists f, w1.
            step ltac:(by eapply get_data_eq).
            step ltac:(by eapply get_size_eq). exact Hf.
      - left. subst cap. destruct xs as [|x xs]; [|simpl in Hle; lia].
        eexists.
        step ltac:(by eapply get_data_eq).
        step ltac:(by eapply get_size_eq). reflexivity. }
    destruct Hcopy as [[w1 Hok]|[[c' Hth]|(f & w1 & Hf)]].
    + exfalso. rewrite (bind_ret _ _ _ _ _ (unwinding_ret _ _ _ _ _ Hok)) in Hrun.
      revert Hrun. apply Htail.
    + assert (Hd : RawMemory_dtor (MkRawMemory (Some b') n)
                     (World (<[b' := replicate m Raw]> h) o l c')
                   = (Ret tt, World (delete b' (<[b' := replicate m Raw]> h)) o
                                (l + count_live (replicate m (@Raw T))) c'))
        by apply Deallocate_eq, lookup_insert_eq.
      rewrite (bind_throw _ _ _ _ (unwinding_throw _ _ _ _ _ Hth Hd)) in Hrun.
      simplify_eq. simpl. split; [|split; [done|]].
      * by rewrite delete_insert_id.
      * by rewrite count_live_raw, Nat.add_0_r.
    + by rewrite (bind_fatal _ _ _ _ _ (unwinding_fatal _ _ _ _ _ Hf)) in Hrun.
Qed.

End Unwinding.


Section ThrowPost.
Context {T : Type} {sT : SizeOf T} (E : env T).
Implicit Types (w : world T) (h : gmap nat (list (cell T))) (o : gmap nat Vector).
Implicit Types (P Q : world T → Prop).

Lemma tp_elim {A} P (m : M T A) w w' :
  throw_post P (m w) → m w = (Throw, w') → P w'.
Proof. intros H Hm. by rewrite Hm in H. Qed.

Lemma tp_bind_ret {A B} P (m : M T A) (k : A → M T B) w a w1 :
  m w = (Ret a, w1) → throw_post P (k a w1) → throw_post P (bind m k w).
Proof. intros Hm Hk. by rewrite (bind_ret _ _ _ _ _ Hm). Qed.

Lemma tp_bind_throw {A B} P (m : M T A) (k : A → M T B) w w1 :
  m w = (Throw, w1) → P w1 → throw_post P (bind m k w).
Proof. intros Hm Hk. by rewrite (bind_throw _ _ _ _ Hm). Qed.

Lemma tp_bind_fatal {A B} P (m : M T A) (k : A → M T B) w f w1 :
  m w = (Fatal f, w1) → throw_post P (bind m k w).
Proof. intros Hm. by rewrite (bind_fatal _ _ _ _ _ Hm). Qed.

Lemma tp_never {A} P (m : M T A) w : never_throws m → throw_post P (m w).
Proof.
  intros Hm. unfold throw_post.
  destruct (m w) as [[a| |f] w1] eqn:Hmw; [done| |done]. by apply Hm in Hmw.
Qed.

(** A scope whose body may throw, followed by code that cannot: the
    cleanup of the scope runs on the state at the throw. *)
Lemma tp_bind_unwinding {A B} P (cleanup : M T unit) (body : M T A) (rest : A → M T B) w :
  (∀ a, never_throws (rest a)) →
  throw_post (λ w2, ∃ w3, cleanup w2 = (Ret tt, w3) ∧ P w3) (body w) →
  throw_post P (bind (unwinding cleanup body) rest w).
Proof.
  intros Hrest Hbody.
  destruct (body w) as [[a| |f] w2] eqn:Hb; simpl in Hbody.
  - rewrite (bind_ret _ _ _ _ _ (unwinding_ret _ _ _ _ _ Hb)). by apply tp_never.
  - destruct Hbody as (w3 & Hc & HP).
    by rewrite (bind_throw _ _ _ _ (unwinding_throw _ _ _ _ _ Hb Hc)).
  - unfold unwinding. unfold bind at 1. unfold try_catch. by rewrite Hb.
Qed.

End ThrowPost.

(** One step of a sequence under [throw_post]. *)
Ltac tstep tac := eapply tp_bind_ret; [ tac | ]; cbv beta.

Section EmplaceUnwinding.
Context {T : Type} {sT : SizeOf T} (E : env T).
Implicit Types (w : world T) (h : gmap nat (list (cell T))) (o : gmap nat Vector).
Implicit Types (cells : list (cell T)) (xs ys pre post : list T) (args : ctor_args T).

Lemma bind_tick {A} k (f : unit → M T A) h o l c :
  bind (tick E k) f (World h o l c)
  = if throws E k c
    then (if op_noexcept E k then Fatal Terminate else Throw, World h o l (S c))
    else f tt (World h o l (S c)).
Proof.
  unfold bind. rewrite tick_cases.
  destruct (throws E k c); [by destruct (op_noexcept E k)|done].
Qed.

(** The constructor of the new element, under an arbitrary oracle. *)
Lemma run_ctor_cases h o l c args v :
  args_value h args = Some v →
  (∃ h', run_ctor E args (World h o l c) = (Ret v, World h' o l (S c)) ∧
         (∀ b, (∀ q, args = MoveOf (Cell q) → p_base q ≠ Some b) → h' !! b = h !! b) ∧
         dom h' = dom h) ∨
  run_ctor E args (World h o l c) = (Throw, World h o l (S c)) ∨
  (∃ f w', run_ctor E args (World h o l c) = (Fatal f, w')).
Proof.
  intros Hv. destruct args as [v0|s|s]; simpl in Hv.
  - simplify_eq. unfold run_ctor. rewrite bind_tick.
    destruct (throws E OpCtor c); [by right; left|].
    left. by exists h.
  - unfold run_ctor.
    rewrite (bind_ret _ _ _ _ _ (operand_value_load _ _ _ _ _ _ Hv)).
    rewrite bind_tick.
    destruct (throws E OpCopyCtor c); [by right; left|].
    left. by exists h.
  - unfold run_ctor.
    rewrite (bind_ret _ _ _ _ _ (operand_value_load _ _ _ _ _ _ Hv)).
    rewrite bind_tick.
    destruct (throws E OpMoveCtor c).
    { cbn [op_noexcept]. destruct (is_nothrow_move_constructible E).
      - right; right. by eexists _, _.
      - by right; left. }
    left. destruct s as [x|[[b|] i]]; simpl in Hv; try done.
    + simplify_eq. by exists h.
    + destruct (h !! b) as [cells|] eqn:Hb; [|done].
      destruct (cells !! i) as [[|y]|] eqn:Hi; try done. simplify_eq.
      exists (<[b := <[i := Live (moved_from E v)]> cells]> h).
      split; [|split].
      * unfold mark_moved.
        step ltac:(by eapply store_eq). reflexivity.
      * intros b0 Hb0. apply lookup_insert_ne.
        specialize (Hb0 _ eq_refl). simpl in Hb0. congruence.
      * apply dom_insert_lookup_L. by rewrite Hb.
Qed.

Lemma Construct_cases h o l c b j cells args v :
  h !! b = Some cells → cells !! j = Some Raw →
  args_value h args = Some v →
  (∀ q, args = MoveOf (Cell q) → p_base q ≠ Some b) →
  (∃ h1, Construct E (Ptr (Some b) j) args (World h o l c)
         = (Ret tt, World (<[b := <[j := Live v]> cells]> h1) o l (S c)) ∧
         (∀ b0, (∀ q, args = MoveOf (Cell q) → p_base q ≠ Some b0) → h1 !! b0 = h !! b0) ∧
         dom h1 = dom h) ∨
  Construct E (Ptr (Some b) j) args (World h o l c) = (Throw, World h o l (S c)) ∨
  (∃ f w', Construct E (Ptr (Some b) j) args (World h o l c) = (Fatal f, w')).
Proof.
  intros Hb Hj Hv Hout. unfold Construct.
  rewrite (bind_ret _ _ _ _ _ (get_cell_eq _ _ _ _ _ _ _ _ Hb Hj)).
  destruct (run_ctor_cases h o l c args v Hv)
    as [(h1 & Hrun & Hframe & Hdom)|[Hrun|(f & wf & Hrun)]].
  - left. exists h1. split; [|done].
    step ltac:(exact Hrun).
    eapply emplace_raw_eq; [|done]. by rewrite Hframe.
  - right; left. by apply bind_throw.
  - right; right. exists f, wf. by eapply bind_fatal.
Qed.

(** The guarded transfers of [Emplace] when elements are copied: either
    both succeed, or the new block is left without any object. *)
Lemma Emplace_copy_transfer_cases h o l c this b b' cap cap' pre post v R :
  transfer_by_move E = false → b ≠ b' →
  o !! this = Some (MkVector (MkRawMemory (Some b) cap) (length (pre ++ post))) →
  h !! b = Some (Live <$> (pre ++ post)) →
  h !! b' = Some (replicate (length pre) Raw ++ Live v :: replicate (length post) Raw ++ R) →
  throw_post
    (λ w', ∃ c', w' = World (<[b' := replicate (length pre) Raw ++ Raw
                                     :: replicate (length post) Raw ++ R]> h) o l c')
    (try_catch
       (d ← get_data this;
        if transfer_by_move E then
          uninitialized_move_n E (GetAddress d) (length pre)
            (GetAddress (MkRawMemory (Some b') cap')) ;;
          e ← end_ this; n ← ptr_diff e (Ptr (Some b) (length pre));
          uninitialized_move_n E (ptr_add (GetAddress d) (length pre)) n
            (ptr_add (ptr_add (GetAddress (MkRawMemory (Some b') cap')) (length pre)) 1)
        else
          uninitialized_copy_n E (GetAddress d) (length pre)
            (GetAddress (MkRawMemory (Some b') cap')) ;;
          try_catch
            (e ← end_ this; n ← ptr_diff e (Ptr (Some b) (length pre));
             uninitialized_copy_n E (ptr_add (GetAddress d) (length pre)) n
               (ptr_add (ptr_add (GetAddress (MkRawMemory (Some b') cap')) (length pre)) 1))
            (destroy_n (GetAddress (MkRawMemory (Some b') cap')) (length pre) ;; throw))
       (Destroy (ptr_add (GetAddress (MkRawMemory (Some b') cap')) (length pre)) ;; throw)
       (World h o l c)).
Proof.
  intros Hmv Hne Ho Hb Hb'. rewrite Hmv.
  assert (Hlen : length (pre ++ post) = length pre + length post) by apply length_app.
  rewrite fmap_app in Hb.
  set (handler := (Destroy _ ;; throw)).
  assert (Hhandler : ∀ c1 Lv,
    handler (World (<[b' := replicate (length pre) Raw ++ Live Lv
                             :: replicate (length post) Raw ++ R]> h) o l c1)
    = (Throw, World (<[b' := replicate (length pre) Raw ++ Raw
                             :: replicate (length post) Raw ++ R]> h) o l c1)).
  { intros c1 Lv. unfold handler. norm.
    step ltac:(eapply Destroy_eq;
               [apply lookup_insert_eq|apply lookup_after_replicate]).
    by rewrite insert_after_replicate, insert_insert_eq. }
  destruct (uninitialized_copy_n_any_at E h o l c b b' 0 (length pre) 0 pre []
              (Live <$> post) [] (Live v :: replicate (length post) Raw ++ R) Hne)
    as [Hok|[c1 Hth]]; try done.
  - (* the prefix is copied *)
    simpl in Hok.
    destruct (uninitialized_copy_n_any_at E
                (<[b' := (Live <$> pre) ++ Live v :: replicate (length post) Raw ++ R]> h)
                o l (c + length pre) b b' (length pre) (length post) (length pre + 1)
                post (Live <$> pre) [] ((Live <$> pre) ++ [Live v]) R Hne)
      as [Hok2|[c2 Hth2]].
    + rewrite lookup_insert_ne by done. by rewrite app_nil_r.
    + rewrite lookup_insert_eq. by rewrite <- app_assoc.
    + by rewrite length_fmap.
    + done.
    + rewrite length_app, length_fmap. simpl. lia.
    + (* and the suffix *)
      erewrite try_catch_ret; [done|].
      step ltac:(by eapply get_data_eq). norm.
      step ltac:(exact Hok).
      apply try_catch_ret.
      step ltac:(by eapply end_eq). norm.
      step ltac:(apply ptr_diff_eq; lia).
      replace (length (pre ++ post) - length pre) with (length post) by lia.
      exact Hok2.
    + (* the suffix throws: the prefix and the new element are destroyed *)
      erewrite try_catch_throw.
      2:{ step ltac:(by eapply get_data_eq). norm.
          step ltac:(exact Hok).
          erewrite try_catch_throw.
          2:{ step ltac:(by eapply end_eq). norm.
              step ltac:(apply ptr_diff_eq; lia).
              replace (length (pre ++ post) - length pre) with (length post) by lia.
              exact Hth2. }
          norm.
          step ltac:(eapply (destroy_n_at _ _ _ _ b' 0 _ pre []);
                     [apply lookup_insert_eq|done|done]).
          rewrite insert_insert_eq. simpl. reflexivity. }
      rewrite Hhandler. simpl. eauto.
  - (* the prefix throws: the new element is destroyed *)
    erewrite try_catch_throw.
    2:{ step ltac:(by eapply get_data_eq). norm.
        apply bind_throw. exact Hth. }
    rewrite <- (insert_id h b' _ Hb') at 1.
    rewrite Hhandler. simpl. eauto.
Qed.

(** What follows the transfers in [Emplace] cannot throw. *)
Lemma Emplace_tail_never_throws this (new_memory : RawMemory) it_pos :
  never_throws (T:=T)
    (new_memory' ← data_Swap this new_memory;
     sz ← get_size this;
     destroy_n (GetAddress new_memory') sz ;;
     set_size this (sz + 1) ;;
     b ← begin_ this;
     RawMemory_dtor new_memory' ;;
     ret (ptr_add b it_pos)).
Proof.
  apply nt_bind; [apply nt_data_Swap|intros m].
  apply nt_bind; [apply nt_get_size|intros sz].
  apply nt_bind; [apply nt_destroy_n|intros _].
  apply nt_bind; [apply nt_set_size|intros _].
  apply nt_bind; [apply nt_begin|intros p].
  apply nt_bind; [apply nt_Deallocate|intros _]. apply nt_ret.
Qed.

Lemma Emplace_move_transfer_never_throws this pos it_pos (new_memory : RawMemory) handler :
  is_nothrow_move_constructible E = true →
  never_throws
    (try_catch
       (d ← get_data this;
        uninitialized_move_n E (GetAddress d) it_pos (GetAddress new_memory) ;;
        e ← end_ this; n ← ptr_diff e pos;
        uninitialized_move_n E (ptr_add (GetAddress d) it_pos) n
          (ptr_add (ptr_add (GetAddress new_memory) it_pos) 1))
       handler).
Proof.
  intros Hmv. apply nt_try_catch.
  apply nt_bind; [apply nt_get_data|intros d].
  apply nt_bind; [by apply nt_uninitialized_move_n|intros _].
  apply nt_bind; [apply nt_end|intros e].
  apply nt_bind; [apply nt_ptr_diff|intros n].
  by apply nt_uninitialized_move_n.
Qed.

Lemma count_live_raw_cons n m :
  count_live (replicate n Raw ++ Raw :: replicate m (@Raw T)) = 0.
Proof.
  change (Raw :: replicate m Raw) with (replicate (S m) (@Raw T)).
  rewrite <- replicate_add. apply count_live_raw.
Qed.

(** [Emplace] with a full buffer, under an arbitrary oracle: when it
    throws, the vector's block and fields are as before, nothing is lost,
    and the new block is gone. *)
Lemma Emplace_realloc_unwinds h o l c this b pre post args v :
  is_nothrow_move_constructible E = true ∨ is_copy_constructible E = true →
  o !! this = Some (MkVector (MkRawMemory (Some b) (length (pre ++ post)))
                      (length (pre ++ post))) →
  0 < length (pre ++ post) →
  h !! b = Some (Live <$> (pre ++ post)) →
  args_value h args = Some v →
  moves_outside (Some b) args →
  doubling_fits (length (pre ++ post)) →
  throw_post
    (λ w', objs w' = o ∧ leaked w' = l ∧
           heap w' !! b = Some (Live <$> (pre ++ post)) ∧ dom (heap w') = dom h)
    (Emplace E this (Ptr (Some b) (length pre)) args (World h o l c)).
Proof.
  intros Htraits Ho Hpos Hb Hv Hout Hfit.
  set (n := length (pre ++ post)) in *.
  assert (Hn : n = length pre + length post) by apply length_app.
  set (b' := fresh (dom h)).
  assert (Hfresh : h !! b' = None) by apply fresh_block.
  assert (Hne : b ≠ b') by (intros ->; congruence).
  set (cells0 := replicate (n * 2) (@Raw T)).
  assert (Hgone : ∀ x, dom (delete b' (<[b' := x]> h)) = dom h)
    by (intros x; by rewrite delete_insert_id).
  unfold Emplace.
  tstep ltac:(by eapply begin_eq). norm.
  tstep ltac:(by eapply end_eq). norm.
  rewrite !ptr_le_eq.
  replace (_ && _) with true
    by (symmetry; apply andb_true_iff; split; apply Nat.leb_le; lia).
  tstep ltac:(apply assert_true).
  tstep ltac:(by eapply get_size_eq). norm.
  tstep ltac:(by eapply Capacity_eq). norm.
  rewrite Nat.eqb_refl.
  tstep ltac:(by eapply begin_eq). norm.
  tstep ltac:(apply ptr_diff_eq; lia). rewrite Nat.sub_0_r.
  destruct (Nat.eqb_spec n 0) as [?|_]; [lia|].
  rewrite size_t_mul_fits by done.
  pose proof (RawMemory_ctor_cases E h o l c (n * 2) ltac:(lia)
                ltac:(by apply doubling_fits_twice)) as Hctor.
  fold b' in Hctor. fold cells0 in Hctor.
  destruct (throws E OpAlloc c).
  { eapply tp_bind_throw; [exact Hctor|]. done. }
  tstep ltac:(exact Hctor). clear Hctor.
  apply tp_bind_unwinding; [intros; apply Emplace_tail_never_throws|].
  (* the new element *)
  destruct (args_value_fresh h args v b' cells0 Hfresh Hv) as [Hv1 Hout1].
  destruct (Construct_cases (<[b' := cells0]> h) o l (S c) b' (length pre) cells0 args v)
    as [(h1 & Hcons & Hframe & Hdom)|[Hcons|(f & wf & Hcons)]];
    [apply lookup_insert_eq|apply lookup_replicate_2; lia|done|done| | |].
  2:{ eapply tp_bind_throw; [exact Hcons|].
      eexists. split; [apply Deallocate_eq, lookup_insert_eq|].
      simpl. unfold cells0. rewrite count_live_raw, Nat.add_0_r.
      rewrite lookup_delete_ne, lookup_insert_ne by done. done. }
  2:{ by eapply tp_bind_fatal. }
  assert (Hb1 : h1 !! b = Some (Live <$> (pre ++ post))).
  { rewrite Hframe by by apply moves_outside_frame. by rewrite lookup_insert_ne. }
  set (R := replicate (n * 2 - n - 1) (@Raw T)).
  assert (Hcells1 : <[length pre := Live v]> cells0
            = replicate (length pre) Raw ++ Live v :: replicate (length post) Raw ++ R).
  { unfold cells0. rewrite insert_replicate_raw by lia.
    do 2 f_equal. unfold R. rewrite <- replicate_add. f_equal. lia. }
  rewrite Hcells1 in Hcons.
  tstep ltac:(exact Hcons).
  assert (Hgone1 : dom (delete b' h1) = dom h).
  { rewrite dom_delete_L, Hdom, <- dom_delete_L. by rewrite delete_insert_id. }
  destruct (transfer_by_move E) eqn:Hmv.
  - (* moving cannot throw *)
    apply tp_never.
    pose proof (Emplace_move_transfer_never_throws this (Ptr (Some b) (length pre))
                  (length pre) (MkRawMemory (Some b') (n * 2))
                  (Destroy (ptr_add (GetAddress (MkRawMemory (Some b') (n * 2))) (length pre)) ;; throw)
                  (transfer_by_move_nothrow E Htraits Hmv)) as Hnt.
    intros w1 w2 Hrun'. eapply Hnt. rewrite <- Hrun'.
    unfold try_catch, bind. reflexivity.
  - (* copying *)
    pose proof (Emplace_copy_transfer_cases
                  (<[b' := replicate (length pre) Raw ++ Live v
                            :: replicate (length post) Raw ++ R]> h1)
                  o l (S (S c)) this b b' n (n * 2) pre post v R Hmv Hne Ho) as Hcases.
    rewrite Hmv in Hcases.
    rewrite lookup_insert_ne, lookup_insert_eq in Hcases by done.
    specialize (Hcases Hb1 eq_refl).
    match goal with
    | H : throw_post _ ?r |- throw_post _ ?r' => change r' with r; destruct r as [[a| |f] w2]
    end; [done| |done].
    destruct Hcases as (c' & ->). simpl.
    eexists. split; [apply Deallocate_eq, lookup_insert_eq|].
    simpl. rewrite insert_insert_eq.
    split; [done|split; [|split]].
    + unfold R. rewrite <- replicate_add, count_live_raw_cons. lia.
    + by rewrite lookup_delete_ne, lookup_insert_ne.
    + by rewrite delete_insert_eq.
Qed.

Lemma Emplace_empty_unwinds h o l c this args v :
  o !! this = Some (MkVector (MkRawMemory None 0) 0) →
  args_value h args = Some v →
  doubling_fits 0 →
  throw_post
    (λ w', objs w' = o ∧ leaked w' = l ∧ dom (heap w') = dom h)
    (Emplace E this (Ptr None 0) args (World h o l c)).
Proof.
  intros Ho Hv Hfit.
  set (b' := fresh (dom h)).
  assert (Hfresh : h !! b' = None) by apply fresh_block.
  unfold Emplace.
  tstep ltac:(by eapply begin_eq). norm.
  tstep ltac:(by eapply end_eq). norm.
  rewrite !ptr_le_eq. simpl.
  tstep ltac:(apply assert_true).
  tstep ltac:(by eapply get_size_eq). norm.
  tstep ltac:(by eapply Capacity_eq). norm.
  simpl.
  tstep ltac:(by eapply begin_eq). norm.
  tstep ltac:(apply ptr_diff_eq; lia). simpl.
  pose proof (RawMemory_ctor_cases E h o l c 1 ltac:(lia) Hfit) as Hctor.
  fold b' in Hctor.
  destruct (throws E OpAlloc c).
  { eapply tp_bind_throw; [exact Hctor|]. done. }
  tstep ltac:(exact Hctor). clear Hctor.
  apply tp_bind_unwinding; [intros; apply Emplace_tail_never_throws|].
  destruct (args_value_fresh h args v b' [Raw] Hfresh Hv) as [Hv1 Hout1].
  destruct (Construct_cases (<[b' := [Raw]]> h) o l (S c) b' 0 [Raw] args v)
    as [(h1 & Hcons & Hframe & Hdom)|[Hcons|(f & wf & Hcons)]];
    [apply lookup_insert_eq|done|done|done| | |].
  - tstep ltac:(exact Hcons).
    (* nothing is transferred *)
    erewrite try_catch_ret; [done|].
    step ltac:(by eapply get_data_eq). norm.
    destruct (transfer_by_move E).
    + step ltac:(reflexivity).
      step ltac:(by eapply end_eq). norm.
      step ltac:(apply ptr_diff_eq; lia). reflexivity.
    + step ltac:(reflexivity).
      apply try_catch_ret.
      step ltac:(by eapply end_eq). norm.
      step ltac:(apply ptr_diff_eq; lia). reflexivity.
  - eapply tp_bind_throw; [exact Hcons|].
    eexists. split; [apply Deallocate_eq, lookup_insert_eq|].
    simpl. change [Raw] with (replicate 1 (@Raw T)).
    rewrite count_live_raw, Nat.add_0_r. by rewrite delete_insert_id.
  - by eapply tp_bind_fatal.
Qed.

(** [Emplace] with a full buffer keeps the strong guarantee when the
    transfer copies or cannot throw. *)
Lemma Emplace_unwinds w this buf xs cap i args v w' :
  is_nothrow_move_constructible E = true ∨ is_copy_constructible E = true →
  vec_repr w this buf xs cap →
  length xs = cap → i ≤ length xs →
  args_value (heap w) args = Some v →
  moves_outside buf args →
  doubling_fits cap →
  Emplace E this (Ptr buf i) args w = (Throw, w') →
  vec_repr w' this buf xs cap ∧ leaked w' = leaked w ∧ dom (heap w') = dom (heap w).
Proof.
  destruct w as [h o l c]. intros Htraits (Ho & [Hle Hfits] & Hbuf) Hfull Hi Hv Hout Hfit Hrun.
  simpl in Ho, Hv. subst cap.
  destruct buf as [b|].
  - destruct Hbuf as [Hb Hcap]. simpl in Hb. rewrite cells_of_full in Hb.
    assert (Hpre : length (take i xs) = i) by (rewrite length_take; lia).
    pose proof (Emplace_realloc_unwinds h o l c this b (take i xs) (drop i xs) args v
                  Htraits) as Htp.
    rewrite take_drop, Hpre in Htp.
    destruct (tp_elim _ _ _ _ (Htp Ho Hcap Hb Hv Hout Hfit) Hrun)
      as (Ho' & Hl' & Hb' & Hdom').
    split; [|done].
    split; [by rewrite Ho'|split; [done|]].
    split; [|done]. by rewrite cells_of_full.
  - destruct xs as [|x xs]; [|done]. simpl in Hi. assert (i = 0) as -> by lia.
    destruct (tp_elim _ _ _ _ (Emplace_empty_unwinds h o l c this args v Ho Hv Hfit) Hrun)
      as (Ho' & Hl' & Hdom').
    split; [|done].
    split; [by rewrite Ho'|split; done].
Qed.

End EmplaceUnwinding.


(** * The remaining operations *)

Section Remaining.
Context {T : Type} {sT : SizeOf T} (E : env T).
Implicit Types (w : world T) (h : gmap nat (list (cell T))) (o : gmap nat Vector).
Implicit Types (cells : list (cell T)) (xs ys pre post : list T) (args : ctor_args T).

(** ** The remaining loops *)

Lemma value_construct_eq h o l c b i cells :
  no_throw E →
  h !! b = Some cells → cells !! i = Some Raw →
  value_construct E (Ptr (Some b) i) (World h o l c)
  = (Ret tt, World (<[b := <[i := Live (value_initialized E)]> cells]> h) o l (S c)).
Proof.
  intros HE Hb Hi. unfold value_construct.
  step ltac:(by eapply get_cell_eq).
  step ltac:(by apply tick_ok).
  by eapply emplace_raw_eq.
Qed.

Lemma uninitialized_value_construct_n_ok n : ∀ h o l c b p1 p2,
  no_throw E →
  h !! b = Some (p1 ++ replicate n Raw ++ p2) →
  uninitialized_value_construct_n E (Ptr (Some b) (length p1)) n (World h o l c)
  = (Ret tt, World (<[b := p1 ++ (Live <$> replicate n (value_initialized E)) ++ p2]> h)
               o l (c + n)).
Proof.
  induction n as [|n IH]; intros h o l c b p1 p2 HE Hb.
  - simpl. unfold ret. rewrite Nat.add_0_r. by rewrite insert_id.
  - csimpl in *.
    step ltac:(eapply value_construct_eq; eauto using lookup_middle).
    apply unwinding_ret. rewrite insert_middle. unfold ptr_add; simpl.
    specialize (IH (<[b:=p1 ++ Live (value_initialized E) :: replicate n Raw ++ p2]> h)
                  o l (S c) b (p1 ++ [Live (value_initialized E)]) p2 HE).
    rewrite !length_app in IH. simpl in IH.
    rewrite IH.
    + rewrite insert_insert_eq. rewrite <- !app_assoc. simpl. do 2 f_equal. lia.
    + rewrite lookup_insert_eq. by rewrite <- app_assoc.
Qed.

Lemma copy_assign_cell h o l c bs bd i j src dst x y :
  no_throw E → bs ≠ bd →
  h !! bs = Some src → src !! i = Some (Live x) →
  h !! bd = Some dst → dst !! j = Some (Live y) →
  copy_assign E (Ptr (Some bd) j) (Cell (Ptr (Some bs) i)) (World h o l c)
  = (Ret tt, World (<[bd := <[j := Live x]> dst]> h) o l (S c)).
Proof.
  intros HE Hne Hs Hi Hd Hj. unfold copy_assign, read_operand.
  step ltac:(by eapply load_eq).
  step ltac:(by eapply load_eq).
  step ltac:(by apply tick_ok).
  by eapply store_eq.
Qed.

Lemma copy_loop_ok xs : ∀ ys h o l c bs bd s1 s2 d1 d2,
  no_throw E → bs ≠ bd → length ys = length xs →
  h !! bs = Some (s1 ++ (Live <$> xs) ++ s2) →
  h !! bd = Some (d1 ++ (Live <$> ys) ++ d2) →
  copy_loop E (Ptr (Some bs) (length s1)) (length xs)
    (Ptr (Some bd) (length d1)) (World h o l c)
  = (Ret tt, World (<[bd := d1 ++ (Live <$> xs) ++ d2]> h) o l (c + length xs)).
Proof.
  induction xs as [|x xs IH]; intros [|y ys] h o l c bs bd s1 s2 d1 d2 HE Hne Hlen Hs Hd;
    try done.
  - simpl. unfold ret. rewrite Nat.add_0_r. by rewrite insert_id.
  - csimpl in *.
    step ltac:(eapply copy_assign_cell; eauto using lookup_middle).
    rewrite insert_middle. unfold ptr_add; simpl.
    specialize (IH ys (<[bd:=d1 ++ Live x :: (Live <$> ys) ++ d2]> h) o l (S c)
      bs bd (s1 ++ [Live x]) s2 (d1 ++ [Live x]) d2 HE Hne).
    rewrite !length_app in IH. simpl in IH.
    rewrite IH.
    + rewrite insert_insert_eq. rewrite <- !app_assoc. simpl. do 2 f_equal. lia.
    + lia.
    + rewrite lookup_insert_ne by done. by rewrite <- app_assoc.
    + rewrite lookup_insert_eq. by rewrite <- app_assoc.
Qed.

Lemma DestroyN_loop_ok xs : ∀ h o l c b p1 p2,
  h !! b = Some (p1 ++ (Live <$> xs) ++ p2) →
  ∀ base k, base + k = length p1 →
  DestroyN_loop (Ptr (Some b) base) k (length xs) (World h o l c)
  = (Ret tt, World (<[b := p1 ++ replicate (length xs) Raw ++ p2]> h) o l c).
Proof.
  induction xs as [|x xs IH]; intros h o l c b p1 p2 Hb base k Hk.
  - simpl. unfold ret. by rewrite insert_id.
  - csimpl in *. unfold ptr_add; simpl. rewrite Hk.
    step ltac:(eapply Destroy_eq; eauto using lookup_middle).
    rewrite insert_middle.
    rewrite (IH (<[b:=p1 ++ Raw :: (Live <$> xs) ++ p2]> h) o l c b
               (p1 ++ [Raw]) p2).
    + rewrite insert_insert_eq. by rewrite <- !app_assoc.
    + rewrite lookup_insert_eq. by rewrite <- app_assoc.
    + rewrite length_app. simpl. lia.
Qed.

Lemma DestroyN_ok h o l c b i n xs p1 p2 :
  h !! b = Some (p1 ++ (Live <$> xs) ++ p2) →
  i = length p1 → n = length xs →
  DestroyN (Ptr (Some b) i) n (World h o l c)
  = (Ret tt, World (<[b := p1 ++ replicate n Raw ++ p2]> h) o l c).
Proof.
  intros Hb -> ->. unfold DestroyN. apply noexcept_ret.
  eapply (DestroyN_loop_ok xs); [done|lia].
Qed.

End Remaining.

(** Two stores that differ in the order of updates of the object store. *)
Ltac objs_eq :=
  match goal with
  | |- (?r, World ?h ?o1 ?l ?c) = (?r, World ?h ?o2 ?l ?c) =>
      apply (f_equal (λ o, (r, World h o l c)));
      apply map_eq; intros ?;
      repeat (rewrite lookup_insert; case_decide); simplify_eq; try done
  end.

Section Operations.
Context {T : Type} {sT : SizeOf T} (E : env T).
Implicit Types (w : world T) (h : gmap nat (list (cell T))) (o : gmap nat Vector).
Implicit Types (cells : list (cell T)) (xs ys pre post : list T) (args : ctor_args T).

(** ** Construction *)

Lemma Vector_default_ok w this :
  ∃ w', Vector_default this w = (Ret tt, w') ∧ vec_repr w' this None [] 0.
Proof.
  destruct w as [h o l c]. eexists. split; [reflexivity|].
  split; [|split]; simpl; [by rewrite lookup_insert_eq|split; [lia|fits]|done].
Qed.

Lemma Vector_sized_ok w this n :
  no_throw E → alloc_fits n →
  ∃ buf' w',
    Vector_sized E this n w = (Ret tt, w') ∧
    vec_repr w' this buf' (replicate n (value_initialized E)) n ∧
    leaked w' = leaked w ∧
    (∀ that, that ≠ this → objs w' !! that = objs w !! that) ∧
    (∀ b0, Some b0 ≠ buf' → heap w' !! b0 = heap w !! b0) ∧
    (∀ b', buf' = Some b' → heap w !! b' = None) ∧
    clock w' = clock w + (if decide (n = 0) then 0 else n + 1).
Proof.
  destruct w as [h o l c]. intros HE Hn.
  destruct n as [|n].
  - exists None. eexists. split.
    { unfold Vector_sized.
      step ltac:(reflexivity). step ltac:(reflexivity). reflexivity. }
    split; [|split; [done|split; [|split; [done|split; [done|]]]]].
    + split; [|split]; simpl; [by rewrite lookup_insert_eq|split; [lia|fits]|done].
    + intros that Hthat. simpl. by rewrite lookup_insert_ne.
    + simpl. lia.
  - set (b' := fresh (dom h)).
    assert (Hfresh : h !! b' = None) by apply fresh_block.
    exists (Some b'). eexists. split.
    { unfold Vector_sized.
      step ltac:(by apply RawMemory_ctor_eq). fold b'.
      step ltac:(apply unwinding_ret; norm;
                 eapply (uninitialized_value_construct_n_ok E (S n) _ _ _ _ b' [] []);
                 [done|rewrite lookup_insert_eq; by rewrite app_nil_r]).
      reflexivity. }
    split; [|split; [done|split; [|split; [|split]]]].
    + split; [|split];
        cbn [objs heap leaked clock set_objs set_heap set_leaked set_clock].
      * rewrite lookup_insert_eq. by rewrite length_replicate.
      * rewrite length_replicate. split; [lia|done].
      * split; [|lia]. rewrite lookup_insert_eq.
        unfold cells_of. rewrite length_replicate, Nat.sub_diag. done.
    + intros that Hthat.
      cbn [objs heap leaked clock set_objs set_heap set_leaked set_clock].
      by rewrite lookup_insert_ne.
    + intros b0 Hne0.
      cbn [objs heap leaked clock set_objs set_heap set_leaked set_clock].
      by rewrite !lookup_insert_ne by congruence.
    + by intros ? [= <-].
    + cbn [objs heap leaked clock set_objs set_heap set_leaked set_clock].
      rewrite decide_False by done. lia.
Qed.

(** ** Swap and the moves *)

Lemma swap_data_eq h o l c a b va vb :
  a ≠ b → o !! a = Some va → o !! b = Some vb →
  swap_data a b (World h o l c)
  = (Ret tt, World h (<[b := MkVector (data_ va) (size_ vb)]>
                        (<[a := MkVector (data_ vb) (size_ va)]> o)) l c).
Proof.
  intros Hne Ha Hb. unfold swap_data.
  step ltac:(by eapply get_data_eq).
  step ltac:(by eapply set_data_eq).
  destruct (Nat.eqb_spec a b) as [?|_]; [done|].
  step ltac:(
    step ltac:(eapply get_data_eq; apply lookup_insert_eq); norm;
    step ltac:(reflexivity);
    step ltac:(eapply get_data_eq; rewrite lookup_insert_ne by done; exact Hb);
    step ltac:(eapply set_data_eq; apply lookup_insert_eq); norm;
    eapply set_data_eq; rewrite lookup_insert_ne by done;
    rewrite lookup_insert_ne by done; exact Hb).
  step ltac:(eapply get_data_eq; apply lookup_insert_eq). norm.
  step ltac:(reflexivity).
  erewrite set_data_eq by apply lookup_insert_eq. norm.
  objs_eq.
Qed.

Lemma swap_size_eq h o l c a b va vb :
  a ≠ b → o !! a = Some va → o !! b = Some vb →
  swap_size a b (World h o l c)
  = (Ret tt, World h (<[b := MkVector (data_ vb) (size_ va)]>
                        (<[a := MkVector (data_ va) (size_ vb)]> o)) l c).
Proof.
  intros Hne Ha Hb. unfold swap_size.
  step ltac:(by eapply get_size_eq).
  step ltac:(by eapply get_size_eq).
  step ltac:(by eapply set_size_eq).
  erewrite set_size_eq by (rewrite lookup_insert_ne by done; exact Hb).
  norm. objs_eq.
Qed.

Lemma Swap_eq h o l c a b va vb :
  a ≠ b → o !! a = Some va → o !! b = Some vb →
  Swap a b (World h o l c) = (Ret tt, World h (<[b := va]> (<[a := vb]> o)) l c).
Proof.
  intros Hne Ha Hb. unfold Swap. apply noexcept_ret.
  step ltac:(by eapply swap_data_eq).
  erewrite swap_size_eq;
    [|done|rewrite lookup_insert_ne by done; apply lookup_insert_eq|apply lookup_insert_eq].
  norm. destruct va as [[] ?], vb as [[] ?]. simpl. objs_eq.
Qed.

Lemma Swap_self_eq h o l c a va :
  o !! a = Some va →
  Swap a a (World h o l c) = (Ret tt, World h o l c).
Proof.
  intros Ha. unfold Swap. apply noexcept_ret.
  unfold swap_data. rewrite Nat.eqb_refl.
  step ltac:(
    step ltac:(by eapply get_data_eq);
    step ltac:(by eapply set_data_eq);
    step ltac:(reflexivity);
    step ltac:(eapply get_data_eq; apply lookup_insert_eq); norm;
    step ltac:(reflexivity);
    eapply set_data_eq; apply lookup_insert_eq).
  norm. rewrite insert_insert_eq.
  unfold swap_size.
  step ltac:(eapply get_size_eq; apply lookup_insert_eq). norm.
  step ltac:(eapply get_size_eq; apply lookup_insert_eq). norm.
  step ltac:(eapply set_size_eq; apply lookup_insert_eq). norm.
  erewrite set_size_eq by apply lookup_insert_eq. norm.
  rewrite !insert_insert_eq.
  rewrite insert_id; [done|]. by destruct va as [[] ?].
Qed.

Lemma vec_repr_objs w w' this buf xs cap :
  heap w' = heap w → objs w' !! this = objs w !! this →
  vec_repr w this buf xs cap → vec_repr w' this buf xs cap.
Proof.
  intros Hh Ho (H1 & H2 & H3). split; [|split]; [by rewrite Ho|done|by rewrite Hh].
Qed.

Lemma Swap_ok w this other buf1 xs1 cap1 buf2 xs2 cap2 :
  this ≠ other →
  vec_repr w this buf1 xs1 cap1 → vec_repr w other buf2 xs2 cap2 →
  ∃ w', Swap this other w = (Ret tt, w') ∧
        vec_repr w' this buf2 xs2 cap2 ∧ vec_repr w' other buf1 xs1 cap1 ∧
        heap w' = heap w ∧ leaked w' = leaked w ∧
        (∀ that, that ≠ this → that ≠ other → objs w' !! that = objs w !! that) ∧
        clock w' = clock w ∧ Swap this other w' = (Ret tt, w).
Proof.
  destruct w as [h o l c]. intros Hne (Ho1 & [Hle1 Hfits1] & Hb1) (Ho2 & [Hle2 Hfits2] & Hb2).
  simpl in *. eexists. split; [by eapply Swap_eq|].
  split; [|split; [|split; [done|split; [done|split; [|split; [done|]]]]]].
  - split; [|split]; simpl; [|done|done].
    rewrite lookup_insert_ne by done. by rewrite lookup_insert_eq.
  - split; [|split]; simpl; [|done|done]. by rewrite lookup_insert_eq.
  - intros that H1 H2. simpl. by rewrite !lookup_insert_ne.
  - erewrite Swap_eq;
      [|done|rewrite lookup_insert_ne by done; apply lookup_insert_eq
       |apply lookup_insert_eq].
    apply (f_equal (λ o', (Ret tt, World h o' l c))).
    apply map_eq. intros k.
    destruct (decide (k = other)) as [->|H1]; [by rewrite lookup_insert_eq|].
    rewrite lookup_insert_ne by done.
    destruct (decide (k = this)) as [->|H2]; [by rewrite lookup_insert_eq|].
    by rewrite !lookup_insert_ne.
Qed.


Lemma Vector_move_ok w this other buf xs cap :
  this ≠ other →
  vec_repr w other buf xs cap →
  ∃ w', Vector_move this other w = (Ret tt, w') ∧
        vec_repr w' this buf xs cap ∧ vec_repr w' other None [] 0 ∧
        heap w' = heap w ∧ clock w' = clock w ∧ leaked w' = leaked w ∧
        (∀ that, that ≠ this → that ≠ other → objs w' !! that = objs w !! that).
Proof.
  destruct w as [h o l c]. intros Hne (Ho & [Hle Hfits] & Hb). simpl in *.
  eexists. split.
  { unfold Vector_move. apply noexcept_ret.
    step ltac:(reflexivity).
    eapply Swap_eq; [done|apply lookup_insert_eq|by rewrite lookup_insert_ne]. }
  split; [|split; [|split; [done|split; [done|split; [done|]]]]].
  - split; [|split]; simpl; [|done|done].
    rewrite lookup_insert_ne by done. by rewrite lookup_insert_eq.
  - split; [|split]; simpl; [by rewrite lookup_insert_eq|split; [lia|fits]|done].
  - intros that H1 H2. simpl. by rewrite !lookup_insert_ne.
Qed.

Lemma move_assignment_ok w this rhs buf1 xs1 cap1 buf2 xs2 cap2 :
  this ≠ rhs →
  vec_repr w this buf1 xs1 cap1 → vec_repr w rhs buf2 xs2 cap2 →
  ∃ w', move_assignment this rhs w = (Ret tt, w') ∧
        vec_repr w' this buf2 xs2 cap2 ∧ vec_repr w' rhs buf1 xs1 cap1 ∧
        heap w' = heap w ∧ leaked w' = leaked w ∧
        (∀ that, that ≠ this → that ≠ rhs → objs w' !! that = objs w !! that) ∧
        clock w' = clock w.
Proof.
  intros Hne H1 H2.
  destruct (Swap_ok w this rhs _ _ _ _ _ _ Hne H1 H2)
    as (w' & Hrun & Hr1 & Hr2 & Hh & Hl & Hobjs & Hc & _).
  exists w'. split; [|done].
  unfold move_assignment. apply noexcept_ret.
  by destruct (Nat.eqb_spec this rhs).
Qed.

(** ** PopBack and Resize *)

Lemma PopBack_repr w this buf xs x cap :
  vec_repr w this buf (xs ++ [x]) cap →
  ∃ w', PopBack E this w = (Ret tt, w') ∧ vec_repr w' this buf xs cap ∧
        clock w' = clock w ∧ leaked w' = leaked w ∧
        (∀ that, that ≠ this → objs w' !! that = objs w !! that) ∧
        (∀ b0, Some b0 ≠ buf → heap w' !! b0 = heap w !! b0).
Proof.
  destruct w as [h o l c]. intros (Ho & [Hle Hfits] & Hbuf). simpl in Ho.
  assert (Hlen : length (xs ++ [x]) = length xs + 1) by (rewrite length_app; simpl; lia).
  destruct buf as [b|]; [|lia].
  destruct Hbuf as [Hb Hcap]. simpl in Hb.
  eexists. split.
  { eapply (PopBack_ok E _ _ _ _ _ _ _ xs x Ho x (replicate (cap - length (xs ++ [x])) Raw)).
    rewrite Hb. unfold cells_of. rewrite fmap_app. by rewrite <- app_assoc. }
  split; [|split; [done|split; [done|split]]].
  - split; [|split]; simpl.
    + by rewrite lookup_insert_eq.
    + (split; [lia|fits]).
    + split; [|done]. rewrite lookup_insert_eq. f_equal. unfold cells_of. f_equal.
      change (Raw :: replicate ?n Raw) with (replicate (S n) (@Raw T)).
      f_equal. lia.
  - intros that Hthat. simpl. by rewrite lookup_insert_ne.
  - intros b0 Hne0. simpl. by rewrite lookup_insert_ne by congruence.
Qed.

Lemma Resize_ok w this buf xs cap n :
  no_throw E →
  vec_repr w this buf xs cap →
  alloc_fits n →
  ∃ buf' w',
    Resize E this n w = (Ret tt, w') ∧
    vec_repr w' this buf'
      (take n xs ++ replicate (n - length xs) (value_initialized E))
      (Nat.max cap n) ∧
    (n ≤ cap → buf' = buf) ∧
    leaked w' = leaked w ∧
    (∀ that, that ≠ this → objs w' !! that = objs w !! that) ∧
    (∀ b0, Some b0 ≠ buf → Some b0 ≠ buf' → heap w' !! b0 = heap w !! b0) ∧
    clock w' = clock w + (if decide (n ≤ cap) then 0 else length xs + 1)
               + (n - length xs) ∧
    (∀ b', buf' = Some b' → buf' ≠ buf → heap w !! b' = None).
Proof.
  intros HE Hrepr Hn.
  destruct (decide (n < length xs)) as [Hlt|Hge].
  - (* the tail is destroyed *)
    destruct w as [h o l c]. destruct Hrepr as (Ho & [Hle Hfits] & Hbuf). simpl in Ho.
    destruct buf as [b|]; [|lia].
    destruct Hbuf as [Hb Hcap]. simpl in Hb.
    exists (Some b). eexists. split.
    { unfold Resize.
      step ltac:(by eapply get_size_eq). norm.
      destruct (Nat.ltb_spec n (length xs)); [|lia].
      step ltac:(step ltac:(by eapply get_data_eq); norm;
                 eapply (destroy_n_at _ _ _ _ b n _ (drop n xs) (Live <$> take n xs)
                           (replicate (cap - length xs) Raw));
                 [rewrite Hb; unfold cells_of;
                  rewrite <- (take_drop n xs) at 1; rewrite fmap_app;
                  by rewrite <- app_assoc
                 |rewrite length_fmap, length_take; lia
                 |rewrite length_drop; lia]).
      by eapply set_size_eq. }
    split; [|split; [done|split; [done|split; [|split; [|split]]]]].
    + replace (n - length xs) with 0 by lia. simpl. rewrite app_nil_r.
      replace (Nat.max cap n) with cap by lia.
      split; [|split]; simpl.
      * rewrite lookup_insert_eq. rewrite length_take. do 2 f_equal. lia.
      * rewrite length_take. (split; [lia|fits]).
      * split; [|done]. rewrite lookup_insert_eq. f_equal. unfold cells_of.
        f_equal. rewrite <- replicate_add. f_equal. rewrite length_take. lia.
    + intros that Hthat. simpl. by rewrite lookup_insert_ne.
    + intros b0 Hne0 _. simpl. by rewrite lookup_insert_ne by congruence.
    + simpl. rewrite decide_True by lia. lia.
    + done.
  - (* room is reserved and the new tail is constructed *)
    assert (Hres : ∃ buf1 w1,
      Reserve E this n w = (Ret tt, w1) ∧ vec_repr w1 this buf1 xs (Nat.max cap n) ∧
      (n ≤ cap → buf1 = buf) ∧ leaked w1 = leaked w ∧
      (∀ that, that ≠ this → objs w1 !! that = objs w !! that) ∧
      (∀ b0, Some b0 ≠ buf → Some b0 ≠ buf1 → heap w1 !! b0 = heap w !! b0) ∧
      clock w1 = clock w + (if decide (n ≤ cap) then 0 else length xs + 1) ∧
      (∀ b', buf1 = Some b' → buf1 ≠ buf → heap w !! b' = None)).
    { destruct (decide (n ≤ cap)) as [Hle|Hgt].
      - exists buf, w. destruct w as [h o l c]. destruct Hrepr as (Ho & [Hle' Hfits'] & Hbuf).
        split; [by eapply Reserve_noop|].
        replace (Nat.max cap n) with cap by lia.
        split; [done|]. split; [done|]. split; [done|]. split; [done|].
        split; [done|]. split; [simpl; lia|done].
      - destruct (Reserve_grows E w this buf xs cap n HE Hrepr)
          as (b' & w1 & Hrun & Hr & _ & Hl & Hobjs & Hfresh & _ & Hframe & Hc);
          [lia|done|].
        exists (Some b'), w1. split; [done|].
        replace (Nat.max cap n) with n by lia.
        split; [done|]. split; [lia|]. split; [done|]. split; [done|].
        split; [intros b0 H1 H2; apply Hframe; congruence|].
        split; [lia|]. by intros ? [= <-]. }
    destruct Hres as (buf1 & [h1 o1 l1 c1] & Hres & (Ho1 & [Hle1 Hfits1] & Hbuf1)
                      & Hsame & Hl1 & Hobjs1 & Hframe1 & Hc1 & Hfresh1).
    simpl in Ho1.
    assert (Hsz : ∃ v0, objs w !! this = Some v0 ∧ size_ v0 = length xs).
    { destruct Hrepr as (Ho & _). eauto. }
    destruct Hsz as (v0 & Ho0 & Hsz0).
    rewrite take_ge by lia.
    set (cap' := Nat.max cap n) in *.
    exists buf1. destruct buf1 as [b1|].
    + destruct Hbuf1 as [Hb1 Hcap1]. simpl in Hb1.
      eexists. split.
      { unfold Resize. destruct w as [h o l c]. simpl in Ho0.
        step ltac:(by eapply get_size_eq). rewrite Hsz0.
        destruct (Nat.ltb_spec n (length xs)); [lia|].
        step ltac:(
          step ltac:(exact Hres);
          step ltac:(by eapply get_data_eq); norm;
          step ltac:(by eapply get_size_eq); norm;
          replace (length xs) with (length (Live <$> xs)) at 1 by apply length_fmap;
          eapply (uninitialized_value_construct_n_ok E (n - length xs) _ _ _ _ b1
                    (Live <$> xs) (replicate (cap' - n) Raw) HE);
          rewrite Hb1; unfold cells_of; do 2 f_equal;
          rewrite <- replicate_add; f_equal; lia).
        eapply set_size_eq. exact Ho1. }
      split; [|split; [done|split; [done|split; [|split; [|split]]]]].
      * split; [|split]; simpl.
        -- rewrite lookup_insert_eq. rewrite length_app, length_replicate.
           do 2 f_equal. lia.
        -- rewrite length_app, length_replicate. (split; [lia|fits]).
        -- split; [|done]. rewrite lookup_insert_eq. f_equal. unfold cells_of.
           rewrite fmap_app, <- app_assoc. do 3 f_equal.
           rewrite length_app, length_replicate. lia.
      * intros that Hthat. simpl in *. rewrite lookup_insert_ne by done.
        by apply Hobjs1.
      * intros b0 H1 H2. simpl in *. rewrite lookup_insert_ne by congruence.
        by apply Hframe1.
      * simpl in *. lia.
      * done.
    + assert (n = 0) as -> by lia.
      destruct xs as [|x xs]; [|simpl in Hle1; lia].
      eexists. split.
      { unfold Resize. destruct w as [h o l c]. simpl in Ho0.
        step ltac:(by eapply get_size_eq). rewrite Hsz0. simpl.
        step ltac:(
          step ltac:(exact Hres);
          step ltac:(by eapply get_data_eq); norm;
          step ltac:(by eapply get_size_eq); norm;
          reflexivity).
        eapply set_size_eq. exact Ho1. }
      split; [|split; [done|split; [done|split; [|split; [|split]]]]].
      * split; [|split]; simpl; [by rewrite lookup_insert_eq|split; [lia|fits]|done].
      * intros that Hthat. simpl in *. rewrite lookup_insert_ne by done.
        by apply Hobjs1.
      * intros b0 H1 H2. simpl in *. by apply Hframe1.
      * simpl in *. lia.
      * done.
Qed.

(** ** Destruction and copy assignment *)

Lemma Vector_dtor_ok w this buf xs cap :
  vec_repr w this buf xs cap →
  ∃ w',
    Vector_dtor this w = (Ret tt, w') ∧
    objs w' !! this = None ∧
    leaked w' = leaked w ∧
    (∀ that buf3 ys cap3,
        that ≠ this → vec_repr w that buf3 ys cap3 →
        (is_Some buf → buf3 ≠ buf) →
        vec_repr w' that buf3 ys cap3) ∧
    (∀ b, buf = Some b → heap w' !! b = None) ∧
    (∀ b0, Some b0 ≠ buf → heap w' !! b0 = heap w !! b0) ∧
    clock w' = clock w.
Proof.
  destruct w as [h o l c]. intros (Ho & [Hle Hfits] & Hbuf). simpl in Ho.
  destruct buf as [b|].
  - destruct Hbuf as [Hb Hcap]. simpl in Hb.
    eexists. split; [|split; [|split; [|split; [|split; [|split]]]]].
    + unfold Vector_dtor.
      step ltac:(by eapply get_vec_eq). norm.
      step ltac:(eapply (DestroyN_ok _ _ _ _ b 0 _ xs []); [exact Hb|done|done]).
      unfold RawMemory_dtor. norm.
      step ltac:(eapply Deallocate_eq; apply lookup_insert_eq).
      reflexivity.
    + simpl. apply lookup_delete_eq.
    + simpl. rewrite <- replicate_add, count_live_raw. lia.
    + intros that buf3 ys cap3 Hthat (Ho3 & [Hle3 Hfits3] & Hbuf3) Hdiff. simpl in *.
      split; [|split]; simpl; [by rewrite lookup_delete_ne|done|].
      destruct buf3 as [b3|]; [|done]. destruct Hbuf3 as [Hb3 Hc3].
      split; [|done].
      assert (b3 ≠ b) by (intros ->; by apply Hdiff).
      by rewrite lookup_delete_ne, lookup_insert_ne.
    + intros ? [= <-]. simpl. apply lookup_delete_eq.
    + intros b0 Hne0. simpl.
      rewrite lookup_delete_ne by congruence. by rewrite lookup_insert_ne by congruence.
    + done.
  - subst cap. destruct xs as [|x xs]; [|simpl in Hle; lia].
    eexists. split; [|split; [|split; [|split; [|split; [|split]]]]].
    + unfold Vector_dtor.
      step ltac:(by eapply get_vec_eq). norm.
      step ltac:(reflexivity). step ltac:(reflexivity). reflexivity.
    + simpl. apply lookup_delete_eq.
    + done.
    + intros that buf3 ys cap3 Hthat (Ho3 & [Hle3 Hfits3] & Hbuf3) _. simpl in *.
      split; [|split]; simpl; [by rewrite lookup_delete_ne|done|done].
    + done.
    + done.
    + done.
Qed.

Lemma std_copy_ok h o l c bs bd k xs ys s2 d2 :
  no_throw E → bs ≠ bd → length ys = length xs → k = length xs →
  h !! bs = Some ((Live <$> xs) ++ s2) →
  h !! bd = Some ((Live <$> ys) ++ d2) →
  std_copy E (Ptr (Some bs) 0) (Ptr (Some bs) (0 + k)) (Ptr (Some bd) 0) (World h o l c)
  = (Ret tt, World (<[bd := (Live <$> xs) ++ d2]> h) o l (c + k)).
Proof.
  intros HE Hne Hlen -> Hs Hd. unfold std_copy.
  step ltac:(apply ptr_diff_eq; lia).
  replace (0 + length xs - 0) with (length xs) by lia.
  by eapply (copy_loop_ok E xs ys _ _ _ _ bs bd [] s2 [] d2).
Qed.

Lemma copy_assignment_ok w this rhs buf1 xs1 cap1 buf2 xs2 cap2 :
  no_throw E → this ≠ rhs →
  vec_repr w this buf1 xs1 cap1 → vec_repr w rhs buf2 xs2 cap2 →
  (is_Some buf1 → buf2 ≠ buf1) →
  ∃ buf' w',
    copy_assignment E this rhs w = (Ret tt, w') ∧
    vec_repr w' this buf' xs2 (if cap1 <? length xs2 then length xs2 else cap1) ∧
    vec_repr w' rhs buf2 xs2 cap2 ∧
    (length xs2 ≤ cap1 → buf' = buf1) ∧
    leaked w' = leaked w ∧
    (cap1 < length xs2 → ∀ b, buf1 = Some b → heap w' !! b = None).
Proof.
  intros HE Hne Hthis Hrhs Hdisj.
  unfold copy_assignment. destruct (Nat.eqb_spec this rhs) as [?|_]; [done|]. simpl.
  destruct (Nat.ltb_spec cap1 (length xs2)) as [Hgrow|Hfits].
  - (* a copy is built and swapped in *)
    set (temp := fresh (dom (objs w))).
    assert (Htemp : objs w !! temp = None) by (apply not_elem_of_dom, is_fresh).
    assert (Ht1 : this ≠ temp).
    { intros Heq. destruct Hthis as (Ho & _). rewrite Heq in Ho. congruence. }
    assert (Ht2 : temp ≠ rhs).
    { intros Heq. destruct Hrhs as (Ho & _). rewrite <- Heq in Ho. congruence. }
    destruct (Vector_copy_ok E w temp rhs buf2 xs2 cap2 HE Hrhs Ht2)
      as (buf' & w1 & Hcopy & Htemp1 & Hrhs1 & Hdiff & Hl1 & Hframe).
    destruct (Hframe this buf1 xs1 cap1 Ht1 Hthis) as [Hthis1 Hdiff1].
    assert (Hsome : is_Some buf').
    { destruct buf' as [b'|]; [done|]. destruct Htemp1 as (_ & _ & Hz). lia. }
    destruct (Swap_ok w1 this temp _ _ _ _ _ _ Ht1 Hthis1 Htemp1)
      as (w2 & Hswap & Hthis2 & Htemp2 & Hheap2 & Hl2 & Hobjs2).
    assert (Hrhs2 : vec_repr w2 rhs buf2 xs2 cap2).
    { eapply vec_repr_objs; [exact Hheap2| |exact Hrhs1]. apply Hobjs2; congruence. }
    destruct (Vector_dtor_ok w2 temp buf1 xs1 cap1 Htemp2)
      as (w3 & Hdtor & _ & Hl3 & Hframe3 & Hrel3 & _).
    exists buf', w3. split; [|split; [|split; [|split; [|split]]]].
    + destruct w as [h o l c].
      destruct Hrhs as (Ho2 & _). destruct Hthis as (Ho1 & _). simpl in Ho1, Ho2.
      step ltac:(by eapply get_vec_eq). norm.
      step ltac:(by eapply Capacity_eq). norm.
      destruct (Nat.ltb_spec cap1 (length xs2)); [|lia].
      step ltac:(reflexivity).
      step ltac:(exact Hcopy).
      step ltac:(exact Hswap).
      exact Hdtor.
    + apply Hframe3; [done|done|]. intros Hs1 Heq. by apply Hdiff1.
    + apply Hframe3; [congruence|done|]. intros Hs1. by apply Hdisj.
    + lia.
    + congruence.
    + intros _. exact Hrel3.
  - (* the storage is reused *)
    destruct w as [h o l c].
    destruct Hthis as (Ho1 & [Hle1 Hfits1] & Hbuf1). destruct Hrhs as (Ho2 & [Hle2 Hfits2] & Hbuf2).
    simpl in Ho1, Ho2.
    exists buf1.
    destruct xs2 as [|z zs] eqn:Hxs2.
    + (* nothing to copy *)
      destruct xs1 as [|a xs1'] eqn:Hxs1.
      * eexists. split; [|split; [|split; [|split; [|split]]]].
        -- step ltac:(by eapply get_vec_eq). norm.
           step ltac:(by eapply Capacity_eq). norm.
           destruct (Nat.ltb_spec cap1 0); [lia|].
           step ltac:(by eapply get_vec_eq). norm. simpl.
           step ltac:(step ltac:(unfold std_copy; norm;
                                 step ltac:(apply ptr_diff_eq; lia); reflexivity);
                      reflexivity).
           by eapply set_size_eq.
        -- split; [|split]; simpl; [by rewrite lookup_insert_eq|split; [lia|fits]|done].
        -- split; [|split]; simpl; [by rewrite lookup_insert_ne|done|done].
        -- done.
        -- done.
        -- simpl. lia.
      * rewrite <- Hxs1 in *.
        assert (Hpos : 0 < length xs1) by (rewrite Hxs1; simpl; lia).
        clear Hxs1 a xs1'.
        destruct buf1 as [b1|]; [|lia].
        destruct Hbuf1 as [Hb1 Hcap1]. simpl in Hb1.
        eexists. split; [|split; [|split; [|split; [|split]]]].
        -- step ltac:(by eapply get_vec_eq). norm.
           step ltac:(by eapply Capacity_eq). norm.
           destruct (Nat.ltb_spec cap1 0); [lia|].
           step ltac:(by eapply get_vec_eq). norm. cbn [length].
           destruct (Nat.leb_spec (length xs1) 0); [lia|].
           step ltac:(step ltac:(unfold std_copy; norm;
                                 step ltac:(apply ptr_diff_eq; lia); reflexivity);
                      eapply (DestroyN_ok _ _ _ _ b1 0 _ xs1 []); [exact Hb1|done|lia]).
           by eapply set_size_eq.
        -- split; [|split]; simpl; [by rewrite lookup_insert_eq|(split; [lia|fits])|].
           split; [|done]. rewrite lookup_insert_eq. f_equal. unfold cells_of. simpl.
           rewrite <- replicate_add. f_equal. lia.
        -- split; [|split]; simpl; [by rewrite lookup_insert_ne|done|].
           destruct buf2 as [b2|]; [|done]. destruct Hbuf2 as [Hb2 Hc2].
           split; [|done]. rewrite lookup_insert_ne; [done|].
           intros <-. by eapply Hdisj.
        -- done.
        -- done.
        -- simpl. lia.
    + rewrite <- Hxs2 in *.
      assert (Hpos : 0 < length xs2) by (rewrite Hxs2; simpl; lia).
      clear Hxs2 z zs.
      destruct buf2 as [b2|]; [|lia]. destruct Hbuf2 as [Hb2 Hcap2]. simpl in Hb2.
      destruct buf1 as [b1|]; [|lia]. destruct Hbuf1 as [Hb1 Hcap1]. simpl in Hb1.
      assert (Hbb : b2 ≠ b1) by (intros ->; by eapply Hdisj).
      destruct (Nat.leb_spec (length xs1) (length xs2)) as [Hle|Hgt].
      * (* the prefix is assigned, the rest constructed *)
        set (k := length xs1) in *.
        assert (Hk : length (take k xs2) = k) by (rewrite length_take; lia).
        eexists. split; [|split; [|split; [|split; [|split]]]].
        -- step ltac:(by eapply get_vec_eq). norm.
           step ltac:(by eapply Capacity_eq). norm.
           destruct (Nat.ltb_spec cap1 (length xs2)); [lia|].
           step ltac:(by eapply get_vec_eq). norm.
           destruct (Nat.leb_spec k (length xs2)); [|lia].
           step ltac:(
             step ltac:(eapply (std_copy_ok _ _ _ _ b2 b1 k (take k xs2) xs1
                                  ((Live <$> drop k xs2) ++ replicate (cap2 - length xs2) Raw)
                                  (replicate (cap1 - k) Raw) HE Hbb);
                        [by rewrite Hk|by rewrite Hk
                        |rewrite Hb2; unfold cells_of;
                         rewrite <- (take_drop k xs2) at 1; rewrite fmap_app;
                         by rewrite <- app_assoc
                        |exact Hb1]);
             eapply (uninitialized_copy_n_at E _ _ _ _ b2 b1 _ _ _ (drop k xs2)
                       (Live <$> take k xs2) (replicate (cap2 - length xs2) Raw)
                       (Live <$> take k xs2) (replicate (cap1 - length xs2) Raw) HE Hbb);
             [rewrite lookup_insert_ne by done; rewrite Hb2; unfold cells_of;
              rewrite <- (take_drop k xs2) at 1; rewrite fmap_app;
              by rewrite <- app_assoc
             |rewrite lookup_insert_eq; do 2 f_equal;
              rewrite <- replicate_add; f_equal; lia
             |rewrite length_fmap; lia
             |rewrite length_drop; lia
             |rewrite length_fmap; lia]).
           by eapply set_size_eq.
        -- split; [|split]; simpl; [by rewrite lookup_insert_eq|(split; [lia|fits])|].
           split; [|done]. rewrite lookup_insert_eq. f_equal. unfold cells_of.
           rewrite app_assoc, <- fmap_app, take_drop. done.
        -- split; [|split]; simpl; [by rewrite lookup_insert_ne|done|].
           split; [|done]. by rewrite !lookup_insert_ne.
        -- done.
        -- done.
        -- lia.
      * (* the prefix is assigned, the tail destroyed *)
        set (k := length xs2) in *.
        assert (Hk : length (take k xs1) = k) by (rewrite length_take; lia).
        eexists. split; [|split; [|split; [|split; [|split]]]].
        -- step ltac:(by eapply get_vec_eq). norm.
           step ltac:(by eapply Capacity_eq). norm.
           destruct (Nat.ltb_spec cap1 k); [lia|].
           step ltac:(by eapply get_vec_eq). norm.
           destruct (Nat.leb_spec (length xs1) k); [lia|].
           step ltac:(
             step ltac:(eapply (std_copy_ok _ _ _ _ b2 b1 k xs2 (take k xs1)
                                  (replicate (cap2 - k) Raw)
                                  ((Live <$> drop k xs1) ++ replicate (cap1 - length xs1) Raw)
                                  HE Hbb);
                        [by rewrite Hk|done|exact Hb2
                        |rewrite Hb1; unfold cells_of;
                         rewrite <- (take_drop k xs1) at 1; rewrite fmap_app;
                         by rewrite <- app_assoc]);
             eapply (DestroyN_ok _ _ _ _ b1 _ _ (drop k xs1) (Live <$> xs2)
                       (replicate (cap1 - length xs1) Raw));
             [apply lookup_insert_eq|rewrite length_fmap; lia|rewrite length_drop; lia]).
           by eapply set_size_eq.
        -- split; [|split]; simpl; [by rewrite lookup_insert_eq|(split; [lia|fits])|].
           split; [|done]. rewrite lookup_insert_eq. f_equal. unfold cells_of.
           f_equal. rewrite <- replicate_add. f_equal. lia.
        -- split; [|split]; simpl; [by rewrite lookup_insert_ne|done|].
           split; [|done]. by rewrite !lookup_insert_ne.
        -- done.
        -- done.
        -- lia.
Qed.

(** ** Queries *)

Lemma queries_leave_store w this index :
  snd (Capacity this w) = w ∧ snd (Size this w) = w ∧
  snd (begin_ this w) = w ∧ snd (end_ this w) = w ∧
  snd (index_const E this index w) = w ∧ snd (index_mut E this index w) = w.
Proof.
  destruct w as [h o l c].
  unfold Capacity, Size, begin_, end_, index_const, index_mut, noexcept, try_catch,
    RawMemory_index_const, RawMemory_index, assert_, get_data, get_size, get_vec,
    bind, ret, abort.
  cbn [objs].
  repeat split; repeat (case_match; simplify_eq; try reflexivity).
Qed.

(** ** Summary: the invariant, when no operation throws *)

(** X26. Every public operation that modifies a vector keeps the
    representation invariant on the executions where no operation
    throws and the byte count of every requested capacity fits [size_t]:
    after [Reserve], [Resize], [Emplace] of a value that is not moved
    from an element of the vector itself, [Erase], [PopBack], [Swap], the
    two assignments and the two constructors from another vector, every
    vector involved has its size within its capacity, a live object in
    every slot below the size and a raw slot above it. *)
Lemma invariant_kept_when_nothing_throws w this buf xs cap :
  no_throw E →
  vec_repr w this buf xs cap →
  (∀ n, alloc_fits n →
      ∃ w', Reserve E this n w = (Ret tt, w') ∧ vec_inv w' this = true) ∧
  (∀ n, alloc_fits n →
      ∃ w', Resize E this n w = (Ret tt, w') ∧ vec_inv w' this = true) ∧
  (∀ i args v,
      i ≤ length xs → args_value (heap w) args = Some v → moves_outside buf args →
      (length xs = cap → doubling_fits cap) →
      ∃ p w', Emplace E this (Ptr buf i) args w = (Ret p, w') ∧ vec_inv w' this = true) ∧
  (∀ i, i < length xs →
      ∃ p w', Erase E this (Ptr buf i) w = (Ret p, w') ∧ vec_inv w' this = true) ∧
  (0 < length xs →
      ∃ w', PopBack E this w = (Ret tt, w') ∧ vec_inv w' this = true) ∧
  (∀ other buf2 xs2 cap2,
      this ≠ other → vec_repr w other buf2 xs2 cap2 → (is_Some buf → buf2 ≠ buf) →
      (∃ w', Swap this other w = (Ret tt, w') ∧
             vec_inv w' this = true ∧ vec_inv w' other = true) ∧
      (∃ w', move_assignment this other w = (Ret tt, w') ∧
             vec_inv w' this = true ∧ vec_inv w' other = true) ∧
      (∃ w', copy_assignment E this other w = (Ret tt, w') ∧
             vec_inv w' this = true ∧ vec_inv w' other = true)) ∧
  (∀ that, that ≠ this →
      (∃ w', Vector_copy E that this w = (Ret tt, w') ∧
             vec_inv w' that = true ∧ vec_inv w' this = true) ∧
      (∃ w', Vector_move that this w = (Ret tt, w') ∧
             vec_inv w' that = true ∧ vec_inv w' this = true)).
Proof.
  intros HE Hrepr.
  split; [|split; [|split; [|split; [|split; [|split]]]]].
  - intros n Hn. destruct (decide (n ≤ cap)) as [Hle|Hgt].
    + exists w. split; [|by eapply vec_repr_inv].
      destruct w as [h o l c]. destruct Hrepr as (Ho & _). by eapply Reserve_noop.
    + destruct (Reserve_grows E w this buf xs cap n HE Hrepr) as (b' & w' & Hrun & Hr & _);
        [lia|done|].
      exists w'. split; [done|]. by eapply vec_repr_inv.
  - intros n Hn.
    destruct (Resize_ok w this buf xs cap n HE Hrepr Hn) as (b' & w' & Hrun & Hr & _).
    exists w'. split; [done|]. by eapply vec_repr_inv.
  - intros i args v Hi Hv Hout Hfit.
    destruct (Emplace_ok E w this buf xs cap i args v HE Hrepr Hi Hv Hout Hfit)
      as (b' & w' & Hrun & Hr & _).
    exists (Ptr b' i), w'. split; [done|]. by eapply vec_repr_inv.
  - intros i Hi.
    destruct (Erase_ok E w this buf xs cap i HE Hrepr Hi) as (w' & Hrun & Hr & _).
    exists (Ptr buf i), w'. split; [done|]. by eapply vec_repr_inv.
  - intros Hpos. destruct xs as [|x xs _] using rev_ind; [simpl in Hpos; lia|].
    destruct (PopBack_repr w this buf xs x cap Hrepr) as (w' & Hrun & Hr & _).
    exists w'. split; [done|]. by eapply vec_repr_inv.
  - intros other buf2 xs2 cap2 Hne Hother Hdisj. split; [|split].
    + destruct (Swap_ok w this other _ _ _ _ _ _ Hne Hrepr Hother)
        as (w' & Hrun & Hr1 & Hr2 & _).
      exists w'. split; [done|]. split; by eapply vec_repr_inv.
    + destruct (move_assignment_ok w this other _ _ _ _ _ _ Hne Hrepr Hother)
        as (w' & Hrun & Hr1 & Hr2 & _).
      exists w'. split; [done|]. split; by eapply vec_repr_inv.
    + destruct (copy_assignment_ok w this other _ _ _ _ _ _ HE Hne Hrepr Hother Hdisj)
        as (b' & w' & Hrun & Hr1 & Hr2 & _).
      exists w'. split; [done|]. split; by eapply vec_repr_inv.
  - intros that Hthat. split.
    + destruct (Vector_copy_ok E w that this buf xs cap HE Hrepr Hthat)
        as (b' & w' & Hrun & Hr1 & Hr2 & _).
      exists w'. split; [done|]. split; by eapply vec_repr_inv.
    + destruct (Vector_move_ok w that this buf xs cap Hthat Hrepr)
        as (w' & Hrun & Hr1 & Hr2 & _).
      exists w'. split; [done|]. split; by eapply vec_repr_inv.
Qed.

End Operations.

Section Appending.
Context {T : Type} {sT : SizeOf T} (E : env T).
Implicit Types (w : world T) (h : gmap nat (list (cell T))) (o : gmap nat Vector).
Implicit Types (cells : list (cell T)) (xs ys vs : list T) (args : ctor_args T).

(** ** EmplaceBack and PushBack *)

Lemma EmplaceBack_ok w this buf xs cap args v :
  no_throw E →
  vec_repr w this buf xs cap →
  args_value (heap w) args = Some v →
  moves_outside buf args →
  (length xs = cap → doubling_fits cap) →
  ∃ buf' w',
    EmplaceBack E this args w = (Ret (Ptr buf' (length xs)), w') ∧
    vec_repr w' this buf' (xs ++ [v])
      (if decide (length xs = cap) then Nat.max 1 (2 * cap) else cap) ∧
    (length xs < cap → buf' = buf) ∧
    leaked w' = leaked w ∧
    (∀ that, that ≠ this → objs w' !! that = objs w !! that) ∧
    (∀ b0, Some b0 ≠ buf → Some b0 ≠ buf' →
        heap w' !! b0 = mark_source E (heap w) args v !! b0) ∧
    clock w' = clock w + (if decide (length xs = cap) then length xs + 2 else 1) ∧
    (length xs = cap →
        (∀ b, buf = Some b → heap w' !! b = None) ∧
        (∀ b', buf' = Some b' → heap w !! b' = None)).
Proof.
  intros HE Hrepr Hv Hout Hfit.
  destruct (Emplace_ok E w this buf xs cap (length xs) args v)
    as (buf' & w' & Hrun & Hrepr' & Hsame & Hl & Hobjs & Hframe & Hfresh & Hc); try done.
  rewrite take_ge, drop_ge in Hrepr' by lia.
  exists buf', w'. split.
  { destruct w as [h o l c]. destruct Hrepr as (Ho & _).
    unfold EmplaceBack.
    step ltac:(by eapply end_eq). norm. exact Hrun. }
  split; [done|]. split; [done|]. split; [done|]. split; [done|]. split; [done|].
  split; [|done]. rewrite Hc. repeat case_decide; lia.
Qed.

Lemma push_backs_spare vs : ∀ w this b xs cap,
  no_throw E →
  vec_repr w this (Some b) xs cap →
  length xs + length vs ≤ cap →
  ∃ w',
    push_backs E this vs w = (Ret (replicate (length vs) cap), w') ∧
    vec_repr w' this (Some b) (xs ++ vs) cap ∧
    clock w' = clock w + length vs ∧
    leaked w' = leaked w.
Proof.
  induction vs as [|x vs IH]; intros w this b xs cap HE Hrepr Hle.
  - exists w. rewrite app_nil_r. split; [done|]. split; [done|]. simpl. lia.
  - simpl in Hle.
    destruct (EmplaceBack_ok w this (Some b) xs cap (CopyOf (Ext x)) x)
      as (buf1 & w1 & Hpush & Hrepr1 & Hsame & Hl1 & _ & _ & Hc1 & _); try done.
    { intros ?. lia. }
    rewrite decide_False in Hrepr1, Hc1 by lia.
    rewrite Hsame in * by lia.
    destruct (IH w1 this b (xs ++ [x]) cap HE Hrepr1) as (w' & Hrest & Hrepr' & Hc' & Hl').
    { rewrite length_app. simpl. lia. }
    exists w'. rewrite <- app_assoc in Hrepr'. split; [|split; [done|split]].
    + cbn [push_backs]. unfold PushBack_copy.
      step ltac:(step ltac:(exact Hpush); reflexivity).
      destruct w1 as [h1 o1 l1 c1]. destruct Hrepr1 as (Ho1 & _). simpl in Ho1.
      step ltac:(by eapply Capacity_eq). norm.
      step ltac:(exact Hrest).
      reflexivity.
    + simpl. lia.
    + congruence.
Qed.

End Appending.

(** * Further properties of the operations *)

Section Further.
Context {T : Type} {sT : SizeOf T} (E : env T).
Implicit Types (w : world T) (h : gmap nat (list (cell T))) (o : gmap nat Vector).
Implicit Types (cells : list (cell T)) (xs ys vs : list T) (args : ctor_args T).

Lemma vec_repr_frame w w' that buf3 ys cap3 :
  vec_repr w that buf3 ys cap3 →
  objs w' !! that = objs w !! that →
  (∀ b, buf3 = Some b → heap w' !! b = heap w !! b) →
  vec_repr w' that buf3 ys cap3.
Proof.
  intros (Ho & [Hle Hfits] & Hbuf) Hobjs Hheap. split; [by rewrite Hobjs|split; [done|]].
  destruct buf3 as [b|]; [|done]. by rewrite (Hheap b eq_refl).
Qed.

Lemma erase_insert xs i (x : T) :
  i ≤ length xs →
  take i (take i xs ++ x :: drop i xs) ++ drop (S i) (take i xs ++ x :: drop i xs) = xs.
Proof.
  intros Hi.
  assert (Hpre : length (take i xs) = i) by (rewrite length_take; lia).
  rewrite take_app_length' by done.
  rewrite drop_app_ge by lia. rewrite Hpre.
  replace (S i - i) with 1 by lia. simpl. rewrite drop_0. apply take_drop.
Qed.

(** X1. [Resize(n)] on a vector holding [xs], when no operation throws
    and the byte count [n * sizeof(T)] fits [size_t]:
    the vector then holds the first [n] elements of [xs], followed by
    value-initialized elements up to the size [n]; the capacity is the
    larger of the old capacity and [n]; the buffer is kept whenever [n]
    is within the capacity, so that shrinking never reallocates; no object
    is lost; and the calls made are one default construction for each new
    element, preceded, when the buffer grows, by one allocation and one
    transfer of each old element. *)
Theorem Resize_truncates_or_pads w this buf xs cap n :
  no_throw E →
  vec_repr w this buf xs cap →
  alloc_fits n →
  ∃ buf' w',
    Resize E this n w = (Ret tt, w') ∧
    vec_repr w' this buf'
      (take n xs ++ replicate (n - length xs) (value_initialized E))
      (Nat.max cap n) ∧
    (n ≤ cap → buf' = buf) ∧
    leaked w' = leaked w ∧
    clock w' = clock w + (if decide (n ≤ cap) then 0 else length xs + 1)
               + (n - length xs).
Proof.
  intros HE Hrepr Hn.
  destruct (Resize_ok E w this buf xs cap n HE Hrepr Hn)
    as (buf' & w' & Hrun & Hr & Hsame & Hl & _ & _ & Hc & _).
  by exists buf', w'.
Qed.

(** X2. [Vector(size_t size)], when no operation throws and the byte
    count [size * sizeof(T)] fits [size_t]: the new vector
    holds [size] value-initialized elements in a block of exactly [size]
    slots; for [size = 0] no block is requested and the free store is as
    before; otherwise there is one allocation and one default construction
    for each element. Other vectors are not touched. *)
Theorem Vector_sized_value_initializes w this n :
  no_throw E →
  alloc_fits n →
  ∃ buf' w',
    Vector_sized E this n w = (Ret tt, w') ∧
    vec_repr w' this buf' (replicate n (value_initialized E)) n ∧
    (n = 0 → buf' = None) ∧
    (∀ b0, Some b0 ≠ buf' → heap w' !! b0 = heap w !! b0) ∧
    (∀ that, that ≠ this → objs w' !! that = objs w !! that) ∧
    clock w' = clock w + (if decide (n = 0) then 0 else n + 1).
Proof.
  intros HE Hn.
  destruct (Vector_sized_ok E w this n HE Hn)
    as (buf' & w' & Hrun & Hr & _ & Hobjs & Hframe & _ & Hc).
  exists buf', w'. split; [done|]. split; [done|]. split; [|done].
  intros ->. destruct Hr as (_ & _ & Hb). destruct buf'; [lia|done].
Qed.

(** X3. [Swap] of two distinct vectors exchanges their buffers, sizes and
    capacities, and so their elements, without running any operation of
    the element type and without touching the free store; swapping again
    restores the store exactly. A vector swapped with itself is unchanged,
    and so is the whole store: the move assignment of [RawMemory] that
    [std::swap] runs skips self-assignment, so the buffer is not released. *)
Theorem Swap_exchanges_buffers w this other buf1 xs1 cap1 buf2 xs2 cap2 :
  vec_repr w this buf1 xs1 cap1 → vec_repr w other buf2 xs2 cap2 →
  (this ≠ other →
   ∃ w', Swap this other w = (Ret tt, w') ∧
         vec_repr w' this buf2 xs2 cap2 ∧ vec_repr w' other buf1 xs1 cap1 ∧
         heap w' = heap w ∧ clock w' = clock w ∧ leaked w' = leaked w ∧
         Swap this other w' = (Ret tt, w)) ∧
  Swap this this w = (Ret tt, w).
Proof.
  intros H1 H2. split.
  - intros Hne.
    destruct (Swap_ok w this other _ _ _ _ _ _ Hne H1 H2)
      as (w' & Hrun & Hr1 & Hr2 & Hh & Hl & _ & Hc & Hback).
    by exists w'.
  - destruct w as [h o l c]. destruct H1 as (Ho & _). by eapply Swap_self_eq.
Qed.

(** X4. The move constructor hands the buffer of the source to the new
    vector: the new vector has the source's block, size, capacity and
    elements, the source is left empty with no buffer, and no allocation
    and no operation of the element type takes place. *)
Theorem Vector_move_takes_the_buffer w this other buf xs cap :
  this ≠ other →
  vec_repr w other buf xs cap →
  ∃ w', Vector_move this other w = (Ret tt, w') ∧
        vec_repr w' this buf xs cap ∧ vec_repr w' other None [] 0 ∧
        heap w' = heap w ∧ clock w' = clock w ∧ leaked w' = leaked w.
Proof.
  intros Hne Hrepr.
  destruct (Vector_move_ok w this other buf xs cap Hne Hrepr)
    as (w' & Hrun & Hr1 & Hr2 & Hh & Hc & Hl & _).
  by exists w'.
Qed.

(** X5. Move assignment from a different vector exchanges the two: the
    target receives the buffer and the elements of the source, and the
    source is left holding what the target held before; the old elements
    of the target are not destroyed by the assignment. Nothing is
    allocated, released or constructed. *)
Theorem move_assignment_exchanges w this rhs buf1 xs1 cap1 buf2 xs2 cap2 :
  this ≠ rhs →
  vec_repr w this buf1 xs1 cap1 → vec_repr w rhs buf2 xs2 cap2 →
  ∃ w', move_assignment this rhs w = (Ret tt, w') ∧
        vec_repr w' this buf2 xs2 cap2 ∧ vec_repr w' rhs buf1 xs1 cap1 ∧
        heap w' = heap w ∧ clock w' = clock w ∧ leaked w' = leaked w.
Proof.
  intros Hne H1 H2.
  destruct (move_assignment_ok w this rhs _ _ _ _ _ _ Hne H1 H2)
    as (w' & Hrun & Hr1 & Hr2 & Hh & Hl & _ & Hc).
  by exists w'.
Qed.

(** X6. Copy assignment from a different vector, when no operation
    throws: the target then holds the elements of the source and the
    source is unchanged. When the source fits into the target's capacity
    the target keeps its buffer and its capacity; otherwise the target
    gets a new block of exactly the source's size and its old block is
    released. No object is lost either way. *)
Theorem copy_assignment_replaces_contents w this rhs buf1 xs1 cap1 buf2 xs2 cap2 :
  no_throw E → this ≠ rhs →
  vec_repr w this buf1 xs1 cap1 → vec_repr w rhs buf2 xs2 cap2 →
  (is_Some buf1 → buf2 ≠ buf1) →
  ∃ buf' w',
    copy_assignment E this rhs w = (Ret tt, w') ∧
    vec_repr w' this buf' xs2 (if cap1 <? length xs2 then length xs2 else cap1) ∧
    vec_repr w' rhs buf2 xs2 cap2 ∧
    (length xs2 ≤ cap1 → buf' = buf1) ∧
    (cap1 < length xs2 → ∀ b, buf1 = Some b → heap w' !! b = None) ∧
    leaked w' = leaked w.
Proof.
  intros HE Hne H1 H2 Hdisj.
  destruct (copy_assignment_ok E w this rhs _ _ _ _ _ _ HE Hne H1 H2 Hdisj)
    as (buf' & w' & Hrun & Hr1 & Hr2 & Hsame & Hl & Hrel).
  by exists buf', w'.
Qed.

(** X7. The destructor destroys every element and releases the block:
    afterwards the object is gone, its block is no longer in the free
    store, no object has been lost, no operation that can throw was run,
    and every other vector is as it was. *)
Theorem Vector_dtor_releases_everything w this buf xs cap :
  vec_repr w this buf xs cap →
  ∃ w',
    Vector_dtor this w = (Ret tt, w') ∧
    objs w' !! this = None ∧
    (∀ b, buf = Some b → heap w' !! b = None) ∧
    leaked w' = leaked w ∧ clock w' = clock w ∧
    (∀ that buf3 ys cap3,
        that ≠ this → vec_repr w that buf3 ys cap3 →
        (is_Some buf → buf3 ≠ buf) →
        vec_repr w' that buf3 ys cap3).
Proof.
  intros Hrepr.
  destruct (Vector_dtor_ok w this buf xs cap Hrepr)
    as (w' & Hrun & Ho & Hl & Hframe & Hrel & _ & Hc).
  by exists w'.
Qed.


(** X8. [PopBack] on a vector whose last element is [x] destroys that
    element and lowers the size by one; the buffer and the capacity stay,
    no operation that can throw is run and no object is lost. On an empty
    vector a debug build stops at the assertion; with [NDEBUG] the address
    one before the start of the buffer is formed, which is undefined. *)
Theorem PopBack_removes_last w this buf xs cap :
  vec_repr w this buf xs cap →
  (∀ ys x, xs = ys ++ [x] →
     ∃ w', PopBack E this w = (Ret tt, w') ∧ vec_repr w' this buf ys cap ∧
           clock w' = clock w ∧ leaked w' = leaked w) ∧
  (xs = [] →
     PopBack E this w
     = (Fatal (if ndebug E then Undefined else AssertionFailed), w)).
Proof.
  intros Hrepr. split.
  - intros ys x ->.
    destruct (PopBack_repr E w this buf ys x cap Hrepr)
      as (w' & Hrun & Hr & Hc & Hl & _).
    by exists w'.
  - intros ->. destruct w as [h o l c]. destruct Hrepr as (Ho & _). simpl in Ho.
    unfold PopBack, noexcept, try_catch.
    rewrite (bind_ret _ _ _ _ _ (get_size_eq _ _ _ _ _ _ Ho)). simpl.
    unfold assert_. destruct (ndebug E); [|done].
    rewrite (bind_ret _ _ _ _ _ (eq_refl : ret tt _ = (Ret tt, _))).
    rewrite (bind_ret _ _ _ _ _ (get_data_eq _ _ _ _ _ _ Ho)). done.
Qed.

(** X9. [PushBack] followed by [PopBack], when no operation throws,
    leaves the elements as they were; when the vector had a free slot the
    buffer and the capacity are as before as well, and otherwise the
    capacity stays doubled. *)
Theorem PopBack_undoes_PushBack w this buf xs cap x :
  no_throw E →
  vec_repr w this buf xs cap →
  (length xs = cap → doubling_fits cap) →
  ∃ buf' w',
    (PushBack_copy E this (Ext x) ;; PopBack E this) w = (Ret tt, w') ∧
    vec_repr w' this buf' xs
      (if decide (length xs = cap) then Nat.max 1 (2 * cap) else cap) ∧
    (length xs < cap → buf' = buf) ∧
    leaked w' = leaked w.
Proof.
  intros HE Hrepr Hfit.
  destruct (EmplaceBack_ok E w this buf xs cap (CopyOf (Ext x)) x)
    as (buf1 & w1 & Hpush & Hrepr1 & Hsame & Hl1 & _); try done.
  destruct (PopBack_repr E w1 this buf1 xs x _ Hrepr1)
    as (w' & Hpop & Hr & _ & Hl & _).
  exists buf1, w'. split; [|split; [done|split; [done|congruence]]].
  unfold PushBack_copy.
  step ltac:(step ltac:(exact Hpush); reflexivity).
  exact Hpop.
Qed.

(** X10. [Insert] of a copy of a value at a position, followed by [Erase]
    at the iterator that [Insert] returned, when no operation throws,
    restores the sequence of elements; [Erase] returns that same
    position. *)
Theorem Erase_undoes_Insert w this buf xs cap i value x :
  no_throw E →
  vec_repr w this buf xs cap →
  i ≤ length xs →
  operand_value (heap w) value = Some x →
  (length xs = cap → doubling_fits cap) →
  ∃ buf' w',
    (p ← Insert_copy E this (Ptr buf i) value; Erase E this p) w
    = (Ret (Ptr buf' i), w') ∧
    vec_repr w' this buf' xs
      (if decide (length xs = cap) then Nat.max 1 (2 * cap) else cap) ∧
    leaked w' = leaked w.
Proof.
  intros HE Hrepr Hi Hx Hfit.
  destruct (Emplace_ok E w this buf xs cap i (CopyOf value) x)
    as (buf1 & w1 & Hins & Hrepr1 & _ & Hl1 & _); try done.
  destruct (Erase_ok E w1 this buf1 _ _ i HE Hrepr1)
    as (w' & Hers & Hr & _ & Hl & _).
  { rewrite length_app, length_take. simpl. lia. }
  exists buf1, w'. split; [|split; [|congruence]].
  - unfold Insert_copy. step ltac:(exact Hins). exact Hers.
  - by rewrite erase_insert in Hr.
Qed.


Lemma noexcept_fatal {A} b (body : M T A) w f w' :
  body w = (Fatal f, w') → noexcept b body w = (Fatal f, w').
Proof. intros H. unfold noexcept, try_catch. destruct b; by rewrite ?H. Qed.

Lemma index_const_ok h o l c this buf cap sz j :
  o !! this = Some (MkVector (MkRawMemory buf cap) sz) →
  j < cap →
  index_const E this j (World h o l c) = (Ret (Ptr buf j), World h o l c).
Proof.
  intros Ho Hj. unfold index_const. apply noexcept_ret.
  step ltac:(by eapply get_data_eq). norm.
  unfold RawMemory_index_const, RawMemory_index. norm.
  destruct (Nat.ltb_spec j cap); [|lia].
  step ltac:(apply assert_true).
  reflexivity.
Qed.

Lemma load_element w this b xs cap j x :
  vec_repr w this (Some b) xs cap → xs !! j = Some x →
  load (Ptr (Some b) j) w = (Ret x, w).
Proof.
  destruct w as [h o l c]. intros (_ & _ & Hb & _) Hj.
  eapply load_eq; [exact Hb|]. by apply cells_of_lookup_live.
Qed.

(** X11. [EmplaceBack], when no operation throws, appends the value that
    the constructor arguments produce and returns a reference to the new
    last element: the returned address is that of index [size - 1] of the
    vector afterwards, and reading it yields the new value. With a free
    slot the buffer is kept and exactly one operation of the element type
    is run; on a full buffer the capacity doubles. *)
Theorem EmplaceBack_returns_new_last w this buf xs cap args v :
  no_throw E →
  vec_repr w this buf xs cap →
  args_value (heap w) args = Some v →
  moves_outside buf args →
  (length xs = cap → doubling_fits cap) →
  ∃ buf' w',
    EmplaceBack E this args w = (Ret (Ptr buf' (length xs)), w') ∧
    vec_repr w' this buf' (xs ++ [v])
      (if decide (length xs = cap) then Nat.max 1 (2 * cap) else cap) ∧
    index_mut E this (length xs) w' = (Ret (Ptr buf' (length xs)), w') ∧
    load (Ptr buf' (length xs)) w' = (Ret v, w') ∧
    (length xs < cap → buf' = buf ∧ clock w' = clock w + 1).
Proof.
  intros HE Hrepr Hv Hout Hfit.
  destruct (EmplaceBack_ok E w this buf xs cap args v)
    as (buf' & w' & Hrun & Hrepr' & Hsame & _ & _ & _ & Hc & _); try done.
  exists buf', w'. split; [done|]. split; [done|].
  assert (Hlast : (xs ++ [v]) !! length xs = Some v).
  { rewrite lookup_app_r by lia. by rewrite Nat.sub_diag. }
  split; [|split].
  - destruct w' as [h' o' l' c']. destruct Hrepr' as (Ho' & [Hle' Hfits'] & _).
    simpl in Ho'. rewrite length_app in *. simpl in *.
    eapply index_mut_ok; [exact Ho'|lia|lia].
  - destruct buf' as [b'|].
    + by eapply load_element.
    + destruct Hrepr' as (_ & [Hle' Hfits'] & Hz). rewrite Hz, length_app in Hle'.
      simpl in Hle'. lia.
  - intros Hlt. split; [by apply Hsame|].
    rewrite Hc. case_decide; [lia|done].
Qed.

(** X12. When no operation throws: after [Reserve(n)] with [n] above the
    capacity and a byte count [n * sizeof(T)] that fits [size_t],
    [PushBack] of further values, as long as the size stays within [n],
    never reallocates: the buffer that [Reserve] obtained is the buffer after
    every call, the capacity read after each call is [n], and each call
    runs exactly one operation of the element type. *)
Theorem no_reallocation_within_reserved_capacity w this buf xs cap n vs :
  no_throw E →
  vec_repr w this buf xs cap →
  cap < n → alloc_fits n → length xs + length vs ≤ n →
  ∃ b' w1 w',
    Reserve E this n w = (Ret tt, w1) ∧
    vec_repr w1 this (Some b') xs n ∧
    push_backs E this vs w1 = (Ret (replicate (length vs) n), w') ∧
    vec_repr w' this (Some b') (xs ++ vs) n ∧
    clock w' = clock w1 + length vs.
Proof.
  intros HE Hrepr Hlt Hn Hle.
  destruct (Reserve_grows E w this buf xs cap n HE Hrepr Hlt Hn)
    as (b' & w1 & Hres & Hrepr1 & _).
  destruct (push_backs_spare E vs w1 this b' xs n HE Hrepr1 Hle)
    as (w' & Hpush & Hrepr' & Hc & _).
  by exists b', w1, w'.
Qed.

(** X13. Element access on a vector holding [xs], for an index [j] below
    the size: both forms of [operator[]] return the address [begin() + j],
    and the object there is the [j]-th element; [end() - begin()] is the
    size. After [v[j] = y], reading index [k] through [operator[]] gives
    [y] for [k = j] and the old element otherwise. *)
Theorem element_access w this buf xs cap j x :
  vec_repr w this buf xs cap →
  xs !! j = Some x →
  index_mut E this j w = (Ret (Ptr buf j), w) ∧
  index_const E this j w = (Ret (Ptr buf j), w) ∧
  (b ← begin_ this; load (ptr_add b j)) w = (Ret x, w) ∧
  (e ← end_ this; b ← begin_ this; ptr_diff e b) w = (Ret (length xs), w) ∧
  (no_throw E →
   ∀ y k z, xs !! k = Some z →
     ∃ w', (assign_at E this j y ;; p ← index_const E this k; load p) w
           = (Ret (if decide (k = j) then y else z), w')).
Proof.
  intros Hrepr Hj.
  pose proof (lookup_lt_Some _ _ _ Hj) as Hlt.
  pose proof Hrepr as (Ho & [Hle Hfits] & Hbuf).
  destruct buf as [b|]; [|lia].
  split; [|split; [|split; [|split]]].
  - destruct w as [h o l c]. simpl in Ho. eapply index_mut_ok; [exact Ho|lia|lia].
  - destruct w as [h o l c]. simpl in Ho. eapply index_const_ok; [exact Ho|lia].
  - pose proof (load_element _ _ _ _ _ _ _ Hrepr Hj) as Hload.
    destruct w as [h o l c]. simpl in Ho.
    step ltac:(by eapply begin_eq). norm. exact Hload.
  - destruct w as [h o l c]. simpl in Ho.
    step ltac:(by eapply end_eq). norm.
    step ltac:(by eapply begin_eq). norm.
    rewrite ptr_diff_eq by lia. by rewrite Nat.sub_0_r.
  - intros HE y k z Hk.
    destruct (assign_at_ok E w this (Some b) xs cap j y HE Hrepr Hlt)
      as (w' & Hrun & Hrepr' & _).
    exists w'. step ltac:(exact Hrun).
    pose proof (lookup_lt_Some _ _ _ Hk) as Hklt.
    assert (Hk' : <[j := y]> xs !! k = Some (if decide (k = j) then y else z)).
    { destruct (decide (k = j)) as [->|Hne].
      - by rewrite list_lookup_insert_eq.
      - by rewrite list_lookup_insert_ne. }
    pose proof (load_element _ _ _ _ _ _ _ Hrepr' Hk') as Hload.
    destruct w' as [h' o' l' c']. destruct Hrepr' as (Ho' & [Hle' Hfits'] & _). simpl in Ho'.
    step ltac:(eapply index_const_ok; [exact Ho'|lia]).
    exact Hload.
Qed.

(** X14. In a debug build the position arguments are checked before
    anything is modified: [Emplace] (and so [Insert]) with a position
    outside [begin(), end()], and [Erase] with a position outside
    [begin(), end()), which includes [end()] itself, stop at the assertion
    with the store untouched. *)
Theorem debug_build_checks_positions w this buf xs cap :
  ndebug E = false →
  vec_repr w this buf xs cap →
  (∀ pos args, ¬ (p_base pos = buf ∧ p_off pos ≤ length xs) →
     Emplace E this pos args w = (Fatal AssertionFailed, w)) ∧
  (∀ pos, ¬ (p_base pos = buf ∧ p_off pos < length xs) →
     Erase E this pos w = (Fatal AssertionFailed, w)).
Proof.
  intros Hdebug Hrepr. destruct w as [h o l c].
  destruct Hrepr as (Ho & _). simpl in Ho. split.
  - intros pos args Hout. unfold Emplace.
    step ltac:(by eapply begin_eq). norm.
    step ltac:(by eapply end_eq). norm.
    replace (_ && _) with false.
    + by rewrite (bind_fatal _ _ _ _ _ (assert_false_debug E _ Hdebug)).
    + symmetry. apply not_true_is_false. intros Htrue. apply Hout.
      unfold ptr_le, same_base in Htrue. simpl in Htrue.
      apply andb_true_iff in Htrue as [H1 H2].
      apply andb_true_iff in H2 as [H2 H3].
      apply bool_decide_eq_true in H2. apply Nat.leb_le in H3. done.
  - intros pos Hout. unfold Erase. apply noexcept_fatal.
    step ltac:(by eapply begin_eq). norm.
    step ltac:(by eapply end_eq). norm.
    replace (_ && _) with false.
    + by rewrite (bind_fatal _ _ _ _ _ (assert_false_debug E _ Hdebug)).
    + symmetry. apply not_true_is_false. intros Htrue. apply Hout.
      unfold ptr_le, ptr_lt, same_base in Htrue. simpl in Htrue.
      apply andb_true_iff in Htrue as [H1 H2].
      apply andb_true_iff in H2 as [H2 H3].
      apply bool_decide_eq_true in H2. apply Nat.ltb_lt in H3. done.
Qed.


Lemma block_in_use_not_fresh w that b3 ys cap3 b' :
  vec_repr w that (Some b3) ys cap3 → heap w !! b' = None → b3 ≠ b'.
Proof. intros (_ & _ & Hb & _) Hfresh ->. congruence. Qed.

Lemma fresh_not_in_use w that b3 ys cap3 buf' :
  vec_repr w that (Some b3) ys cap3 →
  (∀ b', buf' = Some b' → heap w !! b' = None) →
  Some b3 ≠ buf'.
Proof. intros (_ & _ & Hb & _) Hf Heq. rewrite (Hf b3) in Hb; done. Qed.

(** X15. The operations that modify one vector leave every other vector
    alone: after [Reserve], [Resize], [Emplace], [Erase] or [PopBack] on
    one vector, when no operation throws, the byte count of a
    requested capacity fits [size_t] and an inserted value is not moved
    from an element of either vector, a different vector that owns a
    different block has the same buffer, capacity and elements as
    before. *)
Theorem operations_leave_other_vectors_alone w this buf xs cap that buf3 ys cap3 :
  no_throw E →
  vec_repr w this buf xs cap →
  that ≠ this →
  vec_repr w that buf3 ys cap3 →
  (is_Some buf → buf3 ≠ buf) →
  (∀ n, alloc_fits n →
      ∃ w', Reserve E this n w = (Ret tt, w') ∧ vec_repr w' that buf3 ys cap3) ∧
  (∀ n, alloc_fits n →
      ∃ w', Resize E this n w = (Ret tt, w') ∧ vec_repr w' that buf3 ys cap3) ∧
  (∀ i args v,
      i ≤ length xs → args_value (heap w) args = Some v →
      moves_outside buf args → moves_outside buf3 args →
      (length xs = cap → doubling_fits cap) →
      ∃ p w', Emplace E this (Ptr buf i) args w = (Ret p, w') ∧
              vec_repr w' that buf3 ys cap3) ∧
  (∀ i, i < length xs →
      ∃ p w', Erase E this (Ptr buf i) w = (Ret p, w') ∧
              vec_repr w' that buf3 ys cap3) ∧
  (0 < length xs →
      ∃ w', PopBack E this w = (Ret tt, w') ∧ vec_repr w' that buf3 ys cap3).
Proof.
  intros HE Hrepr Hthat Hother Hdisj.
  assert (Hne : ∀ b3, buf3 = Some b3 → Some b3 ≠ buf).
  { intros b3 -> Heq. apply Hdisj; [by rewrite <- Heq|done]. }
  split; [|split; [|split; [|split]]].
  - intros n Hn. destruct (decide (n ≤ cap)) as [Hle|Hgt].
    + exists w. split; [|done].
      destruct w as [h o l c]. destruct Hrepr as (Ho & _). by eapply Reserve_noop.
    + destruct (Reserve_grows E w this buf xs cap n HE Hrepr)
        as (b' & w' & Hrun & _ & _ & _ & Hobjs & Hfresh & _ & Hframe & _);
        [lia|done|].
      exists w'. split; [done|].
      eapply vec_repr_frame; [done|by apply Hobjs|].
      intros b3 ->. apply Hframe; [by apply Hne|].
      by eapply block_in_use_not_fresh.
  - intros n Hn.
    destruct (Resize_ok E w this buf xs cap n HE Hrepr Hn)
      as (buf' & w' & Hrun & _ & _ & _ & Hobjs & Hframe & _ & Hfresh).
    exists w'. split; [done|].
    eapply vec_repr_frame; [done|by apply Hobjs|].
    intros b3 ->. apply Hframe; [by apply Hne|].
    destruct (decide (buf' = buf)) as [->|Hnew]; [by apply Hne|].
    eapply fresh_not_in_use; [done|]. intros b' Hb'. by eapply Hfresh.
  - intros i args v Hi Hv Hout Hout3 Hfit.
    destruct (Emplace_ok E w this buf xs cap i args v HE Hrepr Hi Hv Hout Hfit)
      as (buf' & w' & Hrun & Hrepr' & Hsame & _ & Hobjs & Hframe & Hfresh & _).
    exists (Ptr buf' i), w'. split; [done|].
    eapply vec_repr_frame; [done|by apply Hobjs|].
    intros b3 ->. rewrite Hframe.
    + apply mark_source_frame. by apply moves_outside_frame.
    + by apply Hne.
    + destruct (decide (length xs = cap)) as [Hfull|Hroom].
      * destruct (Hfresh Hfull) as [_ Hf]. by eapply fresh_not_in_use.
      * rewrite Hsame by (destruct Hrepr as (_ & ? & _); lia). by apply Hne.
  - intros i Hi.
    destruct (Erase_ok E w this buf xs cap i HE Hrepr Hi)
      as (w' & Hrun & _ & _ & _ & Hobjs & Hframe).
    exists (Ptr buf i), w'. split; [done|].
    eapply vec_repr_frame; [done|by apply Hobjs|].
    intros b3 ->. apply Hframe. by apply Hne.
  - intros Hpos. destruct xs as [|x0 xs0 _] using rev_ind; [simpl in Hpos; lia|].
    destruct (PopBack_repr E w this buf xs0 x0 cap Hrepr)
      as (w' & Hrun & _ & _ & _ & Hobjs & Hframe).
    exists w'. split; [done|].
    eapply vec_repr_frame; [done|by apply Hobjs|].
    intros b3 ->. apply Hframe. by apply Hne.
Qed.

(** X16. Inserting by move from an element of another vector, when no
    operation throws: [Insert(pos, std::move(y))] and
    [PushBack(std::move(y))] put the old value of [y] into the target and
    leave the source element holding its moved-from value; the source
    vector is otherwise unchanged. *)
Theorem moving_insert_leaves_source_moved_from
    w this buf xs cap that b3 ys cap3 i j y :
  no_throw E →
  vec_repr w this buf xs cap →
  that ≠ this →
  vec_repr w that (Some b3) ys cap3 →
  buf ≠ Some b3 →
  i ≤ length xs → ys !! j = Some y →
  (length xs = cap → doubling_fits cap) →
  (∃ buf' w',
      Insert_move E this (Ptr buf i) (Cell (Ptr (Some b3) j)) w
      = (Ret (Ptr buf' i), w') ∧
      vec_repr w' this buf' (take i xs ++ y :: drop i xs)
        (if decide (length xs = cap) then Nat.max 1 (2 * cap) else cap) ∧
      vec_repr w' that (Some b3) (<[j := moved_from E y]> ys) cap3) ∧
  (∃ buf' w',
      PushBack_move E this (Cell (Ptr (Some b3) j)) w = (Ret tt, w') ∧
      vec_repr w' this buf' (xs ++ [y])
        (if decide (length xs = cap) then Nat.max 1 (2 * cap) else cap) ∧
      vec_repr w' that (Some b3) (<[j := moved_from E y]> ys) cap3).
Proof.
  intros HE Hrepr Hthat Hother Hdisj Hi Hj Hfit.
  pose proof (lookup_lt_Some _ _ _ Hj) as Hjlt.
  pose proof Hother as (Ho3 & [Hle3 Hfits3] & Hb3 & Hc3).
  assert (Hv : args_value (heap w) (MoveOf (Cell (Ptr (Some b3) j))) = Some y).
  { simpl. rewrite Hb3. by rewrite (cells_of_lookup_live _ _ _ _ Hj). }
  assert (Hout : moves_outside (T:=T) buf (MoveOf (Cell (Ptr (Some b3) j)))).
  { simpl. congruence. }
  assert (Hsrc : mark_source E (heap w) (MoveOf (Cell (Ptr (Some b3) j))) y !! b3
                 = Some (cells_of (<[j := moved_from E y]> ys) cap3)).
  { simpl. rewrite Hb3. rewrite lookup_insert_eq. by rewrite cells_of_insert. }
  assert (Hmoved : ∀ buf' w',
    (∀ that0, that0 ≠ this → objs w' !! that0 = objs w !! that0) →
    (∀ b0, Some b0 ≠ buf → Some b0 ≠ buf' →
       heap w' !! b0 = mark_source E (heap w) (MoveOf (Cell (Ptr (Some b3) j))) y !! b0) →
    Some b3 ≠ buf' →
    vec_repr w' that (Some b3) (<[j := moved_from E y]> ys) cap3).
  { intros buf' w' Hobjs Hframe Hne'.
    split; [|split; [|split]].
    - rewrite Hobjs by done. by rewrite length_insert.
    - by rewrite length_insert.
    - rewrite Hframe by congruence. exact Hsrc.
    - done. }
  split.
  - destruct (Emplace_ok E w this buf xs cap i _ y HE Hrepr Hi Hv Hout Hfit)
      as (buf' & w' & Hrun & Hrepr' & Hsame & _ & Hobjs & Hframe & Hfresh & _).
    exists buf', w'. split; [done|]. split; [done|].
    apply (Hmoved buf' w' Hobjs Hframe).
    destruct (decide (length xs = cap)) as [Hfull|Hroom].
    + destruct (Hfresh Hfull) as [_ Hf]. by eapply fresh_not_in_use.
    + rewrite Hsame by (destruct Hrepr as (_ & ? & _); lia). congruence.
  - destruct (EmplaceBack_ok E w this buf xs cap _ y HE Hrepr Hv Hout Hfit)
      as (buf' & w' & Hrun & Hrepr' & Hsame & _ & Hobjs & Hframe & _ & Hfresh).
    exists buf', w'. split; [|split; [done|]].
    + unfold PushBack_move. step ltac:(exact Hrun). reflexivity.
    + apply (Hmoved buf' w' Hobjs Hframe).
      destruct (decide (length xs = cap)) as [Hfull|Hroom].
      * destruct (Hfresh Hfull) as [_ Hf]. by eapply fresh_not_in_use.
      * rewrite Hsame by (destruct Hrepr as (_ & ? & _); lia). congruence.
Qed.


(** X17. What an insertion costs, when no operation throws, counted in
    calls that can throw (allocations and operations of the element type).
    With a free slot, [Emplace] at [end()] makes one call, the
    construction in place; at a position [i] before the end it makes
    [size - i + 2] calls: the construction of a temporary, the move
    construction of the last element into the free slot,
    [size - i - 1] move assignments that shift the tail, and the move
    assignment of the temporary. In both cases the buffer and the capacity
    are kept. On a full buffer it makes [size + 2] calls: one allocation,
    one construction and one transfer for each old element; the old block
    is released and no object is lost. *)
Theorem Emplace_operation_count w this buf xs cap i args v :
  no_throw E →
  vec_repr w this buf xs cap →
  i ≤ length xs →
  args_value (heap w) args = Some v →
  moves_outside buf args →
  (length xs = cap → doubling_fits cap) →
  ∃ buf' w',
    Emplace E this (Ptr buf i) args w = (Ret (Ptr buf' i), w') ∧
    clock w' = clock w + (if decide (length xs = cap) then length xs + 2
                          else if decide (i = length xs) then 1
                               else length xs - i + 2) ∧
    (length xs < cap → buf' = buf ∧ Capacity this w' = (Ret cap, w')) ∧
    (length xs = cap →
        (∀ b, buf = Some b → heap w' !! b = None) ∧
        (∀ b', buf' = Some b' → heap w !! b' = None) ∧
        leaked w' = leaked w).
Proof.
  intros HE Hrepr Hi Hv Hout Hfit.
  destruct (Emplace_ok E w this buf xs cap i args v HE Hrepr Hi Hv Hout Hfit)
    as (buf' & w' & Hrun & Hrepr' & Hsame & Hl & _ & _ & Hfresh & Hc).
  exists buf', w'. split; [done|]. split; [done|]. split.
  - intros Hlt. split; [by apply Hsame|].
    rewrite decide_False in Hrepr' by lia.
    destruct w' as [h' o' l' c']. destruct Hrepr' as (Ho' & _). simpl in Ho'.
    by rewrite (Capacity_eq _ _ _ _ _ _ Ho').
  - intros Hfull. destruct (Hfresh Hfull). done.
Qed.

End Further.

Section Failures.
Context {T : Type} {sT : SizeOf T} (E : env T).
Implicit Types (w : world T) (h : gmap nat (list (cell T))) (o : gmap nat Vector).
Implicit Types (cells : list (cell T)) (xs ys zs vs : list T) (args : ctor_args T).

(** ** Value construction under an arbitrary oracle *)

Lemma value_construct_any h o l c b i cells :
  h !! b = Some cells → cells !! i = Some Raw →
  value_construct E (Ptr (Some b) i) (World h o l c)
  = if throws E OpDefault c
    then (Throw, World h o l (S c))
    else (Ret tt, World (<[b := <[i := Live (value_initialized E)]> cells]> h) o l (S c)).
Proof.
  intros Hb Hi. unfold value_construct.
  step ltac:(by eapply get_cell_eq). cbv iota.
  rewrite bind_tick. destruct (throws E OpDefault c); [done|].
  by eapply emplace_raw_eq.
Qed.

Lemma uninitialized_value_construct_n_any n : ∀ h o l c b p1 p2,
  h !! b = Some (p1 ++ replicate n Raw ++ p2) →
  uninitialized_value_construct_n E (Ptr (Some b) (length p1)) n (World h o l c)
  = (Ret tt, World (<[b := p1 ++ (Live <$> replicate n (value_initialized E)) ++ p2]> h)
               o l (c + n)) ∨
  ∃ c', uninitialized_value_construct_n E (Ptr (Some b) (length p1)) n (World h o l c)
        = (Throw, World h o l c').
Proof.
  induction n as [|n IH]; intros h o l c b p1 p2 Hb.
  - left. simpl. unfold ret. rewrite Nat.add_0_r. by rewrite insert_id.
  - csimpl in *.
    pose proof (value_construct_any h o l c b (length p1) _ Hb (lookup_middle _ _ _)) as Hc.
    destruct (throws E OpDefault c).
    + right. eexists. by apply bind_throw.
    + rewrite insert_middle in Hc.
      specialize (IH (<[b:=p1 ++ Live (value_initialized E) :: replicate n Raw ++ p2]> h)
                    o l (S c) b (p1 ++ [Live (value_initialized E)]) p2).
      rewrite !length_app in IH. simpl in IH.
      destruct IH as [IH|[c' IH]].
      * rewrite lookup_insert_eq. by rewrite <- app_assoc.
      * left. step ltac:(exact Hc). apply unwinding_ret.
        unfold ptr_add; simpl. rewrite IH.
        rewrite insert_insert_eq. rewrite <- !app_assoc. simpl.
        do 2 f_equal. lia.
      * right. exists c'. step ltac:(exact Hc).
        eapply unwinding_throw; [exact IH|].
        erewrite Destroy_eq; [|apply lookup_insert_eq|apply lookup_middle].
        rewrite insert_middle, insert_insert_eq.
        by rewrite insert_id.
Qed.

(** Value construction of more elements than the block has room for. *)
Lemma value_construct_past_end h o l c b i cells :
  h !! b = Some cells → length cells ≤ i →
  value_construct E (Ptr (Some b) i) (World h o l c)
  = (Fatal Undefined, World h o l c).
Proof.
  intros H1 H2. unfold value_construct.
  by rewrite (bind_fatal _ _ _ _ _ (get_cell_past_end _ _ _ _ _ _ _ H1 H2)).
Qed.

Lemma uninitialized_value_construct_n_short n : ∀ h o l c b p1 m,
  h !! b = Some (p1 ++ replicate m Raw) →
  m < n →
  (∃ c', uninitialized_value_construct_n E (Ptr (Some b) (length p1)) n (World h o l c)
         = (Throw, World h o l c')) ∨
  (∃ f w', uninitialized_value_construct_n E (Ptr (Some b) (length p1)) n (World h o l c)
           = (Fatal f, w')).
Proof.
  induction n as [|n IH]; intros h o l c b p1 m Hb Hm; [lia|].
  csimpl. destruct m as [|m]; csimpl in Hb.
  - right. eexists _, _. apply bind_fatal.
    eapply value_construct_past_end; [exact Hb|]. rewrite length_app. simpl. lia.
  - pose proof (value_construct_any h o l c b (length p1) _ Hb (lookup_middle _ _ _)) as Hc.
    destruct (throws E OpDefault c).
    + left. eexists. by apply bind_throw.
    + rewrite insert_middle in Hc.
      specialize (IH (<[b:=p1 ++ Live (value_initialized E) :: replicate m Raw]> h)
                    o l (S c) b (p1 ++ [Live (value_initialized E)]) m).
      rewrite !length_app in IH. simpl in IH.
      destruct IH as [[c' IH]|(f & w' & IH)].
      * rewrite lookup_insert_eq. by rewrite <- app_assoc.
      * lia.
      * left. exists c'. step ltac:(exact Hc).
        eapply unwinding_throw; [exact IH|].
        erewrite Destroy_eq; [|apply lookup_insert_eq|apply lookup_middle].
        rewrite insert_middle, insert_insert_eq.
        by rewrite insert_id.
      * right. exists f, w'. step ltac:(exact Hc).
        by apply unwinding_fatal.
Qed.

(** ** Construction that fails *)

Lemma Vector_copy_throw w this other buf xs cap w' :
  vec_repr w other buf xs cap →
  Vector_copy E this other w = (Throw, w') →
  heap w' = heap w ∧ objs w' = objs w ∧ leaked w' = leaked w.
Proof.
  destruct w as [h o l c]. intros (Ho & [Hle Hfits] & Hbuf) Hrun. simpl in Ho.
  unfold Vector_copy in Hrun.
  rewrite (bind_ret _ _ _ _ _ (get_vec_eq _ _ _ _ _ _ Ho)) in Hrun.
  cbn [data_ size_ buffer_ capacity_] in Hrun.
  destruct xs as [|x0 xs0] eqn:Hxs.
  { simpl in Hrun. unfold bind, RawMemory_ctor, Allocate, unwinding, try_catch in Hrun.
    simpl in Hrun. done. }
  rewrite <- Hxs in *.
  assert (Hn : length xs ≠ 0) by (rewrite Hxs; done).
  clear Hxs x0 xs0.
  destruct buf as [b|]; [|lia]. destruct Hbuf as [Hb Hcap]. simpl in Hb.
  pose proof (RawMemory_ctor_cases E h o l c (length xs) Hn ltac:(fits)) as Hctor.
  set (b' := fresh (dom h)) in *.
  assert (Hfresh : h !! b' = None) by apply fresh_block.
  assert (Hne : b ≠ b') by (intros ->; congruence).
  destruct (throws E OpAlloc c).
  { rewrite (bind_throw _ _ _ _ Hctor) in Hrun. by simplify_eq. }
  rewrite (bind_ret _ _ _ _ _ Hctor) in Hrun. clear Hctor.
  destruct (uninitialized_copy_n_any_at E (<[b' := replicate (length xs) Raw]> h) o l (S c)
              b b' 0 (length xs) 0 xs [] (replicate (cap - length xs) Raw)
              [] [] Hne) as [Hok|[c' Hth]]; try done.
  - by rewrite lookup_insert_ne.
  - rewrite lookup_insert_eq. simpl. by rewrite app_nil_r.
  - rewrite (bind_ret _ _ _ _ _ (unwinding_ret _ _ _ _ _ Hok)) in Hrun. done.
  - assert (Hd : RawMemory_dtor (MkRawMemory (Some b') (length xs))
                   (World (<[b' := replicate (length xs) Raw]> h) o l c')
                 = (Ret tt, World (delete b' (<[b' := replicate (length xs) Raw]> h)) o
                              (l + count_live (replicate (length xs) (@Raw T))) c'))
      by apply Deallocate_eq, lookup_insert_eq.
    rewrite (bind_throw _ _ _ _ (unwinding_throw _ _ _ _ _ Hth Hd)) in Hrun.
    simplify_eq. simpl. split; [|split; [done|]].
    + by rewrite delete_insert_id.
    + by rewrite count_live_raw, Nat.add_0_r.
Qed.

(** X18. The copy constructor gives the strong guarantee, whatever
    throws: when the allocation or the copy of some element throws, every
    element already copied has been destroyed and the new block released
    before the exception leaves the constructor; the free store, the
    object store and the count of lost objects are exactly as before, and
    no vector object has been created. *)
Theorem Vector_copy_failure_leaves_no_trace w this other buf xs cap w' :
  vec_repr w other buf xs cap →
  Vector_copy E this other w = (Throw, w') →
  heap w' = heap w ∧ objs w' = objs w ∧ leaked w' = leaked w.
Proof. apply Vector_copy_throw. Qed.

(** X19. The constructor [Vector(size_t size)] gives the strong
    guarantee from any store: when the allocation or a default
    construction throws, the elements constructed so far have been
    destroyed and the block released; the store is as before and no
    vector object has been created. *)
Theorem Vector_sized_failure_leaves_no_trace w this n w' :
  Vector_sized E this n w = (Throw, w') →
  heap w' = heap w ∧ objs w' = objs w ∧ leaked w' = leaked w.
Proof.
  destruct w as [h o l c]. intros Hrun.
  unfold Vector_sized in Hrun.
  destruct n as [|n].
  { unfold bind, RawMemory_ctor, Allocate, unwinding, try_catch in Hrun.
    simpl in Hrun. done. }
  pose proof (RawMemory_ctor_cases_cells E h o l c (S n) ltac:(done)) as Hctor.
  set (b' := fresh (dom h)) in *.
  set (m := alloc_cells (S n)) in *.
  assert (Hfresh : h !! b' = None) by apply fresh_block.
  destruct (throws E OpAlloc c).
  { rewrite (bind_throw _ _ _ _ Hctor) in Hrun. by simplify_eq. }
  rewrite (bind_ret _ _ _ _ _ Hctor) in Hrun. clear Hctor.
  assert (Hcases :
    (∃ w1, uninitialized_value_construct_n E (Ptr (Some b') 0) (S n)
             (World (<[b' := replicate m Raw]> h) o l (S c)) = (Ret tt, w1)) ∨
    (∃ c', uninitialized_value_construct_n E (Ptr (Some b') 0) (S n)
             (World (<[b' := replicate m Raw]> h) o l (S c))
           = (Throw, World (<[b' := replicate m Raw]> h) o l c')) ∨
    (∃ f w1, uninitialized_value_construct_n E (Ptr (Some b') 0) (S n)
               (World (<[b' := replicate m Raw]> h) o l (S c)) = (Fatal f, w1))).
  { destruct (decide (S n ≤ m)) as [Hroom|Hshort].
    - destruct (uninitialized_value_construct_n_any (S n)
                  (<[b' := replicate m Raw]> h) o l (S c) b' []
                  (replicate (m - S n) Raw))
        as [Hok|[c' Hth]].
      + rewrite lookup_insert_eq. rewrite app_nil_l, <- replicate_add.
        do 2 f_equal. lia.
      + left. eexists. exact Hok.
      + right. left. by exists c'.
    - destruct (uninitialized_value_construct_n_short (S n)
                  (<[b' := replicate m Raw]> h) o l (S c) b' [] m)
        as [[c' Hth]|(f & w1 & Hf)].
      + by rewrite lookup_insert_eq.
      + lia.
      + right. left. by exists c'.
      + right. right. by exists f, w1. }
  destruct Hcases as [[w1 Hok]|[[c' Hth]|(f & w1 & Hf)]].
  - rewrite (bind_ret _ _ _ _ _ (unwinding_ret _ _ _ _ _ Hok)) in Hrun. done.
  - assert (Hd : RawMemory_dtor (MkRawMemory (Some b') (S n))
                   (World (<[b' := replicate m Raw]> h) o l c')
                 = (Ret tt, World (delete b' (<[b' := replicate m Raw]> h)) o
                              (l + count_live (replicate m (@Raw T))) c'))
      by apply Deallocate_eq, lookup_insert_eq.
    rewrite (bind_throw _ _ _ _ (unwinding_throw _ _ _ _ _ Hth Hd)) in Hrun.
    simplify_eq. simpl. split; [|split; [done|]].
    + by rewrite delete_insert_id.
    + by rewrite count_live_raw, Nat.add_0_r.
  - by rewrite (bind_fatal _ _ _ _ _ (unwinding_fatal _ _ _ _ _ Hf)) in Hrun.
Qed.


(** ** Appending that fails *)

Lemma Emplace_at_end_cases h o l c this b xs cap args v :
  o !! this = Some (MkVector (MkRawMemory (Some b) cap) (length xs)) →
  length xs < cap →
  h !! b = Some (cells_of xs cap) →
  args_value h args = Some v →
  moves_outside (Some b) args →
  (∃ w1, Emplace E this (Ptr (Some b) (length xs)) args (World h o l c)
         = (Ret (Ptr (Some b) (length xs)), w1)) ∨
  Emplace E this (Ptr (Some b) (length xs)) args (World h o l c)
  = (Throw, World h o l (S c)) ∨
  (∃ f w1, Emplace E this (Ptr (Some b) (length xs)) args (World h o l c)
           = (Fatal f, w1)).
Proof.
  intros Ho Hlt Hb Hv Hout.
  assert (Hpre : ∀ (r : outcome ptr * world T),
    (e ← end_ this; Construct E e args ;;
     sz ← get_size this; set_size this (sz + 1) ;;
     ret (Ptr (Some b) (length xs))) (World h o l c) = r →
    Emplace E this (Ptr (Some b) (length xs)) args (World h o l c) = r).
  { intros r <-. unfold Emplace.
    step ltac:(by eapply begin_eq). norm.
    step ltac:(by eapply end_eq). norm.
    rewrite !ptr_le_eq.
    replace (_ && _) with true
      by (symmetry; apply andb_true_iff; split; apply Nat.leb_le; lia).
    step ltac:(apply assert_true).
    step ltac:(by eapply get_size_eq). norm.
    step ltac:(by eapply Capacity_eq). norm.
    destruct (Nat.eqb_spec (length xs) cap) as [?|_]; [lia|].
    step ltac:(by eapply begin_eq). norm.
    step ltac:(apply ptr_diff_eq; lia). rewrite Nat.sub_0_r.
    unfold cend.
    step ltac:(by eapply end_eq). norm.
    rewrite ptr_eqb_eq, Nat.eqb_refl. reflexivity. }
  destruct (Construct_cases E h o l c b (length xs) _ args v Hb
              (cells_of_lookup_raw _ _ _ (le_n _) Hlt) Hv
              (moves_outside_frame _ _ Hout))
    as [(h1 & Hrun & _)|[Hrun|(f & wf & Hrun)]].
  - left. eexists. apply Hpre.
    step ltac:(by eapply end_eq). norm.
    step ltac:(exact Hrun).
    step ltac:(by eapply get_size_eq). norm.
    step ltac:(by eapply set_size_eq). norm.
    reflexivity.
  - right; left. apply Hpre.
    step ltac:(by eapply end_eq). norm.
    by apply bind_throw.
  - right; right. exists f, wf. apply Hpre.
    step ltac:(by eapply end_eq). norm.
    by eapply bind_fatal.
Qed.

Lemma EmplaceBack_as_Emplace w this buf xs cap args :
  vec_repr w this buf xs cap →
  EmplaceBack E this args w = Emplace E this (Ptr buf (length xs)) args w.
Proof.
  destruct w as [h o l c]. intros (Ho & _). simpl in Ho.
  unfold EmplaceBack. by rewrite (bind_ret _ _ _ _ _ (end_eq _ _ _ _ _ _ Ho)).
Qed.

Lemma PushBack_copy_throw_inv this value w w' :
  PushBack_copy E this value w = (Throw, w') →
  EmplaceBack E this (CopyOf value) w = (Throw, w').
Proof.
  unfold PushBack_copy, bind. intros Hrun.
  by destruct (EmplaceBack E this (CopyOf value) w) as [[?| |?] ?]; simplify_eq.
Qed.

Lemma PushBack_move_throw_inv this value w w' :
  PushBack_move E this value w = (Throw, w') →
  EmplaceBack E this (MoveOf value) w = (Throw, w').
Proof.
  unfold PushBack_move, bind. intros Hrun.
  by destruct (EmplaceBack E this (MoveOf value) w) as [[?| |?] ?]; simplify_eq.
Qed.

(** [EmplaceBack] that throws, with a free slot or on a full buffer. *)
Lemma EmplaceBack_throw w this buf xs cap args v w' :
  is_nothrow_move_constructible E = true ∨ is_copy_constructible E = true →
  vec_repr w this buf xs cap →
  (length xs = cap → doubling_fits cap) →
  args_value (heap w) args = Some v → moves_outside buf args →
  EmplaceBack E this args w = (Throw, w') →
  vec_repr w' this buf xs cap ∧ leaked w' = leaked w ∧
  dom (heap w') = dom (heap w).
Proof.
  intros Htraits Hrepr Hfit Hv Hout Hrun.
  rewrite (EmplaceBack_as_Emplace w this buf xs cap args Hrepr) in Hrun.
  destruct (decide (length xs = cap)) as [Hfull|Hroom].
  - eapply Emplace_unwinds; try done. by apply Hfit.
  - destruct w as [h o l c]. pose proof Hrepr as (Ho & [Hle Hfits] & Hbuf). simpl in Ho.
    destruct buf as [b|]; [|lia]. destruct Hbuf as [Hb Hcap]. simpl in Hb, Hv.
    destruct (Emplace_at_end_cases h o l c this b xs cap args v Ho ltac:(lia) Hb Hv Hout)
      as [(w1 & H1)|[H1|(f & w1 & H1)]]; rewrite H1 in Hrun; simplify_eq.
    done.
Qed.

(** X20. Appending gives the strong guarantee for element types that are
    copy-constructible or have a noexcept move constructor, for a value
    that is not moved from an element of the vector itself: when
    [EmplaceBack], or [PushBack] by copy or by move, ends in an exception,
    whether the vector had a free slot or had to reallocate (the byte
    count of the doubled capacity fitting [size_t]), the vector
    has the same buffer, size, capacity and elements as before the call,
    no object is lost, and the free store holds the same blocks. *)
Theorem appending_failure_leaves_vector_unchanged w this buf xs cap :
  is_nothrow_move_constructible E = true ∨ is_copy_constructible E = true →
  vec_repr w this buf xs cap →
  (length xs = cap → doubling_fits cap) →
  (∀ args v w',
      args_value (heap w) args = Some v → moves_outside buf args →
      EmplaceBack E this args w = (Throw, w') →
      vec_repr w' this buf xs cap ∧ leaked w' = leaked w ∧
      dom (heap w') = dom (heap w)) ∧
  (∀ value v w',
      operand_value (heap w) value = Some v →
      PushBack_copy E this value w = (Throw, w') →
      vec_repr w' this buf xs cap ∧ leaked w' = leaked w ∧
      dom (heap w') = dom (heap w)) ∧
  (∀ value v w',
      operand_value (heap w) value = Some v → moves_outside buf (MoveOf value) →
      PushBack_move E this value w = (Throw, w') →
      vec_repr w' this buf xs cap ∧ leaked w' = leaked w ∧
      dom (heap w') = dom (heap w)).
Proof.
  intros Htraits Hrepr Hfit. split; [|split].
  - intros args v w' Hv Hout Hrun. by eapply EmplaceBack_throw.
  - intros value v w' Hv Hrun.
    eapply (EmplaceBack_throw w this buf xs cap (CopyOf value) v); try done.
    by apply PushBack_copy_throw_inv.
  - intros value v w' Hv Hout Hrun.
    eapply (EmplaceBack_throw w this buf xs cap (MoveOf value) v); try done.
    by apply PushBack_move_throw_inv.
Qed.

End Failures.

Section MovingUnderAnyOracle.
Context {T : Type} {sT : SizeOf T} (E : env T).
Implicit Types (w : world T) (h : gmap nat (list (cell T))) (o : gmap nat Vector).
Implicit Types (cells : list (cell T)) (xs ys zs vs : list T) (args : ctor_args T).

(** ** Moving under an arbitrary oracle *)

Lemma Construct_move_cell_any h o l c bs bd i j src dst x :
  bs ≠ bd →
  h !! bs = Some src → src !! i = Some (Live x) →
  h !! bd = Some dst → dst !! j = Some Raw →
  Construct E (Ptr (Some bd) j) (MoveOf (Cell (Ptr (Some bs) i))) (World h o l c)
  = if throws E OpMoveCtor c
    then (if is_nothrow_move_constructible E then Fatal Terminate else Throw,
          World h o l (S c))
    else (Ret tt, World (<[bd := <[j := Live x]> dst]>
                           (<[bs := <[i := Live (moved_from E x)]> src]> h)) o l (S c)).
Proof.
  intros Hne Hs Hi Hd Hj. unfold Construct.
  step ltac:(by eapply get_cell_eq). cbv iota.
  unfold run_ctor, read_operand, mark_moved.
  destruct (throws E OpMoveCtor c) eqn:Hth.
  - destruct (is_nothrow_move_constructible E) eqn:Hnt.
    + eapply bind_fatal.
      step ltac:(by eapply load_eq).
      rewrite bind_tick, Hth. cbn [op_noexcept]. by rewrite Hnt.
    + apply bind_throw.
      step ltac:(by eapply load_eq).
      rewrite bind_tick, Hth. cbn [op_noexcept]. by rewrite Hnt.
  - step ltac:(step ltac:(by eapply load_eq);
               rewrite bind_tick, Hth;
               step ltac:(by eapply store_eq); reflexivity).
    eapply emplace_raw_eq; [by rewrite lookup_insert_ne|done].
Qed.

(** The elements of [xs] of which the first [k] have been moved from. *)
Lemma moved_prefix_length k xs :
  length ((moved_from E <$> take k xs) ++ drop k xs) = length xs.
Proof. rewrite length_app, length_fmap, length_take, length_drop. lia. Qed.

Lemma uninitialized_move_n_any xs : ∀ h o l c bs bd s1 s2 d1 d2,
  bs ≠ bd →
  h !! bs = Some (s1 ++ (Live <$> xs) ++ s2) →
  h !! bd = Some (d1 ++ replicate (length xs) Raw ++ d2) →
  uninitialized_move_n E (Ptr (Some bs) (length s1)) (length xs)
    (Ptr (Some bd) (length d1)) (World h o l c)
  = (Ret tt, World (<[bd := d1 ++ (Live <$> xs) ++ d2]>
                      (<[bs := s1 ++ (Live <$> (moved_from E <$> xs)) ++ s2]> h))
               o l (c + length xs)) ∨
  (∃ k c', k < length xs ∧ is_nothrow_move_constructible E = false ∧
     uninitialized_move_n E (Ptr (Some bs) (length s1)) (length xs)
       (Ptr (Some bd) (length d1)) (World h o l c)
     = (Throw, World (<[bs := s1 ++ (Live <$> ((moved_from E <$> take k xs) ++ drop k xs))
                               ++ s2]> h) o l c')) ∨
  (∃ w', uninitialized_move_n E (Ptr (Some bs) (length s1)) (length xs)
           (Ptr (Some bd) (length d1)) (World h o l c)
         = (Fatal Terminate, w')).
Proof.
  induction xs as [|x xs IH]; intros h o l c bs bd s1 s2 d1 d2 Hne Hs Hd.
  - left. simpl. unfold ret. rewrite Nat.add_0_r.
    by rewrite !insert_id by by simplify_map_eq.
  - csimpl in *.
    pose proof (Construct_move_cell_any h o l c bs bd (length s1) (length d1) _ _ x
                  Hne Hs (lookup_middle _ _ _) Hd (lookup_middle _ _ _)) as Hc.
    destruct (throws E OpMoveCtor c).
    + destruct (is_nothrow_move_constructible E) eqn:Hnt.
      * right; right. eexists. by eapply bind_fatal.
      * right; left. exists 0, (S c). split; [lia|]. split; [done|].
        csimpl. rewrite insert_id by done. by apply bind_throw.
    + rewrite !insert_middle in Hc.
      specialize (IH
        (<[bd:=d1 ++ Live x :: replicate (length xs) Raw ++ d2]>
           (<[bs:=s1 ++ Live (moved_from E x) :: (Live <$> xs) ++ s2]> h)) o l (S c)
        bs bd (s1 ++ [Live (moved_from E x)]) s2 (d1 ++ [Live x]) d2 Hne).
      rewrite !length_app in IH. simpl in IH.
      destruct IH as [IH|[(k & c' & Hk & Hnt & IH)|[w' IH]]].
      * rewrite lookup_insert_ne by done. rewrite lookup_insert_eq.
        by rewrite <- app_assoc.
      * rewrite lookup_insert_eq. by rewrite <- app_assoc.
      * left. step ltac:(exact Hc). apply unwinding_ret.
        unfold ptr_add; simpl. rewrite IH.
        rewrite <- !app_assoc. simpl.
        rewrite (insert_insert_ne _ bs bd) by done.
        rewrite !insert_insert_eq.
        do 2 f_equal. lia.
      * right; left. exists (S k), c'. split; [lia|]. split; [done|].
        step ltac:(exact Hc).
        eapply unwinding_throw; [exact IH|].
        erewrite Destroy_eq;
          [|rewrite lookup_insert_ne by done; apply lookup_insert_eq|apply lookup_middle].
        rewrite insert_middle. do 2 f_equal.
        apply map_eq. intros k0.
        destruct (decide (k0 = bd)) as [->|Hbd].
        -- rewrite lookup_insert_eq. rewrite lookup_insert_ne by done. by rewrite Hd.
        -- rewrite lookup_insert_ne by done.
           destruct (decide (k0 = bs)) as [->|Hbs].
           ++ rewrite !lookup_insert_eq. by rewrite <- !app_assoc.
           ++ by rewrite !lookup_insert_ne.
      * right; right. exists w'. step ltac:(exact Hc).
        unfold unwinding, try_catch. unfold ptr_add in IH; simpl in IH.
        unfold ptr_add; simpl. by rewrite IH.
Qed.

Lemma uninitialized_move_n_any_at h o l c bs bd s n d xs s1 s2 d1 d2 :
  bs ≠ bd →
  h !! bs = Some (s1 ++ (Live <$> xs) ++ s2) →
  h !! bd = Some (d1 ++ replicate n Raw ++ d2) →
  s = length s1 → n = length xs → d = length d1 →
  uninitialized_move_n E (Ptr (Some bs) s) n (Ptr (Some bd) d) (World h o l c)
  = (Ret tt, World (<[bd := d1 ++ (Live <$> xs) ++ d2]>
                      (<[bs := s1 ++ (Live <$> (moved_from E <$> xs)) ++ s2]> h))
               o l (c + n)) ∨
  (∃ k c', k < length xs ∧ is_nothrow_move_constructible E = false ∧
     uninitialized_move_n E (Ptr (Some bs) s) n (Ptr (Some bd) d) (World h o l c)
     = (Throw, World (<[bs := s1 ++ (Live <$> ((moved_from E <$> take k xs) ++ drop k xs))
                               ++ s2]> h) o l c')) ∨
  (∃ w', uninitialized_move_n E (Ptr (Some bs) s) n (Ptr (Some bd) d) (World h o l c)
         = (Fatal Terminate, w')).
Proof. intros Hne Hs Hd -> -> ->. by eapply uninitialized_move_n_any. Qed.


(** Moving more elements than the destination block has room for. *)
Lemma uninitialized_move_n_short xs : ∀ h o l c bs bd s1 s2 d1 m,
  bs ≠ bd →
  h !! bs = Some (s1 ++ (Live <$> xs) ++ s2) →
  h !! bd = Some (d1 ++ replicate m Raw) →
  m < length xs →
  (∃ k c', k < length xs ∧ is_nothrow_move_constructible E = false ∧
     uninitialized_move_n E (Ptr (Some bs) (length s1)) (length xs)
       (Ptr (Some bd) (length d1)) (World h o l c)
     = (Throw, World (<[bs := s1 ++ (Live <$> ((moved_from E <$> take k xs) ++ drop k xs))
                               ++ s2]> h) o l c')) ∨
  (∃ f w', uninitialized_move_n E (Ptr (Some bs) (length s1)) (length xs)
             (Ptr (Some bd) (length d1)) (World h o l c)
           = (Fatal f, w')).
Proof.
  induction xs as [|x xs IH]; intros h o l c bs bd s1 s2 d1 m Hne Hs Hd Hm;
    [simpl in Hm; lia|].
  csimpl in *. destruct m as [|m]; csimpl in Hd.
  - right. eexists _, _. apply bind_fatal.
    eapply Construct_past_end; [exact Hd|]. rewrite length_app. simpl. lia.
  - pose proof (Construct_move_cell_any h o l c bs bd (length s1) (length d1) _ _ x
                  Hne Hs (lookup_middle _ _ _) Hd (lookup_middle _ _ _)) as Hc.
    destruct (throws E OpMoveCtor c).
    + destruct (is_nothrow_move_constructible E) eqn:Hnt.
      * right. eexists _, _. by eapply bind_fatal.
      * left. exists 0, (S c). split; [lia|]. split; [done|].
        csimpl. rewrite insert_id by done. by apply bind_throw.
    + rewrite !insert_middle in Hc.
      specialize (IH
        (<[bd:=d1 ++ Live x :: replicate m Raw]>
           (<[bs:=s1 ++ Live (moved_from E x) :: (Live <$> xs) ++ s2]> h)) o l (S c)
        bs bd (s1 ++ [Live (moved_from E x)]) s2 (d1 ++ [Live x]) m Hne).
      rewrite !length_app in IH. simpl in IH.
      destruct IH as [(k & c' & Hk & Hnt & IH)|(f & w' & IH)].
      * rewrite lookup_insert_ne by done. rewrite lookup_insert_eq.
        by rewrite <- app_assoc.
      * rewrite lookup_insert_eq. by rewrite <- app_assoc.
      * lia.
      * left. exists (S k), c'. split; [lia|]. split; [done|].
        step ltac:(exact Hc).
        eapply unwinding_throw; [exact IH|].
        erewrite Destroy_eq;
          [|rewrite lookup_insert_ne by done; apply lookup_insert_eq|apply lookup_middle].
        rewrite insert_middle. do 2 f_equal.
        apply map_eq. intros k0.
        destruct (decide (k0 = bd)) as [->|Hbd].
        -- rewrite lookup_insert_eq. rewrite lookup_insert_ne by done. by rewrite Hd.
        -- rewrite lookup_insert_ne by done.
           destruct (decide (k0 = bs)) as [->|Hbs].
           ++ rewrite !lookup_insert_eq. by rewrite <- !app_assoc.
           ++ by rewrite !lookup_insert_ne.
      * right. exists f, w'. step ltac:(exact Hc).
        unfold unwinding, try_catch. unfold ptr_add in IH; simpl in IH.
        unfold ptr_add; simpl. by rewrite IH.
Qed.

(** ** Reserve under an arbitrary oracle *)

Lemma moved_prefix_all xs :
  (moved_from E <$> take (length xs) xs) ++ drop (length xs) xs = moved_from E <$> xs.
Proof. by rewrite take_ge, drop_ge, app_nil_r by lia. Qed.

(** [Reserve] above the capacity, whatever throws and whatever block the
    allocation yields: it returns, with the vector in the new block when
    the byte count fits; or it throws, and the vector keeps its buffer
    with a moved-from prefix at most; or the program ends. *)
Lemma Reserve_any w this buf xs cap n :
  vec_repr w this buf xs cap → cap < n →
  (∃ b' w', Reserve E this n w = (Ret tt, w') ∧
            (alloc_fits n → vec_repr w' this (Some b') xs n) ∧ leaked w' = leaked w ∧
            heap w !! b' = None ∧
            (∀ that, that ≠ this → objs w' !! that = objs w !! that) ∧
            (∀ b0, Some b0 ≠ buf → b0 ≠ b' → heap w' !! b0 = heap w !! b0)) ∨
  (∃ k w', k ≤ length xs ∧ Reserve E this n w = (Throw, w') ∧
           vec_repr w' this buf ((moved_from E <$> take k xs) ++ drop k xs) cap ∧
           leaked w' = leaked w ∧ dom (heap w') = dom (heap w) ∧
           objs w' = objs w ∧
           (∀ b0, Some b0 ≠ buf → heap w' !! b0 = heap w !! b0) ∧
           (k ≠ 0 → transfer_by_move E = true ∧
                    is_nothrow_move_constructible E = false)) ∨
  (∃ f w', Reserve E this n w = (Fatal f, w')).
Proof.
  destruct w as [h o l c]. intros (Ho & [Hle Hfits] & Hbuf) Hlt. simpl in Ho.
  assert (Hn : n ≠ 0) by lia.
  pose proof (RawMemory_ctor_cases_cells E h o l c n Hn) as Hctor.
  set (b' := fresh (dom h)) in *.
  set (m := alloc_cells n) in *.
  assert (Hm : alloc_fits n → m = n) by apply alloc_cells_fits.
  assert (Hfresh : h !! b' = None) by apply fresh_block.
  assert (Hpre : ∀ (k : RawMemory → M T unit) r,
    (new_data ← RawMemory_ctor E n; k new_data) (World h o l c) = r →
    (cap0 ← Capacity this;
     if n <=? cap0 then ret tt else new_data ← RawMemory_ctor E n; k new_data)
      (World h o l c) = r).
  { intros k r <-. step ltac:(by eapply Capacity_eq). norm.
    by destruct (Nat.leb_spec n cap); [lia|]. }
  unfold Reserve.
  destruct (throws E OpAlloc c).
  { right; left. exists 0. eexists. split; [lia|]. split.
    { apply Hpre. by apply bind_throw. }
    split; [|split; [done|split; [done|split; [done|split; [done|done]]]]].
    simpl. rewrite drop_0. done. }
  destruct buf as [b|].
  - destruct Hbuf as [Hb Hcap]. simpl in Hb.
    assert (Hne : b ≠ b') by (intros ->; congruence).
    set (h0 := <[b' := replicate m Raw]> h).
    assert (Hb0 : h0 !! b = Some ([] ++ (Live <$> xs) ++ replicate (cap - length xs) Raw)).
    { unfold h0. by rewrite lookup_insert_ne. }
    (* the transfer: done, or thrown with a moved-from prefix, or fatal *)
    assert (Htr :
      (length xs ≤ m ∧ ∃ old c1, length old = length xs ∧
         (if transfer_by_move E
          then uninitialized_move_n E (Ptr (Some b) 0) (length xs) (Ptr (Some b') 0)
          else uninitialized_copy_n E (Ptr (Some b) 0) (length xs) (Ptr (Some b') 0))
           (World h0 o l (S c))
         = (Ret tt, World (<[b' := cells_of xs m]>
                             (<[b := (Live <$> old) ++ replicate (cap - length xs) Raw]> h0))
                      o l c1)) ∨
      (∃ k c', k ≤ length xs ∧
         (k ≠ 0 → transfer_by_move E = true ∧ is_nothrow_move_constructible E = false) ∧
         (if transfer_by_move E
          then uninitialized_move_n E (Ptr (Some b) 0) (length xs) (Ptr (Some b') 0)
          else uninitialized_copy_n E (Ptr (Some b) 0) (length xs) (Ptr (Some b') 0))
           (World h0 o l (S c))
         = (Throw, World (<[b := (Live <$> ((moved_from E <$> take k xs) ++ drop k xs))
                                  ++ replicate (cap - length xs) Raw]> h0) o l c')) ∨
      (∃ f wf,
         (if transfer_by_move E
          then uninitialized_move_n E (Ptr (Some b) 0) (length xs) (Ptr (Some b') 0)
          else uninitialized_copy_n E (Ptr (Some b) 0) (length xs) (Ptr (Some b') 0))
           (World h0 o l (S c)) = (Fatal f, wf))).
    { destruct (decide (length xs ≤ m)) as [Hroom|Hshort].
      - assert (Hb0' : h0 !! b' = Some ([] ++ replicate (length xs) Raw
                                        ++ replicate (m - length xs) Raw)).
        { unfold h0. rewrite lookup_insert_eq. simpl. rewrite <- replicate_add.
          do 2 f_equal. lia. }
        destruct (transfer_by_move E) eqn:Hmv.
        + destruct (uninitialized_move_n_any_at h0 o l (S c) b b' 0 (length xs) 0 xs
                      [] (replicate (cap - length xs) Raw) []
                      (replicate (m - length xs) Raw)
                      Hne Hb0 Hb0' eq_refl eq_refl eq_refl)
            as [Hok|[(k & c' & Hk & Hnt & Hth)|[wf Hf]]].
          * left. split; [done|]. exists (moved_from E <$> xs). eexists.
            split; [by rewrite length_fmap|]. exact Hok.
          * right; left. exists k, c'. split; [lia|]. split; [done|]. exact Hth.
          * right; right. by exists Terminate, wf.
        + destruct (uninitialized_copy_n_any_at E h0 o l (S c) b b' 0 (length xs) 0 xs
                      [] (replicate (cap - length xs) Raw) []
                      (replicate (m - length xs) Raw)
                      Hne Hb0 Hb0' eq_refl eq_refl eq_refl)
            as [Hok|[c' Hth]].
          * left. split; [done|]. exists xs. eexists. split; [done|].
            rewrite Hok. do 2 f_equal. rewrite (insert_id h0 b) by done. done.
          * right; left. exists 0, c'. split; [lia|]. split; [done|].
            rewrite Hth. simpl. rewrite drop_0. by rewrite (insert_id h0 b).
      - assert (Hb0' : h0 !! b' = Some ([] ++ replicate m Raw)).
        { unfold h0. by rewrite lookup_insert_eq. }
        destruct (transfer_by_move E) eqn:Hmv.
        + destruct (uninitialized_move_n_short xs h0 o l (S c) b b'
                      [] (replicate (cap - length xs) Raw) [] m Hne Hb0 Hb0')
            as [(k & c' & Hk & Hnt & Hth)|(f & wf & Hf)]; [lia| |].
          * right; left. exists k, c'. split; [lia|]. split; [done|]. exact Hth.
          * right; right. by exists f, wf.
        + destruct (uninitialized_copy_n_short E xs h0 o l (S c) b b'
                      [] (replicate (cap - length xs) Raw) [] m Hne Hb0 Hb0')
            as [[c' Hth]|(f & wf & Hf)]; [lia| |].
          * right; left. exists 0, c'. split; [lia|]. split; [done|].
            simpl in Hth. rewrite Hth. simpl. rewrite drop_0.
            by rewrite (insert_id h0 b).
          * right; right. by exists f, wf. }
    destruct Htr as [(Hroom & old & c1 & Hold & Hok)|[(k & c' & Hk & Hmvk & Hth)
                                                      |(f & wf & Hf)]].
    + (* what follows a successful transfer *)
      left. exists b'. eexists. split.
      { apply Hpre. step ltac:(exact Hctor). fold b' m h0.
        step ltac:(apply unwinding_ret;
                   step ltac:(by eapply get_data_eq); norm;
                   step ltac:(by eapply get_size_eq); norm;
                   exact Hok).
        step ltac:(by eapply get_data_eq). norm.
        step ltac:(by eapply get_size_eq). norm.
        step ltac:(eapply (destroy_n_at _ _ _ _ b 0 _ old []);
                   [rewrite lookup_insert_ne by done; apply lookup_insert_eq|done|done]).
        step ltac:(by eapply data_Swap_eq). norm.
        unfold RawMemory_dtor. norm.
        erewrite Deallocate_eq by apply lookup_insert_eq.
        simpl. rewrite <- replicate_add, count_live_raw, Nat.add_0_r.
        reflexivity. }
      split; [|split; [done|split; [done|split]]].
      * intros Hfitn. rewrite (Hm Hfitn). split; [|split]; simpl.
        -- by rewrite lookup_insert_eq.
        -- split; [lia|done].
        -- split; [|lia]. rewrite lookup_delete_ne by done.
           rewrite lookup_insert_ne by done. by rewrite lookup_insert_eq.
      * intros that Hthat. simpl. by rewrite lookup_insert_ne.
      * intros b0 H1 H2. simpl. rewrite lookup_delete_ne by congruence.
        unfold h0. by rewrite !lookup_insert_ne by congruence.
    + right; left. exists k. eexists. split; [lia|]. split.
      { apply Hpre. step ltac:(exact Hctor). fold b' m h0.
        apply bind_throw.
        eapply unwinding_throw.
        - step ltac:(by eapply get_data_eq). norm.
          step ltac:(by eapply get_size_eq). norm. exact Hth.
        - unfold RawMemory_dtor. norm.
          eapply Deallocate_eq. rewrite lookup_insert_ne by done.
          apply lookup_insert_eq. }
      simpl. rewrite count_live_raw, Nat.add_0_r.
      split; [|split; [done|split; [|split; [done|split]]]].
      * split; [|split]; simpl.
        -- by rewrite moved_prefix_length.
        -- by rewrite moved_prefix_length.
        -- split; [|done]. rewrite lookup_delete_ne by done.
           rewrite lookup_insert_eq. unfold cells_of.
           by rewrite moved_prefix_length.
      * unfold h0. rewrite delete_insert_ne by done.
        rewrite delete_insert_id by done.
        apply dom_insert_lookup_L. by rewrite Hb.
      * intros b0 H1. destruct (decide (b0 = b')) as [->|H2].
        -- rewrite lookup_delete_eq. by rewrite Hfresh.
        -- rewrite lookup_delete_ne by done. unfold h0.
           by rewrite !lookup_insert_ne by congruence.
      * done.
    + right; right. exists f, wf.
      apply Hpre. step ltac:(exact Hctor). fold b' m h0.
      eapply bind_fatal. unfold unwinding, try_catch.
      rewrite (bind_ret _ _ _ _ _ (get_data_eq _ _ _ _ _ _ Ho)).
      rewrite (bind_ret _ _ _ _ _ (get_size_eq _ _ _ _ _ _ Ho)).
      norm. by rewrite Hf.
  - subst cap. destruct xs as [|x xs]; [|simpl in Hle; lia].
    left. exists b'. eexists. split.
    { apply Hpre. step ltac:(exact Hctor). fold b' m.
      step ltac:(apply unwinding_ret;
                 step ltac:(by eapply get_data_eq); norm;
                 step ltac:(by eapply get_size_eq); norm;
                 destruct (transfer_by_move E); reflexivity).
      step ltac:(by eapply get_data_eq). norm.
      step ltac:(by eapply get_size_eq). norm.
      step ltac:(reflexivity).
      step ltac:(by eapply data_Swap_eq). norm.
      reflexivity. }
    split; [|split; [done|split; [done|split]]].
    + intros Hfitn. rewrite (Hm Hfitn). split; [|split]; simpl.
      * by rewrite lookup_insert_eq.
      * split; [lia|done].
      * split; [|lia]. rewrite lookup_insert_eq. unfold cells_of. simpl.
        by rewrite Nat.sub_0_r.
    + intros that Hthat. simpl. by rewrite lookup_insert_ne.
    + intros b0 _ H2. simpl. by rewrite lookup_insert_ne by congruence.
Qed.

End MovingUnderAnyOracle.

Section GrowthFailures.
Context {T : Type} {sT : SizeOf T} (E : env T).
Implicit Types (w : world T) (h : gmap nat (list (cell T))) (o : gmap nat Vector).
Implicit Types (cells : list (cell T)) (xs ys zs vs : list T) (args : ctor_args T).

Lemma moved_needs_move_only :
  transfer_by_move E = true ∧ is_nothrow_move_constructible E = false →
  is_copy_constructible E = false ∧ is_nothrow_move_constructible E = false.
Proof.
  unfold transfer_by_move. intros [H1 H2]. rewrite H2 in H1. simpl in H1.
  split; [|done]. by destruct (is_copy_constructible E).
Qed.

(** X21. [Reserve] gives at least the basic guarantee for every element
    type: when it ends in an exception, the new block has been released
    with no object left in it, and the vector still owns its old buffer
    with the same size and capacity and a live object in every slot below
    the size. The elements are the old ones, except that for a type that
    is moved although its move constructor may throw (it cannot be
    copied), the first [k] of them have been left moved-from. *)
Theorem Reserve_failure_keeps_vector_valid w this buf xs cap n w' :
  vec_repr w this buf xs cap →
  Reserve E this n w = (Throw, w') →
  ∃ k, k ≤ length xs ∧
       vec_repr w' this buf ((moved_from E <$> take k xs) ++ drop k xs) cap ∧
       leaked w' = leaked w ∧ dom (heap w') = dom (heap w) ∧
       (k ≠ 0 → is_copy_constructible E = false ∧
                is_nothrow_move_constructible E = false).
Proof.
  intros Hrepr Hrun.
  destruct (decide (n ≤ cap)) as [Hle|Hgt].
  { destruct w as [h o l c]. destruct Hrepr as (Ho & _). simpl in Ho.
    rewrite (Reserve_noop E h o l c this _ n Ho) in Hrun; [done|simpl; lia]. }
  destruct (Reserve_any E w this buf xs cap n Hrepr ltac:(lia))
    as [(b' & w1 & H1 & _)|[(k & w1 & Hk & H1 & Hr & Hl & Hdom & _ & _ & Hmv)
                           |(f & w1 & H1)]];
    rewrite H1 in Hrun; simplify_eq.
  exists k. split; [done|]. split; [done|]. split; [done|]. split; [done|].
  intros Hk0. apply moved_needs_move_only. by apply Hmv.
Qed.

(** X22. [Resize(n)] that ends in an exception, when the byte count
    [n * sizeof(T)] fits [size_t], leaves the size and the
    elements as they were: shrinking never throws, and when growing the
    new elements constructed so far are destroyed again. The buffer may
    have been replaced by one of the requested capacity. For a type that
    cannot be copied and whose move may throw, a prefix of the elements
    may be left moved-from, as for [Reserve]. *)
Theorem Resize_failure_keeps_elements w this buf xs cap n w' :
  vec_repr w this buf xs cap →
  alloc_fits n →
  Resize E this n w = (Throw, w') →
  length xs ≤ n ∧
  ∃ k buf' cap',
    k ≤ length xs ∧
    vec_repr w' this buf' ((moved_from E <$> take k xs) ++ drop k xs) cap' ∧
    (cap' = cap ∨ cap' = n) ∧
    leaked w' = leaked w ∧
    (k ≠ 0 → is_copy_constructible E = false ∧
             is_nothrow_move_constructible E = false).
Proof.
  intros Hrepr Hn Hrun.
  assert (Hsz : get_size this w = (Ret (length xs), w)).
  { destruct w as [h o l c]. destruct Hrepr as (Ho & _). simpl in Ho.
    by rewrite (get_size_eq _ _ _ _ _ _ Ho). }
  unfold Resize in Hrun. rewrite (bind_ret _ _ _ _ _ Hsz) in Hrun.
  destruct (Nat.ltb_spec n (length xs)) as [Hlt|Hge].
  { exfalso. revert Hrun.
    apply nt_bind; [|intros; apply nt_set_size].
    apply nt_bind; [apply nt_get_data|intros d]. apply nt_destroy_n. }
  split; [done|].
  (* the state after [Reserve], when it returns *)
  assert (Hres :
    (∃ buf1 cap1 w1, Reserve E this n w = (Ret tt, w1) ∧
        vec_repr w1 this buf1 xs cap1 ∧ (cap1 = cap ∨ cap1 = n) ∧ n ≤ cap1 ∧
        leaked w1 = leaked w) ∨
    (∃ k w1, k ≤ length xs ∧ Reserve E this n w = (Throw, w1) ∧
        vec_repr w1 this buf ((moved_from E <$> take k xs) ++ drop k xs) cap ∧
        leaked w1 = leaked w ∧
        (k ≠ 0 → transfer_by_move E = true ∧
                 is_nothrow_move_constructible E = false)) ∨
    (∃ f w1, Reserve E this n w = (Fatal f, w1))).
  { destruct (decide (n ≤ cap)) as [Hle|Hgt].
    - left. exists buf, cap, w. destruct w as [h o l c].
      pose proof Hrepr as (Ho & _). simpl in Ho.
      split; [by eapply Reserve_noop|]. split; [done|]. split; [by left|]. done.
    - destruct (Reserve_any E w this buf xs cap n Hrepr ltac:(lia))
        as [(b' & w1 & H1 & Hr & Hl & _)|[(k & w1 & Hk & H1 & Hr & Hl & _ & _ & _ & Hmv)
           |(f & w1 & H1)]].
      + left. exists (Some b'), n, w1. split; [done|]. split; [by apply Hr|].
        split; [by right|]. done.
      + right; left. by exists k, w1.
      + right; right. by exists f, w1. }
  destruct Hres as [(buf1 & cap1 & w1 & Hres & Hr1 & Hcap1 & Hn1 & Hl1)
                   |[(k & w1 & Hk & Hres & Hr1 & Hl1 & Hmv)|(f & w1 & Hres)]].
  - (* the new elements are constructed *)
    unfold bind at 1 in Hrun. unfold bind at 1 in Hrun. rewrite Hres in Hrun.
    destruct w1 as [h1 o1 l1 c1]. pose proof Hr1 as (Ho1 & [Hle1 Hfits1] & Hbuf1). simpl in Ho1.
    rewrite (bind_ret _ _ _ _ _ (get_data_eq _ _ _ _ _ _ Ho1)) in Hrun.
    rewrite (bind_ret _ _ _ _ _ (get_size_eq _ _ _ _ _ _ Ho1)) in Hrun.
    unfold ptr_add, GetAddress in Hrun.
    cbn [data_ size_ buffer_ capacity_ p_base p_off Nat.add] in Hrun.
    destruct buf1 as [b1|].
    + destruct Hbuf1 as [Hb1 Hc1]. simpl in Hb1.
      destruct (uninitialized_value_construct_n_any E (n - length xs) h1 o1 l1 c1 b1
                  (Live <$> xs) (replicate (cap1 - n) Raw)) as [Hok|[c' Hth]].
      { rewrite Hb1. unfold cells_of. do 2 f_equal.
        rewrite <- replicate_add. f_equal. lia. }
      * rewrite length_fmap in Hok. rewrite Hok in Hrun.
        exfalso. revert Hrun. apply nt_set_size.
      * rewrite length_fmap in Hth. rewrite Hth in Hrun. simplify_eq.
        exists 0, (Some b1), cap1. split; [lia|]. simpl. rewrite drop_0.
        split; [done|]. split; [done|]. split; [done|]. done.
    + simpl in Hbuf1. assert (n = 0) by lia. subst n.
      assert (length xs = 0) as Hz by lia. rewrite Hz in Hrun. simpl in Hrun.
      exfalso. revert Hrun. apply nt_set_size.
  - unfold bind at 1 in Hrun. unfold bind at 1 in Hrun. rewrite Hres in Hrun.
    simplify_eq. exists k, buf, cap. split; [done|]. split; [done|].
    split; [by left|]. split; [done|].
    intros Hk0. apply moved_needs_move_only. by apply Hmv.
  - unfold bind at 1 in Hrun. unfold bind at 1 in Hrun. by rewrite Hres in Hrun.
Qed.

End GrowthFailures.

Section AssignmentFailures.
Context {T : Type} {sT : SizeOf T} (E : env T).
Implicit Types (w : world T) (h : gmap nat (list (cell T))) (o : gmap nat Vector).
Implicit Types (cells : list (cell T)) (xs ys zs vs : list T) (args : ctor_args T).

(** ** Assignments under an arbitrary oracle *)

Lemma move_assign_cell_any h o l c b i j cells x y :
  h !! b = Some cells → cells !! i = Some (Live x) → cells !! j = Some (Live y) →
  move_assign E (Ptr (Some b) j) (Cell (Ptr (Some b) i)) (World h o l c)
  = if throws E OpMoveAssign c
    then (if is_nothrow_move_assignable E then Fatal Terminate else Throw,
          World h o l (S c))
    else (Ret tt, World (<[b := <[i := Live (moved_from E x)]> (<[j := Live x]> cells)]> h)
                    o l (S c)).
Proof.
  intros Hb Hi Hj. unfold move_assign, read_operand, mark_moved.
  step ltac:(by eapply load_eq).
  step ltac:(by eapply load_eq).
  rewrite bind_tick. cbn [op_noexcept].
  destruct (throws E OpMoveAssign c); [done|].
  step ltac:(by eapply store_eq).
  destruct (decide (i = j)) as [->|Hij].
  - erewrite store_eq; [|apply lookup_insert_eq|].
    + by rewrite insert_insert_eq.
    + apply list_lookup_insert_eq. by eapply lookup_lt_Some.
  - erewrite store_eq; [|apply lookup_insert_eq|].
    + by rewrite insert_insert_eq.
    + rewrite list_lookup_insert_ne by done. done.
Qed.

Lemma move_loop_any ys : ∀ h o l c b p1 p2 a,
  h !! b = Some (p1 ++ Live a :: (Live <$> ys) ++ p2) →
  move_loop E (Ptr (Some b) (length p1 + 1)) (length ys)
    (Ptr (Some b) (length p1)) (World h o l c)
  = (Ret tt, World (<[b := p1 ++ (Live <$> ys) ++ Live (vacated_left E a ys) :: p2]> h)
               o l (c + length ys)) ∨
  (∃ k c', k < length ys ∧ is_nothrow_move_assignable E = false ∧
     move_loop E (Ptr (Some b) (length p1 + 1)) (length ys)
       (Ptr (Some b) (length p1)) (World h o l c)
     = (Throw, World (<[b := p1 ++ (Live <$> (take k ys
                                   ++ vacated_left E a (take k ys) :: drop k ys))
                              ++ p2]> h) o l c')) ∨
  (∃ w', move_loop E (Ptr (Some b) (length p1 + 1)) (length ys)
           (Ptr (Some b) (length p1)) (World h o l c)
         = (Fatal Terminate, w')).
Proof.
  induction ys as [|y ys IH]; intros h o l c b p1 p2 a Hb.
  - left. simpl. unfold ret. rewrite Nat.add_0_r. by rewrite insert_id.
  - csimpl in *.
    pose proof (move_assign_cell_any h o l c b (length p1 + 1) (length p1) _ y a Hb
                  (lookup_middle_next _ _ _ _) (lookup_middle _ _ _)) as Hc.
    destruct (throws E OpMoveAssign c).
    + destruct (is_nothrow_move_assignable E) eqn:Hnt.
      * right; right. eexists. by eapply bind_fatal.
      * right; left. exists 0, (S c). split; [lia|]. split; [done|].
        csimpl. rewrite insert_id by done. by apply bind_throw.
    + rewrite insert_middle, insert_middle_next in Hc.
      specialize (IH (<[b:=p1 ++ Live y :: Live (moved_from E y) :: (Live <$> ys) ++ p2]> h)
                    o l (S c) b (p1 ++ [Live y]) p2 (moved_from E y)).
      rewrite !length_app in IH. simpl in IH.
      destruct IH as [IH|[(k & c' & Hk & Hnt & IH)|[w' IH]]].
      * rewrite lookup_insert_eq. by rewrite <- app_assoc.
      * left. step ltac:(exact Hc). unfold ptr_add; simpl. rewrite IH.
        rewrite insert_insert_eq. rewrite <- !app_assoc. simpl.
        do 2 f_equal. lia.
      * right; left. exists (S k), c'. split; [lia|]. split; [done|].
        step ltac:(exact Hc). unfold ptr_add; simpl. rewrite IH.
        rewrite insert_insert_eq. rewrite <- !app_assoc. by csimpl.
      * right; right. exists w'. step ltac:(exact Hc). unfold ptr_add; simpl.
        by rewrite IH.
Qed.

Lemma copy_assign_cell_any h o l c bs bd i j src dst x y :
  bs ≠ bd →
  h !! bs = Some src → src !! i = Some (Live x) →
  h !! bd = Some dst → dst !! j = Some (Live y) →
  copy_assign E (Ptr (Some bd) j) (Cell (Ptr (Some bs) i)) (World h o l c)
  = if throws E OpCopyAssign c
    then (Throw, World h o l (S c))
    else (Ret tt, World (<[bd := <[j := Live x]> dst]> h) o l (S c)).
Proof.
  intros Hne Hs Hi Hd Hj. unfold copy_assign, read_operand.
  step ltac:(by eapply load_eq).
  step ltac:(by eapply load_eq).
  rewrite bind_tick. cbn [op_noexcept].
  destruct (throws E OpCopyAssign c); [done|].
  by eapply store_eq.
Qed.

Lemma copy_loop_any xs : ∀ ys h o l c bs bd s1 s2 d1 d2,
  bs ≠ bd → length ys = length xs →
  h !! bs = Some (s1 ++ (Live <$> xs) ++ s2) →
  h !! bd = Some (d1 ++ (Live <$> ys) ++ d2) →
  copy_loop E (Ptr (Some bs) (length s1)) (length xs)
    (Ptr (Some bd) (length d1)) (World h o l c)
  = (Ret tt, World (<[bd := d1 ++ (Live <$> xs) ++ d2]> h) o l (c + length xs)) ∨
  (∃ k c', k < length xs ∧
     copy_loop E (Ptr (Some bs) (length s1)) (length xs)
       (Ptr (Some bd) (length d1)) (World h o l c)
     = (Throw, World (<[bd := d1 ++ (Live <$> (take k xs ++ drop k ys)) ++ d2]> h)
                 o l c')).
Proof.
  induction xs as [|x xs IH]; intros [|y ys] h o l c bs bd s1 s2 d1 d2 Hne Hlen Hs Hd;
    try done.
  - left. simpl. unfold ret. rewrite Nat.add_0_r. by rewrite insert_id.
  - csimpl in *.
    pose proof (copy_assign_cell_any h o l c bs bd (length s1) (length d1) _ _ x y
                  Hne Hs (lookup_middle _ _ _) Hd (lookup_middle _ _ _)) as Hc.
    destruct (throws E OpCopyAssign c).
    + right. exists 0, (S c). split; [lia|].
      csimpl. rewrite insert_id by done. by apply bind_throw.
    + rewrite insert_middle in Hc.
      specialize (IH ys (<[bd:=d1 ++ Live x :: (Live <$> ys) ++ d2]> h) o l (S c)
        bs bd (s1 ++ [Live x]) s2 (d1 ++ [Live x]) d2 Hne).
      rewrite !length_app in IH. simpl in IH.
      destruct IH as [IH|(k & c' & Hk & IH)].
      * lia.
      * rewrite lookup_insert_ne by done. by rewrite <- app_assoc.
      * rewrite lookup_insert_eq. by rewrite <- app_assoc.
      * left. step ltac:(exact Hc). unfold ptr_add; simpl. rewrite IH.
        rewrite insert_insert_eq. rewrite <- !app_assoc. simpl.
        do 2 f_equal. lia.
      * right. exists (S k), c'. split; [lia|].
        step ltac:(exact Hc). unfold ptr_add; simpl. rewrite IH.
        rewrite insert_insert_eq. rewrite <- !app_assoc. by csimpl.
Qed.


(** ** Erase that fails *)

Lemma Erase_cases w this buf xs cap i :
  vec_repr w this buf xs cap → i < length xs →
  (∃ p w1, Erase E this (Ptr buf i) w = (Ret p, w1)) ∨
  (is_nothrow_move_assignable E = false ∧
   ∃ a k w1, Erase E this (Ptr buf i) w = (Throw, w1) ∧
     xs !! i = Some a ∧ k < length xs - S i ∧
     vec_repr w1 this buf
       (take i xs ++ take k (drop (S i) xs)
          ++ vacated_left E a (take k (drop (S i) xs)) :: drop k (drop (S i) xs)) cap ∧
     leaked w1 = leaked w) ∨
  (∃ f w1, Erase E this (Ptr buf i) w = (Fatal f, w1)).
Proof.
  destruct w as [h o l c]. intros (Ho & [Hle Hfits] & Hbuf) Hi. simpl in Ho.
  destruct buf as [b|]; [|lia].
  destruct Hbuf as [Hb Hcap]. simpl in Hb.
  destruct (lookup_lt_is_Some_2 xs i Hi) as [a Ha].
  assert (Hxs : xs = take i xs ++ a :: drop (S i) xs)
    by (by rewrite <- (take_drop_middle xs i a Ha) at 1).
  assert (Hpre : length (take i xs) = i) by (rewrite length_take; lia).
  assert (Hys : length (drop (S i) xs) = length xs - S i) by apply length_drop.
  remember (take i xs) as pre eqn:Epre. remember (drop (S i) xs) as ys eqn:Eys.
  clear Epre Eys.
  set (R := replicate (cap - length xs) (@Raw T)) in *.
  assert (Hb0 : h !! b = Some ((Live <$> pre) ++ Live a :: (Live <$> ys) ++ R)).
  { rewrite Hb. unfold cells_of. fold R. rewrite Hxs at 1. rewrite fmap_app. csimpl.
    by rewrite <- app_assoc. }
  assert (Hbody : ∀ r,
    (move_loop E (Ptr (Some b) (length (Live <$> pre) + 1)) (length ys)
       (Ptr (Some b) (length (Live <$> pre))) ;;
     PopBack E this ;; b0 ← begin_ this; ret (ptr_add b0 i)) (World h o l c) = r →
    (b0 ← begin_ this; e ← end_ this;
     assert_ E (ptr_le b0 (Ptr (Some b) i) && ptr_lt (Ptr (Some b) i) e) ;;
     shift ← ptr_diff (Ptr (Some b) i) b0;
     std_move E (ptr_add (ptr_add b0 shift) 1) e (ptr_add b0 shift) ;;
     PopBack E this ;;
     b1 ← begin_ this; ret (ptr_add b1 shift)) (World h o l c) = r).
  { intros r <-.
    step ltac:(by eapply begin_eq). norm.
    step ltac:(by eapply end_eq). norm.
    rewrite ptr_le_eq, ptr_lt_eq.
    replace (_ && _) with true
      by (symmetry; apply andb_true_iff; split;
          [apply Nat.leb_le|apply Nat.ltb_lt]; lia).
    step ltac:(apply assert_true).
    step ltac:(apply ptr_diff_eq; lia). rewrite Nat.sub_0_r.
    unfold std_move. norm.
    rewrite length_fmap, Hpre.
    replace (length ys) with (length xs - (i + 1)) by lia.
    unfold bind at 1 3. unfold bind at 1 3.
    by rewrite !ptr_diff_eq by lia. }
  unfold Erase.
  destruct (move_loop_any ys h o l c b (Live <$> pre) R a Hb0)
    as [Hok|[(k & c' & Hk & Hnt & Hth)|[wf Hf]]].
  - match goal with |- (∃ p w1, noexcept ?b ?body ?w = _) ∨ _ =>
      destruct (body w) as [[p| |f] w1] eqn:Hrun end.
    + left. exists p, w1. by apply noexcept_ret.
    + exfalso. pose proof (Hbody _ eq_refl) as Hrun'.
      rewrite (bind_ret _ _ _ _ _ Hok) in Hrun'. symmetry in Hrun'. revert Hrun'.
      apply nt_bind; [apply nt_noexcept_true|intros _].
      apply nt_bind; [apply nt_begin|intros ?]. apply nt_ret.
    + right; right. exists f, w1. by apply noexcept_fatal.
  - right; left. split; [done|]. exists a, k. eexists. split.
    { rewrite Hnt. unfold noexcept. apply Hbody. by apply bind_throw. }
    split; [done|]. split; [lia|]. split; [|done].
    assert (Hlen : length (pre ++ take k ys ++ vacated_left E a (take k ys) :: drop k ys)
                   = length xs).
    { rewrite Hxs, !length_app. simpl.
      rewrite length_take, length_drop. lia. }
    split; [|split]; simpl.
    + by rewrite Hlen.
    + by rewrite Hlen.
    + split; [|done]. rewrite lookup_insert_eq. f_equal. unfold cells_of.
      rewrite Hlen. fold R. by rewrite !fmap_app, <- !app_assoc.
  - right; right. exists Terminate, wf. apply noexcept_fatal.
    apply Hbody. by eapply bind_fatal.
Qed.

(** X23. [Erase] that ends in an exception, which needs an element type
    whose move assignment is not noexcept, leaves a valid vector of the
    same size in the same buffer: the elements in front of the position
    are untouched, the first [k] elements behind it have been shifted down
    by one, the slot after them holds a moved-from value, and the rest are
    untouched. No object is lost and none is destroyed. *)
Theorem Erase_failure_keeps_size w this buf xs cap i w' :
  vec_repr w this buf xs cap → i < length xs →
  Erase E this (Ptr buf i) w = (Throw, w') →
  is_nothrow_move_assignable E = false ∧
  ∃ a k, xs !! i = Some a ∧ k < length xs - S i ∧
    vec_repr w' this buf
      (take i xs ++ take k (drop (S i) xs)
         ++ vacated_left E a (take k (drop (S i) xs)) :: drop k (drop (S i) xs)) cap ∧
    leaked w' = leaked w.
Proof.
  intros Hrepr Hi Hrun.
  destruct (Erase_cases w this buf xs cap i Hrepr Hi)
    as [(p & w1 & H1)|[(Hnt & a & k & w1 & H1 & Ha & Hk & Hr & Hl)|(f & w1 & H1)]];
    rewrite H1 in Hrun; simplify_eq.
  split; [done|]. by exists a, k.
Qed.


(** ** Copy assignment that fails *)

Lemma bind2_ret {A B C} (m : M T A) (k : A → M T B) (k2 : B → M T C) w a w' :
  m w = (Ret a, w') → bind (bind m k) k2 w = bind (k a) k2 w'.
Proof. intros H. unfold bind at 1 2. by rewrite H. Qed.

Lemma bind3_ret {A B C D} (m : M T A) (k : A → M T B) (k2 : B → M T C)
    (k3 : C → M T D) w a w' :
  m w = (Ret a, w') → bind (bind (bind m k) k2) k3 w = bind (bind (k a) k2) k3 w'.
Proof. intros H. unfold bind at 1 2 3. by rewrite H. Qed.

Lemma nt_Vector_dtor this : never_throws (T:=T) (Vector_dtor this).
Proof.
  apply nt_bind; [apply nt_get_vec|intros v].
  apply nt_bind; [apply nt_noexcept_true|intros _].
  apply nt_bind; [apply nt_Deallocate|intros _].
  by intros w w'.
Qed.

Lemma take_mixed_length k xs1 xs2 :
  k ≤ length xs1 → k ≤ length xs2 →
  length (take k xs2 ++ drop k xs1) = length xs1.
Proof. intros H1 H2. rewrite length_app, length_take, length_drop. lia. Qed.

Lemma copy_assignment_throw w this rhs buf1 xs1 cap1 buf2 xs2 cap2 w' :
  this ≠ rhs →
  vec_repr w this buf1 xs1 cap1 → vec_repr w rhs buf2 xs2 cap2 →
  (is_Some buf1 → buf2 ≠ buf1) →
  copy_assignment E this rhs w = (Throw, w') →
  ∃ k, k ≤ length xs1 ∧ k ≤ length xs2 ∧
       vec_repr w' this buf1 (take k xs2 ++ drop k xs1) cap1 ∧
       vec_repr w' rhs buf2 xs2 cap2 ∧
       leaked w' = leaked w ∧
       (cap1 < length xs2 → k = 0).
Proof.
  intros Hne Hthis Hrhs Hdisj Hrun.
  destruct w as [h o l c].
  pose proof Hthis as (Ho1 & [Hle1 Hfits1] & Hbuf1). pose proof Hrhs as (Ho2 & [Hle2 Hfits2] & Hbuf2).
  simpl in Ho1, Ho2.
  unfold copy_assignment in Hrun.
  destruct (Nat.eqb_spec this rhs) as [?|_]; [done|]. simpl in Hrun.
  rewrite (bind_ret _ _ _ _ _ (get_vec_eq _ _ _ _ _ _ Ho2)) in Hrun.
  rewrite (bind_ret _ _ _ _ _ (Capacity_eq _ _ _ _ _ _ Ho1)) in Hrun.
  cbn [data_ size_ buffer_ capacity_] in Hrun.
  destruct (Nat.ltb_spec cap1 (length xs2)) as [Hgrow|Hfits].
  - (* a copy is built first: nothing has changed when it fails *)
    unfold bind at 1 in Hrun. cbn [objs] in Hrun.
    set (temp := fresh (dom o)) in *.
    destruct (Vector_copy E temp rhs (World h o l c)) as [[[]| |f] w1] eqn:Hcp.
    + exfalso. revert Hrun. unfold bind at 1. rewrite Hcp.
      apply nt_bind; [apply nt_noexcept_true|intros _]. apply nt_Vector_dtor.
    + unfold bind at 1 in Hrun. rewrite Hcp in Hrun. simplify_eq.
      destruct (Vector_copy_throw E _ _ _ _ _ _ _ Hrhs Hcp) as (Hh & Hobjs & Hl).
      exists 0. split; [lia|]. split; [lia|]. simpl. rewrite drop_0.
      split; [|split; [|done]].
      * eapply vec_repr_objs; [exact Hh|by rewrite Hobjs|done].
      * eapply vec_repr_objs; [exact Hh|by rewrite Hobjs|done].
    + unfold bind at 1 in Hrun. by rewrite Hcp in Hrun.
  - (* the storage is reused *)
    rewrite (bind_ret _ _ _ _ _ (get_vec_eq _ _ _ _ _ _ Ho1)) in Hrun.
    cbn [data_ size_ buffer_ capacity_] in Hrun.
    destruct xs2 as [|z zs] eqn:Hxs2.
    { (* nothing to copy: nothing can throw *)
      exfalso. cbn [length] in Hrun.
      unfold std_copy, ptr_add, GetAddress in Hrun.
      cbn [data_ size_ buffer_ capacity_ p_base p_off Nat.add] in Hrun.
      destruct (Nat.leb_spec (length xs1) 0) as [Hz|Hnz].
      - assert (Hz' : length xs1 = 0) by lia. rewrite Hz' in Hrun.
        rewrite (bind3_ret _ _ _ _ _ _ _
                   (ptr_diff_eq (T:=T) buf2 0 0 (World h o l c) (le_n 0))) in Hrun.
        revert Hrun.
        apply nt_bind; [|intros; apply nt_set_size].
        apply nt_bind; [apply nt_ret|intros; apply nt_ret].
      - rewrite (bind3_ret _ _ _ _ _ _ _
                   (ptr_diff_eq (T:=T) buf2 0 0 (World h o l c) (le_n 0))) in Hrun.
        revert Hrun.
        apply nt_bind; [|intros; apply nt_set_size].
        apply nt_bind; [apply nt_ret|intros; apply nt_noexcept_true]. }
    rewrite <- Hxs2 in *.
    assert (Hpos : 0 < length xs2) by (rewrite Hxs2; simpl; lia).
    clear Hxs2 z zs.
    destruct buf2 as [b2|]; [|lia]. destruct Hbuf2 as [Hb2 Hcap2]. simpl in Hb2.
    destruct buf1 as [b1|]; [|lia]. destruct Hbuf1 as [Hb1 Hcap1]. simpl in Hb1.
    assert (Hbb : b2 ≠ b1) by (intros ->; by eapply Hdisj).
    unfold std_copy, ptr_add, GetAddress in Hrun.
    cbn [data_ size_ buffer_ capacity_ p_base p_off Nat.add] in Hrun.
    destruct (Nat.leb_spec (length xs1) (length xs2)) as [Hle|Hgt].
    + (* the prefix is assigned, the rest constructed *)
      set (k := length xs1) in *.
      assert (Hk : length (take k xs2) = k) by (rewrite length_take; lia).
      rewrite (bind3_ret _ _ _ _ _ _ _
                 (ptr_diff_eq (T:=T) (Some b2) k 0 (World h o l c) ltac:(lia)))
        in Hrun.
      rewrite Nat.sub_0_r in Hrun.
      destruct (copy_loop_any (take k xs2) xs1 h o l c b2 b1 []
                  ((Live <$> drop k xs2) ++ replicate (cap2 - length xs2) Raw)
                  [] (replicate (cap1 - k) Raw) Hbb)
        as [Hok|(j & c' & Hj & Hth)].
      * by rewrite Hk.
      * rewrite Hb2. unfold cells_of. rewrite <- (take_drop k xs2) at 1.
        rewrite fmap_app. by rewrite <- app_assoc.
      * exact Hb1.
      * rewrite Hk in Hok. simpl in Hok.
        rewrite (bind2_ret _ _ _ _ _ _ Hok) in Hrun.
        destruct (uninitialized_copy_n_any_at E
                    (<[b1 := (Live <$> take k xs2) ++ replicate (cap1 - k) Raw]> h)
                    o l (c + k) b2 b1 k (length xs2 - k) k (drop k xs2)
                    (Live <$> take k xs2) (replicate (cap2 - length xs2) Raw)
                    (Live <$> take k xs2) (replicate (cap1 - length xs2) Raw) Hbb)
          as [Hok2|[c' Hth2]].
        -- rewrite lookup_insert_ne by done. rewrite Hb2. unfold cells_of.
           rewrite <- (take_drop k xs2) at 1. rewrite fmap_app.
           by rewrite <- app_assoc.
        -- rewrite lookup_insert_eq. do 2 f_equal.
           rewrite <- replicate_add. f_equal. lia.
        -- rewrite length_fmap; lia.
        -- rewrite length_drop; lia.
        -- rewrite length_fmap; lia.
        -- exfalso. rewrite (bind_ret _ _ _ _ _ Hok2) in Hrun.
           revert Hrun. apply nt_set_size.
        -- rewrite (bind_throw _ _ _ _ Hth2) in Hrun. injection Hrun as <-.
           exists k. split; [lia|]. split; [lia|].
           rewrite (drop_ge xs1) by lia. rewrite app_nil_r.
           split; [|split; [|split; [done|lia]]].
           ++ split; [|split]; simpl; [by rewrite Hk|(split; [lia|fits])|].
              split; [|done]. rewrite lookup_insert_eq. unfold cells_of. by rewrite Hk.
           ++ split; [|split]; simpl; [done|done|].
              split; [|done]. by rewrite lookup_insert_ne.
      * rewrite Hk in Hth. simpl in Hth.
        rewrite (bind_throw _ _ _ _ (bind_throw _ _ _ _ Hth)) in Hrun.
        injection Hrun as <-.
        exists j. split; [lia|]. split; [lia|].
        rewrite take_take. replace (j `min` k) with j by lia.
        assert (Hlen : length (take j xs2 ++ drop j xs1) = k)
          by (apply take_mixed_length; lia).
        split; [|split; [|split; [done|lia]]].
        -- split; [|split]; simpl; [by rewrite Hlen|(split; [lia|fits])|].
           split; [|done]. rewrite lookup_insert_eq. unfold cells_of.
           by rewrite Hlen.
        -- split; [|split]; simpl; [done|done|].
           split; [|done]. by rewrite lookup_insert_ne.
    + (* the prefix is assigned, the tail destroyed *)
      set (k := length xs2) in *.
      assert (Hk : length (take k xs1) = k) by (rewrite length_take; lia).
      rewrite (bind3_ret _ _ _ _ _ _ _
                 (ptr_diff_eq (T:=T) (Some b2) k 0 (World h o l c) ltac:(lia)))
        in Hrun.
      rewrite Nat.sub_0_r in Hrun.
      destruct (copy_loop_any xs2 (take k xs1) h o l c b2 b1 []
                  (replicate (cap2 - k) Raw)
                  [] ((Live <$> drop k xs1) ++ replicate (cap1 - length xs1) Raw) Hbb)
        as [Hok|(j & c' & Hj & Hth)].
      * by rewrite Hk.
      * exact Hb2.
      * rewrite Hb1. unfold cells_of. rewrite <- (take_drop k xs1) at 1.
        rewrite fmap_app. by rewrite <- app_assoc.
      * simpl in Hok. fold k in Hok.
        rewrite (bind2_ret _ _ _ _ _ _ Hok) in Hrun.
        exfalso. revert Hrun.
        apply nt_bind; [apply nt_noexcept_true|intros; apply nt_set_size].
      * simpl in Hth. fold k in Hth.
        rewrite (bind_throw _ _ _ _ (bind_throw _ _ _ _ Hth)) in Hrun.
        injection Hrun as <-.
        exists j. split; [lia|]. split; [lia|].
        assert (Hlen : length (take j xs2 ++ drop j xs1) = length xs1)
          by (apply take_mixed_length; lia).
        split; [|split; [|split; [done|lia]]].
        -- split; [|split]; simpl; [by rewrite Hlen|(split; [lia|fits])|].
           split; [|done]. rewrite lookup_insert_eq. f_equal. unfold cells_of.
           rewrite Hlen.
           assert (Hd : drop j xs1 = drop j (take k xs1) ++ drop k xs1).
           { rewrite <- (take_drop k xs1) at 1.
             by rewrite drop_app_le by (rewrite length_take; lia). }
           rewrite Hd, !fmap_app. by rewrite <- !app_assoc.
        -- split; [|split]; simpl; [done|done|].
           split; [|done]. by rewrite lookup_insert_ne.
Qed.

(** X24. Copy assignment that ends in an exception leaves both vectors
    valid and the source untouched. When the target had to take a new
    block, the copy is built aside first, so the target is exactly as
    before (the strong guarantee). When the target's storage is reused,
    the target keeps its buffer, size and capacity, and its elements are
    the first [k] elements of the source followed by its own remaining
    elements, for some [k]. No object is lost. *)
Theorem copy_assignment_failure_keeps_both_valid
    w this rhs buf1 xs1 cap1 buf2 xs2 cap2 w' :
  this ≠ rhs →
  vec_repr w this buf1 xs1 cap1 → vec_repr w rhs buf2 xs2 cap2 →
  (is_Some buf1 → buf2 ≠ buf1) →
  copy_assignment E this rhs w = (Throw, w') →
  ∃ k, k ≤ length xs1 ∧ k ≤ length xs2 ∧
       vec_repr w' this buf1 (take k xs2 ++ drop k xs1) cap1 ∧
       vec_repr w' rhs buf2 xs2 cap2 ∧
       leaked w' = leaked w ∧
       (cap1 < length xs2 → k = 0).
Proof. apply copy_assignment_throw. Qed.

End AssignmentFailures.

Section EmplaceMoving.
Context {T : Type} {sT : SizeOf T} (E : env T).
Implicit Types (w : world T) (h : gmap nat (list (cell T))) (o : gmap nat Vector).
Implicit Types (cells : list (cell T)) (xs ys zs vs pre post : list T) (args : ctor_args T).

(** ** Emplace on a full buffer, whatever the element type *)

Lemma count_live_fmap xs : count_live (Live <$> xs) = length xs.
Proof.
  unfold count_live. induction xs as [|x xs IH]; [done|].
  rewrite fmap_cons, filter_cons_True by done. simpl. by rewrite IH.
Qed.

Lemma count_live_app (c1 c2 : list (cell T)) :
  count_live (c1 ++ c2) = count_live c1 + count_live c2.
Proof. unfold count_live. by rewrite filter_app, length_app. Qed.

Lemma count_live_Raw_cons (cs : list (cell T)) : count_live (Raw :: cs) = count_live cs.
Proof. unfold count_live. by rewrite filter_cons_False by done. Qed.

(** The two transfers by move: either both succeed, or an exception
    leaves the source with a moved-from prefix; when the second transfer
    throws, the elements of the first remain in the new block. *)
Lemma Emplace_move_transfer_cases h o l c this b b' cap cap' pre post v R :
  transfer_by_move E = true → b ≠ b' →
  o !! this = Some (MkVector (MkRawMemory (Some b) cap) (length (pre ++ post))) →
  h !! b = Some (Live <$> (pre ++ post)) →
  h !! b' = Some (replicate (length pre) Raw ++ Live v :: replicate (length post) Raw ++ R) →
  throw_post
    (λ w', ∃ k c' front,
        k < length (pre ++ post) ∧ is_nothrow_move_constructible E = false ∧
        front = (if decide (length pre ≤ k) then Live <$> pre
                 else replicate (length pre) Raw) ∧
        w' = World (<[b' := front ++ Raw :: replicate (length post) Raw ++ R]>
                      (<[b := Live <$> ((moved_from E <$> take k (pre ++ post))
                                        ++ drop k (pre ++ post))]> h)) o l c')
    (try_catch
       (d ← get_data this;
        if transfer_by_move E then
          uninitialized_move_n E (GetAddress d) (length pre)
            (GetAddress (MkRawMemory (Some b') cap')) ;;
          e ← end_ this; n ← ptr_diff e (Ptr (Some b) (length pre));
          uninitialized_move_n E (ptr_add (GetAddress d) (length pre)) n
            (ptr_add (ptr_add (GetAddress (MkRawMemory (Some b') cap')) (length pre)) 1)
        else
          uninitialized_copy_n E (GetAddress d) (length pre)
            (GetAddress (MkRawMemory (Some b') cap')) ;;
          try_catch
            (e ← end_ this; n ← ptr_diff e (Ptr (Some b) (length pre));
             uninitialized_copy_n E (ptr_add (GetAddress d) (length pre)) n
               (ptr_add (ptr_add (GetAddress (MkRawMemory (Some b') cap')) (length pre)) 1))
            (destroy_n (GetAddress (MkRawMemory (Some b') cap')) (length pre) ;; throw))
       (Destroy (ptr_add (GetAddress (MkRawMemory (Some b') cap')) (length pre)) ;; throw)
       (World h o l c)).
Proof.
  intros Hmv Hne Ho Hb Hb'. rewrite Hmv.
  assert (Hlen : length (pre ++ post) = length pre + length post) by apply length_app.
  rewrite fmap_app in Hb.
  set (handler := (Destroy _ ;; throw)).
  assert (Hhandler : ∀ h0 c1 front Lv rest,
    length front = length pre →
    h0 !! b' = Some (front ++ Live Lv :: rest) →
    handler (World h0 o l c1)
    = (Throw, World (<[b' := front ++ Raw :: rest]> h0) o l c1)).
  { intros h0 c1 front Lv rest Hfl Hh0. unfold handler. norm.
    rewrite <- Hfl.
    step ltac:(eapply Destroy_eq; [exact Hh0|apply lookup_middle]).
    by rewrite insert_middle. }
  destruct (uninitialized_move_n_any_at E h o l c b b' 0 (length pre) 0 pre []
              (Live <$> post) [] (Live v :: replicate (length post) Raw ++ R) Hne)
    as [Hok|[(k & c1 & Hk & Hnt & Hth)|[wf Hf]]]; try done.
  - (* the prefix is moved *)
    simpl in Hok.
    set (h1 := <[b' := (Live <$> pre) ++ Live v :: replicate (length post) Raw ++ R]>
                 (<[b := (Live <$> (moved_from E <$> pre)) ++ (Live <$> post)]> h)) in *.
    destruct (uninitialized_move_n_any_at E h1 o l (c + length pre) b b'
                (length pre) (length post) (length pre + 1)
                post (Live <$> (moved_from E <$> pre)) [] ((Live <$> pre) ++ [Live v]) R Hne)
      as [Hok2|[(k & c2 & Hk & Hnt & Hth2)|[wf Hf2]]].
    + unfold h1. rewrite lookup_insert_ne by done. rewrite lookup_insert_eq.
      by rewrite app_nil_r.
    + unfold h1. rewrite lookup_insert_eq. by rewrite <- app_assoc.
    + by rewrite !length_fmap.
    + done.
    + rewrite length_app, length_fmap. simpl. lia.
    + (* and the suffix *)
      erewrite try_catch_ret; [done|].
      step ltac:(by eapply get_data_eq). norm.
      step ltac:(exact Hok).
      step ltac:(by eapply end_eq). norm.
      step ltac:(apply ptr_diff_eq; lia).
      replace (length (pre ++ post) - length pre) with (length post) by lia.
      exact Hok2.
    + (* the suffix throws *)
      erewrite try_catch_throw.
      2:{ step ltac:(by eapply get_data_eq). norm.
          step ltac:(exact Hok).
          step ltac:(by eapply end_eq). norm.
          step ltac:(apply ptr_diff_eq; lia).
          replace (length (pre ++ post) - length pre) with (length post) by lia.
          exact Hth2. }
      erewrite (Hhandler _ _ (Live <$> pre) v);
        [|by rewrite length_fmap
         |rewrite lookup_insert_ne by done; unfold h1; apply lookup_insert_eq].
      simpl. exists (length pre + k), c2, (Live <$> pre).
      split; [lia|]. split; [done|]. split; [by rewrite decide_True by lia|].
      f_equal. unfold h1.
      rewrite (insert_insert_ne _ b' b) by done. rewrite insert_insert_eq.
      rewrite (insert_insert_ne _ b b') by done. rewrite insert_insert_eq.
      do 2 f_equal.
      rewrite take_app_add', drop_app_add' by done.
      rewrite !fmap_app. rewrite app_nil_r. by rewrite <- !app_assoc.
    + erewrite try_catch_fatal; [done|].
      step ltac:(by eapply get_data_eq). norm.
      step ltac:(exact Hok).
      step ltac:(by eapply end_eq). norm.
      step ltac:(apply ptr_diff_eq; lia).
      replace (length (pre ++ post) - length pre) with (length post) by lia.
      exact Hf2.
  - (* the prefix throws *)
    erewrite try_catch_throw.
    2:{ step ltac:(by eapply get_data_eq). norm.
        apply bind_throw. exact Hth. }
    erewrite (Hhandler _ _ (replicate (length pre) Raw) v);
      [|by rewrite length_replicate
       |rewrite lookup_insert_ne by done; exact Hb'].
    simpl. exists k, c1, (replicate (length pre) Raw).
    split; [lia|]. split; [done|]. split; [by rewrite decide_False by lia|].
    f_equal. do 3 f_equal.
    rewrite take_app_le, drop_app_le by lia.
    rewrite !fmap_app. by rewrite <- !app_assoc.
  - erewrite try_catch_fatal; [done|].
    step ltac:(by eapply get_data_eq). norm.
    eapply bind_fatal. exact Hf.
Qed.


Lemma moved_none xs : (moved_from E <$> take 0 xs) ++ drop 0 xs = xs.
Proof. done. Qed.

(** [Emplace] with a full buffer, under an arbitrary oracle and for any
    element type: what an exception leaves behind. *)
Lemma Emplace_realloc_unwinds_any h o l c this b pre post args v :
  o !! this = Some (MkVector (MkRawMemory (Some b) (length (pre ++ post)))
                      (length (pre ++ post))) →
  0 < length (pre ++ post) →
  h !! b = Some (Live <$> (pre ++ post)) →
  args_value h args = Some v →
  moves_outside (Some b) args →
  doubling_fits (length (pre ++ post)) →
  throw_post
    (λ w', ∃ k, k ≤ length (pre ++ post) ∧
           objs w' = o ∧
           leaked w' = l + (if decide (length pre ≤ k) then length pre else 0) ∧
           heap w' !! b = Some (Live <$> ((moved_from E <$> take k (pre ++ post))
                                          ++ drop k (pre ++ post))) ∧
           dom (heap w') = dom h ∧
           (k ≠ 0 → transfer_by_move E = true ∧
                    is_nothrow_move_constructible E = false))
    (Emplace E this (Ptr (Some b) (length pre)) args (World h o l c)).
Proof.
  intros Ho Hpos Hb Hv Hout Hfit.
  set (n := length (pre ++ post)) in *.
  assert (Hn : n = length pre + length post) by apply length_app.
  set (b' := fresh (dom h)).
  assert (Hfresh : h !! b' = None) by apply fresh_block.
  assert (Hne : b ≠ b') by (intros ->; congruence).
  set (cells0 := replicate (n * 2) (@Raw T)).
  assert (Hnone : ∀ w', objs w' = o → leaked w' = l →
            heap w' !! b = Some (Live <$> (pre ++ post)) → dom (heap w') = dom h →
            ∃ k, k ≤ n ∧ objs w' = o ∧
              leaked w' = l + (if decide (length pre ≤ k) then length pre else 0) ∧
              heap w' !! b = Some (Live <$> ((moved_from E <$> take k (pre ++ post))
                                             ++ drop k (pre ++ post))) ∧
              dom (heap w') = dom h ∧
              (k ≠ 0 → transfer_by_move E = true ∧
                       is_nothrow_move_constructible E = false)).
  { intros w' H1 H2 H3 H4. exists 0. split; [lia|]. split; [done|].
    split; [case_decide; lia|]. split; [done|]. split; [done|]. done. }
  unfold Emplace.
  tstep ltac:(by eapply begin_eq). norm.
  tstep ltac:(by eapply end_eq). norm.
  rewrite !ptr_le_eq.
  replace (_ && _) with true
    by (symmetry; apply andb_true_iff; split; apply Nat.leb_le; lia).
  tstep ltac:(apply assert_true).
  tstep ltac:(by eapply get_size_eq). norm.
  tstep ltac:(by eapply Capacity_eq). norm.
  rewrite Nat.eqb_refl.
  tstep ltac:(by eapply begin_eq). norm.
  tstep ltac:(apply ptr_diff_eq; lia). rewrite Nat.sub_0_r.
  destruct (Nat.eqb_spec n 0) as [?|_]; [lia|].
  rewrite size_t_mul_fits by done.
  pose proof (RawMemory_ctor_cases E h o l c (n * 2) ltac:(lia)
                ltac:(by apply doubling_fits_twice)) as Hctor.
  fold b' in Hctor. fold cells0 in Hctor.
  destruct (throws E OpAlloc c).
  { eapply tp_bind_throw; [exact Hctor|]. by apply Hnone. }
  tstep ltac:(exact Hctor). clear Hctor.
  apply tp_bind_unwinding; [intros; apply Emplace_tail_never_throws|].
  (* the new element *)
  destruct (args_value_fresh h args v b' cells0 Hfresh Hv) as [Hv1 Hout1].
  destruct (Construct_cases E (<[b' := cells0]> h) o l (S c) b' (length pre) cells0 args v)
    as [(h1 & Hcons & Hframe & Hdom)|[Hcons|(f & wf & Hcons)]];
    [apply lookup_insert_eq|apply lookup_replicate_2; lia|done|done| | |].
  2:{ eapply tp_bind_throw; [exact Hcons|].
      eexists. split; [apply Deallocate_eq, lookup_insert_eq|].
      apply Hnone; simpl.
      - done.
      - unfold cells0. by rewrite count_live_raw, Nat.add_0_r.
      - by rewrite lookup_delete_ne, lookup_insert_ne.
      - by rewrite delete_insert_id. }
  2:{ by eapply tp_bind_fatal. }
  assert (Hb1 : h1 !! b = Some (Live <$> (pre ++ post))).
  { rewrite Hframe by by apply moves_outside_frame. by rewrite lookup_insert_ne. }
  set (R := replicate (n * 2 - n - 1) (@Raw T)).
  assert (Hcells1 : <[length pre := Live v]> cells0
            = replicate (length pre) Raw ++ Live v :: replicate (length post) Raw ++ R).
  { unfold cells0. rewrite insert_replicate_raw by lia.
    do 2 f_equal. unfold R. rewrite <- replicate_add. f_equal. lia. }
  rewrite Hcells1 in Hcons.
  tstep ltac:(exact Hcons).
  assert (Hgone1 : dom (delete b' h1) = dom h).
  { rewrite dom_delete_L, Hdom, <- dom_delete_L. by rewrite delete_insert_id. }
  destruct (transfer_by_move E) eqn:Hmv.
  - (* moving *)
    pose proof (Emplace_move_transfer_cases
                  (<[b' := replicate (length pre) Raw ++ Live v
                            :: replicate (length post) Raw ++ R]> h1)
                  o l (S (S c)) this b b' n (n * 2) pre post v R Hmv Hne Ho) as Hcases.
    rewrite Hmv in Hcases.
    rewrite lookup_insert_ne, lookup_insert_eq in Hcases by done.
    specialize (Hcases Hb1 eq_refl).
    match goal with
    | H : throw_post _ ?r |- throw_post _ ?r' => change r' with r; destruct r as [[a| |f] w2]
    end; [done| |done].
    destruct Hcases as (k & c' & front & Hk & Hnt & Hfront & ->). simpl.
    eexists. split; [apply Deallocate_eq, lookup_insert_eq|].
    simpl. exists k. split; [fold n in Hk; lia|]. split; [done|].
    split; [|split; [|split]].
    + rewrite count_live_app, count_live_Raw_cons.
      unfold R. rewrite <- replicate_add, count_live_raw, Nat.add_0_r.
      rewrite Hfront. case_decide.
      * by rewrite count_live_fmap.
      * by rewrite count_live_raw.
    + rewrite lookup_delete_ne by done. rewrite lookup_insert_ne by done.
      by rewrite lookup_insert_eq.
    + rewrite delete_insert_eq.
      rewrite delete_insert_ne by done. rewrite delete_insert_eq.
      rewrite dom_insert_lookup_L; [done|].
      rewrite lookup_delete_ne by done. by rewrite Hb1.
    + done.
  - (* copying *)
    pose proof (Emplace_copy_transfer_cases E
                  (<[b' := replicate (length pre) Raw ++ Live v
                            :: replicate (length post) Raw ++ R]> h1)
                  o l (S (S c)) this b b' n (n * 2) pre post v R Hmv Hne Ho) as Hcases.
    rewrite Hmv in Hcases.
    rewrite lookup_insert_ne, lookup_insert_eq in Hcases by done.
    specialize (Hcases Hb1 eq_refl).
    match goal with
    | H : throw_post _ ?r |- throw_post _ ?r' => change r' with r; destruct r as [[a| |f] w2]
    end; [done| |done].
    destruct Hcases as (c' & ->). simpl.
    eexists. split; [apply Deallocate_eq, lookup_insert_eq|].
    apply Hnone; simpl; rewrite ?insert_insert_eq.
    + done.
    + unfold R. rewrite <- replicate_add, count_live_raw_cons. lia.
    + by rewrite lookup_delete_ne, lookup_insert_ne.
    + by rewrite delete_insert_eq.
Qed.


(** X25. [Emplace] on a full vector that ends in an exception, for any
    element type, for a value that is not moved from an element of the
    vector itself and a doubled capacity whose byte count fits [size_t]:
    the vector keeps its buffer, size and capacity, and the
    new block has been released. For a type that can be copied or has a
    noexcept move constructor nothing else has happened. For a type that
    is moved although its move constructor may throw, the first [k]
    elements are left moved-from; and when the failure comes after the
    [i] elements in front of the position were transferred ([i ≤ k]),
    the handler destroys only the new element, so those [i] objects are
    released together with the new block without being destroyed. *)
Theorem Emplace_failure_on_full_buffer w this buf xs cap i args v w' :
  vec_repr w this buf xs cap →
  length xs = cap → i ≤ length xs →
  args_value (heap w) args = Some v →
  moves_outside buf args →
  doubling_fits cap →
  Emplace E this (Ptr buf i) args w = (Throw, w') →
  ∃ k, k ≤ length xs ∧
       vec_repr w' this buf ((moved_from E <$> take k xs) ++ drop k xs) cap ∧
       dom (heap w') = dom (heap w) ∧
       leaked w' = leaked w + (if decide (i ≤ k) then i else 0) ∧
       (k ≠ 0 → is_copy_constructible E = false ∧
                is_nothrow_move_constructible E = false).
Proof.
  destruct w as [h o l c]. intros (Ho & [Hle Hfits] & Hbuf) Hfull Hi Hv Hout Hfit Hrun.
  simpl in Ho, Hv. subst cap.
  destruct buf as [b|].
  - destruct Hbuf as [Hb Hcap]. simpl in Hb. rewrite cells_of_full in Hb.
    assert (Hpre : length (take i xs) = i) by (rewrite length_take; lia).
    pose proof (Emplace_realloc_unwinds_any h o l c this b (take i xs) (drop i xs) args v)
      as Htp.
    rewrite take_drop, Hpre in Htp.
    destruct (tp_elim _ _ _ _ (Htp Ho Hcap Hb Hv Hout Hfit) Hrun)
      as (k & Hk & Ho' & Hl' & Hb' & Hdom' & Hmv).
    exists k. split; [done|].
    assert (Hlen : length ((moved_from E <$> take k xs) ++ drop k xs) = length xs).
    { rewrite length_app, length_fmap, length_take, length_drop. lia. }
    split; [|split; [done|split; [done|]]].
    + split; [by rewrite Ho', Hlen|]. rewrite Hlen. split; [done|].
      split; [|done]. rewrite Hb'. f_equal.
      rewrite <- Hlen. by rewrite cells_of_full.
    + intros Hk0. apply moved_needs_move_only. by apply Hmv.
  - destruct xs as [|x xs]; [|done]. simpl in Hi. assert (i = 0) as -> by lia.
    destruct (tp_elim _ _ _ _ (Emplace_empty_unwinds E h o l c this args v Ho Hv Hfit) Hrun)
      as (Ho' & Hl' & Hdom').
    exists 0. split; [done|].
    split; [|split; [done|split; [simpl; lia|done]]].
    split; [by rewrite Ho'|split; done].
Qed.

End EmplaceMoving.

Section Storage.
Context {T : Type} {sT : SizeOf T} (E : env T).
Implicit Types (w : world T) (h : gmap nat (list (cell T))) (o : gmap nat Vector).

(** X27. The lifetime of a [RawMemory]. For capacity 0 the constructor
    requests nothing and the destructor releases nothing. Otherwise the
    constructor makes one call of [operator new]: when that throws, the
    store is as before; when it returns, the object records the requested
    capacity and owns a block that was not in the free store before, of
    exactly [capacity] raw slots when the byte count
    [capacity * sizeof(T)] fits [size_t] and of fewer slots when that
    product wraps; every other block is untouched, and destroying the
    object gives back the free store exactly as it was before the
    construction, with no object lost. *)
Theorem RawMemory_lifetime w n :
  RawMemory_ctor E 0 w = (Ret RawMemory_default, w) ∧
  RawMemory_dtor RawMemory_default w = (Ret tt, w) ∧
  (n ≠ 0 →
   if throws E OpAlloc (clock w)
   then ∃ w1, RawMemory_ctor E n w = (Throw, w1) ∧
              heap w1 = heap w ∧ objs w1 = objs w ∧ leaked w1 = leaked w
   else ∃ b cells w1 w',
          RawMemory_ctor E n w = (Ret (MkRawMemory (Some b) n), w1) ∧
          heap w !! b = None ∧
          heap w1 !! b = Some (replicate cells Raw) ∧
          (alloc_fits n → cells = n) ∧
          (¬ alloc_fits n → cells < n) ∧
          (∀ b0, b0 ≠ b → heap w1 !! b0 = heap w !! b0) ∧
          objs w1 = objs w ∧ clock w1 = S (clock w) ∧
          RawMemory_dtor (MkRawMemory (Some b) n) w1 = (Ret tt, w') ∧
          heap w' = heap w ∧ objs w' = objs w ∧ leaked w' = leaked w).
Proof.
  destruct w as [h o l c]. split; [done|]. split; [done|].
  intros Hn. simpl. rewrite (RawMemory_ctor_cases_cells E h o l c n Hn).
  destruct (throws E OpAlloc c).
  - by eexists.
  - exists (fresh (dom h)), (alloc_cells n). do 2 eexists.
    split; [done|]. split; [apply fresh_block|].
    split; [apply lookup_insert_eq|].
    split; [apply alloc_cells_fits|].
    split; [apply alloc_cells_wrapped|].
    split; [by intros b0 Hb0; apply lookup_insert_ne|].
    split; [done|]. split; [done|].
    split; [apply Deallocate_eq, lookup_insert_eq|]. simpl.
    rewrite count_live_raw, Nat.add_0_r.
    split; [|done]. apply delete_insert_id, fresh_block.
Qed.

End Storage.

(** * The claims *)

Section Claims.
Context {T : Type} {sT : SizeOf T} (E : env T).
Implicit Types (w : world T) (h : gmap nat (list (cell T))) (o : gmap nat Vector).
Implicit Types (cells : list (cell T)) (xs ys vs : list T) (args : ctor_args T).

Lemma inserted_list_facts xs i (v : T) :
  i ≤ length xs →
  length (take i xs ++ v :: drop i xs) = length xs + 1 ∧
  (∀ j, j < i → (take i xs ++ v :: drop i xs) !! j = xs !! j) ∧
  (take i xs ++ v :: drop i xs) !! i = Some v ∧
  (∀ j, i ≤ j → (take i xs ++ v :: drop i xs) !! S j = xs !! j).
Proof.
  intros Hi.
  assert (Hpre : length (take i xs) = i) by (rewrite length_take; lia).
  split; [|split; [|split]].
  - rewrite length_app, Hpre. simpl. rewrite length_drop. lia.
  - intros j Hj. rewrite lookup_app_l by lia. by apply lookup_take_lt.
  - rewrite lookup_app_r by lia. by rewrite Hpre, Nat.sub_diag.
  - intros j Hj. rewrite lookup_app_r by lia. rewrite Hpre.
    replace (S j - i) with (S (j - i)) by lia. simpl.
    rewrite lookup_drop. f_equal. lia.
Qed.

(** C1, amended. [Emplace], [Insert] of a copy and [Insert] of a moved
    value at a position [i] of [begin(), end()] of a vector holding [xs],
    when no operation throws, the value is not moved from an element of
    the vector itself and, on a full buffer, the byte count of the doubled
    capacity fits [size_t]: the size grows by exactly one, the elements
    before [i] are as before, the new value is at [i], every element that
    was at [j >= i] is at [j + 1], and the iterator returned designates the
    new element. The capacity [cap] is arbitrary, so this covers the full
    buffer, which reallocates, and the buffer with a free slot. A value
    that is copied may be an element of the vector itself. *)
Theorem Emplace_inserts_at_position w this buf xs cap i :
  no_throw E →
  vec_repr w this buf xs cap →
  i ≤ length xs →
  (length xs = cap → doubling_fits cap) →
  (∀ args v,
      args_value (heap w) args = Some v → moves_outside buf args →
      inserts_at w this xs i v (Emplace E this (Ptr buf i) args)) ∧
  (∀ value v,
      operand_value (heap w) value = Some v →
      inserts_at w this xs i v (Insert_copy E this (Ptr buf i) value)) ∧
  (∀ value v,
      operand_value (heap w) value = Some v → moves_outside buf (MoveOf value) →
      inserts_at w this xs i v (Insert_move E this (Ptr buf i) value)).
Proof.
  intros HE Hrepr Hi Hfit.
  assert (Hemp : ∀ args v,
      args_value (heap w) args = Some v → moves_outside buf args →
      inserts_at w this xs i v (Emplace E this (Ptr buf i) args)).
  { intros args v Hv Hout.
    destruct (Emplace_ok E w this buf xs cap i args v HE Hrepr Hi Hv Hout Hfit)
      as (buf' & w' & Hrun & Hrepr' & _ & _).
    destruct (inserted_list_facts xs i v Hi) as (Hlen & Hbefore & Hat & Hafter).
    exists buf', w', (take i xs ++ v :: drop i xs). eexists.
    split; [exact Hrun|]. split; [exact Hrepr'|].
    split; [done|]. split; [done|]. split; [done|]. split; [done|].
    destruct w' as [h' o' l' c']. destruct Hrepr' as (_ & [Hle Hfits] & Hbuf').
    destruct buf' as [b'|]; [|rewrite Hlen in Hle; lia].
    destruct Hbuf' as [Hb' _]. eapply load_eq; [exact Hb'|].
    by apply cells_of_lookup_live. }
  split; [exact Hemp|]. split.
  - intros value v Hv. unfold Insert_copy. by apply Hemp.
  - intros value v Hv Hout. unfold Insert_move. by apply Hemp.
Qed.

End Claims.

Section Claims2.
Context {T : Type} {sT : SizeOf T} (E : env T).
Implicit Types (w : world T) (h : gmap nat (list (cell T))) (o : gmap nat Vector).
Implicit Types (cells : list (cell T)) (xs ys vs : list T) (args : ctor_args T).

(** C2, amended. For an element type that is copy-constructible or whose
    move constructor is noexcept, so that the transfer to the new block
    copies or cannot throw: when [Reserve] ends in an exception, or when
    [Emplace], [Insert], [EmplaceBack] or [PushBack] on a full buffer
    does, for a value that is not moved from an element of the vector
    itself and a doubled capacity whose byte count fits [size_t], the
    vector has the same buffer, size, capacity and elements as before the
    call, no object constructed in the new block is lost ([leaked] is
    unchanged), and the new block has been released. *)
Theorem growth_failure_leaves_vector_unchanged w this buf xs cap :
  is_nothrow_move_constructible E = true ∨ is_copy_constructible E = true →
  vec_repr w this buf xs cap →
  (∀ n w', Reserve E this n w = (Throw, w') → unchanged w w' this buf xs cap) ∧
  (length xs = cap → doubling_fits cap →
   (∀ i args v w',
       i ≤ length xs →
       args_value (heap w) args = Some v → moves_outside buf args →
       Emplace E this (Ptr buf i) args w = (Throw, w') →
       unchanged w w' this buf xs cap) ∧
   (∀ i value v w',
       i ≤ length xs →
       operand_value (heap w) value = Some v →
       Insert_copy E this (Ptr buf i) value w = (Throw, w') →
       unchanged w w' this buf xs cap) ∧
   (∀ i value v w',
       i ≤ length xs →
       operand_value (heap w) value = Some v → moves_outside buf (MoveOf value) →
       Insert_move E this (Ptr buf i) value w = (Throw, w') →
       unchanged w w' this buf xs cap) ∧
   (∀ args v w',
       args_value (heap w) args = Some v → moves_outside buf args →
       EmplaceBack E this args w = (Throw, w') →
       unchanged w w' this buf xs cap) ∧
   (∀ value v w',
       operand_value (heap w) value = Some v →
       PushBack_copy E this value w = (Throw, w') →
       unchanged w w' this buf xs cap) ∧
   (∀ value v w',
       operand_value (heap w) value = Some v → moves_outside buf (MoveOf value) →
       PushBack_move E this value w = (Throw, w') →
       unchanged w w' this buf xs cap)).
Proof.
  intros Htraits Hrepr. split.
  - intros n w' Hrun.
    destruct (Reserve_throw E w this buf xs cap n w' Hrepr Htraits Hrun)
      as (Hh & Ho & Hl).
    split; [|split; [done|by rewrite Hh]].
    destruct Hrepr as (Ho0 & [Hle Hfits] & Hbuf).
    split; [by rewrite Ho|split; [done|]]. by rewrite Hh.
  - intros Hfull Hfit.
    assert (Hemp : ∀ i args v w',
       i ≤ length xs →
       args_value (heap w) args = Some v → moves_outside buf args →
       Emplace E this (Ptr buf i) args w = (Throw, w') →
       unchanged w w' this buf xs cap).
    { intros i args v w' Hi Hv Hout Hrun. by eapply Emplace_unwinds. }
    assert (Hback : ∀ args v w',
       args_value (heap w) args = Some v → moves_outside buf args →
       EmplaceBack E this args w = (Throw, w') →
       unchanged w w' this buf xs cap).
    { intros args v w' Hv Hout Hrun. by eapply EmplaceBack_throw. }
    split; [exact Hemp|]. split; [|split; [|split; [exact Hback|split]]].
    + intros i value v w' Hi Hv Hrun. by eapply (Hemp i (CopyOf value)).
    + intros i value v w' Hi Hv Hout Hrun. by eapply (Hemp i (MoveOf value)).
    + intros value v w' Hv Hrun. eapply (Hback (CopyOf value)); [done|done|].
      by apply PushBack_copy_throw_inv.
    + intros value v w' Hv Hout Hrun. eapply (Hback (MoveOf value)); [done|done|].
      by apply PushBack_move_throw_inv.
Qed.

(** C3. An insertion that finds the size equal to the capacity, be it
    [Emplace], [Insert] of a copy or of a moved value, [EmplaceBack], or
    [PushBack] of a copy or of a moved value, leaves the
    capacity at [max(1, 2 * old capacity)]; and [PushBack] of the values
    [vs] in turn into an empty vector takes, after the k-th call, the
    capacity [pow2_ceil k], the least power of two that is at least [k]:
    1, 2, 4, 4, 8, ... up to the least power of two that is at least the
    number of values. *)
Theorem capacity_doubles this :
  no_throw E →
  (∀ w buf xs cap,
      vec_repr w this buf xs cap → length xs = cap → doubling_fits cap →
      (∀ i args v,
          i ≤ length xs → args_value (heap w) args = Some v →
          ∃ p w', Emplace E this (Ptr buf i) args w = (Ret p, w') ∧
                  Capacity this w' = (Ret (Nat.max 1 (2 * cap)), w')) ∧
      (∀ i value v,
          i ≤ length xs → operand_value (heap w) value = Some v →
          ∃ p w', Insert_copy E this (Ptr buf i) value w = (Ret p, w') ∧
                  Capacity this w' = (Ret (Nat.max 1 (2 * cap)), w')) ∧
      (∀ i value v,
          i ≤ length xs → operand_value (heap w) value = Some v →
          ∃ p w', Insert_move E this (Ptr buf i) value w = (Ret p, w') ∧
                  Capacity this w' = (Ret (Nat.max 1 (2 * cap)), w')) ∧
      (∀ args v,
          args_value (heap w) args = Some v →
          ∃ p w', EmplaceBack E this args w = (Ret p, w') ∧
                  Capacity this w' = (Ret (Nat.max 1 (2 * cap)), w')) ∧
      (∀ value v,
          operand_value (heap w) value = Some v →
          ∃ w', PushBack_copy E this value w = (Ret tt, w') ∧
                Capacity this w' = (Ret (Nat.max 1 (2 * cap)), w')) ∧
      (∀ value v,
          operand_value (heap w) value = Some v →
          ∃ w', PushBack_move E this value w = (Ret tt, w') ∧
                Capacity this w' = (Ret (Nat.max 1 (2 * cap)), w'))) ∧
  (∀ w vs,
      vec_repr w this None [] 0 → doubling_fits (length vs) →
      ∃ buf' w', push_backs E this vs w
                 = (Ret (pow2_ceil <$> seq 1 (length vs)), w') ∧
                 vec_repr w' this buf' vs
                   (if decide (length vs = 0) then 0 else pow2_ceil (length vs))) ∧
  (∀ k, k ≤ pow2_ceil k ∧ ∀ j, k ≤ 2 ^ j → pow2_ceil k ≤ 2 ^ j).
Proof.
  intros HE. split; [|split].
  - intros w buf xs cap Hrepr Hfull Hfit.
    assert (Hemp : ∀ i args v,
        i ≤ length xs → args_value (heap w) args = Some v →
        ∃ p w', Emplace E this (Ptr buf i) args w = (Ret p, w') ∧
                Capacity this w' = (Ret (Nat.max 1 (2 * cap)), w')).
    { intros i args v Hi Hv.
      destruct (Emplace_full E w this buf xs cap i args v HE Hrepr Hfull Hi Hv Hfit)
        as (buf' & xs' & w' & Hrun & Hrepr' & _).
      exists (Ptr buf' i), w'. split; [done|].
      destruct w' as [h' o' l' c']. destruct Hrepr' as (Ho' & _).
      simpl in Ho'. by rewrite (Capacity_eq _ _ _ _ _ _ Ho'). }
    assert (Hback : ∀ args v,
        args_value (heap w) args = Some v →
        ∃ p w', EmplaceBack E this args w = (Ret p, w') ∧
                Capacity this w' = (Ret (Nat.max 1 (2 * cap)), w')).
    { intros args v Hv.
      rewrite (EmplaceBack_as_Emplace E w this buf xs cap args Hrepr).
      by eapply Hemp. }
    split; [exact Hemp|]. split; [|split; [|split; [exact Hback|split]]].
    + intros i value v Hi Hv. by eapply (Hemp i (CopyOf value)).
    + intros i value v Hi Hv. by eapply (Hemp i (MoveOf value)).
    + intros value v Hv.
      destruct (Hback (CopyOf value) v Hv) as (p & w' & Hrun & Hcap).
      exists w'. split; [|done]. unfold PushBack_copy. by rewrite (bind_ret _ _ _ _ _ Hrun).
    + intros value v Hv.
      destruct (Hback (MoveOf value) v Hv) as (p & w' & Hrun & Hcap).
      exists w'. split; [|done]. unfold PushBack_move. by rewrite (bind_ret _ _ _ _ _ Hrun).
  - intros w vs Hrepr Hfit.
    by destruct (push_backs_ok E vs w this None [] 0 HE Hrepr eq_refl Hfit)
      as (buf' & w' & Hrun & Hrepr'); eauto.
  - intros k. split; [apply pow2_ceil_ge|apply pow2_ceil_least].
Qed.

(** C5, the part that holds, and the part that fails. In a debug build,
    for an index from the size up to the capacity, the mutable
    [operator[]] stops at its assertion, and the const [operator[]]
    returns a reference to the raw cell: it only has the assertion of
    [RawMemory], which compares the index with the capacity. *)
Theorem const_index_checks_capacity_only h o l c this buf cap sz index :
  ndebug E = false →
  o !! this = Some (MkVector (MkRawMemory buf cap) sz) →
  sz ≤ index → index < cap →
  index_mut E this index (World h o l c) = (Fatal AssertionFailed, World h o l c) ∧
  index_const E this index (World h o l c) = (Ret (Ptr buf index), World h o l c).
Proof.
  intros Hdebug Ho Hge Hlt. split.
  - unfold index_mut, noexcept, try_catch.
    rewrite (bind_ret _ _ _ _ _ (get_size_eq _ _ _ _ _ _ Ho)). simpl.
    destruct (Nat.ltb_spec index sz); [lia|].
    by rewrite (bind_fatal _ _ _ _ _ (assert_false_debug E _ Hdebug)).
  - unfold index_const. apply noexcept_ret.
    step ltac:(by eapply get_data_eq). simpl.
    unfold RawMemory_index_const, RawMemory_index. simpl.
    destruct (Nat.ltb_spec index cap); [|lia].
    step ltac:(apply assert_true). reflexivity.
Qed.

(** C7. Copy construction from a vector holding [xs], when no operation
    throws: the new vector has size and capacity [length xs], whatever the
    capacity of the source, and holds [xs]; the source is as before; and
    assigning to an element of either one leaves the other as it is. *)
Theorem copy_is_equal_and_independent w this other buf xs cap :
  no_throw E →
  vec_repr w other buf xs cap → this ≠ other →
  ∃ buf' w',
    Vector_copy E this other w = (Ret tt, w') ∧
    vec_repr w' this buf' xs (length xs) ∧
    vec_repr w' other buf xs cap ∧
    (∀ j x, j < length xs →
        ∃ w'', assign_at E this j x w' = (Ret tt, w'') ∧
               vec_repr w'' this buf' (<[j := x]> xs) (length xs) ∧
               vec_repr w'' other buf xs cap) ∧
    (∀ j x, j < length xs →
        ∃ w'', assign_at E other j x w' = (Ret tt, w'') ∧
               vec_repr w'' other buf (<[j := x]> xs) cap ∧
               vec_repr w'' this buf' xs (length xs)).
Proof.
  intros HE Hrepr Hne.
  destruct (Vector_copy_ok E w this other buf xs cap HE Hrepr Hne)
    as (buf' & w' & Hrun & Hthis & Hother & Hdiff & _).
  exists buf', w'. split; [done|]. split; [done|]. split; [done|].
  assert (Hsome : ∀ j, j < length xs → buf' ≠ buf).
  { intros j Hj. apply Hdiff. destruct Hthis as (_ & _ & Hb).
    destruct buf'; [done|lia]. }
  split; intros j x Hj.
  - destruct (assign_at_ok E w' this buf' xs (length xs) j x HE Hthis Hj)
      as (w'' & Hrun' & Hthis' & Hframe).
    exists w''. split; [done|]. split; [done|].
    apply Hframe; [done|]. intros ->. by eapply Hsome.
  - destruct (assign_at_ok E w' other buf xs cap j x HE Hother Hj)
      as (w'' & Hrun' & Hother' & Hframe).
    exists w''. split; [done|]. split; [done|].
    apply Hframe; [done|]. by eapply Hsome.
Qed.


(** C9. [Erase] at a position [i] of [begin(), end())] of a vector holding
    [xs], when no operation throws: the element at [i] is gone and the
    others keep their order, the size is one less, the last slot that was
    live is raw again, one move assignment was made for each element
    behind [i], and the iterator returned is the position [i]. And when
    the element type's move assignment is noexcept, no call of [Erase]
    ends in an exception. *)
Theorem Erase_removes_one_element w this buf xs cap i :
  vec_repr w this buf xs cap →
  i < length xs →
  (no_throw E →
     ∃ w', Erase E this (Ptr buf i) w = (Ret (Ptr buf i), w') ∧
           vec_repr w' this buf (take i xs ++ drop (S i) xs) cap ∧
           length (take i xs ++ drop (S i) xs) = length xs - 1 ∧
           clock w' = clock w + (length xs - S i)) ∧
  (is_nothrow_move_assignable E = true →
     ∀ pos w0 w1, Erase E this pos w0 ≠ (Throw, w1)).
Proof.
  intros Hrepr Hi. split.
  - intros HE.
    destruct (Erase_ok E w this buf xs cap i HE Hrepr Hi)
      as (w' & Hrun & Hrepr' & Hclock & _).
    exists w'. split; [done|]. split; [done|]. split; [|done].
    rewrite length_app, length_take, length_drop. lia.
  - intros Hna pos w0 w1. unfold Erase. rewrite Hna.
    apply noexcept_true_no_throw.
Qed.

(** C10. Copy assignment and move assignment of a vector to itself both
    return at once and leave the whole store, and so the vector's size,
    capacity and elements, as they were. *)
Theorem self_assignment_changes_nothing this w :
  copy_assignment E this this w = (Ret tt, w) ∧
  move_assignment this this w = (Ret tt, w).
Proof.
  unfold copy_assignment, move_assignment.
  rewrite Nat.eqb_refl. split; reflexivity.
Qed.

End Claims2.

(** ** The claims at concrete vectors *)

Lemma plain_ints_no_throw : no_throw plain_ints.
Proof. intros k n. reflexivity. Qed.

Lemma w_123_repr : vec_repr w_123 7 (Some 0) [1; 2; 3] 4.
Proof. repeat split; simpl; lia. Qed.

Lemma w_full_repr : vec_repr w_full 7 (Some 0) [1; 2; 3] 3.
Proof. repeat split; simpl; lia. Qed.

Lemma w_empty_repr : vec_repr w_empty 7 None [] 0.
Proof. repeat split; simpl; lia. Qed.

Lemma Emplace_inserts_at_position_witness :
  inserts_at w_123 7 [1; 2; 3] 1 99
    (Emplace plain_ints 7 (Ptr (Some 0) 1) (CopyOf (Ext 99))) ∧
  inserts_at w_full 7 [1; 2; 3] 1 2
    (Insert_copy plain_ints 7 (Ptr (Some 0) 1) (Cell (Ptr (Some 0) 1))) ∧
  inserts_at w_full 7 [1; 2; 3] 0 99
    (Insert_move plain_ints 7 (Ptr (Some 0) 0) (Ext 99)).
Proof.
  split; [|split].
  - apply (proj1 (Emplace_inserts_at_position plain_ints w_123 7 (Some 0) [1; 2; 3] 4 1
                    plain_ints_no_throw w_123_repr ltac:(simpl; lia) ltac:(simpl; lia))).
    + reflexivity.
    + exact I.
  - apply (proj1 (proj2 (Emplace_inserts_at_position plain_ints w_full 7 (Some 0)
                           [1; 2; 3] 3 1 plain_ints_no_throw w_full_repr
                           ltac:(simpl; lia)
                           ltac:(intros _; vm_compute; reflexivity)))).
    reflexivity.
  - apply (proj2 (proj2 (Emplace_inserts_at_position plain_ints w_full 7 (Some 0)
                           [1; 2; 3] 3 0 plain_ints_no_throw w_full_repr
                           ltac:(simpl; lia)
                           ltac:(intros _; vm_compute; reflexivity)))).
    + reflexivity.
    + exact I.
Defined.

(** C1 as stated fails for a value moved from an element of the vector
    itself: [v.Insert(v.begin(), std::move(v[2]))] on [1; 2; 3] with a
    free slot first moves [v[2]] into a temporary, so that the element
    shifted to the last position is the moved-from one; the vector ends as
    [3; 1; 2; moved-from], and the value 3 that was at index 2 is not at
    index 3. *)
Theorem Insert_moved_from_own_element :
  vec_repr w_123 7 (Some 0) [1; 2; 3] 4 ∧
  operand_value (heap w_123) (Cell (Ptr (Some 0) 2)) = Some 3 ∧
  ∃ w',
    Insert_move plain_ints 7 (Ptr (Some 0) 0) (Cell (Ptr (Some 0) 2)) w_123
    = (Ret (Ptr (Some 0) 0), w') ∧
    contents w' 7 = Some [3; 1; 2; moved_from plain_ints 3] ∧
    ¬ inserts_at w_123 7 [1; 2; 3] 0 3
        (Insert_move plain_ints 7 (Ptr (Some 0) 0) (Cell (Ptr (Some 0) 2))).
Proof.
  split; [exact w_123_repr|]. split; [reflexivity|].
  eexists. split; [vm_compute; reflexivity|].
  split; [vm_compute; reflexivity|].
  intros (buf' & w' & ys & cap' & Hrun & Hrepr & _ & _ & _ & Hafter & _).
  assert (Hc : contents w' 7 = Some ys) by (by eapply vec_repr_inv).
  assert (Hw : w' = snd (Insert_move plain_ints 7 (Ptr (Some 0) 0)
                           (Cell (Ptr (Some 0) 2)) w_123)) by (by rewrite Hrun).
  rewrite Hw in Hc. vm_compute in Hc. injection Hc as <-.
  specialize (Hafter 2 ltac:(lia)). vm_compute in Hafter. discriminate Hafter.
Qed.

Lemma growth_failure_leaves_vector_unchanged_witness :
  (fst (Reserve (copy_throws_at 2) 7 10 w_full) = Throw ∧
   unchanged w_full (snd (Reserve (copy_throws_at 2) 7 10 w_full))
     7 (Some 0) [1; 2; 3] 3) ∧
  (fst (Emplace (copy_throws_at 4) 7 (Ptr (Some 0) 1) (Args 9) w_full) = Throw ∧
   unchanged w_full (snd (Emplace (copy_throws_at 4) 7 (Ptr (Some 0) 1) (Args 9) w_full))
     7 (Some 0) [1; 2; 3] 3) ∧
  (fst (PushBack_copy (copy_throws_at 2) 7 (Ext 9) w_full) = Throw ∧
   unchanged w_full (snd (PushBack_copy (copy_throws_at 2) 7 (Ext 9) w_full))
     7 (Some 0) [1; 2; 3] 3).
Proof.
  split; [|split].
  - split; [vm_compute; reflexivity|].
    apply (proj1 (growth_failure_leaves_vector_unchanged (copy_throws_at 2)
                    w_full 7 (Some 0) [1; 2; 3] 3
                    (or_intror eq_refl) w_full_repr) 10).
    vm_compute. reflexivity.
  - split; [vm_compute; reflexivity|].
    apply (proj1 (proj2 (growth_failure_leaves_vector_unchanged (copy_throws_at 4)
                           w_full 7 (Some 0) [1; 2; 3] 3
                           (or_intror eq_refl) w_full_repr)
                    eq_refl ltac:(vm_compute; reflexivity)) 1 (Args 9) 9).
    + simpl. lia.
    + reflexivity.
    + exact I.
    + vm_compute. reflexivity.
  - split; [vm_compute; reflexivity|].
    apply (proj1 (proj2 (proj2 (proj2 (proj2 (proj2
             (growth_failure_leaves_vector_unchanged (copy_throws_at 2)
                w_full 7 (Some 0) [1; 2; 3] 3
                (or_intror eq_refl) w_full_repr)
             eq_refl ltac:(vm_compute; reflexivity)))))) (Ext 9) 9).
    + reflexivity.
    + vm_compute. reflexivity.
Defined.

(** C2 as stated fails in three ways. For a move-only type whose move
    constructor throws, [Reserve] moves the first element, the second
    move throws, and the first element of the vector is left moved-from.
    For the same type, [Emplace] at index 1 of a full vector moves the
    first element into the new block, the next move throws, and the
    handler destroys only the new element: the new block is released with
    the moved element still alive in it, and the vector is left with a
    moved-from first element. And for a copyable type, [Insert] of a
    value moved from the first element of the full vector itself moves it
    into the new block before the copies start; when a copy throws, the
    first element is left moved-from. *)
Theorem growth_failure_changes_move_only_elements :
  contents w_full 7 = Some [1; 2; 3] ∧ leaked w_full = 0 ∧
  (fst (Reserve (move_only_throws_at 2) 7 10 w_full) = Throw ∧
   contents (snd (Reserve (move_only_throws_at 2) 7 10 w_full)) 7 = Some [0; 2; 3]) ∧
  (fst (Emplace (move_only_throws_at 3) 7 (Ptr (Some 0) 1) (Args 9) w_full) = Throw ∧
   contents (snd (Emplace (move_only_throws_at 3) 7 (Ptr (Some 0) 1) (Args 9) w_full)) 7
   = Some [0; 2; 3] ∧
   leaked (snd (Emplace (move_only_throws_at 3) 7 (Ptr (Some 0) 1) (Args 9) w_full)) = 1) ∧
  (is_copy_constructible (copy_throws_at 2) = true ∧
   fst (Insert_move (copy_throws_at 2) 7 (Ptr (Some 0) 1) (Cell (Ptr (Some 0) 0)) w_full)
   = Throw ∧
   contents (snd (Insert_move (copy_throws_at 2) 7 (Ptr (Some 0) 1)
                    (Cell (Ptr (Some 0) 0)) w_full)) 7
   = Some [0; 2; 3]).
Proof. repeat split; vm_compute; reflexivity. Qed.

Lemma capacity_doubles_witness :
  (∃ w', PushBack_move plain_ints 7 (Cell (Ptr (Some 0) 0)) w_full = (Ret tt, w') ∧
         Capacity 7 w' = (Ret 6, w')) ∧
  (∃ p w', Insert_copy plain_ints 7 (Ptr None 0) (Ext 5) w_empty = (Ret p, w') ∧
           Capacity 7 w' = (Ret 1, w')) ∧
  (∃ buf' w',
    push_backs plain_ints 7 [10; 20; 30; 40; 50] w_empty = (Ret [1; 2; 4; 4; 8], w') ∧
    vec_repr w' 7 buf' [10; 20; 30; 40; 50] 8).
Proof.
  split; [|split].
  - apply (proj2 (proj2 (proj2 (proj2 (proj2
             (proj1 (capacity_doubles plain_ints 7 plain_ints_no_throw)
                w_full (Some 0) [1; 2; 3] 3 w_full_repr eq_refl
                ltac:(vm_compute; reflexivity)))))) (Cell (Ptr (Some 0) 0)) 1).
    reflexivity.
  - apply (proj1 (proj2
             (proj1 (capacity_doubles plain_ints 7 plain_ints_no_throw)
                w_empty None [] 0 w_empty_repr eq_refl
                ltac:(vm_compute; reflexivity))) 0 (Ext 5) 5).
    + simpl. lia.
    + reflexivity.
  - apply (proj1 (proj2 (capacity_doubles plain_ints 7 plain_ints_no_throw))
             w_empty [10; 20; 30; 40; 50]).
    + exact w_empty_repr.
    + vm_compute. reflexivity.
Defined.

Lemma const_index_checks_capacity_only_witness :
  index_mut plain_ints 7 2 w_12 = (Fatal AssertionFailed, w_12) ∧
  index_const plain_ints 7 2 w_12 = (Ret (Ptr (Some 0) 2), w_12).
Proof.
  apply (const_index_checks_capacity_only plain_ints _ _ 0 0 7 (Some 0) 4 2 2).
  - reflexivity.
  - reflexivity.
  - lia.
  - lia.
Defined.

Lemma copy_is_equal_and_independent_witness :
  ∃ buf' w',
    Vector_copy plain_ints 8 7 w_123 = (Ret tt, w') ∧
    vec_repr w' 8 buf' [1; 2; 3] 3 ∧
    vec_repr w' 7 (Some 0) [1; 2; 3] 4 ∧
    (∀ j x, j < 3 →
        ∃ w'', assign_at plain_ints 8 j x w' = (Ret tt, w'') ∧
               vec_repr w'' 8 buf' (<[j := x]> [1; 2; 3]) 3 ∧
               vec_repr w'' 7 (Some 0) [1; 2; 3] 4) ∧
    (∀ j x, j < 3 →
        ∃ w'', assign_at plain_ints 7 j x w' = (Ret tt, w'') ∧
               vec_repr w'' 7 (Some 0) (<[j := x]> [1; 2; 3]) 4 ∧
               vec_repr w'' 8 buf' [1; 2; 3] 3).
Proof.
  apply (copy_is_equal_and_independent plain_ints w_123 8 7 (Some 0) [1; 2; 3] 4).
  - exact plain_ints_no_throw.
  - exact w_123_repr.
  - lia.
Defined.



Lemma Erase_removes_one_element_witness :
  (∃ w', Erase plain_ints 7 (Ptr (Some 0) 0) w_123 = (Ret (Ptr (Some 0) 0), w') ∧
         vec_repr w' 7 (Some 0) [2; 3] 4 ∧
         length [2; 3] = 3 - 1 ∧
         clock w' = clock w_123 + 2) ∧
  (∀ pos w0 w1, Erase plain_ints 7 pos w0 ≠ (Throw, w1)).
Proof.
  destruct (Erase_removes_one_element plain_ints w_123 7 (Some 0) [1; 2; 3] 4 0
              w_123_repr) as [H1 H2].
  - simpl. lia.
  - split; [exact (H1 plain_ints_no_throw)|exact (H2 eq_refl)].
Defined.

(** C4, at a vector holding [1; 2] with room for four, for a type whose
    first move assignment throws: [Emplace(begin(), 9)] destroys the slot
    it constructed at the end, but then returns normally instead of
    letting the exception out, with the size raised to three while the
    third cell is raw; the element 2 is lost. *)
Theorem Emplace_swallows_shift_failure :
  ∃ w',
    Emplace (move_assign_throws_at 2) 7 (Ptr (Some 0) 0) (Args 9) w_12
    = (Ret (Ptr (Some 0) 0), w') ∧
    heap w' !! 0 = Some [Live 9; Live 0; Raw; Raw] ∧
    objs w' !! 7 = Some (MkVector (MkRawMemory (Some 0) 4) 3) ∧
    contents w' 7 = None.
Proof.
  eexists. split; [vm_compute; reflexivity|].
  split; [vm_compute; reflexivity|].
  split; vm_compute; reflexivity.
Qed.

(** C6, at the same vector: the representation invariant holds before
    [Emplace(begin(), 9)] and fails after it, both when the call returns
    after a move assignment threw while shifting, and when the last move
    assignment throws and the slot constructed at the end stays live
    beyond the size. *)
Theorem Emplace_breaks_representation_invariant :
  vec_inv w_12 7 = true ∧
  (∃ p w',
      Emplace (move_assign_throws_at 2) 7 (Ptr (Some 0) 0) (Args 9) w_12 = (Ret p, w') ∧
      vec_inv w' 7 = false) ∧
  (∃ w',
      Emplace (move_assign_throws_at 3) 7 (Ptr (Some 0) 0) (Args 9) w_12 = (Throw, w') ∧
      heap w' !! 0 = Some [Live 0; Live 1; Live 2; Raw] ∧
      objs w' !! 7 = Some (MkVector (MkRawMemory (Some 0) 4) 2) ∧
      vec_inv w' 7 = false).
Proof.
  split; [reflexivity|]. split.
  - eexists _, _. split; vm_compute; reflexivity.
  - eexists. split; [vm_compute; reflexivity|].
    split; [vm_compute; reflexivity|].
    split; vm_compute; reflexivity.
Qed.

(** ** The further properties at concrete vectors *)

Lemma w_two_repr_7 : vec_repr w_two 7 (Some 0) [1; 2; 3] 4.
Proof. repeat split; simpl; lia. Qed.

Lemma w_two_repr_8 : vec_repr w_two 8 (Some 1) [4; 5] 2.
Proof. repeat split; simpl; lia. Qed.

Lemma Resize_truncates_or_pads_witness :
  ∃ buf' w',
    Resize plain_ints 7 5 w_123 = (Ret tt, w') ∧
    vec_repr w' 7 buf' [1; 2; 3; 0; 0] 5 ∧
    (5 ≤ 4 → buf' = Some 0) ∧
    leaked w' = leaked w_123 ∧
    clock w' = clock w_123 + 4 + 2.
Proof.
  apply (Resize_truncates_or_pads plain_ints w_123 7 (Some 0) [1; 2; 3] 4 5
           plain_ints_no_throw w_123_repr).
  vm_compute. reflexivity.
Defined.

Lemma Vector_sized_value_initializes_witness :
  ∃ buf' w',
    Vector_sized plain_ints 9 3 w_123 = (Ret tt, w') ∧
    vec_repr w' 9 buf' [0; 0; 0] 3 ∧
    (3 = 0 → buf' = None) ∧
    (∀ b0, Some b0 ≠ buf' → heap w' !! b0 = heap w_123 !! b0) ∧
    (∀ that, that ≠ 9 → objs w' !! that = objs w_123 !! that) ∧
    clock w' = clock w_123 + 4.
Proof.
  apply (Vector_sized_value_initializes plain_ints w_123 9 3 plain_ints_no_throw).
  vm_compute. reflexivity.
Defined.

Lemma Swap_exchanges_buffers_witness :
  (7 ≠ 8 →
   ∃ w', Swap 7 8 w_two = (Ret tt, w') ∧
         vec_repr w' 7 (Some 1) [4; 5] 2 ∧ vec_repr w' 8 (Some 0) [1; 2; 3] 4 ∧
         heap w' = heap w_two ∧ clock w' = clock w_two ∧ leaked w' = leaked w_two ∧
         Swap 7 8 w' = (Ret tt, w_two)) ∧
  Swap 7 7 w_two = (Ret tt, w_two).
Proof.
  apply (Swap_exchanges_buffers w_two 7 8 (Some 0) [1; 2; 3] 4 (Some 1) [4; 5] 2
           w_two_repr_7 w_two_repr_8).
Defined.

Lemma Vector_move_takes_the_buffer_witness :
  ∃ w', Vector_move 9 7 w_123 = (Ret tt, w') ∧
        vec_repr w' 9 (Some 0) [1; 2; 3] 4 ∧ vec_repr w' 7 None [] 0 ∧
        heap w' = heap w_123 ∧ clock w' = clock w_123 ∧ leaked w' = leaked w_123.
Proof.
  apply (Vector_move_takes_the_buffer w_123 9 7 (Some 0) [1; 2; 3] 4).
  - lia.
  - exact w_123_repr.
Defined.

Lemma move_assignment_exchanges_witness :
  ∃ w', move_assignment 7 8 w_two = (Ret tt, w') ∧
        vec_repr w' 7 (Some 1) [4; 5] 2 ∧ vec_repr w' 8 (Some 0) [1; 2; 3] 4 ∧
        heap w' = heap w_two ∧ clock w' = clock w_two ∧ leaked w' = leaked w_two.
Proof.
  apply (move_assignment_exchanges w_two 7 8 (Some 0) [1; 2; 3] 4 (Some 1) [4; 5] 2).
  - lia.
  - exact w_two_repr_7.
  - exact w_two_repr_8.
Defined.

Lemma copy_assignment_replaces_contents_witness :
  (∃ buf' w',
    copy_assignment plain_ints 7 8 w_two = (Ret tt, w') ∧
    vec_repr w' 7 buf' [4; 5] 4 ∧
    vec_repr w' 8 (Some 1) [4; 5] 2 ∧
    (2 ≤ 4 → buf' = Some 0) ∧
    (4 < 2 → ∀ b, Some 0 = Some b → heap w' !! b = None) ∧
    leaked w' = leaked w_two) ∧
  (∃ buf' w',
    copy_assignment plain_ints 8 7 w_two = (Ret tt, w') ∧
    vec_repr w' 8 buf' [1; 2; 3] 3 ∧
    vec_repr w' 7 (Some 0) [1; 2; 3] 4 ∧
    (3 ≤ 2 → buf' = Some 1) ∧
    (2 < 3 → ∀ b, Some 1 = Some b → heap w' !! b = None) ∧
    leaked w' = leaked w_two).
Proof.
  split.
  - apply (copy_assignment_replaces_contents plain_ints w_two 7 8
             (Some 0) [1; 2; 3] 4 (Some 1) [4; 5] 2).
    + exact plain_ints_no_throw.
    + lia.
    + exact w_two_repr_7.
    + exact w_two_repr_8.
    + intros _. congruence.
  - apply (copy_assignment_replaces_contents plain_ints w_two 8 7
             (Some 1) [4; 5] 2 (Some 0) [1; 2; 3] 4).
    + exact plain_ints_no_throw.
    + lia.
    + exact w_two_repr_8.
    + exact w_two_repr_7.
    + intros _. congruence.
Defined.

Lemma Vector_dtor_releases_everything_witness :
  ∃ w',
    Vector_dtor 7 w_two = (Ret tt, w') ∧
    objs w' !! 7 = None ∧
    (∀ b, Some 0 = Some b → heap w' !! b = None) ∧
    leaked w' = leaked w_two ∧ clock w' = clock w_two ∧
    (∀ that buf3 ys cap3,
        that ≠ 7 → vec_repr w_two that buf3 ys cap3 →
        (is_Some (Some 0) → buf3 ≠ Some 0) →
        vec_repr w' that buf3 ys cap3).
Proof.
  apply (Vector_dtor_releases_everything w_two 7 (Some 0) [1; 2; 3] 4 w_two_repr_7).
Defined.

Lemma PopBack_removes_last_witness :
  (∃ w', PopBack plain_ints 7 w_123 = (Ret tt, w') ∧ vec_repr w' 7 (Some 0) [1; 2] 4 ∧
         clock w' = clock w_123 ∧ leaked w' = leaked w_123) ∧
  PopBack plain_ints 7 w_empty = (Fatal AssertionFailed, w_empty).
Proof.
  split.
  - apply (proj1 (PopBack_removes_last plain_ints w_123 7 (Some 0) [1; 2; 3] 4
                    w_123_repr) [1; 2] 3).
    reflexivity.
  - apply (proj2 (PopBack_removes_last plain_ints w_empty 7 None [] 0 w_empty_repr)).
    reflexivity.
Defined.

Lemma PopBack_undoes_PushBack_witness :
  (∃ buf' w',
    (PushBack_copy plain_ints 7 (Ext 9) ;; PopBack plain_ints 7) w_123 = (Ret tt, w') ∧
    vec_repr w' 7 buf' [1; 2; 3] 4 ∧
    (3 < 4 → buf' = Some 0) ∧
    leaked w' = leaked w_123) ∧
  (∃ buf' w',
    (PushBack_copy plain_ints 7 (Ext 9) ;; PopBack plain_ints 7) w_full = (Ret tt, w') ∧
    vec_repr w' 7 buf' [1; 2; 3] 6 ∧
    (3 < 3 → buf' = Some 0) ∧
    leaked w' = leaked w_full).
Proof.
  split.
  - apply (PopBack_undoes_PushBack plain_ints w_123 7 (Some 0) [1; 2; 3] 4 9
             plain_ints_no_throw w_123_repr).
    simpl. lia.
  - apply (PopBack_undoes_PushBack plain_ints w_full 7 (Some 0) [1; 2; 3] 3 9
             plain_ints_no_throw w_full_repr).
    intros _. reflexivity.
Defined.

Lemma Erase_undoes_Insert_witness :
  ∃ buf' w',
    (p ← Insert_copy plain_ints 7 (Ptr (Some 0) 1) (Ext 9); Erase plain_ints 7 p) w_123
    = (Ret (Ptr buf' 1), w') ∧
    vec_repr w' 7 buf' [1; 2; 3] 4 ∧
    leaked w' = leaked w_123.
Proof.
  apply (Erase_undoes_Insert plain_ints w_123 7 (Some 0) [1; 2; 3] 4 1 (Ext 9) 9
           plain_ints_no_throw w_123_repr).
  - simpl. lia.
  - reflexivity.
  - simpl. lia.
Defined.

Lemma EmplaceBack_returns_new_last_witness :
  ∃ buf' w',
    EmplaceBack plain_ints 7 (Args 9) w_123 = (Ret (Ptr buf' 3), w') ∧
    vec_repr w' 7 buf' [1; 2; 3; 9] 4 ∧
    index_mut plain_ints 7 3 w' = (Ret (Ptr buf' 3), w') ∧
    load (Ptr buf' 3) w' = (Ret 9, w') ∧
    (3 < 4 → buf' = Some 0 ∧ clock w' = clock w_123 + 1).
Proof.
  apply (EmplaceBack_returns_new_last plain_ints w_123 7 (Some 0) [1; 2; 3] 4
           (Args 9) 9 plain_ints_no_throw w_123_repr).
  - reflexivity.
  - exact I.
  - simpl. lia.
Defined.

Lemma no_reallocation_within_reserved_capacity_witness :
  ∃ b' w1 w',
    Reserve plain_ints 7 6 w_123 = (Ret tt, w1) ∧
    vec_repr w1 7 (Some b') [1; 2; 3] 6 ∧
    push_backs plain_ints 7 [4; 5; 6] w1 = (Ret [6; 6; 6], w') ∧
    vec_repr w' 7 (Some b') [1; 2; 3; 4; 5; 6] 6 ∧
    clock w' = clock w1 + 3.
Proof.
  apply (no_reallocation_within_reserved_capacity plain_ints w_123 7 (Some 0)
           [1; 2; 3] 4 6 [4; 5; 6] plain_ints_no_throw w_123_repr).
  - lia.
  - vm_compute. reflexivity.
  - simpl. lia.
Defined.

Lemma element_access_witness :
  index_mut plain_ints 7 1 w_123 = (Ret (Ptr (Some 0) 1), w_123) ∧
  index_const plain_ints 7 1 w_123 = (Ret (Ptr (Some 0) 1), w_123) ∧
  (b ← begin_ 7; load (ptr_add b 1)) w_123 = (Ret 2, w_123) ∧
  (e ← end_ 7; b ← begin_ 7; ptr_diff e b) w_123 = (Ret 3, w_123) ∧
  (no_throw plain_ints →
   ∀ y k z, [1; 2; 3] !! k = Some z →
     ∃ w', (assign_at plain_ints 7 1 y ;; p ← index_const plain_ints 7 k; load p) w_123
           = (Ret (if decide (k = 1) then y else z), w')).
Proof.
  apply (element_access plain_ints w_123 7 (Some 0) [1; 2; 3] 4 1 2 w_123_repr).
  reflexivity.
Defined.

Lemma debug_build_checks_positions_witness :
  (∀ pos args, ¬ (p_base pos = Some 0 ∧ p_off pos ≤ 3) →
     Emplace plain_ints 7 pos args w_123 = (Fatal AssertionFailed, w_123)) ∧
  (∀ pos, ¬ (p_base pos = Some 0 ∧ p_off pos < 3) →
     Erase plain_ints 7 pos w_123 = (Fatal AssertionFailed, w_123)).
Proof.
  apply (debug_build_checks_positions plain_ints w_123 7 (Some 0) [1; 2; 3] 4).
  - reflexivity.
  - exact w_123_repr.
Defined.

Lemma operations_leave_other_vectors_alone_witness :
  (∀ n, alloc_fits n →
        ∃ w', Reserve plain_ints 7 n w_two = (Ret tt, w') ∧
              vec_repr w' 8 (Some 1) [4; 5] 2) ∧
  (∀ n, alloc_fits n →
        ∃ w', Resize plain_ints 7 n w_two = (Ret tt, w') ∧
              vec_repr w' 8 (Some 1) [4; 5] 2) ∧
  (∀ i args v,
      i ≤ 3 → args_value (heap w_two) args = Some v →
      moves_outside (Some 0) args → moves_outside (Some 1) args →
      (3 = 4 → doubling_fits 4) →
      ∃ p w', Emplace plain_ints 7 (Ptr (Some 0) i) args w_two = (Ret p, w') ∧
              vec_repr w' 8 (Some 1) [4; 5] 2) ∧
  (∀ i, i < 3 →
      ∃ p w', Erase plain_ints 7 (Ptr (Some 0) i) w_two = (Ret p, w') ∧
              vec_repr w' 8 (Some 1) [4; 5] 2) ∧
  (0 < 3 →
      ∃ w', PopBack plain_ints 7 w_two = (Ret tt, w') ∧ vec_repr w' 8 (Some 1) [4; 5] 2).
Proof.
  apply (operations_leave_other_vectors_alone plain_ints w_two 7 (Some 0) [1; 2; 3] 4
           8 (Some 1) [4; 5] 2 plain_ints_no_throw w_two_repr_7).
  - lia.
  - exact w_two_repr_8.
  - intros _. congruence.
Defined.

Lemma moving_insert_leaves_source_moved_from_witness :
  (∃ buf' w',
      Insert_move plain_ints 7 (Ptr (Some 0) 1) (Cell (Ptr (Some 1) 0)) w_two
      = (Ret (Ptr buf' 1), w') ∧
      vec_repr w' 7 buf' [1; 4; 2; 3] 4 ∧
      vec_repr w' 8 (Some 1) [0; 5] 2) ∧
  (∃ buf' w',
      PushBack_move plain_ints 7 (Cell (Ptr (Some 1) 0)) w_two = (Ret tt, w') ∧
      vec_repr w' 7 buf' [1; 2; 3; 4] 4 ∧
      vec_repr w' 8 (Some 1) [0; 5] 2).
Proof.
  apply (moving_insert_leaves_source_moved_from plain_ints w_two 7 (Some 0)
           [1; 2; 3] 4 8 1 [4; 5] 2 1 0 4 plain_ints_no_throw w_two_repr_7).
  - lia.
  - exact w_two_repr_8.
  - congruence.
  - simpl. lia.
  - reflexivity.
  - simpl. lia.
Defined.

Lemma Emplace_operation_count_witness :
  (∃ buf' w',
    Emplace plain_ints 7 (Ptr (Some 0) 1) (Args 9) w_123 = (Ret (Ptr buf' 1), w') ∧
    clock w' = clock w_123 + 4 ∧
    (3 < 4 → buf' = Some 0 ∧ Capacity 7 w' = (Ret 4, w')) ∧
    (3 = 4 →
        (∀ b, Some 0 = Some b → heap w' !! b = None) ∧
        (∀ b', buf' = Some b' → heap w_123 !! b' = None) ∧
        leaked w' = leaked w_123)) ∧
  (∃ buf' w',
    Emplace plain_ints 7 (Ptr (Some 0) 1) (Args 9) w_full = (Ret (Ptr buf' 1), w') ∧
    clock w' = clock w_full + 5 ∧
    (3 < 3 → buf' = Some 0 ∧ Capacity 7 w' = (Ret 3, w')) ∧
    (3 = 3 →
        (∀ b, Some 0 = Some b → heap w' !! b = None) ∧
        (∀ b', buf' = Some b' → heap w_full !! b' = None) ∧
        leaked w' = leaked w_full)).
Proof.
  split.
  - apply (Emplace_operation_count plain_ints w_123 7 (Some 0) [1; 2; 3] 4 1 (Args 9) 9
             plain_ints_no_throw w_123_repr).
    + simpl. lia.
    + reflexivity.
    + exact I.
    + simpl. lia.
  - apply (Emplace_operation_count plain_ints w_full 7 (Some 0) [1; 2; 3] 3 1 (Args 9) 9
             plain_ints_no_throw w_full_repr).
    + simpl. lia.
    + reflexivity.
    + exact I.
    + intros _. reflexivity.
Defined.

Lemma Vector_copy_failure_leaves_no_trace_witness :
  fst (Vector_copy (copy_throws_at 2) 9 7 w_123) = Throw ∧
  heap (snd (Vector_copy (copy_throws_at 2) 9 7 w_123)) = heap w_123 ∧
  objs (snd (Vector_copy (copy_throws_at 2) 9 7 w_123)) = objs w_123 ∧
  leaked (snd (Vector_copy (copy_throws_at 2) 9 7 w_123)) = leaked w_123.
Proof.
  split; [vm_compute; reflexivity|].
  apply (Vector_copy_failure_leaves_no_trace (copy_throws_at 2)
           w_123 9 7 (Some 0) [1; 2; 3] 4 _ w_123_repr).
  vm_compute. reflexivity.
Defined.

Lemma Vector_sized_failure_leaves_no_trace_witness :
  fst (Vector_sized (default_throws_at 2) 9 3 w_123) = Throw ∧
  heap (snd (Vector_sized (default_throws_at 2) 9 3 w_123)) = heap w_123 ∧
  objs (snd (Vector_sized (default_throws_at 2) 9 3 w_123)) = objs w_123 ∧
  leaked (snd (Vector_sized (default_throws_at 2) 9 3 w_123)) = leaked w_123.
Proof.
  split; [vm_compute; reflexivity|].
  apply (Vector_sized_failure_leaves_no_trace (default_throws_at 2) w_123 9 3).
  vm_compute. reflexivity.
Defined.

Lemma appending_failure_leaves_vector_unchanged_witness :
  (fst (EmplaceBack (copy_throws_at 0) 7 (CopyOf (Ext 9)) w_123) = Throw ∧
   vec_repr (snd (EmplaceBack (copy_throws_at 0) 7 (CopyOf (Ext 9)) w_123))
     7 (Some 0) [1; 2; 3] 4 ∧
   leaked (snd (EmplaceBack (copy_throws_at 0) 7 (CopyOf (Ext 9)) w_123)) = leaked w_123 ∧
   dom (heap (snd (EmplaceBack (copy_throws_at 0) 7 (CopyOf (Ext 9)) w_123)))
   = dom (heap w_123)) ∧
  (fst (PushBack_copy (copy_throws_at 2) 7 (Ext 9) w_full) = Throw ∧
   vec_repr (snd (PushBack_copy (copy_throws_at 2) 7 (Ext 9) w_full))
     7 (Some 0) [1; 2; 3] 3 ∧
   leaked (snd (PushBack_copy (copy_throws_at 2) 7 (Ext 9) w_full)) = leaked w_full ∧
   dom (heap (snd (PushBack_copy (copy_throws_at 2) 7 (Ext 9) w_full)))
   = dom (heap w_full)).
Proof.
  split.
  - split; [vm_compute; reflexivity|].
    apply (proj1 (appending_failure_leaves_vector_unchanged (copy_throws_at 0)
                    w_123 7 (Some 0) [1; 2; 3] 4
                    (or_intror eq_refl) w_123_repr
                    ltac:(simpl; lia)) (CopyOf (Ext 9)) 9).
    + reflexivity.
    + exact I.
    + vm_compute. reflexivity.
  - split; [vm_compute; reflexivity|].
    apply (proj1 (proj2 (appending_failure_leaves_vector_unchanged (copy_throws_at 2)
                    w_full 7 (Some 0) [1; 2; 3] 3
                    (or_intror eq_refl) w_full_repr
                    ltac:(intros _; vm_compute; reflexivity))) (Ext 9) 9).
    + reflexivity.
    + vm_compute. reflexivity.
Defined.

Lemma Reserve_failure_keeps_vector_valid_witness :
  fst (Reserve (move_only_throws_at 2) 7 10 w_full) = Throw ∧
  ∃ k, k ≤ length [1; 2; 3] ∧
       vec_repr (snd (Reserve (move_only_throws_at 2) 7 10 w_full)) 7 (Some 0)
         ((moved_from (move_only_throws_at 2) <$> take k [1; 2; 3]) ++ drop k [1; 2; 3]) 3 ∧
       leaked (snd (Reserve (move_only_throws_at 2) 7 10 w_full)) = leaked w_full ∧
       dom (heap (snd (Reserve (move_only_throws_at 2) 7 10 w_full))) = dom (heap w_full) ∧
       (k ≠ 0 → is_copy_constructible (move_only_throws_at 2) = false ∧
                is_nothrow_move_constructible (move_only_throws_at 2) = false).
Proof.
  split; [vm_compute; reflexivity|].
  apply (Reserve_failure_keeps_vector_valid (move_only_throws_at 2)
           w_full 7 (Some 0) [1; 2; 3] 3 10 _ w_full_repr).
  vm_compute. reflexivity.
Defined.

Lemma Resize_failure_keeps_elements_witness :
  fst (Resize (default_throws_at 5) 7 6 w_123) = Throw ∧
  length [1; 2; 3] ≤ 6 ∧
  ∃ k buf' cap',
    k ≤ length [1; 2; 3] ∧
    vec_repr (snd (Resize (default_throws_at 5) 7 6 w_123)) 7 buf'
      ((moved_from (default_throws_at 5) <$> take k [1; 2; 3]) ++ drop k [1; 2; 3]) cap' ∧
    (cap' = 4 ∨ cap' = 6) ∧
    leaked (snd (Resize (default_throws_at 5) 7 6 w_123)) = leaked w_123 ∧
    (k ≠ 0 → is_copy_constructible (default_throws_at 5) = false ∧
             is_nothrow_move_constructible (default_throws_at 5) = false).
Proof.
  split; [vm_compute; reflexivity|].
  apply (Resize_failure_keeps_elements (default_throws_at 5)
           w_123 7 (Some 0) [1; 2; 3] 4 6 _ w_123_repr).
  - vm_compute. reflexivity.
  - vm_compute. reflexivity.
Defined.

Lemma Erase_failure_keeps_size_witness :
  fst (Erase (move_assign_throws_at 1) 7 (Ptr (Some 0) 0) w_123) = Throw ∧
  is_nothrow_move_assignable (move_assign_throws_at 1) = false ∧
  ∃ a k, [1; 2; 3] !! 0 = Some a ∧ k < length [1; 2; 3] - 1 ∧
    vec_repr (snd (Erase (move_assign_throws_at 1) 7 (Ptr (Some 0) 0) w_123)) 7 (Some 0)
      (take 0 [1; 2; 3] ++ take k (drop 1 [1; 2; 3])
         ++ vacated_left (move_assign_throws_at 1) a (take k (drop 1 [1; 2; 3]))
            :: drop k (drop 1 [1; 2; 3])) 4 ∧
    leaked (snd (Erase (move_assign_throws_at 1) 7 (Ptr (Some 0) 0) w_123)) = leaked w_123.
Proof.
  split; [vm_compute; reflexivity|].
  apply (Erase_failure_keeps_size (move_assign_throws_at 1)
           w_123 7 (Some 0) [1; 2; 3] 4 0 _ w_123_repr).
  - simpl. lia.
  - vm_compute. reflexivity.
Defined.

Lemma copy_assignment_failure_keeps_both_valid_witness :
  fst (copy_assignment (copy_assign_throws_at 1) 7 8 w_two) = Throw ∧
  ∃ k, k ≤ length [1; 2; 3] ∧ k ≤ length [4; 5] ∧
       vec_repr (snd (copy_assignment (copy_assign_throws_at 1) 7 8 w_two)) 7 (Some 0)
         (take k [4; 5] ++ drop k [1; 2; 3]) 4 ∧
       vec_repr (snd (copy_assignment (copy_assign_throws_at 1) 7 8 w_two)) 8 (Some 1)
         [4; 5] 2 ∧
       leaked (snd (copy_assignment (copy_assign_throws_at 1) 7 8 w_two)) = leaked w_two ∧
       (4 < length [4; 5] → k = 0).
Proof.
  split; [vm_compute; reflexivity|].
  apply (copy_assignment_failure_keeps_both_valid (copy_assign_throws_at 1)
           w_two 7 8 (Some 0) [1; 2; 3] 4 (Some 1) [4; 5] 2 _
           ltac:(lia) w_two_repr_7 w_two_repr_8 ltac:(intros _; congruence)).
  vm_compute. reflexivity.
Defined.

Lemma Emplace_failure_on_full_buffer_witness :
  fst (Emplace (move_only_throws_at 3) 7 (Ptr (Some 0) 1) (Args 9) w_full) = Throw ∧
  leaked (snd (Emplace (move_only_throws_at 3) 7 (Ptr (Some 0) 1) (Args 9) w_full)) = 1 ∧
  ∃ k, k ≤ length [1; 2; 3] ∧
       vec_repr (snd (Emplace (move_only_throws_at 3) 7 (Ptr (Some 0) 1) (Args 9) w_full))
         7 (Some 0)
         ((moved_from (move_only_throws_at 3) <$> take k [1; 2; 3]) ++ drop k [1; 2; 3]) 3 ∧
       dom (heap (snd (Emplace (move_only_throws_at 3) 7 (Ptr (Some 0) 1) (Args 9) w_full)))
       = dom (heap w_full) ∧
       leaked (snd (Emplace (move_only_throws_at 3) 7 (Ptr (Some 0) 1) (Args 9) w_full))
       = leaked w_full + (if decide (1 ≤ k) then 1 else 0) ∧
       (k ≠ 0 → is_copy_constructible (move_only_throws_at 3) = false ∧
                is_nothrow_move_constructible (move_only_throws_at 3) = false).
Proof.
  split; [vm_compute; reflexivity|].
  split; [vm_compute; reflexivity|].
  apply (Emplace_failure_on_full_buffer (move_only_throws_at 3)
           w_full 7 (Some 0) [1; 2; 3] 3 1 (Args 9) 9 _ w_full_repr).
  - reflexivity.
  - simpl. lia.
  - reflexivity.
  - exact I.
  - vm_compute. reflexivity.
  - vm_compute. reflexivity.
Defined.

Lemma RawMemory_lifetime_witness :
  ∃ b cells w1 w',
    RawMemory_ctor plain_ints 5 w_123 = (Ret (MkRawMemory (Some b) 5), w1) ∧
    heap w_123 !! b = None ∧
    heap w1 !! b = Some (replicate cells Raw) ∧
    (alloc_fits 5 → cells = 5) ∧
    (¬ alloc_fits 5 → cells < 5) ∧
    (∀ b0, b0 ≠ b → heap w1 !! b0 = heap w_123 !! b0) ∧
    objs w1 = objs w_123 ∧ clock w1 = S (clock w_123) ∧
    RawMemory_dtor (MkRawMemory (Some b) 5) w1 = (Ret tt, w') ∧
    heap w' = heap w_123 ∧ objs w' = objs w_123 ∧ leaked w' = leaked w_123.
Proof.
  apply (proj2 (proj2 (RawMemory_lifetime plain_ints w_123 5))). lia.
Defined.

Lemma invariant_kept_when_nothing_throws_witness :
  (∀ n, alloc_fits n →
        ∃ w', Reserve plain_ints 7 n w_123 = (Ret tt, w') ∧ vec_inv w' 7 = true) ∧
  (∀ n, alloc_fits n →
        ∃ w', Resize plain_ints 7 n w_123 = (Ret tt, w') ∧ vec_inv w' 7 = true).
Proof.
  pose proof (invariant_kept_when_nothing_throws plain_ints w_123 7 (Some 0) [1; 2; 3] 4
                plain_ints_no_throw w_123_repr) as H.
  split; [exact (proj1 H)|exact (proj1 (proj2 H))].
Defined.
